(* ===== verification/_CoqProject ===== *)
-Q . S2P
Prelude.v
Machine.v
Text.v
Types.v
Errors.v
Codec.v
CodecSpec.v
CodecPanic.v
Store.v
Backend.v
Conformance.v
BTree.v
InMemory.v
InMemorySpec.v
ConformanceSpec.v
DefaultSpec.v
Engine.v
EngineSpec.v
BatchSpec.v
Gc.v
GcSpec.v
Examples.v
Agreement.v
Simulation.v
SimulationSpec.v
Schedule.v
Sequential.v
ScheduleSpec.v
SequentialSpec.v
Demo.v
SimulationProps.v
TxnProps.v
ScheduleProps.v
GcProps.v
BackendProps.v
