(* ===== verification/Prelude.v ===== *)
(** * Verification of nexir-mvcc-core

    nexir-mvcc-core is a deterministic multi-version concurrency control core: an
    engine ([src/engine.rs]) that runs reads, intent transactions, direct and
    guarded batches and garbage collection over a storage backend
    ([src/backend.rs]), with a binary record codec ([src/codec.rs]) for the
    backends that persist versions and intents, conformance suites for backends
    ([src/conformance.rs]), and example programs ([examples/]), one of them a
    deterministic load simulation.  The engine holds no state but its
    backend; every operation reads the backend, validates, and issues one atomic
    backend update (garbage collection issues several).

    ** Files

    - [Prelude]: outcomes of Rust code ([res]: Ok, Err, Panic), the state monad [M]
      of methods on [&mut self] (the state is returned on errors too), loops, a
      weakest-precondition reading of programs ([wp]), Rust's [Ord] as a class,
      lemmas on sorted lists.
    - [Machine]: unsigned integers of a given width, big-endian bytes, and [Platform],
      the class of compilation targets: the width of [usize] and whether overflow
      panics.
    - [Text]: ASCII texts as byte lists, decimal printing and parsing of integers and
      UTF-8 validation, as the standard library does them for the examples.
    - [Types], [Errors]: the data of [types.rs] and the enums of [error.rs].
    - [Codec], [CodecSpec], [CodecPanic]: [codec.rs] over a buffer and an offset, a
      reference parser on the remaining input, the equivalence of the two when [usize] is
      wider than 32 bits, and the buffers on which a decoder panics when it is not.
    - [Store]: the abstract state of a key space (versions and intents as finite
      maps), the queries as relations on it and the updates as functions.
    - [Backend]: the trait as a class, its default methods, and the class
      [BackendLaws] with what an implementation promises about [Store].  The field
      [may_fail] says whether calls may report errors; the theorems about the engine
      are proved against this interface for both cases.
    - [BTree], [InMemory], [InMemorySpec]: the standard library's ordered maps and
      sets, the in-memory backend over them, and its instance of [BackendLaws].
    - [Conformance], [ConformanceSpec]: the tests of [src/conformance.rs] as scripts of
      backend calls, and that backends with the same store answer scripts alike.
    - [DefaultSpec]: a backend that inherits the default methods keeps the contract.
    - [Engine], [EngineSpec]: the operations of [MvccEngine] except garbage
      collection, and for each the outcome of every branch on the store.
    - [BatchSpec]: a batch against the single-key operations one after the other, and
      the error of a batch against that of its first failing key.
    - [Gc], [GcSpec]: [gc_incremental] and [gc]; the abstract collection step, and the
      collectors as sequences of such steps with exact counters.
    - [Schedule], [ScheduleSpec]: histories of operations and the checking driver of
      [tests/support/model.rs]; the abstract machine that the engine refines, its
      invariants, and the log of committed intervals.
    - [Sequential], [SequentialSpec]: a sequential key-value store with locks, which knows
      only the newest version of a key, as an executable specification of the actions;
      the abstraction from stores to it, and that every action of the engine has the
      outcome and the effect it gives.
    - [Examples]: the programs of [examples/] except the simulation.
    - [Agreement]: a relational logic for programs on two engines whose backends stand
      for the same store, which carries the behaviour of the example programs from the
      in-memory backend over to every backend that keeps the contract.
    - [Simulation], [SimulationSpec]: [examples/command_load_sim.rs]: the generator, the
      commands, the delayed increments and the run; what each step does to a ledger of
      counters, clock and stored versions.
    - [Demo]: concrete engines on which the witnesses evaluate.
    - [TxnProps], [ScheduleProps], [GcProps], [BackendProps], [SimulationProps] (and the ends
      of [CodecSpec] and [CodecPanic]): the theorems (the main ones with their claim number) and their witnesses.

    ** How the definitions correspond to the code

    An operation has the name of its Rust method; the body of a validation loop is a
    definition of its own ([prewrite_check], [commit_check], [abort_check],
    [write_check], [guard_check], [gc_key] and its cases), composed by [M_for],
    [M_fold] or [gc_keys] as the loop composes them.  Methods on [&self] are functions
    of the engine, methods on [&mut self] are in [M].  [rd] and [wr] are a backend
    call with its [map_err].  Iteration over a [HashSet] does not occur; a [BTreeMap]
    is a finite map read through [btree_range] in key order, which panics where
    [BTreeMap::range] does.

    ** What the theorems show

    - isolation over histories (ScheduleProps): reads at a timestamp are stable,
      committed intervals of a key never overlap, the engine refines an abstract
      machine, failed operations change nothing, a lock secures its commit; and, seen from
      the present, the engine is the sequential store of [Sequential], outcomes included;
    - each operation (TxnProps): success exactly under its documented conditions, the
      meaning of every error, all-or-nothing batches that do what the single-key
      operations do in sequence and report their first failing key, and combined
      behaviour;
    - garbage collection (GcProps): reads at or after the safe point never change,
      budgets and counters are exact, every pass makes progress, the full collection
      terminates and is complete, plans are sound; and, on any store, what the two
      budgets at the edge of [usize] for which an addition overflows do;
    - the backends (BackendProps): the in-memory backend implements the store, the
      contract determines what a script of calls observes, every backend that keeps it passes the conformance suites and
      runs the examples as announced, the default methods keep it too but offer no
      intent transactions;
    - the simulation (SimulationProps): for every mix of commands it runs to its end
      without a panic, its counters balance with the contents of the store, and no
      increment is lost, immediate or delayed; the two keys of a transaction always differ, so the
      loop that redraws the second one is never entered;
    - the codec (CodecSpec, CodecPanic): decoding accepts exactly the encodings, never
      panics when [usize] is wider than 32 bits, and with 32 bits panics exactly when an
      announced length overflows the offset.

    ** Bounds and fuel

    [gc] takes fuel for its loop; [gc_measure] (the versions plus the keys from the
    cursor on) decreases with every pass, so any fuel above it is enough, and
    [gc_terminates_complete] assumes just that.  In a history a collection without enough
    fuel ends the run, like a panic ([finished]); over histories [room_for] bounds the
    entries a schedule can create, which bounds [gc_measure] in turn.  Counters of [gc_incremental] are
    [usize]: [budget_fits] (the two budgets plus two fit) excludes overflow, and the
    overflow theorems show what happens without it.  Totals of [gc] are assumed to fit
    the machine.  The simulation's redraw loop takes fuel too; its body is never
    reached, so that any fuel is enough, zero included.  Its mixes have weights that
    sum to a positive 64-bit number ([mix_ok]), and its program sizes are small enough
    that no 64-bit counter overflows.  Timestamps are 128-bit and transaction ids 64-bit; the
    library only compares them, and the simulation's clock stays far below 2^128.  The decoders' theorems assume a [usize] of more than 32 bits
    (at least 32 in [CodecPanic]) and a buffer no longer than an allocation can be.

    ** Not modelled

    The [Display] texts of the errors (generated by [thiserror]), the benches (their
    harness is a third-party crate), the tests other than the model driver, and in the
    examples the printing and the clock readings.  Allocation failure is not modelled. *)
From stdpp Require Export base option list gmap sorting strings pretty.
From Stdlib Require Export NArith Lia.

(** ** Outcomes of Rust code *)

(** The outcome of a fallible Rust function: [Ok]/[Err] are the constructors of
    [Result<A, E>]; [Panic] is an unwinding panic (index out of range, slice
    bounds, arithmetic overflow under overflow checks, [BTreeMap::range] on a
    reversed range). *)
Inductive res (E A : Type) : Type :=
| Ok (a : A)
| Err (e : E)
| Panic.
Arguments Ok {E A} a.
Arguments Err {E A} e.
Arguments Panic {E A}.

(** The [?] operator. *)
Definition res_bind {E A B : Type} (r : res E A) (k : A → res E B) : res E B :=
  match r with
  | Ok a => k a
  | Err e => Err e
  | Panic => Panic
  end.

(** [Result::map_err]. *)
Definition map_err {E F A : Type} (f : E → F) (r : res E A) : res F A :=
  match r with
  | Ok a => Ok a
  | Err e => Err (f e)
  | Panic => Panic
  end.

(** [Option::ok_or]. *)
Definition ok_or {E A : Type} (o : option A) (e : E) : res E A :=
  match o with
  | Some a => Ok a
  | None => Err e
  end.

(** A method on [&mut self]: the state after the call and its outcome.  The
    state is returned on errors as well, so that "a failed call leaves the state
    unchanged" is a statement about the model and not built into it. *)
Definition M (S E A : Type) : Type := S → S * res E A.

Definition M_ret {S E A : Type} (a : A) : M S E A := λ s, (s, Ok a).
Definition M_throw {S E A : Type} (e : E) : M S E A := λ s, (s, Err e).
Definition M_lift {S E A : Type} (r : res E A) : M S E A := λ s, (s, r).
Definition M_bind {S E A B : Type} (m : M S E A) (k : A → M S E B) : M S E B :=
  λ s, match m s with
       | (s', Ok a) => k a s'
       | (s', Err e) => (s', Err e)
       | (s', Panic) => (s', Panic)
       end.

Declare Scope rs_scope.
Delimit Scope rs_scope with rs.
Notation "'let?' x ':=' r 'in' k" := (res_bind r (λ x, k))
  (at level 10, x pattern, r at level 100, k at level 200) : rs_scope.
Notation "'let!' x ':=' m 'in' k" := (M_bind m (λ x, k))
  (at level 10, x pattern, m at level 100, k at level 200) : rs_scope.
Notation "m ;! k" := (M_bind m (λ _, k)) (at level 100, right associativity) : rs_scope.
Open Scope rs_scope.

#[export] Instance res_eq_dec {E A} `{EqDecision E, EqDecision A} : EqDecision (res E A).
Proof. solve_decision. Defined.

(** Boolean observations of an outcome, used by witnesses. *)
Definition is_ok {E A} (r : res E A) : bool := if r is Ok _ then true else false.
Definition is_err {E A} (r : res E A) : bool := if r is Err _ then true else false.

Lemma res_bind_Ok {E A B} (r : res E A) (k : A → res E B) b :
  res_bind r k = Ok b ↔ ∃ a, r = Ok a ∧ k a = Ok b.
Proof. destruct r; simpl; naive_solver. Qed.

Lemma M_bind_run {S E A B} (m : M S E A) (k : A → M S E B) s s' r :
  m s = (s', r) →
  M_bind m k s = match r with
                 | Ok a => k a s' | Err e => (s', Err e) | Panic => (s', Panic)
                 end.
Proof. unfold M_bind. intros ->. by destruct r. Qed.

(** ** Orders: Rust's [Ord] *)

(** [Ord::cmp]. *)
Class RustOrd (A : Type) := rcmp : A → A → comparison.
(** The laws every [Ord] implementation of the standard library satisfies. *)
Class RustOrdLaws (A : Type) `{RustOrd A} : Prop := {
  rcmp_eq (x y : A) : rcmp x y = Eq ↔ x = y;
  rcmp_opp (x y : A) : rcmp y x = CompOpp (rcmp x y);
  rcmp_trans (x y z : A) : rcmp x y = Lt → rcmp y z = Lt → rcmp x z = Lt;
}.
Definition rlt {A} `{RustOrd A} (x y : A) : Prop := rcmp x y = Lt.
Definition rle {A} `{RustOrd A} (x y : A) : Prop := rcmp x y ≠ Gt.
#[export] Instance comparison_eq_dec : EqDecision comparison.
Proof. solve_decision. Defined.
#[export] Instance rlt_dec {A} `{RustOrd A} (x y : A) : Decision (rlt x y).
Proof. unfold rlt. apply _. Defined.
#[export] Instance rle_dec {A} `{RustOrd A} (x y : A) : Decision (rle x y).
Proof. unfold rle. apply _. Defined.

Section ord.
Context {A : Type} `{RustOrdLaws A}.
Implicit Types x y z : A.

Lemma rcmp_refl x : rcmp x x = Eq.
Proof. by apply rcmp_eq. Qed.
Lemma rlt_irrefl x : ¬ rlt x x.
Proof. unfold rlt. by rewrite rcmp_refl. Qed.
Lemma rle_lteq x y : rle x y ↔ rlt x y ∨ x = y.
Proof.
  unfold rle, rlt. rewrite <-(rcmp_eq x y). destruct (rcmp x y); naive_solver.
Qed.
Lemma rlt_not_rle x y : rlt x y ↔ ¬ rle y x.
Proof.
  unfold rle, rlt. rewrite (rcmp_opp x y). destruct (rcmp x y); naive_solver.
Qed.
Lemma rle_not_rlt x y : rle x y ↔ ¬ rlt y x.
Proof.
  unfold rle, rlt. rewrite (rcmp_opp x y). destruct (rcmp x y); naive_solver.
Qed.
#[export] Instance rlt_irreflexive : Irreflexive (rlt (A:=A)).
Proof. intros x. apply rlt_irrefl. Qed.
#[export] Instance rlt_trans : Transitive (rlt (A:=A)).
Proof. intros x y z. apply rcmp_trans. Qed.
#[export] Instance rle_refl : Reflexive (rle (A:=A)).
Proof. intros x. apply rle_lteq. by right. Qed.
#[export] Instance rle_trans : Transitive (rle (A:=A)).
Proof.
  intros x y z. rewrite !rle_lteq. intros [?| ->] [?| ->]; auto.
  left. by etrans.
Qed.
#[export] Instance rle_antisymm : AntiSymm (=) (rle (A:=A)).
Proof.
  intros x y. rewrite !rle_lteq. intros [Hxy|?] [Hyx|?]; auto.
  exfalso. apply (rlt_irrefl x). by etrans.
Qed.
#[export] Instance rle_total : Total (rle (A:=A)).
Proof.
  intros x y. unfold rle. rewrite (rcmp_opp x y).
  destruct (rcmp x y); simpl; auto; left + right; done.
Qed.
Lemma rle_rlt_trans x y z : rle x y → rlt y z → rlt x z.
Proof. rewrite rle_lteq. intros [?| ->]; auto. by etrans. Qed.
Lemma rlt_rle_trans x y z : rlt x y → rle y z → rlt x z.
Proof. intros ?. rewrite rle_lteq. intros [?| ->]; auto. by etrans. Qed.
Lemma rlt_rle x y : rlt x y → rle x y.
Proof. rewrite rle_lteq. auto. Qed.
End ord.

(** [Ord] of the integers, of tuples (lexicographic) and of slices and vectors
    (lexicographic, a proper prefix being smaller). *)
#[export] Instance N_ord : RustOrd N := N.compare.
#[export] Instance N_ord_laws : RustOrdLaws N.
Proof.
  split; unfold rcmp, N_ord.
  - apply N.compare_eq_iff.
  - intros. apply N.compare_antisym.
  - intros x y z. rewrite !N.compare_lt_iff. lia.
Qed.

#[export] Instance prod_ord {A B} `{RustOrd A, RustOrd B} : RustOrd (A * B) :=
  λ p q, match rcmp p.1 q.1 with Eq => rcmp p.2 q.2 | c => c end.
#[export] Instance prod_ord_laws {A B} `{RustOrdLaws A, RustOrdLaws B} :
  RustOrdLaws (A * B).
Proof.
  split; unfold rcmp, prod_ord.
  - intros [a b] [a' b']; simpl. destruct (rcmp a a') eqn:E.
    + rewrite rcmp_eq. apply rcmp_eq in E. naive_solver.
    + split; [done|]. intros [= -> ->]. by rewrite rcmp_refl in E.
    + split; [done|]. intros [= -> ->]. by rewrite rcmp_refl in E.
  - intros [a b] [a' b']; simpl. rewrite (rcmp_opp a a').
    destruct (rcmp a a'); simpl; auto using rcmp_opp.
  - intros [a b] [a' b'] [a'' b'']; simpl.
    destruct (rcmp a a') eqn:E1, (rcmp a' a'') eqn:E2; try done; intros H1' H2'.
    + apply rcmp_eq in E1 as ->. rewrite E2. by eapply rcmp_trans.
    + apply rcmp_eq in E1 as ->. by rewrite E2.
    + apply rcmp_eq in E2 as ->. by rewrite E1.
    + by rewrite (rcmp_trans _ _ _ E1 E2).
Qed.

Fixpoint list_cmp {A} `{RustOrd A} (l k : list A) : comparison :=
  match l, k with
  | [], [] => Eq
  | [], _ :: _ => Lt
  | _ :: _, [] => Gt
  | x :: l', y :: k' => match rcmp x y with Eq => list_cmp l' k' | c => c end
  end.
#[export] Instance list_ord {A} `{RustOrd A} : RustOrd (list A) := list_cmp.
#[export] Instance list_ord_laws {A} `{RustOrdLaws A} : RustOrdLaws (list A).
Proof.
  split; unfold rcmp, list_ord.
  - induction x as [|a l IH]; intros [|b k]; simpl; try done.
    destruct (rcmp a b) eqn:E.
    + rewrite IH. apply rcmp_eq in E. naive_solver.
    + split; [done|]. intros [= -> ->]. by rewrite rcmp_refl in E.
    + split; [done|]. intros [= -> ->]. by rewrite rcmp_refl in E.
  - induction x as [|a l IH]; intros [|b k]; simpl; try done.
    rewrite (rcmp_opp a b). destruct (rcmp a b); simpl; auto.
  - induction x as [|a l IH]; intros [|b k] [|c m]; simpl; try done.
    destruct (rcmp a b) eqn:E1, (rcmp b c) eqn:E2; try done; intros H1' H2'.
    + apply rcmp_eq in E1 as ->. rewrite E2. by eapply IH.
    + apply rcmp_eq in E1 as ->. by rewrite E2.
    + apply rcmp_eq in E2 as ->. by rewrite E1.
    + by rewrite (rcmp_trans _ _ _ E1 E2).
Qed.

(** [Ord] of a type compared through an injection into an ordered type. *)
Lemma inj_ord_laws {A B} `{RustOrdLaws B} (f : A → B) `{!Inj (=) (=) f} :
  @RustOrdLaws A (λ x y, rcmp (f x) (f y)).
Proof.
  split.
  - intros x y. change (rcmp (f x) (f y) = Eq ↔ x = y).
    rewrite rcmp_eq. split; [apply (inj f)|congruence].
  - intros x y. apply (rcmp_opp (f x) (f y)).
  - intros x y z. apply (rcmp_trans (f x) (f y) (f z)).
Qed.

(** ** Lists *)

(** [Iterator::take(n)] / [Vec::truncate(n)] for an unsigned [n], by recursion on
    the list, so that it computes for a large [n]. *)
Fixpoint take_usize {A} (n : N) (l : list A) : list A :=
  match l with
  | [] => []
  | x :: l' => if (n =? 0)%N then [] else x :: take_usize (N.pred n) l'
  end.

(** The range [0..n]. *)
Definition upto (n : N) : list N := N.of_nat <$> seq 0 (N.to_nat n).

(** [Vec::pop], the popped element being dropped. *)
Definition vec_pop {A} (l : list A) : list A := removelast l.

(** [Vec::len]. *)
Definition len {A} (l : list A) : N := N.of_nat (length l).

Section lists.
Context {A : Type}.
Implicit Types l k : list A.

Lemma take_usize_take n l : take_usize n l = take (N.to_nat n) l.
Proof.
  revert n. induction l as [|x l IH]; intros n; simpl; [by destruct (N.to_nat n)|].
  destruct (N.eqb_spec n 0) as [->|Hn]; [done|].
  rewrite IH. replace (N.to_nat n) with (S (N.to_nat (N.pred n))) by lia. done.
Qed.
Lemma len_take_usize n l : len (take_usize n l) = N.min n (len l).
Proof. unfold len. rewrite take_usize_take, length_take. lia. Qed.
Lemma take_usize_all n l : (len l ≤ n)%N → take_usize n l = l.
Proof. unfold len. intros. rewrite take_usize_take. apply take_ge. lia. Qed.
Lemma elem_of_take_usize n l x : x ∈ take_usize n l → x ∈ l.
Proof. rewrite take_usize_take. apply subseteq_take. Qed.
Lemma len_app l k : len (l ++ k) = (len l + len k)%N.
Proof. unfold len. rewrite length_app. lia. Qed.
Lemma len_nil : len (@nil A) = 0%N.
Proof. done. Qed.
Lemma len_cons x l : len (x :: l) = (1 + len l)%N.
Proof. unfold len. simpl. lia. Qed.
Lemma len_zero l : len l = 0%N ↔ l = [].
Proof. unfold len. destruct l; simpl; split; (done || lia). Qed.
Lemma vec_pop_take n l :
  len l = (n + 1)%N → vec_pop l = take_usize n l.
Proof.
  unfold len, vec_pop. rewrite take_usize_take. intros Hl.
  assert (length l = S (N.to_nat n)) as Hl' by lia. clear Hl.
  revert l Hl'. generalize (N.to_nat n) as m. clear n.
  induction m as [|m IH]; intros [|x [|y l]]; simpl; try done; intros Hl; try lia.
  f_equal. apply (IH (y :: l)). simpl in *. lia.
Qed.
Lemma vec_pop_nil : vec_pop (@nil A) = [].
Proof. done. Qed.

(** A sorted list determines the elements a prefix of it holds. *)
Lemma StronglySorted_take (R : relation A) n l :
  StronglySorted R l → StronglySorted R (take n l).
Proof.
  intros Hl. rewrite <-(take_drop n l) in Hl.
  by apply StronglySorted_app_1_l in Hl.
Qed.
Lemma StronglySorted_filter (R : relation A) (P : A → Prop) `{∀ x, Decision (P x)} l :
  StronglySorted R l → StronglySorted R (filter P l).
Proof.
  induction 1 as [|x l Hl IH Hx]; [constructor|].
  rewrite filter_cons. case_decide; [|done]. constructor; [done|].
  rewrite Forall_forall in Hx |- *. intros y [_ ?]%list_elem_of_filter. auto.
Qed.
Lemma StronglySorted_rev (R : relation A) l :
  StronglySorted R l → StronglySorted (flip R) (rev l).
Proof.
  induction 1 as [|x l Hl IH Hx]; simpl; [constructor|].
  apply StronglySorted_app. split_and!; [|done|repeat constructor].
  intros y z Hy Hz. apply list_elem_of_singleton in Hz as ->. unfold flip.
  rewrite Forall_forall in Hx. apply Hx.
  rewrite list_elem_of_In in Hy |- *. by apply in_rev.
Qed.
Lemma elem_of_rev l x : x ∈ rev l ↔ x ∈ l.
Proof. rewrite !list_elem_of_In. symmetry. apply in_rev. Qed.

Lemma StronglySorted_NoDup (R : relation A) `{!Irreflexive R} l :
  StronglySorted R l → NoDup l.
Proof.
  induction 1 as [|x l Hl IH Hx]; constructor; [|done].
  rewrite Forall_forall in Hx. intros Hin. by apply (irreflexivity R x), Hx.
Qed.
Lemma NoDup_take n l : NoDup l → NoDup (take n l).
Proof. intros Hl. eapply sublist_NoDup; [exact Hl|apply sublist_take]. Qed.
(** The elements below a member of a sorted list are before it. *)
Lemma StronglySorted_below (R : relation A) `{!Irreflexive R, !Transitive R} l1 l2 x y :
  StronglySorted R (l1 ++ y :: l2) → x ∈ l1 ++ y :: l2 → R x y → x ∈ l1.
Proof.
  intros Hs Hx Hlt. apply elem_of_app in Hx as [?|Hx]; [done|].
  apply StronglySorted_app in Hs as (_&_&Hs). inversion Hs as [|? ? _ Hall]; subst.
  apply elem_of_cons in Hx as [->|Hx]; [by apply irreflexivity in Hlt|].
  rewrite Forall_forall in Hall. exfalso. apply (irreflexivity R x). etrans; [done|by apply Hall].
Qed.

(** A strictly sorted list is determined by its elements. *)
Lemma StronglySorted_eq (R : relation A) `{!Irreflexive R, !Transitive R} l k :
  StronglySorted R l → StronglySorted R k → (∀ x, x ∈ l ↔ x ∈ k) → l = k.
Proof.
  intros Hl Hk Hlk. apply (StronglySorted_unique_strong R); [|done|done|].
  - intros x y _ _ Hxy Hyx. destruct (irreflexivity R x). by etrans.
  - apply NoDup_Permutation; [by eapply StronglySorted_NoDup..|done].
Qed.

(** The last element of a sorted list bounds every other one. *)
Lemma StronglySorted_last (R : relation A) l x y :
  StronglySorted R l → last l = Some x → y ∈ l → y = x ∨ R y x.
Proof.
  intros Hl [l' ->]%last_Some Hy. apply StronglySorted_app in Hl as (Hl&_&_).
  apply elem_of_app in Hy as [Hy|Hy%list_elem_of_singleton]; [|by left].
  right. apply Hl; [done|]. by apply list_elem_of_singleton.
Qed.
Lemma len_fmap {B} (f : A → B) l : len (f <$> l) = len l.
Proof. unfold len. by rewrite length_fmap. Qed.
End lists.

Lemma elem_of_upto n i : i ∈ upto n ↔ (i < n)%N.
Proof.
  unfold upto. rewrite list_elem_of_fmap. setoid_rewrite elem_of_seq. split.
  - intros (m&->&?). lia.
  - intros Hi. exists (N.to_nat i). lia.
Qed.
Lemma NoDup_upto n : NoDup (upto n).
Proof. apply NoDup_fmap; [apply _|apply NoDup_seq]. Qed.
Lemma len_upto n : len (upto n) = n.
Proof. unfold len, upto. rewrite length_fmap, length_seq. lia. Qed.
Lemma upto_succ n : upto (n + 1) = upto n ++ [n].
Proof.
  unfold upto. replace (N.to_nat (n + 1)) with (S (N.to_nat n)) by lia.
  rewrite seq_S, fmap_app. simpl. by rewrite N2Nat.id.
Qed.

(** ** Automation *)

(** Rewriting with the lengths of the list operations. *)
Create Rewrite HintDb rs_len.
#[export] Hint Rewrite @len_app @len_nil @len_cons @len_take_usize @len_fmap @len_upto : rs_len.
Ltac len_simpl := autorewrite with rs_len in *.

(** ** State access and loops *)

Definition M_get {S E A} (f : S → A) : M S E A := λ s, (s, Ok (f s)).
Definition M_gets {S E A} (f : S → res E A) : M S E A := λ s, (s, f s).
Definition M_modify {S E} (f : S → S) : M S E unit := λ s, (f s, Ok tt).

(** [for x in l { body }], left by the first error. *)
Fixpoint M_for {S E A} (body : A → M S E unit) (l : list A) : M S E unit :=
  match l with
  | [] => M_ret tt
  | x :: l' => let! _ := body x in M_for body l'
  end.
(** The same with a local variable updated by the body. *)
Fixpoint M_fold {S E A X} (body : X → A → M S E X) (l : list A) (acc : X) : M S E X :=
  match l with
  | [] => M_ret acc
  | x :: l' => let! acc := body acc x in M_fold body l' acc
  end.

(** A method of a component of the state, and its result as a value (before
    [unwrap] or a [match] on it). *)
Definition M_zoom {S T E A} (get : S → T) (set : T → S → S) (m : M T E A) : M S E A :=
  λ s, let '(t, r) := m (get s) in (set t s, r).
Definition M_try {S E F A} (m : M S E A) : M S F (res E A) :=
  λ s, let '(s', r) := m s in (s', match r with Panic => Panic | _ => Ok r end).
(** [Result::unwrap]. *)
Definition M_unwrap {S E F A} (r : res E A) : M S F A :=
  M_lift (match r with Ok a => Ok a | _ => Panic end).

Section monad.
Context {S E A B : Type}.
Implicit Types s : S.

Lemma M_bind_get (f : S → A) (k : A → M S E B) s :
  M_bind (M_get f) k s = k (f s) s.
Proof. done. Qed.
Lemma M_bind_modify (f : S → S) (k : unit → M S E B) s :
  M_bind (M_modify f) k s = k tt (f s).
Proof. done. Qed.
Lemma M_bind_ret (a : A) (k : A → M S E B) s : M_bind (M_ret a) k s = k a s.
Proof. done. Qed.
Lemma M_bind_throw (e : E) (k : A → M S E B) s : M_bind (M_throw e) k s = (s, Err e).
Proof. done. Qed.
Lemma M_bind_lift (r : res E A) (k : A → M S E B) s :
  M_bind (M_lift r) k s =
  match r with Ok a => k a s | Err e => (s, Err e) | Panic => (s, Panic) end.
Proof. by destruct r. Qed.
Lemma M_for_cons (body : A → M S E unit) x l s :
  M_for body (x :: l) s = M_bind (body x) (λ _, M_for body l) s.
Proof. done. Qed.
End monad.
Create Rewrite HintDb rs_monad.
#[export] Hint Rewrite @M_bind_get @M_bind_modify @M_bind_ret @M_bind_throw
  @M_bind_lift : rs_monad.
Ltac m_simpl := autorewrite with rs_monad.

(** ** Weakest preconditions for the state monad *)

(** Running [m] from [s] ends in a state and an outcome that satisfy [Q]. *)
Definition wp {S E A} (m : M S E A) (s : S) (Q : S → res E A → Prop) : Prop :=
  Q (m s).1 (m s).2.

Section wp.
Context {S E : Type}.
Implicit Types s : S.

Lemma wp_ret {A} (a : A) s (Q : S → res E A → Prop) : Q s (Ok a) → wp (M_ret a) s Q.
Proof. done. Qed.
Lemma wp_throw {A} (e : E) s (Q : S → res E A → Prop) : Q s (Err e) → wp (M_throw e) s Q.
Proof. done. Qed.
Lemma wp_bind {A B} (m : M S E A) (k : A → M S E B) s (Q : S → res E B → Prop) :
  wp m s (λ s' r, match r with
                  | Ok a => wp (k a) s' Q
                  | Err e => Q s' (Err e)
                  | Panic => Q s' Panic
                  end) → wp (M_bind m k) s Q.
Proof. unfold wp, M_bind. destruct (m s) as [s' []]; auto. Qed.
Lemma wp_zoom {T A} (get : S → T) (set : T → S → S) (m : M T E A) s (Q : S → res E A → Prop) :
  wp m (get s) (λ t r, Q (set t s) r) → wp (M_zoom get set m) s Q.
Proof. unfold wp, M_zoom. by destruct (m (get s)). Qed.
Lemma wp_try {F A} (m : M S E A) s (Q : S → res F (res E A) → Prop) :
  wp m s (λ s' r, match r with Panic => Q s' Panic | _ => Q s' (Ok r) end) →
  wp (M_try m) s Q.
Proof. unfold wp, M_try. by destruct (m s) as [s' []]. Qed.
Lemma wp_unwrap {F A} (a : A) s (Q : S → res F A → Prop) :
  Q s (Ok a) → wp (M_unwrap (Ok (E:=E) a)) s Q.
Proof. done. Qed.
Lemma wp_mono {A} (m : M S E A) s (P Q : S → res E A → Prop) :
  wp m s P → (∀ s' r, P s' r → Q s' r) → wp m s Q.
Proof. unfold wp. auto. Qed.
Lemma run_eq {A} (m : M S E A) s r : (m s).2 = r → m s = ((m s).1, r).
Proof. intros <-. apply surjective_pairing. Qed.
Lemma wp_run {A} (m : M S E A) s s' r (Q : S → res E A → Prop) :
  m s = (s', r) → wp m s Q → Q s' r.
Proof. unfold wp. by intros ->. Qed.

Lemma wp_with_result {A} (m : M S E A) s (Q : S → res E A → Prop) :
  wp m s Q → wp m s (λ s' r, Q s' r ∧ (m s).2 = r).
Proof. by unfold wp. Qed.
Lemma wp_result {A} (m : M S E A) s (Q : S → res E A → Prop) r :
  wp m s (λ s' r', r' = r ∧ Q s' r') → (m s).2 = r.
Proof. unfold wp. by destruct (m s) as [s' r']; intros [-> _]. Qed.

(** Loops whose body inspects the state without changing it: the loop succeeds
    when every element passes, and otherwise stops at the first that fails. *)
Lemma wp_for_check {A} (body : A → M S E unit) (l : list A) s
    (P : A → Prop) (F : E → A → Prop) :
  (∀ x, x ∈ l → wp (body x) s (λ s' r, s' = s ∧
    match r with Ok _ => P x | Err e => F e x | Panic => False end)) →
  wp (M_for body l) s (λ s' r, s' = s ∧
    match r with
    | Ok _ => ∀ x, x ∈ l → P x
    | Err e => ∃ l1 x l2, l = l1 ++ x :: l2 ∧ (∀ y, y ∈ l1 → P y) ∧ F e x
    | Panic => False
    end).
Proof.
  induction l as [|x l IH]; intros Hbody; simpl.
  { apply wp_ret. split; [done|]. by intros x ?%elem_of_nil. }
  apply wp_bind. eapply wp_mono; [apply Hbody; by constructor|].
  intros s' [a|e|] [-> Hx]; simpl; [| |done].
  - eapply wp_mono; [apply IH; intros; apply Hbody; by constructor|].
    intros s' [b|e|] [-> Hl]; split; try done.
    + intros y [->|?]%elem_of_cons; auto.
    + destruct Hl as (l1&y&l2&->&Hl1&Hy). exists (x :: l1), y, l2.
      split_and!; try done. intros z [->|?]%elem_of_cons; auto.
  - split; [done|]. exists [], x, l. split_and!; try done. by intros y ?%elem_of_nil.
Qed.
(** The same with an accumulator that is determined by the elements seen. *)
Lemma wp_fold_check {A X} (body : X → A → M S E X) (l : list A) s
    (acc : list A → X) (P : A → Prop) (F : E → A → Prop) (done_ : list A) :
  (∀ seen x, x ∈ l → wp (body (acc seen) x) s (λ s' r, s' = s ∧
    match r with
    | Ok a => a = acc (seen ++ [x]) ∧ P x | Err e => F e x | Panic => False
    end)) →
  wp (M_fold body l (acc done_)) s (λ s' r, s' = s ∧
    match r with
    | Ok a => a = acc (done_ ++ l) ∧ ∀ x, x ∈ l → P x
    | Err e => ∃ l1 x l2, l = l1 ++ x :: l2 ∧ (∀ y, y ∈ l1 → P y) ∧ F e x
    | Panic => False
    end).
Proof.
  revert done_. induction l as [|x l IH]; intros seen Hbody; simpl.
  { apply wp_ret. split; [done|]. rewrite app_nil_r. split; [done|].
    by intros x ?%elem_of_nil. }
  apply wp_bind. eapply wp_mono; [apply Hbody; by constructor|].
  intros s' [a|e|] [-> Hx]; simpl; [| |done].
  - destruct Hx as [-> Hx].
    eapply wp_mono; [apply IH; intros; apply Hbody; by constructor|].
    intros s' [b|e|] [-> Hl]; split; try done.
    + destruct Hl as [-> Hl]. rewrite <-app_assoc. split; [done|].
      intros y [->|?]%elem_of_cons; auto.
    + destruct Hl as (l1&y&l2&->&Hl1&Hy). exists (x :: l1), y, l2.
      split_and!; try done. intros z [->|?]%elem_of_cons; auto.
  - split; [done|]. exists [], x, l. split_and!; try done. by intros y ?%elem_of_nil.
Qed.
(** A counted loop that keeps an invariant and does not fail. *)
Lemma wp_for_app (body : N → M S E unit) l k s (Q : S → res E unit → Prop) :
  wp (M_for body l) s (λ s' r, r = Ok tt ∧ wp (M_for body k) s' Q) →
  wp (M_for body (l ++ k)) s Q.
Proof.
  revert s. induction l as [|x l IH]; intros s; simpl; [by intros [_ ?]|].
  intros Hl. apply wp_bind. unfold wp at 1 in Hl. unfold M_bind in Hl. unfold wp at 1.
  destruct (body x s) as [s' [a|e|]]; simpl in *; [by apply IH|by destruct Hl..].
Qed.
Lemma wp_for_upto (I : N → S → Prop) (body : N → M S E unit) n s :
  I 0%N s →
  (∀ i s, (i < n)%N → I i s → wp (body i) s (λ s' r, r = Ok tt ∧ I (i + 1)%N s')) →
  wp (M_for body (upto n)) s (λ s' r, r = Ok tt ∧ I n s').
Proof.
  intros H0. induction n as [|n IH] using N.peano_ind; intros Hbody; [by apply wp_ret|].
  rewrite <-N.add_1_r, upto_succ in *. apply wp_for_app.
  eapply wp_mono; [apply IH; intros; apply Hbody; [lia|done]|]. intros s' r [-> HI].
  split; [done|]. simpl. apply wp_bind. eapply wp_mono; [apply Hbody; [lia|done]|].
  by intros s'' r [-> ?].
Qed.
End wp.
