(* ===== verification/Machine.v ===== *)
(** * Machine: fixed-width integers, bytes and [usize]

    The unsigned integers [uN] of the source as naturals below [2^N], their
    big-endian byte representation, and [usize] arithmetic on a platform given
    by its pointer width and by whether overflow checks are compiled in. *)
From Stdlib Require Import Eqdep_dec.
From Stdlib Require Export Strings.Byte.
From stdpp Require Import countable.
From S2P Require Export Prelude.

(** ** Bytes *)

Abbreviation u8 := byte (only parsing).

#[export] Instance byte_eq_dec : EqDecision byte := Byte.byte_eq_dec.
#[export] Instance byte_to_N_inj : Inj (=) (=) Byte.to_N.
Proof.
  intros x y E. pose proof (Byte.of_to_N x) as Hx. rewrite E, Byte.of_to_N in Hx.
  congruence.
Qed.
#[export] Program Instance byte_countable : Countable byte :=
  inj_countable Byte.to_N Byte.of_N _.
Next Obligation. apply Byte.of_to_N. Qed.
#[export] Instance byte_ord : RustOrd byte := λ x y, rcmp (Byte.to_N x) (Byte.to_N y).
#[export] Instance byte_ord_laws : RustOrdLaws byte := inj_ord_laws Byte.to_N.

(** The low byte of a natural. *)
Definition byte_of_N (n : N) : byte :=
  match Byte.of_N (n mod 256) with Some b => b | None => x00 end.

Lemma byte_to_N_lt b : (Byte.to_N b < 256)%N.
Proof. pose proof (Byte.to_N_bounded b). lia. Qed.
Lemma byte_to_of_N n : Byte.to_N (byte_of_N n) = (n mod 256)%N.
Proof.
  unfold byte_of_N. destruct (Byte.of_N (n mod 256)) as [b|] eqn:E.
  - by apply Byte.to_of_N.
  - apply Byte.of_N_None_iff in E. pose proof (N.mod_lt n 256). lia.
Qed.
Lemma byte_of_to_N b : byte_of_N (Byte.to_N b) = b.
Proof.
  apply (inj Byte.to_N). rewrite byte_to_of_N. apply N.mod_small, byte_to_N_lt.
Qed.

(** ** Unsigned integers of width [w] *)

Record uint (w : N) : Type := mk_uint {
  uval : N;
  uval_ok : (uval <? 2 ^ w)%N = true;
}.
Arguments mk_uint {w} uval uval_ok.
Arguments uval {w} u.

Abbreviation u32 := (uint 32).
Abbreviation u64 := (uint 64).
Abbreviation u128 := (uint 128).

Section uint.
Context {w : N}.
Implicit Types x y : uint w.

Lemma uval_lt x : (uval x < 2 ^ w)%N.
Proof. apply N.ltb_lt, uval_ok. Qed.
Lemma uint_eq x y : uval x = uval y → x = y.
Proof.
  destruct x as [x Hx], y as [y Hy]; simpl. intros ->.
  f_equal. apply (UIP_dec Bool.bool_dec).
Qed.
#[export] Instance uval_inj : Inj (=) (=) (@uval w).
Proof. intros x y. apply uint_eq. Qed.
#[export] Instance uint_eq_dec : EqDecision (uint w).
Proof.
  refine (λ x y, match decide (uval x = uval y) with
                 | left E => left (uint_eq x y E)
                 | right NE => right (λ E, NE (f_equal uval E))
                 end).
Defined.
(** Conversion with the bound checked ([u32::try_from]). *)
Definition uint_try_from (n : N) : option (uint w) :=
  match (n <? 2 ^ w)%N as b return (n <? 2 ^ w)%N = b → option (uint w) with
  | true => λ H, Some (mk_uint n H)
  | false => λ _, None
  end eq_refl.
Lemma uint_try_from_Some n x : uint_try_from n = Some x ↔ n = uval x.
Proof.
  unfold uint_try_from. generalize (eq_refl (n <? 2 ^ w)%N).
  destruct (n <? 2 ^ w)%N at 2 3; intros H; split.
  - by intros [= <-].
  - intros ->. f_equal. by apply uint_eq.
  - done.
  - intros ->. pose proof (uval_ok _ x). congruence.
Qed.
Lemma uint_try_from_None n : uint_try_from n = None ↔ (2 ^ w ≤ n)%N.
Proof.
  destruct (uint_try_from n) as [x|] eqn:E; split; try done.
  - apply uint_try_from_Some in E as ->. pose proof (uval_lt x). lia.
  - intros _. destruct (decide (n < 2 ^ w)%N) as [H|]; [|lia].
    apply N.ltb_lt in H.
    rewrite (proj2 (uint_try_from_Some n (mk_uint n H)) eq_refl) in E. done.
Qed.
Lemma uint_zero_ok : (0 <? 2 ^ w)%N = true.
Proof. apply N.ltb_lt. apply N.neq_0_lt_0, N.pow_nonzero. lia. Qed.
Definition uint_zero : uint w := mk_uint 0 uint_zero_ok.
(** Truncating conversion ([as]). *)
Definition uint_wrap (n : N) : uint w :=
  default uint_zero (uint_try_from (n mod 2 ^ w)).
Lemma uval_wrap n : uval (uint_wrap n) = (n mod 2 ^ w)%N.
Proof.
  unfold uint_wrap. destruct (uint_try_from _) as [x|] eqn:E; simpl.
  - by apply uint_try_from_Some in E.
  - apply uint_try_from_None in E. pose proof (N.mod_lt n (2 ^ w)).
    assert (2 ^ w ≠ 0)%N by (apply N.pow_nonzero; lia). lia.
Qed.
Lemma uint_wrap_uval x : uint_wrap (uval x) = x.
Proof. apply uint_eq. rewrite uval_wrap. apply N.mod_small, uval_lt. Qed.
Lemma uint_max_ok : (2 ^ w - 1 <? 2 ^ w)%N = true.
Proof.
  apply N.ltb_lt. assert (2 ^ w ≠ 0)%N by (apply N.pow_nonzero; lia). lia.
Qed.
(** [uN::MAX]. *)
Definition uint_max : uint w := mk_uint (2 ^ w - 1) uint_max_ok.

#[export] Program Instance uint_countable : Countable (uint w) :=
  inj_countable' uval uint_wrap uint_wrap_uval.
#[export] Instance uint_ord : RustOrd (uint w) := λ x y, rcmp (uval x) (uval y).
#[export] Instance uint_ord_laws : RustOrdLaws (uint w) := inj_ord_laws uval.
End uint.
Arguments uint_wrap w n : clear implicits.
Arguments uint_max w : clear implicits.
Arguments uint_zero w : clear implicits.

(** ** Big-endian bytes ([to_be_bytes], [from_be_bytes]) *)

Fixpoint be_bytes (n : nat) (v : N) : list byte :=
  match n with
  | O => []
  | S n' => byte_of_N (v / 256 ^ N.of_nat n') :: be_bytes n' v
  end.
Definition be_value (l : list byte) : N :=
  fold_left (λ acc b, acc * 256 + Byte.to_N b)%N l 0%N.

Lemma length_be_bytes n v : length (be_bytes n v) = n.
Proof. induction n; simpl; auto. Qed.

Lemma be_value_cons b l :
  be_value (b :: l) = (Byte.to_N b * 256 ^ len l + be_value l)%N.
Proof.
  unfold be_value. cbn [fold_left].
  assert (∀ l a, fold_left (λ acc b, acc * 256 + Byte.to_N b)%N l a
    = a * 256 ^ len l + fold_left (λ acc b, acc * 256 + Byte.to_N b)%N l 0)%N as Hf.
  { clear. induction l as [|c l IH]; intros a; cbn [fold_left]; [rewrite len_nil; lia|].
    rewrite IH, (IH (0 * 256 + Byte.to_N c)%N), len_cons, N.pow_add_r. lia. }
  rewrite Hf. lia.
Qed.
Lemma be_value_lt l : (be_value l < 256 ^ len l)%N.
Proof.
  induction l as [|b l IH]; [done|]. rewrite be_value_cons, len_cons, N.pow_add_r.
  pose proof (byte_to_N_lt b). nia.
Qed.
Lemma be_value_bytes n v : be_value (be_bytes n v) = (v mod 256 ^ N.of_nat n)%N.
Proof.
  induction n as [|n IH]; [by rewrite N.mod_1_r|].
  cbn [be_bytes]. rewrite be_value_cons, IH, byte_to_of_N.
  unfold len. rewrite length_be_bytes.
  replace (N.of_nat (S n)) with (N.of_nat n + 1)%N by lia.
  rewrite N.pow_add_r, N.pow_1_r.
  assert (256 ^ N.of_nat n ≠ 0)%N by (apply N.pow_nonzero; lia).
  rewrite (N.Div0.mod_mul_r v). lia.
Qed.
Lemma be_bytes_value l : be_bytes (length l) (be_value l) = l.
Proof.
  assert (∀ n l, length l = n → ∀ h,
    be_bytes n (h * 256 ^ N.of_nat n + be_value l) = l) as Hb.
  { clear l. induction n as [|n IH]; intros l Hl h; [by destruct l|].
    destruct l as [|b l]; [done|]. injection Hl as Hl.
    cbn [be_bytes]. rewrite be_value_cons.
    pose proof (be_value_lt l) as Hlt. unfold len in *. rewrite Hl in *.
    replace (N.of_nat (S n)) with (N.of_nat n + 1)%N by lia.
    rewrite N.pow_add_r, N.pow_1_r.
    assert (256 ^ N.of_nat n ≠ 0)%N by (apply N.pow_nonzero; lia).
    replace (h * (256 ^ N.of_nat n * 256) +
      (Byte.to_N b * 256 ^ N.of_nat n + be_value l))%N
      with ((h * 256 + Byte.to_N b) * 256 ^ N.of_nat n + be_value l)%N by lia.
    rewrite IH by done. f_equal.
    rewrite N.div_add_l by done. rewrite (N.div_small (be_value l)) by done.
    rewrite N.add_0_r.
    apply (inj Byte.to_N). rewrite byte_to_of_N.
    rewrite N.add_comm, N.Div0.mod_add. apply N.mod_small, byte_to_N_lt. }
  etrans; [|apply (Hb (length l) l eq_refl 0%N)]. by rewrite N.mul_0_l.
Qed.

Lemma be_value_inj l k : length l = length k → be_value l = be_value k → l = k.
Proof. intros Hl E. by rewrite <-(be_bytes_value l), <-(be_bytes_value k), Hl, E. Qed.

(** Byte-wise order of equally long big-endian images is numeric order. *)
Lemma be_value_cmp l k :
  length l = length k → rcmp l k = (be_value l ?= be_value k)%N.
Proof.
  revert k. induction l as [|a l IH]; intros [|b k]; try done. intros [= Hl].
  change (rcmp (a :: l) (b :: k)) with
    (match rcmp a b with Eq => rcmp l k | c => c end).
  rewrite IH, !be_value_cons by done.
  pose proof (be_value_lt l) as H1. pose proof (be_value_lt k) as H2.
  unfold len in *. rewrite Hl in *.
  set (P := (256 ^ N.of_nat (length k))%N) in *. clearbody P.
  change (rcmp a b) with (Byte.to_N a ?= Byte.to_N b)%N.
  symmetry. destruct (N.compare_spec (Byte.to_N a) (Byte.to_N b)) as [E|E|E].
  - rewrite E. destruct (N.compare_spec (be_value l) (be_value k)) as [E'|E'|E'].
    + apply N.compare_eq_iff. lia.
    + apply N.compare_lt_iff. lia.
    + apply N.compare_gt_iff. lia.
  - apply N.compare_lt_iff. nia.
  - apply N.compare_gt_iff. nia.
Qed.

(** [uN::to_be_bytes] and [uN::from_be_bytes] for [N = 8 * n]. *)
Definition to_be_bytes {w : N} (n : nat) (x : uint w) : list byte := be_bytes n (uval x).
Definition from_be_bytes (w : N) (l : list byte) : uint w := uint_wrap w (be_value l).

Section be.
Context (n : nat) {w : N} (Hw : (256 ^ N.of_nat n = 2 ^ w)%N).

Lemma length_to_be_bytes (x : uint w) : length (to_be_bytes n x) = n.
Proof. apply length_be_bytes. Qed.
Lemma from_to_be_bytes (x : uint w) : from_be_bytes w (to_be_bytes n x) = x.
Proof using Hw.
  unfold from_be_bytes, to_be_bytes. apply uint_eq.
  rewrite uval_wrap, be_value_bytes, Hw, N.Div0.mod_mod.
  apply N.mod_small, uval_lt.
Qed.
Lemma to_from_be_bytes (l : list byte) :
  length l = n → to_be_bytes n (from_be_bytes w l) = l.
Proof using Hw.
  intros Hl. unfold from_be_bytes, to_be_bytes. rewrite uval_wrap.
  rewrite N.mod_small.
  - rewrite <-Hl. apply be_bytes_value.
  - rewrite <-Hw, <-Hl. apply be_value_lt.
Qed.
Lemma to_be_bytes_cmp (x y : uint w) :
  rcmp (to_be_bytes n x) (to_be_bytes n y) = rcmp x y.
Proof using Hw.
  unfold to_be_bytes. rewrite be_value_cmp by (by rewrite !length_be_bytes).
  rewrite !be_value_bytes, Hw, !N.mod_small by apply uval_lt. done.
Qed.
End be.

(** ** [usize] *)

(** A compilation target: the width of [usize] and whether arithmetic overflow
    panics (a debug build) or wraps (a release build). *)
Class Platform := {
  usize_bits : N;
  overflow_checks : bool;
  usize_bits_ge : (16 ≤ usize_bits)%N;
}.

Definition usize_modulus `{Platform} : N := 2 ^ usize_bits.
(** [usize::MAX]. *)
Definition usize_MAX `{Platform} : N := usize_modulus - 1.
(** [isize::MAX], the largest size of an allocation. *)
Definition isize_MAX `{Platform} : N := 2 ^ (usize_bits - 1) - 1.

(** [a + b] and [a - b] on [usize]. *)
Definition usize_add `{Platform} {E} (a b : N) : res E N :=
  if (a + b <? usize_modulus)%N then Ok (a + b)%N
  else if overflow_checks then Panic
  else Ok ((a + b) mod usize_modulus)%N.
Definition usize_sub `{Platform} {E} (a b : N) : res E N :=
  if (b <=? a)%N then Ok (a - b)%N
  else if overflow_checks then Panic
  else Ok (usize_modulus + a - b)%N.

(** [a + b] on an unsigned integer of [w] bits. *)
Definition uint_add `{Platform} {E} (w a b : N) : res E N :=
  if (a + b <? 2 ^ w)%N then Ok (a + b)%N
  else if overflow_checks then Panic
  else Ok ((a + b) mod 2 ^ w)%N.
(** [a - b] on an unsigned integer of [w] bits. *)
Definition uint_sub `{Platform} {E} (w a b : N) : res E N :=
  if (b <=? a)%N then Ok (a - b)%N
  else if overflow_checks then Panic
  else Ok (2 ^ w + a - b)%N.
(** [a % b], which panics for a zero divisor on every target. *)
Definition uint_rem {E} (a b : N) : res E N :=
  if (b =? 0)%N then Panic else Ok (a mod b)%N.
(** [a.wrapping_mul(b)] and [a.wrapping_add(b)] on [u64]. *)
Definition wrapping_mul (a b : N) : N := ((a * b) mod 2 ^ 64)%N.
Definition wrapping_add (a b : N) : N := ((a + b) mod 2 ^ 64)%N.

(** The usual targets, with and without overflow checks. *)
Definition debug64 : Platform :=
  {| usize_bits := 64; overflow_checks := true; usize_bits_ge := ltac:(done) |}.
Definition release64 : Platform :=
  {| usize_bits := 64; overflow_checks := false; usize_bits_ge := ltac:(done) |}.
Definition debug32 : Platform :=
  {| usize_bits := 32; overflow_checks := true; usize_bits_ge := ltac:(done) |}.
Definition release32 : Platform :=
  {| usize_bits := 32; overflow_checks := false; usize_bits_ge := ltac:(done) |}.

Section usize.
Context `{Platform} {E : Type}.

Lemma usize_modulus_pos : (0 < usize_modulus)%N.
Proof. unfold usize_modulus. apply N.neq_0_lt_0, N.pow_nonzero. lia. Qed.
Lemma usize_modulus_isize : usize_modulus = (2 * (isize_MAX + 1))%N.
Proof.
  unfold usize_modulus, isize_MAX. pose proof usize_bits_ge.
  replace usize_bits with (1 + (usize_bits - 1))%N at 1 by lia.
  rewrite N.pow_add_r, N.pow_1_r.
  assert (2 ^ (usize_bits - 1) ≠ 0)%N by (apply N.pow_nonzero; lia). lia.
Qed.
Lemma isize_MAX_ge : (32767 ≤ isize_MAX)%N.
Proof.
  unfold isize_MAX. pose proof usize_bits_ge.
  assert (2 ^ 15 ≤ 2 ^ (usize_bits - 1))%N by (apply N.pow_le_mono_r; lia). lia.
Qed.
Lemma usize_add_ok a b :
  (a + b < usize_modulus)%N → usize_add (E:=E) a b = Ok (a + b)%N.
Proof. unfold usize_add. intros ->%N.ltb_lt. done. Qed.
Lemma uint_add_ok w a b :
  (a + b < 2 ^ w)%N → uint_add (E:=E) w a b = Ok (a + b)%N.
Proof. unfold uint_add. intros ->%N.ltb_lt. done. Qed.
Lemma uint_sub_ok w a b : (b ≤ a)%N → uint_sub (E:=E) w a b = Ok (a - b)%N.
Proof. unfold uint_sub. intros ->%N.leb_le. done. Qed.
Lemma uint_rem_ok a b : b ≠ 0%N → uint_rem (E:=E) a b = Ok (a mod b)%N.
Proof. unfold uint_rem. by intros ->%N.eqb_neq. Qed.
Lemma usize_sub_ok a b : (b ≤ a)%N → usize_sub (E:=E) a b = Ok (a - b)%N.
Proof. unfold usize_sub. intros ->%N.leb_le. done. Qed.
(** Adding one to [usize::MAX]. *)
Lemma usize_add_MAX_1 :
  usize_add (E:=E) usize_MAX 1 = if overflow_checks then Panic else Ok 0%N.
Proof.
  unfold usize_add, usize_MAX. pose proof usize_modulus_pos.
  replace (usize_modulus - 1 + 1)%N with usize_modulus by lia.
  rewrite N.ltb_irrefl, N.Div0.mod_same. done.
Qed.
End usize.
