(* ===== verification/Text.v ===== *)
(** * Text: decimal numbers and UTF-8

    What the programs of [src/examples/] use of the standard library's strings, on
    their bytes: literals, [to_string] and zero-padded formatting of an unsigned
    integer, [String::from_utf8] and [str::parse::<u64>]. *)
From S2P Require Export Machine.

(** The bytes of a string ([b"..."], [String::into_bytes]). *)
Definition bytes (s : string) : list byte := String.list_byte_of_string s.
(** [n.to_string()] and [{n}] in a format string. *)
Definition to_string (n : N) : list byte := bytes (pretty n).
(** [{n:0width}] in a format string. *)
Definition zero_padded (width : nat) (n : N) : list byte :=
  replicate (width - length (to_string n)) Byte.x30 ++ to_string n.

(** ** [String::from_utf8] *)

Definition byte_in (lo hi : N) (b : byte) : bool :=
  (lo <=? Byte.to_N b)%N && (Byte.to_N b <=? hi)%N.
(** A continuation byte. *)
Definition utf8_cont : byte → bool := byte_in 128 191.
(** The second byte of a three-byte and of a four-byte sequence: overlong forms,
    surrogates and code points above U+10FFFF are excluded. *)
Definition utf8_second3 (b0 b1 : byte) : bool :=
  (byte_in 224 224 b0 && byte_in 160 191 b1) || (byte_in 225 236 b0 && utf8_cont b1) ||
  (byte_in 237 237 b0 && byte_in 128 159 b1) || (byte_in 238 239 b0 && utf8_cont b1).
Definition utf8_second4 (b0 b1 : byte) : bool :=
  (byte_in 240 240 b0 && byte_in 144 191 b1) || (byte_in 241 243 b0 && utf8_cont b1) ||
  (byte_in 244 244 b0 && byte_in 128 143 b1).
Fixpoint utf8_valid (l : list byte) : bool :=
  match l with
  | [] => true
  | b0 :: l1 =>
      if byte_in 0 127 b0 then utf8_valid l1 else
      match l1 with
      | [] => false
      | b1 :: l2 =>
          if byte_in 194 223 b0 then utf8_cont b1 && utf8_valid l2 else
          match l2 with
          | [] => false
          | b2 :: l3 =>
              if byte_in 224 239 b0 then
                utf8_second3 b0 b1 && utf8_cont b2 && utf8_valid l3
              else
              match l3 with
              | [] => false
              | b3 :: l4 => utf8_second4 b0 b1 && utf8_cont b2 && utf8_cont b3 && utf8_valid l4
              end
          end
      end
  end.
(** A string is its bytes. *)
Definition from_utf8 (v : list byte) : option (list byte) :=
  if utf8_valid v then Some v else None.

(** ** [str::parse::<u64>] *)

Definition to_digit (b : byte) : option N :=
  if byte_in 48 57 b then Some (Byte.to_N b - 48)%N else None.
(** The accumulation of the digits, left when it overflows. *)
Fixpoint parse_digits (acc : N) (l : list byte) : option N :=
  match l with
  | [] => Some acc
  | b :: l =>
      d ← to_digit b;
      if (acc * 10 + d <? 2 ^ 64)%N then parse_digits (acc * 10 + d) l else None
  end.
Definition parse_u64 (l : list byte) : option N :=
  match l with
  | [] => None
  | b :: digits =>
      if decide (b = Byte.x2b) then
        if decide (digits = []) then None else parse_digits 0 digits
      else parse_digits 0 l
  end.

(** ** Lemmas *)

Lemma bytes_app s t : bytes (s +:+ t) = bytes s ++ bytes t.
Proof.
  unfold bytes, String.list_byte_of_string.
  induction s as [|c s IH]; simpl; [done|]. f_equal. apply IH.
Qed.

(** The digit [d]. *)
Definition digit_byte (d : N) : byte := Ascii.byte_of_ascii (pretty_N_char d).
Lemma to_digit_byte d : (d < 10)%N → to_digit (digit_byte d) = Some d.
Proof.
  intros Hd. assert (d ∈ upto 10) as Hin by by apply elem_of_upto.
  clear Hd. revert d Hin. apply Forall_forall. by repeat constructor.
Qed.

Lemma pretty_go_bytes x s :
  bytes (pretty_N_go x s) = bytes (pretty_N_go x "") ++ bytes s.
Proof.
  revert s. induction (N.lt_wf_0 x) as [x _ IH]; intros s.
  destruct (decide (x = 0)%N) as [->|Hx]; [by rewrite !pretty_N_go_0|].
  rewrite !(pretty_N_go_step x) by lia.
  assert (x `div` 10 < x)%N by (apply N.div_lt; lia).
  rewrite (IH _ H (String _ s)), (IH _ H (String _ "")), <-app_assoc. done.
Qed.
(** The decimal representation: its last digit is the remainder by ten. *)
Lemma to_string_small d : (d < 10)%N → to_string d = [digit_byte d].
Proof.
  intros Hd. unfold to_string, pretty, pretty_N. case_decide as E; [by subst|].
  rewrite pretty_N_go_step by lia. rewrite N.div_small, N.mod_small by done. done.
Qed.
Lemma to_string_step n :
  (10 ≤ n)%N → to_string n = to_string (n / 10) ++ [digit_byte (n mod 10)].
Proof.
  intros Hn. unfold to_string, pretty, pretty_N.
  assert (n / 10 ≠ 0)%N by (intros E; apply N.div_small_iff in E; lia).
  rewrite !decide_False by lia. rewrite pretty_N_go_step by lia. by rewrite pretty_go_bytes.
Qed.
Lemma to_string_ind (P : N → Prop) :
  (∀ d, (d < 10)%N → P d) → (∀ n, (10 ≤ n)%N → P (n / 10)%N → P n) → ∀ n, P n.
Proof.
  intros Hd Hs n. induction (N.lt_wf_0 n) as [n _ IH].
  destruct (decide (n < 10)%N) as [|Hn]; [by apply Hd|].
  apply Hs; [lia|]. apply IH, N.div_lt; lia.
Qed.

Lemma parse_digits_app acc l k :
  parse_digits acc (l ++ k) = parse_digits acc l ≫= λ a, parse_digits a k.
Proof.
  revert acc. induction l as [|b l IH]; intros acc; simpl; [done|].
  destruct (to_digit b) as [d|]; simpl; [|done]. by destruct (_ <? _)%N.
Qed.
Lemma parse_digits_to_string n :
  (n < 2 ^ 64)%N → parse_digits 0 (to_string n) = Some n.
Proof.
  induction n as [d Hd|n Hn IH] using to_string_ind; intros Hlt.
  - rewrite to_string_small by done. cbn [parse_digits].
    rewrite to_digit_byte by done. cbn [mbind option_bind].
    rewrite (proj2 (N.ltb_lt _ _)) by lia. by rewrite N.add_0_l.
  - rewrite to_string_step, parse_digits_app, IH by (try apply N.Div0.div_lt_upper_bound; lia).
    cbn [parse_digits mbind option_bind]. rewrite to_digit_byte by (by apply N.mod_lt).
    cbn [mbind option_bind]. rewrite (N.mul_comm _ 10), <-(N.div_mod n 10) by done.
    by rewrite (proj2 (N.ltb_lt _ _)).
Qed.
(** Every byte of a decimal number is a digit. *)
Lemma to_string_digits n : Forall (λ b, is_Some (to_digit b)) (to_string n).
Proof.
  induction n as [d Hd|n Hn IH] using to_string_ind.
  - rewrite to_string_small by done. apply Forall_singleton. rewrite to_digit_byte by done. eauto.
  - rewrite to_string_step by done. apply Forall_app. split; [done|]. apply Forall_singleton.
    rewrite to_digit_byte by (by apply N.mod_lt). eauto.
Qed.
Lemma to_string_nonempty n : to_string n ≠ [].
Proof.
  destruct (decide (n < 10)%N).
  - by rewrite to_string_small.
  - rewrite to_string_step by lia. by destruct (to_string (n / 10)).
Qed.

Lemma digit_ascii b : is_Some (to_digit b) → byte_in 0 127 b = true ∧ b ≠ Byte.x2b.
Proof.
  unfold to_digit. destruct (byte_in 48 57 b) eqn:E; [|by intros []]. intros _. split.
  - unfold byte_in in *. apply andb_true_iff in E as [?%N.leb_le ?%N.leb_le].
    apply andb_true_iff. split; apply N.leb_le; lia.
  - by intros ->.
Qed.
Lemma utf8_ascii l : Forall (λ b, byte_in 0 127 b = true) l → utf8_valid l = true.
Proof. induction 1 as [|b l Hb Hl IH]; simpl; [done|]. by rewrite Hb. Qed.

(** A decimal number is a valid string that parses to itself. *)
Lemma from_utf8_to_string n : from_utf8 (to_string n) = Some (to_string n).
Proof.
  unfold from_utf8. rewrite utf8_ascii; [done|].
  eapply Forall_impl; [apply to_string_digits|]. intros b Hb. by apply digit_ascii.
Qed.
Lemma parse_to_string n : (n < 2 ^ 64)%N → parse_u64 (to_string n) = Some n.
Proof.
  intros Hn. pose proof (to_string_digits n) as Hd. pose proof (parse_digits_to_string n Hn) as Hp.
  unfold parse_u64. destruct (to_string n) as [|b l] eqn:E; [by apply to_string_nonempty in E|].
  apply Forall_cons in Hd as [Hb _]. by rewrite decide_False by (by apply digit_ascii).
Qed.
Lemma parse_u64_lt l n : parse_u64 l = Some n → (n < 2 ^ 64)%N.
Proof.
  assert (∀ k acc, (acc < 2 ^ 64)%N → parse_digits acc k = Some n → (n < 2 ^ 64)%N) as Hd.
  { induction k as [|b k IH]; simpl; intros acc Hacc.
    - by intros [= <-].
    - destruct (to_digit b) as [d|]; simpl; [|done].
      destruct (N.ltb_spec (acc * 10 + d) (2 ^ 64)); [by apply IH|done]. }
  unfold parse_u64. destruct l as [|b l]; [done|].
  repeat case_decide; try done; by apply Hd.
Qed.
(** A text that starts with neither a digit nor a plus sign is not a number. *)
Lemma parse_not_number b l : to_digit b = None → b ≠ Byte.x2b → parse_u64 (b :: l) = None.
Proof. intros Hb Hp. unfold parse_u64. rewrite decide_False by done. simpl. by rewrite Hb. Qed.

Lemma parse_digits_zeros m l : parse_digits 0 (replicate m Byte.x30 ++ l) = parse_digits 0 l.
Proof. induction m as [|m IH]; [done|]. apply IH. Qed.
Lemma zero_padded_inj width n m :
  (n < 2 ^ 64)%N → (m < 2 ^ 64)%N → zero_padded width n = zero_padded width m → n = m.
Proof.
  intros Hn Hm E. apply (f_equal (parse_digits 0)) in E.
  unfold zero_padded in E. rewrite !parse_digits_zeros, !parse_digits_to_string in E by done.
  congruence.
Qed.
