(* ===== verification/Types.v ===== *)
(** * Types: the data of [types.rs]

    Timestamps, transaction identifiers, keys, values, mutations, intents,
    committed versions, physical writes and read guards, with the equality and
    order the source derives for them. *)
From S2P Require Export Machine.

(** [pub struct Timestamp(pub u128)]. *)
Record Timestamp := mkTimestamp { Timestamp_0 : u128 }.
(** [pub struct TxnId(pub u64)]. *)
Record TxnId := mkTxnId { TxnId_0 : u64 }.

(** The number a timestamp stands for. *)
Definition ts_val (t : Timestamp) : N := uval (Timestamp_0 t).
(** Literals: [Timestamp(n)] and [TxnId(n)]. *)
Definition TS (n : N) : Timestamp := mkTimestamp (uint_wrap 128 n).
Definition TXN (n : N) : TxnId := mkTxnId (uint_wrap 64 n).
(** [Timestamp(u128::MAX)]. *)
Definition ts_max : Timestamp := mkTimestamp (uint_max 128).

Abbreviation Key := (list byte).
Abbreviation Value := (list byte).

Inductive Mutation :=
| Put (v : Value)
| Delete.

Record Intent := mkIntent {
  intent_key : Key;
  intent_txn_id : TxnId;
  intent_start_ts : Timestamp;
  intent_mutation : Mutation;
  intent_min_commit_ts : option Timestamp;
}.

Record CommittedVersion := mkVersion {
  cv_key : Key;
  cv_commit_ts : Timestamp;
  cv_value : option Value;
}.

Record PhysicalWrite := mkWrite {
  pw_key : Key;
  pw_value : option Value;
}.

Inductive ReadGuard :=
| ExpectedVersion (key : Key) (read_ts : Timestamp) (expected_commit_ts : option Timestamp)
| ExpectedValue (key : Key) (read_ts : Timestamp) (expected_value : option Value).

(** [Mutation::value]. *)
Definition Mutation_value (m : Mutation) : option Value :=
  match m with
  | Put v => Some v
  | Delete => None
  end.
(** [Mutation::is_delete]. *)
Definition Mutation_is_delete (m : Mutation) : bool :=
  match m with
  | Delete => true
  | _ => false
  end.

(** [impl Display for Timestamp] and [impl Display for TxnId]. *)
Definition Timestamp_fmt (t : Timestamp) : string := pretty (uval (Timestamp_0 t)).
Definition TxnId_fmt (t : TxnId) : string := pretty (uval (TxnId_0 t)).

(** ** Derived equality, order and countability *)

Lemma ts_val_lt t : (ts_val t < 2 ^ 128)%N.
Proof. apply uval_lt. Qed.
#[export] Instance ts_val_inj : Inj (=) (=) ts_val.
Proof. intros [x] [y] E. f_equal. by apply (inj uval). Qed.
#[export] Instance TxnId_0_inj : Inj (=) (=) TxnId_0.
Proof. intros [x] [y] E. by f_equal. Qed.

#[export] Instance Timestamp_eq_dec : EqDecision Timestamp.
Proof. solve_decision. Defined.
#[export] Instance TxnId_eq_dec : EqDecision TxnId.
Proof. solve_decision. Defined.
#[export] Instance Mutation_eq_dec : EqDecision Mutation.
Proof. solve_decision. Defined.
#[export] Instance Intent_eq_dec : EqDecision Intent.
Proof. solve_decision. Defined.
#[export] Instance CommittedVersion_eq_dec : EqDecision CommittedVersion.
Proof. solve_decision. Defined.
#[export] Instance PhysicalWrite_eq_dec : EqDecision PhysicalWrite.
Proof. solve_decision. Defined.
#[export] Instance ReadGuard_eq_dec : EqDecision ReadGuard.
Proof. solve_decision. Defined.

#[export] Program Instance Timestamp_countable : Countable Timestamp :=
  inj_countable' Timestamp_0 mkTimestamp _.
Next Obligation. by intros []. Qed.
#[export] Program Instance TxnId_countable : Countable TxnId :=
  inj_countable' TxnId_0 mkTxnId _.
Next Obligation. by intros []. Qed.

#[export] Instance Timestamp_ord : RustOrd Timestamp := λ x y, rcmp (ts_val x) (ts_val y).
#[export] Instance Timestamp_ord_laws : RustOrdLaws Timestamp := inj_ord_laws ts_val.

(** The comparison operators of [Timestamp] used in conditions. *)
Definition ts_ltb (x y : Timestamp) : bool := (ts_val x <? ts_val y)%N.
Definition ts_leb (x y : Timestamp) : bool := (ts_val x <=? ts_val y)%N.

Declare Scope ts_scope.
Delimit Scope ts_scope with ts.
Notation "x < y" := (ts_val x < ts_val y)%N : ts_scope.
Notation "x ≤ y" := (ts_val x ≤ ts_val y)%N : ts_scope.
Notation "x < y ≤ z" := (ts_val x < ts_val y ∧ ts_val y ≤ ts_val z)%N : ts_scope.

Lemma ts_ltb_lt x y : ts_ltb x y = true ↔ (x < y)%ts.
Proof. apply N.ltb_lt. Qed.
Lemma ts_leb_le x y : ts_leb x y = true ↔ (x ≤ y)%ts.
Proof. apply N.leb_le. Qed.
Lemma ts_rlt x y : rlt x y ↔ (x < y)%ts.
Proof. unfold rlt, rcmp, Timestamp_ord. apply N.compare_lt_iff. Qed.
Lemma ts_rle x y : rle x y ↔ (x ≤ y)%ts.
Proof. unfold rle. apply N.compare_le_iff. Qed.
#[export] Instance ts_gt_irreflexive : Irreflexive (λ t u, (u < t)%ts).
Proof. intros t Ht. lia. Qed.
#[export] Instance ts_gt_transitive : Transitive (λ t u, (u < t)%ts).
Proof. intros t u v ? ?. lia. Qed.
Lemma ts_eq x y : ts_val x = ts_val y → x = y.
Proof. apply (inj ts_val). Qed.
Lemma ts_le_max x : (x ≤ ts_max)%ts.
Proof.
  pose proof (ts_val_lt x). change (ts_val ts_max) with (2 ^ 128 - 1)%N. lia.
Qed.
Lemma ts_val_TS n : (n < 2 ^ 128)%N → ts_val (TS n) = n.
Proof. intros. unfold ts_val, TS. simpl. rewrite uval_wrap. by apply N.mod_small. Qed.
Lemma ts_zero_le x : (TS 0 ≤ x)%ts.
Proof. rewrite ts_val_TS by done. lia. Qed.

(** [lia] on timestamps: boolean tests become inequalities, equalities of
    timestamps become equalities of numbers. *)
Ltac ts_prep :=
  repeat match goal with
  | H : ts_ltb _ _ = true |- _ => apply ts_ltb_lt in H
  | H : ts_leb _ _ = true |- _ => apply ts_leb_le in H
  | H : ts_ltb _ _ = false |- _ => apply N.ltb_ge in H
  | H : ts_leb _ _ = false |- _ => apply N.leb_gt in H
  | |- @eq Timestamp _ _ => apply ts_eq
  | H : @eq Timestamp _ _ |- _ => apply (f_equal ts_val) in H
  | H : not (@eq Timestamp ?x ?y) |- _ =>
      let H' := fresh in
      assert (ts_val x ≠ ts_val y) as H' by (intros H'; apply H, ts_eq, H'); clear H
  end.
Ltac ts_lia := ts_prep; lia.
