(* ===== verification/Errors.v ===== *)
(** * Errors: the error enumerations of [error.rs]

    One module per Rust enum, so that a constructor is named as in the source
    ([PrewriteError.KeyLocked] for [PrewriteError::KeyLocked]); the enum itself is
    abbreviated to its name.  The [Display] text that the derive macro of
    [thiserror] generates from the attributes is not modelled. *)
From S2P Require Export Types.

(** Error during a read operation. *)
Module ReadError.
Inductive ReadError :=
  | Backend (msg : string).
#[export] Instance eq_dec : EqDecision ReadError.
Proof. solve_decision. Defined.
End ReadError.
Abbreviation ReadError := ReadError.ReadError.

(** Error during a single-key prewrite. *)
Module PrewriteError.
Inductive PrewriteError :=
  | KeyLocked (txn_id : TxnId)
  | WriteConflict
  | Backend (msg : string)
  | IntentAlreadyExists.
#[export] Instance eq_dec : EqDecision PrewriteError.
Proof. solve_decision. Defined.
End PrewriteError.
Abbreviation PrewriteError := PrewriteError.PrewriteError.

(** Error during a single-key commit. *)
Module CommitError.
Inductive CommitError :=
  | IntentNotFound
  | TxnIdMismatch
  | StartTsMismatch
  | InvalidCommitTimestamp (start_ts commit_ts : Timestamp)
  | DuplicateCommitTimestamp (commit_ts : Timestamp)
  | CommitTsTooOld (commit_ts latest_commit_ts : Timestamp)
  | CommitTsTooEarly (commit_ts min_commit_ts : Timestamp)
  | Backend (msg : string).
#[export] Instance eq_dec : EqDecision CommitError.
Proof. solve_decision. Defined.
End CommitError.
Abbreviation CommitError := CommitError.CommitError.

(** Error during a single-key abort. *)
Module AbortError.
Inductive AbortError :=
  | Backend (msg : string).
#[export] Instance eq_dec : EqDecision AbortError.
Proof. solve_decision. Defined.
End AbortError.
Abbreviation AbortError := AbortError.AbortError.

(** Error during garbage collection. *)
Module GcError.
Inductive GcError :=
  | Backend (msg : string)
  | InvalidGcBudget
  | InvalidKeyGcBudget.
#[export] Instance eq_dec : EqDecision GcError.
Proof. solve_decision. Defined.
End GcError.
Abbreviation GcError := GcError.GcError.

(** Error during codec operations. *)
Module CodecError.
Inductive CodecError :=
  | Encode (msg : string)
  | Decode (msg : string).
#[export] Instance eq_dec : EqDecision CodecError.
Proof. solve_decision. Defined.
End CodecError.
Abbreviation CodecError := CodecError.CodecError.

(** Error during a direct or guarded batch. *)
Module BatchError.
Inductive BatchError :=
  | EmptyBatch
  | InvalidCommitTimestamp (read_ts commit_ts : Timestamp)
  | CommitTsTooOld (key : Key) (commit_ts latest_commit_ts : Timestamp)
  | NoReadGuards
  | DuplicateKeyInBatch (key : Key)
  | KeyLocked (key : Key) (txn_id : TxnId)
  | GuardFailedNewerVersion (key : Key) (read_ts actual_commit_ts : Timestamp)
  | GuardFailedVersionMismatch (key : Key) (expected actual : option Timestamp)
  | GuardFailedValueMismatch (key : Key)
  | Backend (msg : string).
#[export] Instance eq_dec : EqDecision BatchError.
Proof. solve_decision. Defined.
End BatchError.
Abbreviation BatchError := BatchError.BatchError.

(** Error during a prewrite batch. *)
Module BatchPrewriteError.
Inductive BatchPrewriteError :=
  | EmptyBatch
  | DuplicateKeyInBatch (key : Key)
  | KeyLocked (key : Key) (txn_id : TxnId)
  | WriteConflict (key : Key)
  | IntentAlreadyExists (key : Key)
  | PartialBatchReplay
  | Backend (msg : string).
#[export] Instance eq_dec : EqDecision BatchPrewriteError.
Proof. solve_decision. Defined.
End BatchPrewriteError.
Abbreviation BatchPrewriteError := BatchPrewriteError.BatchPrewriteError.

(** Error during a commit batch. *)
Module BatchCommitError.
Inductive BatchCommitError :=
  | EmptyBatch
  | DuplicateKeyInBatch (key : Key)
  | IntentNotFound (key : Key)
  | TxnIdMismatch (key : Key)
  | StartTsMismatch (key : Key)
  | InvalidCommitTimestamp (start_ts commit_ts : Timestamp)
  | CommitTsTooEarly (key : Key) (commit_ts min_commit_ts : Timestamp)
  | CommitTsTooOld (key : Key) (commit_ts latest_commit_ts : Timestamp)
  | Backend (msg : string).
#[export] Instance eq_dec : EqDecision BatchCommitError.
Proof. solve_decision. Defined.
End BatchCommitError.
Abbreviation BatchCommitError := BatchCommitError.BatchCommitError.

(** Error during a batch abort operation. *)
Module BatchAbortError.
Inductive BatchAbortError :=
  | DuplicateKeyInBatch (key : Key)
  | Backend (msg : string).
#[export] Instance eq_dec : EqDecision BatchAbortError.
Proof. solve_decision. Defined.
End BatchAbortError.
Abbreviation BatchAbortError := BatchAbortError.BatchAbortError.
