(* ===== verification/Codec.v ===== *)
(** * Codec: the binary record format of [codec.rs]

    Encoders build the byte vector in order; decoders walk it with an explicit
    [offset], as the source does with [offset: &mut usize].  Indexing and slicing
    out of range panic, and every offset computation is [usize] arithmetic of the
    platform. *)
From S2P Require Export Errors.

Definition CODEC_VERSION : u8 := x02.
Definition RECORD_COMMITTED : u8 := x01.
Definition RECORD_INTENT : u8 := x02.
Definition FLAG_PRESENT : u8 := x01.
Definition FLAG_ABSENT : u8 := x00.
Definition MUTATION_PUT : u8 := x01.
Definition MUTATION_DELETE : u8 := x02.

(** Results of the codec. *)
Abbreviation CRes := (res CodecError).

(** [buf[i]]. *)
Definition index (buf : list u8) (i : N) : CRes u8 :=
  if (i <? len buf)%N then
    match buf !! N.to_nat i with Some b => Ok b | None => Panic end
  else Panic.
(** [buf[a..b]]. *)
Definition slice (buf : list u8) (a b : N) : CRes (list u8) :=
  if (a <=? b)%N && (b <=? len buf)%N
  then Ok (take (N.to_nat (b - a)) (drop (N.to_nat a) buf))
  else Panic.

Definition encode_u32 (v : u32) : list u8 := to_be_bytes 4 v.
Definition encode_u64 (v : u64) : list u8 := to_be_bytes 8 v.
Definition encode_u128 (v : u128) : list u8 := to_be_bytes 16 v.

Definition encode_bytes (buf bytes : list u8) : CRes (list u8) :=
  match uint_try_from (w:=32) (len bytes) with
  | Some n => Ok (buf ++ encode_u32 n ++ bytes)
  | None => Err (CodecError.Encode "byte slice too long")
  end.

Definition encode_committed (version : CommittedVersion) : CRes (list u8) :=
  let buf := [] in
  let buf := buf ++ [CODEC_VERSION] in
  let buf := buf ++ [RECORD_COMMITTED] in
  let? buf := encode_bytes buf (cv_key version) in
  let buf := buf ++ encode_u128 (Timestamp_0 (cv_commit_ts version)) in
  match cv_value version with
  | Some v =>
      let buf := buf ++ [FLAG_PRESENT] in
      encode_bytes buf v
  | None => Ok (buf ++ [FLAG_ABSENT])
  end.

Definition encode_intent (intent : Intent) : CRes (list u8) :=
  let buf := [] in
  let buf := buf ++ [CODEC_VERSION] in
  let buf := buf ++ [RECORD_INTENT] in
  let? buf := encode_bytes buf (intent_key intent) in
  let buf := buf ++ encode_u64 (TxnId_0 (intent_txn_id intent)) in
  let buf := buf ++ encode_u128 (Timestamp_0 (intent_start_ts intent)) in
  let buf :=
    match intent_min_commit_ts intent with
    | Some ts => (buf ++ [FLAG_PRESENT]) ++ encode_u128 (Timestamp_0 ts)
    | None => buf ++ [FLAG_ABSENT]
    end in
  match intent_mutation intent with
  | Put v =>
      let buf := buf ++ [MUTATION_PUT] in
      encode_bytes buf v
  | Delete => Ok (buf ++ [MUTATION_DELETE])
  end.

Section decode.
  Context `{Platform}.

(** Decoders return the value and the advanced offset. *)
Definition decode_u32 (buf : list u8) (offset : N) : CRes (u32 * N) :=
  let? lim := usize_add offset 4 in
  if (len buf <? lim)%N then Err (CodecError.Decode "truncated u32") else
  let? b0 := index buf offset in
  let? i1 := usize_add offset 1 in let? b1 := index buf i1 in
  let? i2 := usize_add offset 2 in let? b2 := index buf i2 in
  let? i3 := usize_add offset 3 in let? b3 := index buf i3 in
  let val := from_be_bytes 32 [b0; b1; b2; b3] in
  let? offset := usize_add offset 4 in
  Ok (val, offset).

Definition decode_u64 (buf : list u8) (offset : N) : CRes (u64 * N) :=
  let? lim := usize_add offset 8 in
  if (len buf <? lim)%N then Err (CodecError.Decode "truncated u64") else
  let? b0 := index buf offset in
  let? i1 := usize_add offset 1 in let? b1 := index buf i1 in
  let? i2 := usize_add offset 2 in let? b2 := index buf i2 in
  let? i3 := usize_add offset 3 in let? b3 := index buf i3 in
  let? i4 := usize_add offset 4 in let? b4 := index buf i4 in
  let? i5 := usize_add offset 5 in let? b5 := index buf i5 in
  let? i6 := usize_add offset 6 in let? b6 := index buf i6 in
  let? i7 := usize_add offset 7 in let? b7 := index buf i7 in
  let val := from_be_bytes 64 [b0; b1; b2; b3; b4; b5; b6; b7] in
  let? offset := usize_add offset 8 in
  Ok (val, offset).

(** The conversion of a slice to [[u8; 16]] fails on another length. *)
Definition decode_u128 (buf : list u8) (offset : N) : CRes (u128 * N) :=
  let? lim := usize_add offset 16 in
  if (len buf <? lim)%N then Err (CodecError.Decode "truncated u128") else
  let? hi := usize_add offset 16 in
  let? bytes := slice buf offset hi in
  if (len bytes =? 16)%N then
    let? offset := usize_add offset 16 in
    Ok (from_be_bytes 128 bytes, offset)
  else Err (CodecError.Decode "truncated u128").

(** [as usize] truncates on a platform whose [usize] is narrower than 32 bits. *)
Definition decode_bytes (buf : list u8) (offset : N) : CRes (list u8 * N) :=
  let? (n, offset) := decode_u32 buf offset in
  let n := (uval n mod usize_modulus)%N in
  let? lim := usize_add offset n in
  if (len buf <? lim)%N then Err (CodecError.Decode "truncated byte slice") else
  let? hi := usize_add offset n in
  let? bytes := slice buf offset hi in
  let? offset := usize_add offset n in
  Ok (bytes, offset).

(** Decimal display of a byte, as [format!("{}", b)] prints it. *)
Definition u8_fmt (b : u8) : string := pretty (Byte.to_N b).

Definition decode_committed (buf : list u8) : CRes CommittedVersion :=
  let offset := 0%N in
  if decide (buf = []) then Err (CodecError.Decode "empty buffer") else
  let? version := index buf offset in
  let? offset := usize_add offset 1 in
  if decide (version ≠ CODEC_VERSION) then
    Err (CodecError.Decode ("unknown codec version " +:+ u8_fmt version)) else
  let? lim := usize_add offset 1 in
  if (len buf <? lim)%N then Err (CodecError.Decode "missing record type") else
  let? record_type := index buf offset in
  let? offset := usize_add offset 1 in
  if decide (record_type ≠ RECORD_COMMITTED) then
    Err (CodecError.Decode ("expected committed record type " +:+
      u8_fmt RECORD_COMMITTED +:+ ", got " +:+ u8_fmt record_type)) else
  let? (key, offset) := decode_bytes buf offset in
  let? (ts, offset) := decode_u128 buf offset in
  let commit_ts := mkTimestamp ts in
  let? lim := usize_add offset 1 in
  if (len buf <? lim)%N then Err (CodecError.Decode "missing value flag") else
  let? flag := index buf offset in
  let? offset := usize_add offset 1 in
  let? (value, offset) :=
    (if decide (flag = FLAG_PRESENT) then
       let? (v, offset) := decode_bytes buf offset in
       Ok (Some v, offset)
     else if decide (flag = FLAG_ABSENT) then Ok (None, offset)
     else Err (CodecError.Decode ("unknown value flag " +:+ u8_fmt flag))) in
  if decide (offset ≠ len buf) then Err (CodecError.Decode "trailing garbage") else
  Ok (mkVersion key commit_ts value).

Definition decode_intent (buf : list u8) : CRes Intent :=
  let offset := 0%N in
  if decide (buf = []) then Err (CodecError.Decode "empty buffer") else
  let? version := index buf offset in
  let? offset := usize_add offset 1 in
  if decide (version ≠ CODEC_VERSION) then
    Err (CodecError.Decode ("unknown codec version " +:+ u8_fmt version)) else
  let? lim := usize_add offset 1 in
  if (len buf <? lim)%N then Err (CodecError.Decode "missing record type") else
  let? record_type := index buf offset in
  let? offset := usize_add offset 1 in
  if decide (record_type ≠ RECORD_INTENT) then
    Err (CodecError.Decode ("expected intent record type " +:+
      u8_fmt RECORD_INTENT +:+ ", got " +:+ u8_fmt record_type)) else
  let? (key, offset) := decode_bytes buf offset in
  let? (txn, offset) := decode_u64 buf offset in
  let txn_id := mkTxnId txn in
  let? (ts, offset) := decode_u128 buf offset in
  let start_ts := mkTimestamp ts in
  let? lim := usize_add offset 1 in
  if (len buf <? lim)%N then Err (CodecError.Decode "missing min_commit_ts flag") else
  let? flag := index buf offset in
  let? offset := usize_add offset 1 in
  let? (min_commit_ts, offset) :=
    (if decide (flag = FLAG_PRESENT) then
       let? (ts, offset) := decode_u128 buf offset in
       Ok (Some (mkTimestamp ts), offset)
     else if decide (flag = FLAG_ABSENT) then Ok (None, offset)
     else Err (CodecError.Decode ("unknown min_commit_ts flag " +:+ u8_fmt flag))) in
  let? lim := usize_add offset 1 in
  if (len buf <? lim)%N then Err (CodecError.Decode "missing mutation type") else
  let? mutation_type := index buf offset in
  let? offset := usize_add offset 1 in
  let? (mutation, offset) :=
    (if decide (mutation_type = MUTATION_PUT) then
       let? (v, offset) := decode_bytes buf offset in
       Ok (Put v, offset)
     else if decide (mutation_type = MUTATION_DELETE) then Ok (Delete, offset)
     else Err (CodecError.Decode ("unknown mutation type " +:+ u8_fmt mutation_type))) in
  if decide (offset ≠ len buf) then Err (CodecError.Decode "trailing garbage") else
  Ok (mkIntent key txn_id start_ts mutation min_commit_ts).
End decode.
