(* ===== verification/CodecSpec.v ===== *)
(** * CodecSpec: correctness of the record codec

    A reference parser that consumes a list, without offsets, [usize] or
    indexing; the proof that the offset-based decoders of [Codec] compute it on
    every buffer when [usize] is wider than 32 bits; and the theorems on the
    format, proved on the reference parser. *)
From S2P Require Export Codec.

(** ** The reference parser *)
Module Ref.
Definition parse_byte (e : string) (l : list u8) : CRes (u8 * list u8) :=
  match l with
  | [] => Err (CodecError.Decode e)
  | b :: l' => Ok (b, l')
  end.
Definition parse_fixed (n : nat) (e : string) (l : list u8) : CRes (list u8 * list u8) :=
  if (length l <? n)%nat then Err (CodecError.Decode e)
  else Ok (take n l, drop n l).
Definition parse_u32 (l : list u8) : CRes (u32 * list u8) :=
  let? (b, l) := parse_fixed 4 "truncated u32" l in Ok (from_be_bytes 32 b, l).
Definition parse_u64 (l : list u8) : CRes (u64 * list u8) :=
  let? (b, l) := parse_fixed 8 "truncated u64" l in Ok (from_be_bytes 64 b, l).
Definition parse_u128 (l : list u8) : CRes (u128 * list u8) :=
  let? (b, l) := parse_fixed 16 "truncated u128" l in Ok (from_be_bytes 128 b, l).
(** The announced length is compared with what is left before it is used, so a
    huge announced length costs nothing. *)
Definition parse_bytes (l : list u8) : CRes (list u8 * list u8) :=
  let? (n, l) := parse_u32 l in
  if (len l <? uval n)%N then Err (CodecError.Decode "truncated byte slice")
  else Ok (take (N.to_nat (uval n)) l, drop (N.to_nat (uval n)) l).
Definition parse_end {A} (a : A) (l : list u8) : CRes A :=
  if decide (l = []) then Ok a else Err (CodecError.Decode "trailing garbage").

Definition parse_header (ty : u8) (what : string) (l : list u8) : CRes (list u8) :=
  let? (v, l) := parse_byte "empty buffer" l in
  if decide (v ≠ CODEC_VERSION) then
    Err (CodecError.Decode ("unknown codec version " +:+ u8_fmt v)) else
  let? (t, l) := parse_byte "missing record type" l in
  if decide (t ≠ ty) then
    Err (CodecError.Decode (what +:+ u8_fmt ty +:+ ", got " +:+ u8_fmt t)) else
  Ok l.
Definition parse_value (l : list u8) : CRes (option Value * list u8) :=
  let? (flag, l) := parse_byte "missing value flag" l in
  if decide (flag = FLAG_PRESENT) then
    let? (v, l) := parse_bytes l in Ok (Some v, l)
  else if decide (flag = FLAG_ABSENT) then Ok (None, l)
  else Err (CodecError.Decode ("unknown value flag " +:+ u8_fmt flag)).
Definition parse_min_commit_ts (l : list u8) : CRes (option Timestamp * list u8) :=
  let? (flag, l) := parse_byte "missing min_commit_ts flag" l in
  if decide (flag = FLAG_PRESENT) then
    let? (ts, l) := parse_u128 l in Ok (Some (mkTimestamp ts), l)
  else if decide (flag = FLAG_ABSENT) then Ok (None, l)
  else Err (CodecError.Decode ("unknown min_commit_ts flag " +:+ u8_fmt flag)).
Definition parse_mutation (l : list u8) : CRes (Mutation * list u8) :=
  let? (ty, l) := parse_byte "missing mutation type" l in
  if decide (ty = MUTATION_PUT) then
    let? (v, l) := parse_bytes l in Ok (Put v, l)
  else if decide (ty = MUTATION_DELETE) then Ok (Delete, l)
  else Err (CodecError.Decode ("unknown mutation type " +:+ u8_fmt ty)).

Definition parse_committed (l : list u8) : CRes CommittedVersion :=
  let? l := parse_header RECORD_COMMITTED "expected committed record type " l in
  let? (key, l) := parse_bytes l in
  let? (ts, l) := parse_u128 l in
  let? (value, l) := parse_value l in
  parse_end (mkVersion key (mkTimestamp ts) value) l.
Definition parse_intent (l : list u8) : CRes Intent :=
  let? l := parse_header RECORD_INTENT "expected intent record type " l in
  let? (key, l) := parse_bytes l in
  let? (txn, l) := parse_u64 l in
  let? (ts, l) := parse_u128 l in
  let? (min, l) := parse_min_commit_ts l in
  let? (m, l) := parse_mutation l in
  parse_end (mkIntent key (mkTxnId txn) (mkTimestamp ts) m min) l.
End Ref.

(** ** The offset-based decoders compute the reference parser *)
Section offsets.
Context `{Platform}.

(** A buffer the allocator can hand out. *)
Definition fits (buf : list u8) : Prop := (len buf ≤ isize_MAX)%N.

(** [d] started at the end of [pre] consumes what [p] consumes of the rest. *)
Definition offset_of {A} (d : list u8 → N → CRes (A * N))
    (p : list u8 → CRes (A * list u8)) : Prop :=
  ∀ pre rest, fits (pre ++ rest) →
    match p rest with
    | Ok (a, rest') => ∃ mid, rest = mid ++ rest' ∧
        d (pre ++ rest) (len pre) = Ok (a, len (pre ++ mid))
    | Err e => d (pre ++ rest) (len pre) = Err e
    | Panic => False
    end.

Lemma usize_add_small pre rest (n : N) :
  fits (pre ++ rest) → (n ≤ 32767)%N →
  usize_add (E:=CodecError) (len pre) n = Ok (len pre + n)%N.
Proof.
  unfold fits. len_simpl. intros. apply usize_add_ok.
  rewrite usize_modulus_isize. pose proof isize_MAX_ge. lia.
Qed.

Lemma index_at pre (rest : list u8) (i : nat) b :
  rest !! i = Some b → index (pre ++ rest) (len pre + N.of_nat i) = Ok b.
Proof.
  intros Hi. pose proof (lookup_lt_Some _ _ _ Hi). unfold index.
  rewrite (proj2 (N.ltb_lt _ _)) by (len_simpl; unfold len; lia).
  unfold len. rewrite lookup_app_r by lia.
  replace (N.to_nat _ - length pre) with i by lia. by rewrite Hi.
Qed.
Lemma index_here pre b (rest : list u8) : index (pre ++ b :: rest) (len pre) = Ok b.
Proof. rewrite <-(index_at pre (b :: rest) 0 b eq_refl). by rewrite N.add_0_r. Qed.
Lemma slice_app pre mid rest :
  slice (pre ++ mid ++ rest) (len pre) (len pre + len mid) = Ok mid.
Proof.
  unfold slice. rewrite (proj2 (N.leb_le _ _)), (proj2 (N.leb_le _ _))
    by (len_simpl; lia). simpl.
  replace (len pre + len mid - len pre)%N with (len mid) by lia.
  unfold len. rewrite !Nat2N.id, drop_app_length, take_app_length. done.
Qed.

(** The bounds test at the head of the integer decoders. *)
Lemma bound_test pre (rest : list u8) (n : nat) :
  (len (pre ++ rest) <? len pre + N.of_nat n)%N = (length rest <? n)%nat.
Proof.
  len_simpl. unfold len.
  destruct (N.ltb_spec (N.of_nat (length pre) + N.of_nat (length rest))
    (N.of_nat (length pre) + N.of_nat n)), (Nat.ltb_spec (length rest) n); lia.
Qed.

Ltac step_index :=
  repeat first
    [ match goal with
      | Hf : fits (?p ++ ?r) |- _ =>
          rewrite (usize_add_small p r) by (exact Hf || lia); cbn [res_bind]
      end
    | rewrite index_here; cbn [res_bind]
    | match goal with
      | |- context [index (?p ++ ?r) (len ?p + ?k)] =>
          let i := eval vm_compute in (N.to_nat k) in
          lazymatch eval cbn in (nth_error r i) with
          | Some ?b => rewrite (index_at p r i b eq_refl
              : index (p ++ r) (len p + k) = Ok b); cbn [res_bind]
          end
      end ].

Lemma decode_u32_offset : offset_of decode_u32 Ref.parse_u32.
Proof.
  intros pre rest Hfit. unfold decode_u32, Ref.parse_u32, Ref.parse_fixed.
  rewrite (usize_add_small pre rest) by (done || lia). cbn [res_bind].
  rewrite (bound_test pre rest 4 : (_ <? _ + 4)%N = _).
  destruct (Nat.ltb_spec (length rest) 4) as [|Hl]; [done|].
  destruct rest as [|b0 [|b1 [|b2 [|b3 rest]]]]; simpl in Hl; try lia.
  cbn [res_bind take drop]. step_index.
  exists [b0; b1; b2; b3]. split; [done|]. by len_simpl.
Qed.
Lemma decode_u64_offset : offset_of decode_u64 Ref.parse_u64.
Proof.
  intros pre rest Hfit. unfold decode_u64, Ref.parse_u64, Ref.parse_fixed.
  rewrite (usize_add_small pre rest) by (done || lia). cbn [res_bind].
  rewrite (bound_test pre rest 8 : (_ <? _ + 8)%N = _).
  destruct (Nat.ltb_spec (length rest) 8) as [|Hl]; [done|].
  destruct rest as [|b0 [|b1 [|b2 [|b3 [|b4 [|b5 [|b6 [|b7 rest]]]]]]]];
    simpl in Hl; try lia.
  cbn [res_bind take drop]. step_index.
  exists [b0; b1; b2; b3; b4; b5; b6; b7]. split; [done|]. by len_simpl.
Qed.
Lemma decode_u128_offset : offset_of decode_u128 Ref.parse_u128.
Proof.
  intros pre rest Hfit. unfold decode_u128, Ref.parse_u128, Ref.parse_fixed.
  rewrite (usize_add_small pre rest) by (done || lia). cbn [res_bind].
  rewrite (bound_test pre rest 16 : (_ <? _ + 16)%N = _).
  destruct (Nat.ltb_spec (length rest) 16) as [|Hl]; [done|]. cbn [res_bind].
  assert (Hmid : len (take 16 rest) = 16%N).
  { unfold len. rewrite length_take. lia. }
  pose proof (slice_app pre (take 16 rest) (drop 16 rest)) as Hs.
  rewrite take_drop, Hmid in Hs. rewrite Hs. cbn [res_bind].
  rewrite Hmid. cbn [res_bind N.eqb Pos.eqb].
  exists (take 16 rest). rewrite take_drop. split; [done|].
  by rewrite len_app, Hmid.
Qed.

(** Composition: one decoding step against one parsing step. *)
Lemma offset_step {A B} (d : list u8 → N → CRes (A * N)) p buf pre rest
    (k : A * N → CRes B) (k' : A * list u8 → CRes B) :
  offset_of d p → fits buf → buf = pre ++ rest →
  (∀ a pre' rest', buf = pre' ++ rest' → k (a, len pre') = k' (a, rest')) →
  res_bind (d buf (len pre)) k = res_bind (p rest) k'.
Proof.
  intros Hd Hfit -> Hk. specialize (Hd pre rest Hfit).
  destruct (p rest) as [[a rest']|e|]; simpl; [|by rewrite Hd|done].
  destruct Hd as (mid&->&Hd). rewrite Hd. simpl. apply Hk. by rewrite app_assoc.
Qed.
Lemma byte_step {B} e buf pre rest (k : u8 → N → CRes B) (k' : u8 * list u8 → CRes B) :
  fits buf → buf = pre ++ rest →
  (∀ b pre' rest', buf = pre' ++ rest' → k b (len pre') = k' (b, rest')) →
  (let? lim := usize_add (len pre) 1 in
   if (len buf <? lim)%N then Err (CodecError.Decode e) else
   let? b := index buf (len pre) in
   let? offset := usize_add (len pre) 1 in
   k b offset) = res_bind (Ref.parse_byte e rest) k'.
Proof.
  intros Hfit -> Hk. rewrite (usize_add_small pre rest) by (done || lia). simpl.
  rewrite (bound_test pre rest 1 : (_ <? _ + 1)%N = _).
  destruct rest as [|b rest]; [done|].
  destruct (Nat.ltb_spec (length (b :: rest)) 1) as [Hl|_]; [simpl in Hl; lia|].
  rewrite index_here. simpl. rewrite <-(Hk b (pre ++ [b]) rest).
  - by len_simpl.
  - by rewrite <-app_assoc.
Qed.
(** The first byte is read without a bounds test. *)
Lemma first_step {B} buf (k : u8 → N → CRes B) (k' : u8 * list u8 → CRes B) :
  fits buf →
  (∀ b pre' rest', buf = pre' ++ rest' → k b (len pre') = k' (b, rest')) →
  (if decide (buf = []) then Err (CodecError.Decode "empty buffer") else
   let? b := index buf 0 in
   let? offset := usize_add 0 1 in
   k b offset) = res_bind (Ref.parse_byte "empty buffer" buf) k'.
Proof.
  intros Hfit Hk. destruct buf as [|b buf]; [by rewrite decide_True|].
  rewrite decide_False by done.
  rewrite (index_here [] b buf : index (b :: buf) 0 = Ok b). simpl.
  rewrite (usize_add_small [] (b :: buf) 1 Hfit ltac:(done) : usize_add 0 1 = _). simpl.
  by apply (Hk b [b] buf).
Qed.
Lemma end_step {A} (a : A) buf pre rest :
  buf = pre ++ rest →
  (if decide (len pre ≠ len buf)
   then Err (CodecError.Decode "trailing garbage") else Ok a) = Ref.parse_end a rest.
Proof.
  intros ->. unfold Ref.parse_end. len_simpl. destruct rest as [|b rest].
  - rewrite decide_False, decide_True by (done || (rewrite len_nil; lia)). done.
  - rewrite decide_True by (len_simpl; lia). by rewrite decide_False.
Qed.
(** Where the addition of the announced length does not overflow. *)
Lemma decode_bytes_at pre rest :
  fits (pre ++ rest) →
  (∀ (n : u32) mid rest', rest = mid ++ rest' → Ref.parse_u32 rest = Ok (n, rest') →
     usize_add (E:=CodecError) (len (pre ++ mid)) (uval n mod usize_modulus)
       = Ok (len (pre ++ mid) + uval n)%N) →
  match Ref.parse_bytes rest with
  | Ok (a, rest') => ∃ mid, rest = mid ++ rest' ∧
      decode_bytes (pre ++ rest) (len pre) = Ok (a, len (pre ++ mid))
  | Err e => decode_bytes (pre ++ rest) (len pre) = Err e
  | Panic => False
  end.
Proof.
  intros Hfit Hadd. unfold decode_bytes, Ref.parse_bytes.
  pose proof (decode_u32_offset pre rest Hfit) as H32.
  destruct (Ref.parse_u32 rest) as [[n rest']|e|] eqn:E; cbn [res_bind]; [|by rewrite H32|done].
  destruct H32 as (mid&->&H32). rewrite H32. cbn [res_bind].
  specialize (Hadd n mid rest' eq_refl eq_refl). rewrite (app_assoc pre mid rest') in *.
  rewrite Hadd. cbn [res_bind].
  pose proof (bound_test (pre ++ mid) rest' (N.to_nat (uval n))) as Hb.
  rewrite N2Nat.id in Hb. rewrite Hb. clear Hb.
  replace (len rest' <? uval n)%N with (length rest' <? N.to_nat (uval n))%nat
    by (unfold len; destruct (Nat.ltb_spec (length rest') (N.to_nat (uval n))),
         (N.ltb_spec (N.of_nat (length rest')) (uval n)); lia).
  destruct (Nat.ltb_spec (length rest') (N.to_nat (uval n))) as [|Hl]; [done|].
  set (body := take (N.to_nat (uval n)) rest').
  assert (Hbody : len body = uval n).
  { unfold len, body. rewrite length_take. lia. }
  pose proof (slice_app (pre ++ mid) body (drop (N.to_nat (uval n)) rest')) as Hs.
  unfold body in Hs at 1. rewrite take_drop, Hbody in Hs. rewrite Hs. cbn [res_bind].
  exists (mid ++ body). unfold body at 1. rewrite <-app_assoc, take_drop.
  split; [done|]. by rewrite app_assoc, (len_app (pre ++ mid)), Hbody.
Qed.
End offsets.

Lemma res_bind_assoc {E A B C} (r : res E A) (f : A → res E B) (g : B → res E C) :
  res_bind (res_bind r f) g = res_bind r (λ a, res_bind (f a) g).
Proof. by destruct r. Qed.
Lemma res_bind_Err {E A B} (e : E) (f : A → res E B) : res_bind (Err e) f = Err e.
Proof. done. Qed.
Lemma res_bind_Ok_l {E A B} (a : A) (f : A → res E B) : res_bind (Ok a) f = f a.
Proof. done. Qed.

Section records.
Context `{Platform}.
Context (Hwide : (33 ≤ usize_bits)%N).

Lemma usize_add_u32 pre rest (n : u32) :
  fits (pre ++ rest) →
  usize_add (E:=CodecError) (len pre) (uval n mod usize_modulus)
    = Ok (len pre + uval n)%N.
Proof using Hwide.
  unfold fits. len_simpl. intros. pose proof (uval_lt n).
  assert (2 ^ 32 ≤ 2 ^ (usize_bits - 1))%N by (apply N.pow_le_mono_r; lia).
  pose proof usize_modulus_isize. unfold isize_MAX in *.
  rewrite N.mod_small by lia. apply usize_add_ok. lia.
Qed.

Lemma decode_bytes_offset : offset_of decode_bytes Ref.parse_bytes.
Proof using Hwide.
  intros pre rest Hfit. apply decode_bytes_at; [done|]. intros n mid rest' -> _.
  apply (usize_add_u32 _ rest'). by rewrite <-app_assoc.
Qed.

Ltac codec_step :=
  rewrite ?res_bind_assoc;
  first
    [ reflexivity
    | eapply end_step; eassumption
    | eapply first_step; [done|]
    | eapply byte_step; [done|eassumption|]
    | eapply (offset_step decode_bytes Ref.parse_bytes);
        [by apply decode_bytes_offset|done|eassumption|]
    | eapply (offset_step decode_u64 Ref.parse_u64);
        [by apply decode_u64_offset|done|eassumption|]
    | eapply (offset_step decode_u128 Ref.parse_u128);
        [by apply decode_u128_offset|done|eassumption|]
    | case_decide; [done|]
    | case_decide ];
  intros; rewrite ?res_bind_Ok_l.

(** The decoders of a record and the reference parsers agree on every buffer. *)
Lemma decode_committed_ref buf :
  fits buf → decode_committed buf = Ref.parse_committed buf.
Proof using Hwide.
  intros Hfit. unfold decode_committed, Ref.parse_committed, Ref.parse_header,
    Ref.parse_value.
  repeat codec_step.
Qed.
Lemma decode_intent_ref buf :
  fits buf → decode_intent buf = Ref.parse_intent buf.
Proof using Hwide.
  intros Hfit. unfold decode_intent, Ref.parse_intent, Ref.parse_header,
    Ref.parse_min_commit_ts, Ref.parse_mutation.
  repeat codec_step.
Qed.
End records.

(** ** The format *)

(** [p] accepts exactly the images under [R] and leaves the rest untouched. *)
Definition codec_pair {A} (p : list u8 → CRes (A * list u8)) (R : A → list u8 → Prop) : Prop :=
  ∀ l a l', p l = Ok (a, l') ↔ ∃ m, R a m ∧ l = m ++ l'.

Section format.
Lemma parse_fixed_pair n e :
  codec_pair (Ref.parse_fixed n e) (λ b m, m = b ∧ length b = n).
Proof.
  intros l b l'. unfold Ref.parse_fixed. destruct (Nat.ltb_spec (length l) n) as [Hl|Hl].
  - split; [done|]. intros (m&[-> <-]&->). rewrite length_app in Hl. lia.
  - split.
    + intros [= <- <-]. exists (take n l). rewrite take_drop, length_take.
      split; [split; [done|lia]|done].
    + intros (m&[-> <-]&->). by rewrite take_app_length, drop_app_length.
Qed.
Lemma parse_int_pair n w e :
  (256 ^ N.of_nat n = 2 ^ w)%N →
  codec_pair (λ l, let? (b, l) := Ref.parse_fixed n e l in Ok (from_be_bytes w b, l))
    (λ v m, m = to_be_bytes n v).
Proof.
  intros Hw l v l'. rewrite res_bind_Ok. split.
  - intros ([b r]&H&[= <- <-]). apply parse_fixed_pair in H as (m&[-> Hb]&->).
    exists b. split; [|done]. by rewrite to_from_be_bytes.
  - intros (m&->&->). exists (to_be_bytes n v, l'). split.
    + apply parse_fixed_pair. eexists. split; [|done]. by rewrite length_to_be_bytes.
    + by rewrite from_to_be_bytes.
Qed.
Lemma parse_u32_pair : codec_pair Ref.parse_u32 (λ v m, m = encode_u32 v).
Proof. by apply (parse_int_pair 4 32). Qed.
Lemma parse_u64_pair : codec_pair Ref.parse_u64 (λ v m, m = encode_u64 v).
Proof. by apply (parse_int_pair 8 64). Qed.
Lemma parse_u128_pair : codec_pair Ref.parse_u128 (λ v m, m = encode_u128 v).
Proof. by apply (parse_int_pair 16 128). Qed.

(** [encode_bytes] appends a length-prefixed image. *)
Lemma encode_bytes_Ok buf b m :
  encode_bytes buf b = Ok m ↔
  ∃ n : u32, uval n = len b ∧ m = buf ++ encode_u32 n ++ b.
Proof.
  unfold encode_bytes. destruct (uint_try_from (len b)) as [n|] eqn:E.
  - apply uint_try_from_Some in E. split.
    + intros [= <-]. eauto.
    + intros (n'&Hn&->). do 3 f_equal. f_equal. apply uint_eq. congruence.
  - apply uint_try_from_None in E. split; [done|]. intros (n&Hn&_).
    pose proof (uval_lt n). lia.
Qed.
Lemma encode_bytes_Err buf b e :
  encode_bytes buf b = Err e ↔
  (2 ^ 32 ≤ len b)%N ∧ e = CodecError.Encode "byte slice too long".
Proof.
  unfold encode_bytes. destruct (uint_try_from (len b)) as [n|] eqn:E.
  - apply uint_try_from_Some in E. split; [done|]. intros [? _].
    pose proof (uval_lt n). lia.
  - apply uint_try_from_None in E. split; [by intros [= <-]|]. by intros [_ ->].
Qed.
Lemma encode_bytes_no_panic buf b : encode_bytes buf b ≠ Panic.
Proof. unfold encode_bytes. by destruct (uint_try_from _). Qed.
Lemma parse_bytes_pair : codec_pair Ref.parse_bytes (λ b m, encode_bytes [] b = Ok m).
Proof.
  intros l b l'. unfold Ref.parse_bytes. rewrite res_bind_Ok. split.
  - intros ([n r]&H&Hr). apply parse_u32_pair in H as (m&->&->).
    destruct (N.ltb_spec (len r) (uval n)) as [|Hl]; [done|].
    injection Hr as <- <-. eexists. split.
    + apply encode_bytes_Ok. exists n. split; [|done].
      unfold len in *. rewrite length_take. lia.
    + by rewrite app_nil_l, <-app_assoc, take_drop.
  - intros (m&(n&Hn&->)%encode_bytes_Ok&->). exists (n, b ++ l'). split.
    + apply parse_u32_pair. eexists. split; [done|]. by rewrite app_nil_l, <-app_assoc.
    + rewrite Hn. destruct (N.ltb_spec (len (b ++ l')) (len b)) as [Hl|_].
      { len_simpl. lia. }
      unfold len. by rewrite Nat2N.id, take_app_length, drop_app_length.
Qed.
Lemma parse_end_Ok {A} (a b : A) l : Ref.parse_end a l = Ok b ↔ a = b ∧ l = [].
Proof. unfold Ref.parse_end. case_decide; naive_solver. Qed.
Lemma parse_byte_Ok e l b l' : Ref.parse_byte e l = Ok (b, l') ↔ l = b :: l'.
Proof. destruct l; simpl; naive_solver. Qed.
Lemma parse_header_Ok ty what l l' :
  Ref.parse_header ty what l = Ok l' ↔ l = [CODEC_VERSION; ty] ++ l'.
Proof.
  unfold Ref.parse_header. destruct l as [|v [|t l]]; simpl; try case_decide;
    try case_decide; naive_solver.
Qed.
End format.

Section format_fields.
(** The images of the tagged fields. *)
Definition value_image (v : option Value) (m : list u8) : Prop :=
  match v with
  | Some v => ∃ m', encode_bytes [] v = Ok m' ∧ m = FLAG_PRESENT :: m'
  | None => m = [FLAG_ABSENT]
  end.
Definition min_image (t : option Timestamp) (m : list u8) : Prop :=
  match t with
  | Some t => m = FLAG_PRESENT :: encode_u128 (Timestamp_0 t)
  | None => m = [FLAG_ABSENT]
  end.
Definition mutation_image (mu : Mutation) (m : list u8) : Prop :=
  match mu with
  | Put v => ∃ m', encode_bytes [] v = Ok m' ∧ m = MUTATION_PUT :: m'
  | Delete => m = [MUTATION_DELETE]
  end.

Lemma parse_value_pair : codec_pair Ref.parse_value value_image.
Proof.
  intros l v l'. unfold Ref.parse_value. rewrite res_bind_Ok. split.
  - intros ([f r]&->%parse_byte_Ok&H). case_decide as Hf; [|case_decide as Hf']; subst; simplify_eq.
    + apply res_bind_Ok in H as ([b r']&(m&?&->)%parse_bytes_pair&[= <- <-]).
      exists (FLAG_PRESENT :: m). split; [|done]. simpl. eauto.
    + by exists [FLAG_ABSENT].
  - intros (m&Hv&->). destruct v as [v|]; simpl in Hv.
    + destruct Hv as (m'&Hm&->). exists (FLAG_PRESENT, m' ++ l'). split; [done|].
      rewrite decide_True by done. apply res_bind_Ok. exists (v, l'). split; [|done].
      apply parse_bytes_pair. eauto.
    + subst. by exists (FLAG_ABSENT, l').
Qed.
Lemma parse_min_pair : codec_pair Ref.parse_min_commit_ts min_image.
Proof.
  intros l v l'. unfold Ref.parse_min_commit_ts. rewrite res_bind_Ok. split.
  - intros ([f r]&->%parse_byte_Ok&H). case_decide as Hf; [|case_decide as Hf']; subst; simplify_eq.
    + apply res_bind_Ok in H as ([b r']&(m&->&->)%parse_u128_pair&[= <- <-]).
      by exists (FLAG_PRESENT :: encode_u128 b).
    + by exists [FLAG_ABSENT].
  - intros (m&Hv&->). destruct v as [[v]|]; simpl in Hv; subst.
    + exists (FLAG_PRESENT, encode_u128 v ++ l'). split; [done|].
      rewrite decide_True by done. apply res_bind_Ok. exists (v, l'). split; [|done].
      apply parse_u128_pair. eauto.
    + by exists (FLAG_ABSENT, l').
Qed.
Lemma parse_mutation_pair : codec_pair Ref.parse_mutation mutation_image.
Proof.
  intros l v l'. unfold Ref.parse_mutation. rewrite res_bind_Ok. split.
  - intros ([f r]&->%parse_byte_Ok&H). case_decide as Hf; [|case_decide as Hf']; subst; simplify_eq.
    + apply res_bind_Ok in H as ([b r']&(m&?&->)%parse_bytes_pair&[= <- <-]).
      exists (MUTATION_PUT :: m). split; [|done]. simpl. eauto.
    + by exists [MUTATION_DELETE].
  - intros (m&Hv&->). destruct v as [v|]; simpl in Hv.
    + destruct Hv as (m'&Hm&->). exists (MUTATION_PUT, m' ++ l'). split; [done|].
      rewrite decide_True by done. apply res_bind_Ok. exists (v, l'). split; [|done].
      apply parse_bytes_pair. eauto.
    + subst. by exists (MUTATION_DELETE, l').
Qed.

(** What the record encoders produce. *)
Lemma encode_bytes_app buf b :
  encode_bytes buf b = let? m := encode_bytes [] b in Ok (buf ++ m).
Proof. unfold encode_bytes. by destruct (uint_try_from _). Qed.
Lemma encode_committed_Ok v m :
  encode_committed v = Ok m ↔
  ∃ mk mv, encode_bytes [] (cv_key v) = Ok mk ∧ value_image (cv_value v) mv ∧
    m = [CODEC_VERSION; RECORD_COMMITTED] ++ mk ++
        encode_u128 (Timestamp_0 (cv_commit_ts v)) ++ mv.
Proof.
  unfold encode_committed. rewrite encode_bytes_app, res_bind_assoc, res_bind_Ok.
  split.
  - intros (mk&Hk&Hv). destruct (cv_value v) as [b|]; cbn [res_bind] in Hv.
    + rewrite encode_bytes_app, res_bind_Ok in Hv. destruct Hv as (mv&Hv&[= <-]).
      exists mk, (FLAG_PRESENT :: mv). split_and!; [done|simpl; eauto|].
      by rewrite <-!app_assoc.
    + injection Hv as <-. exists mk, [FLAG_ABSENT]. split_and!; [done..|].
      by rewrite <-!app_assoc.
  - intros (mk&mv&Hk&Hv&->). exists mk. split; [done|]. cbn [res_bind].
    destruct (cv_value v) as [b|]; simpl in Hv.
    + destruct Hv as (m'&Hm&->). rewrite encode_bytes_app, Hm. cbn [res_bind].
      by rewrite <-!app_assoc.
    + subst mv. by rewrite <-!app_assoc.
Qed.
Lemma encode_intent_Ok i m :
  encode_intent i = Ok m ↔
  ∃ mk mt mv, encode_bytes [] (intent_key i) = Ok mk ∧
    min_image (intent_min_commit_ts i) mt ∧ mutation_image (intent_mutation i) mv ∧
    m = [CODEC_VERSION; RECORD_INTENT] ++ mk ++ encode_u64 (TxnId_0 (intent_txn_id i)) ++
        encode_u128 (Timestamp_0 (intent_start_ts i)) ++ mt ++ mv.
Proof.
  unfold encode_intent. rewrite encode_bytes_app, res_bind_assoc, res_bind_Ok.
  assert (∀ buf t, ∃ mt, min_image t mt ∧
    match t with
    | Some ts => (buf ++ [FLAG_PRESENT]) ++ encode_u128 (Timestamp_0 ts)
    | None => buf ++ [FLAG_ABSENT]
    end = buf ++ mt) as Hmin.
  { intros buf [t|]; simpl; eexists; split; try done. by rewrite <-app_assoc. }
  assert (∀ t m m', min_image t m → min_image t m' → m = m') as Hfun.
  { intros [t|]; simpl; congruence. }
  split.
  - intros (mk&Hk&Hv). cbn [res_bind] in Hv.
    destruct (Hmin (((([] ++ [CODEC_VERSION]) ++ [RECORD_INTENT]) ++ mk) ++
      encode_u64 (TxnId_0 (intent_txn_id i)) ++ encode_u128 (Timestamp_0 (intent_start_ts i)))
      (intent_min_commit_ts i)) as (mt&Hmt&Emt).
    rewrite app_assoc in Emt. rewrite Emt in Hv. exists mk, mt.
    destruct (intent_mutation i) as [b|]; cbn [res_bind] in Hv.
    + rewrite encode_bytes_app, res_bind_Ok in Hv. destruct Hv as (mv&Hv&[= <-]).
      exists (MUTATION_PUT :: mv). split_and!; [done|done|simpl; eauto|].
      by rewrite <-!app_assoc.
    + injection Hv as <-. exists [MUTATION_DELETE]. split_and!; [done..|].
      by rewrite <-!app_assoc.
  - intros (mk&mt&mv&Hk&Ht&Hv&->). exists mk. split; [done|]. cbn [res_bind].
    destruct (Hmin (((([] ++ [CODEC_VERSION]) ++ [RECORD_INTENT]) ++ mk) ++
      encode_u64 (TxnId_0 (intent_txn_id i)) ++ encode_u128 (Timestamp_0 (intent_start_ts i)))
      (intent_min_commit_ts i)) as (mt'&Hmt&Emt).
    rewrite (Hfun _ _ _ Hmt Ht) in Emt.
    rewrite app_assoc in Emt. rewrite Emt.
    destruct (intent_mutation i) as [b|]; simpl in Hv.
    + destruct Hv as (m'&Hm&->). rewrite encode_bytes_app, Hm. cbn [res_bind].
      by rewrite <-!app_assoc.
    + subst mv. by rewrite <-!app_assoc.
Qed.
End format_fields.

Lemma parse_committed_iff l v :
  Ref.parse_committed l = Ok v ↔ encode_committed v = Ok l.
Proof.
  unfold Ref.parse_committed. rewrite encode_committed_Ok. split.
  - intros (l1&->%parse_header_Ok&H)%res_bind_Ok.
    apply res_bind_Ok in H as ([k l2]&(mk&Hk&->)%parse_bytes_pair&H).
    apply res_bind_Ok in H as ([t l3]&(mt&->&->)%parse_u128_pair&H).
    apply res_bind_Ok in H as ([o l4]&(mv&Hv&->)%parse_value_pair&H).
    apply parse_end_Ok in H as [<- ->]. exists mk, mv. rewrite app_nil_r. done.
  - intros (mk&mv&Hk&Hv&->). apply res_bind_Ok. eexists. split.
    { by apply parse_header_Ok. }
    apply res_bind_Ok. eexists (_, _). split; [apply parse_bytes_pair; eauto|].
    apply res_bind_Ok. eexists (_, _). split; [apply parse_u128_pair; eauto|].
    apply res_bind_Ok. exists (cv_value v, []). split.
    { apply parse_value_pair. exists mv. by rewrite app_nil_r. }
    apply parse_end_Ok. split; [|done]. by destruct v as [? [?] ?].
Qed.
Lemma parse_intent_iff l i :
  Ref.parse_intent l = Ok i ↔ encode_intent i = Ok l.
Proof.
  unfold Ref.parse_intent. rewrite encode_intent_Ok. split.
  - intros (l1&->%parse_header_Ok&H)%res_bind_Ok.
    apply res_bind_Ok in H as ([k l2]&(mk&Hk&->)%parse_bytes_pair&H).
    apply res_bind_Ok in H as ([x l3]&(mx&->&->)%parse_u64_pair&H).
    apply res_bind_Ok in H as ([t l4]&(mt&->&->)%parse_u128_pair&H).
    apply res_bind_Ok in H as ([o l5]&(mo&Ho&->)%parse_min_pair&H).
    apply res_bind_Ok in H as ([mu l6]&(mv&Hv&->)%parse_mutation_pair&H).
    apply parse_end_Ok in H as [<- ->]. exists mk, mo, mv. rewrite app_nil_r. done.
  - intros (mk&mo&mv&Hk&Ho&Hv&->). apply res_bind_Ok. eexists. split.
    { by apply parse_header_Ok. }
    apply res_bind_Ok. eexists (_, _). split; [apply parse_bytes_pair; eauto|].
    apply res_bind_Ok. eexists (_, _). split; [apply parse_u64_pair; eauto|].
    apply res_bind_Ok. eexists (_, _). split; [apply parse_u128_pair; eauto|].
    apply res_bind_Ok. eexists (_, _). split; [apply parse_min_pair; eauto|].
    apply res_bind_Ok. exists (intent_mutation i, []). split.
    { apply parse_mutation_pair. exists mv. by rewrite app_nil_r. }
    apply parse_end_Ok. split; [|done]. by destruct i as [? [?] [?] ? ?].
Qed.

(** The parsers never panic, and trailing bytes after a record are rejected. *)
Lemma res_bind_no_panic {E A B} (r : res E A) (k : A → res E B) :
  r ≠ Panic → (∀ a, k a ≠ Panic) → res_bind r k ≠ Panic.
Proof. destruct r; simpl; auto. Qed.
Lemma parse_bytes_no_panic l : Ref.parse_bytes l ≠ Panic.
Proof.
  unfold Ref.parse_bytes, Ref.parse_u32, Ref.parse_fixed.
  repeat (apply res_bind_no_panic; [|intros [? ?]]);
    first [discriminate | case_match; discriminate].
Qed.
Ltac no_panic :=
  repeat first
    [ discriminate
    | apply parse_bytes_no_panic
    | apply res_bind_no_panic; [|intros [? ?]]
    | apply res_bind_no_panic; [|intros ?]
    | case_match ].
Lemma parse_committed_no_panic l : Ref.parse_committed l ≠ Panic.
Proof.
  unfold Ref.parse_committed, Ref.parse_header, Ref.parse_u128, Ref.parse_value,
    Ref.parse_byte, Ref.parse_end, Ref.parse_fixed. no_panic.
Qed.
Lemma parse_intent_no_panic l : Ref.parse_intent l ≠ Panic.
Proof.
  unfold Ref.parse_intent, Ref.parse_header, Ref.parse_min_commit_ts,
    Ref.parse_mutation, Ref.parse_u128, Ref.parse_u64, Ref.parse_byte,
    Ref.parse_end, Ref.parse_fixed. no_panic.
Qed.

(** ** Properties *)

(** C14 (round trip and canonicity, committed versions).  On a target whose [usize]
    is wider than 32 bits, [decode_committed] accepts a buffer with result [v]
    exactly when the buffer is the encoding of [v]: decoding inverts encoding, and
    no other byte string (old version byte, truncated, padded, trailing garbage,
    non-canonical flag) decodes to anything. *)
Theorem decode_committed_iff_encode `{Platform} (buf : list u8) (v : CommittedVersion)
    (Hwide : (33 ≤ usize_bits)%N) (Hfit : fits buf) :
  decode_committed buf = Ok v ↔ encode_committed v = Ok buf.
Proof. rewrite decode_committed_ref by done. apply parse_committed_iff. Qed.

Definition sample_version : CommittedVersion := mkVersion [x61; x62] (TS 300) (Some [x01]).
Definition sample_bytes : list u8 :=
  [x02; x01; x00; x00; x00; x02; x61; x62;
   x00; x00; x00; x00; x00; x00; x00; x00; x00; x00; x00; x00; x00; x00; x01; x2c;
   x01; x00; x00; x00; x01; x01].

Lemma decode_committed_iff_encode_witness :
  (33 ≤ @usize_bits release64)%N ∧ @fits release64 sample_bytes ∧
  @decode_committed release64 sample_bytes = Ok sample_version.
Proof.
  split; [done|]. split; [done|].
  apply (@decode_committed_iff_encode release64 sample_bytes sample_version).
  - done.
  - done.
  - vm_compute. reflexivity.
Defined.

(** C15 (round trip and canonicity, intents): the same for [decode_intent]. *)
Theorem decode_intent_iff_encode `{Platform} (buf : list u8) (i : Intent)
    (Hwide : (33 ≤ usize_bits)%N) (Hfit : fits buf) :
  decode_intent buf = Ok i ↔ encode_intent i = Ok buf.
Proof. rewrite decode_intent_ref by done. apply parse_intent_iff. Qed.

Definition sample_intent : Intent :=
  mkIntent [x6b] (TXN 7) (TS 5) Delete (Some (TS 9)).
Definition sample_intent_bytes : list u8 :=
  [x02; x02; x00; x00; x00; x01; x6b;
   x00; x00; x00; x00; x00; x00; x00; x07;
   x00; x00; x00; x00; x00; x00; x00; x00; x00; x00; x00; x00; x00; x00; x00; x05;
   x01; x00; x00; x00; x00; x00; x00; x00; x00; x00; x00; x00; x00; x00; x00; x00; x09;
   x02].
Lemma decode_intent_iff_encode_witness :
  (33 ≤ @usize_bits release64)%N ∧ @fits release64 sample_intent_bytes ∧
  @decode_intent release64 sample_intent_bytes = Ok sample_intent.
Proof.
  split; [done|]. split; [done|].
  apply (@decode_intent_iff_encode release64 sample_intent_bytes sample_intent).
  - done.
  - done.
  - vm_compute. reflexivity.
Defined.

(** C33 (safety of the decoders): on such a target no buffer makes a decoder panic,
    whatever lengths it announces. *)
Theorem decode_never_panics `{Platform} (buf : list u8)
    (Hwide : (33 ≤ usize_bits)%N) (Hfit : fits buf) :
  decode_committed buf ≠ Panic ∧ decode_intent buf ≠ Panic.
Proof.
  rewrite decode_committed_ref, decode_intent_ref by done.
  split; [apply parse_committed_no_panic|apply parse_intent_no_panic].
Qed.
Lemma decode_never_panics_witness :
  (33 ≤ @usize_bits release64)%N ∧ @decode_committed release64 sample_bytes ≠ Panic.
Proof. split; [done|]. apply (@decode_never_panics release64 sample_bytes); done. Defined.

(** C40 (errors of the encoders): encoding never panics and fails exactly when a
    key or value is longer than [u32::MAX] bytes. *)
Theorem encode_committed_fails_iff (v : CommittedVersion) :
  encode_committed v ≠ Panic ∧
  ((∃ e, encode_committed v = Err e) ↔
   (2 ^ 32 ≤ len (cv_key v))%N ∨ (∃ b, cv_value v = Some b ∧ (2 ^ 32 ≤ len b)%N)).
Proof.
  unfold encode_committed. pose proof (encode_bytes_Err (([] ++ [CODEC_VERSION])
    ++ [RECORD_COMMITTED]) (cv_key v)) as Hk.
  pose proof (encode_bytes_no_panic (([] ++ [CODEC_VERSION])
    ++ [RECORD_COMMITTED]) (cv_key v)) as Hnp.
  destruct (encode_bytes _ (cv_key v)) as [buf|e|] eqn:Ek; cbn [res_bind]; [|naive_solver|done].
  apply encode_bytes_Ok in Ek as (n&Hn&_). pose proof (uval_lt n).
  destruct (cv_value v) as [b|]; [|naive_solver lia].
  split; [apply encode_bytes_no_panic|]. setoid_rewrite encode_bytes_Err. naive_solver lia.
Qed.

(** The byte-wise order of encoded timestamps is their numeric
    order. *)
Theorem encode_u128_monotone (x y : u128) :
  rcmp (encode_u128 x) (encode_u128 y) = rcmp x y.
Proof. by apply to_be_bytes_cmp. Qed.
