(* ===== verification/CodecPanic.v ===== *)
(** * CodecPanic: the buffers on which a decoder panics

    [decode_bytes] adds the announced length to the offset before it compares the sum
    with the length of the buffer.  On a [usize] of 32 bits the sum can overflow: the
    decoders compute the reference parser except there, where they panic under both
    build profiles. *)
From S2P Require Export CodecSpec.

Lemma res_bind_Panic {E A B} (r : res E A) (k : A → res E B) :
  res_bind r k = Panic ↔ r = Panic ∨ ∃ a, r = Ok a ∧ k a = Panic.
Proof. destruct r; simpl; naive_solver. Qed.

(** The fields between the byte strings are parsed without a panic. *)
Lemma parse_u64_no_panic l : Ref.parse_u64 l ≠ Panic.
Proof. unfold Ref.parse_u64, Ref.parse_fixed. no_panic. Qed.
Lemma parse_u128_no_panic l : Ref.parse_u128 l ≠ Panic.
Proof. unfold Ref.parse_u128, Ref.parse_fixed. no_panic. Qed.
Lemma parse_min_no_panic l : Ref.parse_min_commit_ts l ≠ Panic.
Proof.
  unfold Ref.parse_min_commit_ts, Ref.parse_byte, Ref.parse_u128, Ref.parse_fixed. no_panic.
Qed.
Create HintDb codec discriminated.
#[export] Hint Resolve parse_u64_no_panic parse_u128_no_panic parse_min_no_panic : codec.

Section panic.
Context `{Platform}.
(** Wide enough for the announced length, which is a [u32]. *)
Context (Hwide : (32 ≤ usize_bits)%N).

(** The reference parser of a byte string that ends within [buf], aware of its
    position in it. *)
Definition parse_bytes_in (buf l : list u8) : CRes (list u8 * list u8) :=
  let? (n, l') := Ref.parse_u32 l in
  if (usize_modulus <=? len buf - len l' + uval n)%N then Panic else Ref.parse_bytes l.
Definition parse_committed_in (buf : list u8) : CRes CommittedVersion :=
  let? l := Ref.parse_header RECORD_COMMITTED "expected committed record type " buf in
  let? (key, l) := parse_bytes_in buf l in
  let? (ts, l) := Ref.parse_u128 l in
  let? (flag, l) := Ref.parse_byte "missing value flag" l in
  let? (value, l) :=
    (if decide (flag = FLAG_PRESENT) then
       let? (v, l) := parse_bytes_in buf l in Ok (Some v, l)
     else if decide (flag = FLAG_ABSENT) then Ok (None, l)
     else Err (CodecError.Decode ("unknown value flag " +:+ u8_fmt flag))) in
  Ref.parse_end (mkVersion key (mkTimestamp ts) value) l.
Definition parse_intent_in (buf : list u8) : CRes Intent :=
  let? l := Ref.parse_header RECORD_INTENT "expected intent record type " buf in
  let? (key, l) := parse_bytes_in buf l in
  let? (txn, l) := Ref.parse_u64 l in
  let? (ts, l) := Ref.parse_u128 l in
  let? (min, l) := Ref.parse_min_commit_ts l in
  let? (ty, l) := Ref.parse_byte "missing mutation type" l in
  let? (m, l) :=
    (if decide (ty = MUTATION_PUT) then
       let? (v, l) := parse_bytes_in buf l in Ok (Put v, l)
     else if decide (ty = MUTATION_DELETE) then Ok (Delete, l)
     else Err (CodecError.Decode ("unknown mutation type " +:+ u8_fmt ty))) in
  Ref.parse_end (mkIntent key (mkTxnId txn) (mkTimestamp ts) m min) l.

(** The sum of the offset and the announced length, when it overflows. *)
Lemma overflow_panics buf offset n :
  (offset ≤ len buf)%N → (offset < usize_modulus)%N → (n < usize_modulus)%N →
  (usize_modulus ≤ offset + n)%N →
  (let? lim := usize_add offset n in
   if (len buf <? lim)%N then Err (CodecError.Decode "truncated byte slice") else
   let? hi := usize_add offset n in
   let? bytes := slice buf offset hi in
   let? offset := usize_add offset n in
   Ok (bytes, offset)) = Panic.
Proof.
  intros Hoff Ho Hn Hsum. unfold usize_add.
  rewrite (proj2 (N.ltb_ge _ _) Hsum). destruct overflow_checks; [done|]. cbn [res_bind].
  assert ((offset + n) mod usize_modulus = offset + n - usize_modulus)%N as ->.
  { symmetry. apply (N.mod_unique _ _ 1); lia. }
  destruct (N.ltb_spec (len buf) (offset + n - usize_modulus)) as [|_]; [lia|].
  unfold slice. destruct (N.leb_spec offset (offset + n - usize_modulus)) as [|_]; [lia|done].
Qed.
Lemma decode_bytes_in buf pre rest :
  fits buf → buf = pre ++ rest →
  match parse_bytes_in buf rest with
  | Ok (a, rest') => ∃ mid, rest = mid ++ rest' ∧
      decode_bytes buf (len pre) = Ok (a, len (pre ++ mid))
  | Err e => decode_bytes buf (len pre) = Err e
  | Panic => decode_bytes buf (len pre) = Panic
  end.
Proof using Hwide.
  intros Hfit ->. unfold parse_bytes_in.
  pose proof (decode_bytes_at pre rest Hfit) as Hat.
  pose proof (decode_u32_offset pre rest Hfit) as H32. unfold fits in Hfit.
  pose proof usize_modulus_isize as Hm. pose proof isize_MAX_ge as Hge.
  destruct (Ref.parse_u32 rest) as [[n rest']|e|] eqn:E; cbn [res_bind];
    [|by unfold decode_bytes; rewrite H32|done].
  destruct H32 as (mid&->&H32). pose proof (uval_lt n) as Hn.
  assert (2 ^ 32 ≤ usize_modulus)%N by (apply N.pow_le_mono_r; lia).
  assert (len (pre ++ mid ++ rest') - len rest' = len (pre ++ mid))%N as ->
    by (rewrite app_assoc, !len_app; lia).
  rewrite app_assoc, (len_app _ rest') in Hfit.
  destruct (N.leb_spec usize_modulus (len (pre ++ mid) + uval n)) as [Ho|Ho].
  - unfold decode_bytes. rewrite H32. cbn [res_bind]. rewrite N.mod_small by lia.
    apply overflow_panics; try lia. rewrite app_assoc, (len_app _ rest'). lia.
  - assert (match Ref.parse_bytes (mid ++ rest') with
            | Panic => False | _ => True end) as Hp by
      (pose proof (parse_bytes_no_panic (mid ++ rest')); by destruct (Ref.parse_bytes _)).
    destruct (Ref.parse_bytes (mid ++ rest')); [apply Hat..|done];
      intros n' mid' rest'' Hsplit [= <- <-];
      apply app_inv_tail in Hsplit as <-; rewrite N.mod_small by lia; by apply usize_add_ok.
Qed.
Lemma bytes_step {B} buf pre rest (k : list u8 * N → CRes B) (k' : list u8 * list u8 → CRes B) :
  fits buf → buf = pre ++ rest →
  (∀ a pre' rest', buf = pre' ++ rest' → k (a, len pre') = k' (a, rest')) →
  res_bind (decode_bytes buf (len pre)) k = res_bind (parse_bytes_in buf rest) k'.
Proof using Hwide.
  intros Hfit Hbuf Hk. pose proof (decode_bytes_in buf pre rest Hfit Hbuf) as Hd.
  destruct (parse_bytes_in buf rest) as [[a rest']|e|]; simpl; [|by rewrite Hd..].
  destruct Hd as (mid&->&Hd). rewrite Hd. simpl. apply Hk. by rewrite Hbuf, app_assoc.
Qed.

Ltac decode_step :=
  rewrite ?res_bind_assoc;
  first
    [ reflexivity
    | eapply end_step; eassumption
    | eapply first_step; [done|]
    | eapply byte_step; [done|eassumption|]
    | eapply bytes_step; [done|eassumption|]
    | eapply (offset_step decode_u64 Ref.parse_u64);
        [by apply decode_u64_offset|done|eassumption|]
    | eapply (offset_step decode_u128 Ref.parse_u128);
        [by apply decode_u128_offset|done|eassumption|]
    | case_decide; [done|]
    | case_decide ];
  intros; rewrite ?res_bind_Ok_l.
Lemma decode_committed_in buf : fits buf → decode_committed buf = parse_committed_in buf.
Proof using Hwide.
  intros Hfit. unfold decode_committed, parse_committed_in, Ref.parse_header.
  repeat decode_step.
Qed.
Lemma decode_intent_in buf : fits buf → decode_intent buf = parse_intent_in buf.
Proof using Hwide.
  intros Hfit. unfold decode_intent, parse_intent_in, Ref.parse_header,
    Ref.parse_min_commit_ts.
  repeat decode_step.
Qed.
(** ** Where the sum overflows *)

(** After [pre], [buf] announces a length that overflows the offset. *)
Definition length_overflows (buf pre : list u8) : Prop :=
  ∃ (n : u32) rest, buf = pre ++ encode_u32 n ++ rest ∧
    (usize_modulus ≤ len pre + 4 + uval n)%N.

Lemma len_encode_u32 n : len (encode_u32 n) = 4%N.
Proof using Type. unfold len, encode_u32. by rewrite length_to_be_bytes. Qed.
Lemma parse_bytes_in_Panic buf pre rest :
  buf = pre ++ rest → parse_bytes_in buf rest = Panic ↔ length_overflows buf pre.
Proof using Hwide.
  intros ->. unfold parse_bytes_in, length_overflows. rewrite res_bind_Panic. split.
  - intros [Hp|([n rest']&(m&->&->)%parse_u32_pair&Hp)].
    { exfalso. revert Hp. unfold Ref.parse_u32, Ref.parse_fixed. by case_match. }
    exists n, rest'. split; [done|]. revert Hp. len_simpl.
    rewrite len_encode_u32.
    case_match eqn:E; [|by intros ?%parse_bytes_no_panic]. apply N.leb_le in E. lia.
  - intros (n&rest'&->%app_inv_head&Hn). right. exists (n, rest').
    split; [apply parse_u32_pair; eauto|]. len_simpl.
    rewrite len_encode_u32.
    by rewrite (proj2 (N.leb_le _ _)) by lia.
Qed.
Lemma parse_bytes_in_Ok buf pre rest b rest' :
  fits buf → buf = pre ++ rest →
  parse_bytes_in buf rest = Ok (b, rest') ↔ ∃ m, encode_bytes [] b = Ok m ∧ rest = m ++ rest'.
Proof using Hwide.
  intros Hfit ->. rewrite <-(parse_bytes_pair rest b rest'). unfold parse_bytes_in.
  rewrite res_bind_Ok. split.
  - intros ([n l]&_&Hb). by case_match.
  - intros Hb. pose proof Hb as ([n l]&Hn&Hl)%res_bind_Ok. exists (n, l). split; [done|].
    destruct (N.leb_spec usize_modulus (len (pre ++ rest) - len l + uval n)) as [E|_]; [|done].
    revert Hl.
    apply parse_u32_pair in Hn as (m&->&->). unfold fits in Hfit. rewrite !len_app in *.
    pose proof usize_modulus_isize. destruct (N.ltb_spec (len l) (uval n)); [done|lia].
Qed.
(** A step of the parser panics when it or the rest of the record does. *)
Lemma bind_pair_Panic {A B} (p : list u8 → CRes (A * list u8)) R l (k : A * list u8 → CRes B) :
  codec_pair p R → p l ≠ Panic →
  res_bind (p l) k = Panic ↔ ∃ a m l', R a m ∧ l = m ++ l' ∧ k (a, l') = Panic.
Proof using Type.
  intros Hp Hno. rewrite res_bind_Panic. split.
  - intros [?|([a l']&(m&?&?)%Hp&?)]; [done|]. by exists a, m, l'.
  - intros (a&m&l'&?&?&?). right. exists (a, l'). split; [|done]. apply Hp. by exists m.
Qed.
Lemma bind_bytes_Panic {B} buf pre rest (k : list u8 * list u8 → CRes B) :
  fits buf → buf = pre ++ rest →
  res_bind (parse_bytes_in buf rest) k = Panic ↔
  length_overflows buf pre ∨
  ∃ b m l', encode_bytes [] b = Ok m ∧ rest = m ++ l' ∧ k (b, l') = Panic.
Proof using Hwide.
  intros Hfit Hbuf. rewrite res_bind_Panic, (parse_bytes_in_Panic buf pre rest Hbuf).
  split; (intros [?|Hr]; [by left|right]).
  - destruct Hr as ([b l']&Hb&Hk). apply (parse_bytes_in_Ok buf pre) in Hb as (m&?&?); [|done..].
    by exists b, m, l'.
  - destruct Hr as (b&m&l'&?&?&?). exists (b, l'). split; [|done].
    apply (parse_bytes_in_Ok buf pre); [done..|by exists m].
Qed.
Lemma bind_header_Panic {B} ty what l (k : list u8 → CRes B) :
  res_bind (Ref.parse_header ty what l) k = Panic ↔
  ∃ l', l = [CODEC_VERSION; ty] ++ l' ∧ k l' = Panic.
Proof using Type.
  rewrite res_bind_Panic. setoid_rewrite parse_header_Ok.
  assert (Ref.parse_header ty what l ≠ Panic); [|naive_solver].
  unfold Ref.parse_header, Ref.parse_byte. no_panic.
Qed.
(** The last field: a tag, and a byte string after one of the two tags. *)
Lemma tagged_Panic {A B} tag other e e' (f : list u8 → A) a0 (fin : A → B) buf pre rest :
  fits buf → buf = pre ++ rest →
  (let? (t, l) := Ref.parse_byte e rest in
   let? (a, l) :=
     (if decide (t = tag) then let? (v, l) := parse_bytes_in buf l in Ok (f v, l)
      else if decide (t = other) then Ok (a0, l) else Err (CodecError.Decode (e' t))) in
   Ref.parse_end (fin a) l) = Panic ↔ length_overflows buf (pre ++ [tag]).
Proof using Hwide.
  intros Hfit Hbuf. split.
  - destruct rest as [|t rest]; [done|]. cbn [Ref.parse_byte res_bind].
    intros [Hp|([a l]&_&Hp)]%res_bind_Panic;
      [|exfalso; revert Hp; unfold Ref.parse_end; by case_decide].
    case_decide; [subst t|by case_decide].
    apply (bind_bytes_Panic buf (pre ++ [tag])) in Hp as [?|(?&?&?&_&_&?)];
      [done|done|done|by rewrite <-app_assoc].
  - intros Hov. pose proof Hov as (n&rest'&E&_). rewrite <-app_assoc, Hbuf in E.
    apply app_inv_head in E. rewrite E. cbn [app Ref.parse_byte res_bind].
    rewrite decide_True by done. apply res_bind_Panic. left.
    apply (bind_bytes_Panic buf (pre ++ [tag])); [done|by rewrite Hbuf, E, <-app_assoc|by left].
Qed.

(** The fields whose length can overflow: the key and the value. *)
Lemma parse_committed_in_Panic buf :
  fits buf →
  parse_committed_in buf = Panic ↔ ∃ pre, length_overflows buf pre ∧
    (pre = [CODEC_VERSION; RECORD_COMMITTED] ∨
     ∃ mk key ts, encode_bytes [CODEC_VERSION; RECORD_COMMITTED] key = Ok mk ∧
       pre = mk ++ encode_u128 ts ++ [FLAG_PRESENT]).
Proof using Hwide.
  intros Hfit. unfold parse_committed_in. rewrite bind_header_Panic. split.
  - intros (l1&E1&Hp). apply (bind_bytes_Panic buf [CODEC_VERSION; RECORD_COMMITTED]) in Hp
      as [?|(key&mk&l2&Hmk&->&Hp)]; [by eexists; split; [|left]| |done..].
    apply (bind_pair_Panic _ _ _ _ parse_u128_pair) in Hp as (ts&m&l3&->&->&Hp);
      [|auto with codec].
    eapply tagged_Panic in Hp; [|done|by rewrite E1, !app_assoc].
    eexists. split; [exact Hp|right]. exists ([CODEC_VERSION; RECORD_COMMITTED] ++ mk), key, ts.
    rewrite encode_bytes_app, Hmk. by rewrite <-!app_assoc.
  - intros (pre&Hov&[->|(mk&key&ts&Hmk&->)]); pose proof Hov as (n&rest&E&_).
    + eexists. split; [exact E|]. by apply (bind_bytes_Panic buf _ _ _ Hfit E); left.
    + rewrite encode_bytes_app in Hmk. apply res_bind_Ok in Hmk as (m&Hm&[= <-]).
      rewrite <-!app_assoc in E.
      exists (m ++ encode_u128 ts ++ [FLAG_PRESENT] ++ encode_u32 n ++ rest). split; [exact E|].
      apply (bind_bytes_Panic buf [CODEC_VERSION; RECORD_COMMITTED]); [done..|right]. eexists _, _, _. split_and!; [done..|].
      apply (bind_pair_Panic _ _ _ _ parse_u128_pair); [auto with codec|].
      eexists _, _, _. split_and!; [done..|].
      eapply tagged_Panic with
        (pre := ([CODEC_VERSION; RECORD_COMMITTED] ++ m) ++ encode_u128 ts);
        [done|by rewrite E, <-app_assoc|]. by rewrite <-app_assoc.
Qed.
Lemma parse_intent_in_Panic buf :
  fits buf →
  parse_intent_in buf = Panic ↔ ∃ pre, length_overflows buf pre ∧
    (pre = [CODEC_VERSION; RECORD_INTENT] ∨
     ∃ mk key txn ts min mt, encode_bytes [CODEC_VERSION; RECORD_INTENT] key = Ok mk ∧
       min_image min mt ∧
       pre = mk ++ encode_u64 txn ++ encode_u128 ts ++ mt ++ [MUTATION_PUT]).
Proof using Hwide.
  intros Hfit. unfold parse_intent_in. rewrite bind_header_Panic. split.
  - intros (l1&E1&Hp). apply (bind_bytes_Panic buf [CODEC_VERSION; RECORD_INTENT]) in Hp
      as [?|(key&mk&l2&Hmk&->&Hp)]; [by eexists; split; [|left]| |done..].
    apply (bind_pair_Panic _ _ _ _ parse_u64_pair) in Hp as (txn&m&l3&->&->&Hp);
      [|auto with codec].
    apply (bind_pair_Panic _ _ _ _ parse_u128_pair) in Hp as (ts&m&l4&->&->&Hp);
      [|auto with codec].
    apply (bind_pair_Panic _ _ _ _ parse_min_pair) in Hp as (min&mt&l5&Hmt&->&Hp);
      [|auto with codec].
    eapply tagged_Panic in Hp; [|done|by rewrite E1, !app_assoc].
    eexists. split; [exact Hp|right].
    exists ([CODEC_VERSION; RECORD_INTENT] ++ mk), key, txn, ts, min, mt.
    rewrite encode_bytes_app, Hmk. split_and!; [done..|by rewrite <-!app_assoc].
  - intros (pre&Hov&[->|(mk&key&txn&ts&min&mt&Hmk&Hmt&->)]); pose proof Hov as (n&rest&E&_).
    + eexists. split; [exact E|]. by apply (bind_bytes_Panic buf _ _ _ Hfit E); left.
    + rewrite encode_bytes_app in Hmk. apply res_bind_Ok in Hmk as (m&Hm&[= <-]).
      rewrite <-!app_assoc in E.
      exists (m ++ encode_u64 txn ++ encode_u128 ts ++ mt ++ [MUTATION_PUT] ++
        encode_u32 n ++ rest). split; [exact E|].
      apply (bind_bytes_Panic buf [CODEC_VERSION; RECORD_INTENT]); [done..|right].
      eexists _, _, _. split_and!; [done..|].
      apply (bind_pair_Panic _ _ _ _ parse_u64_pair); [auto with codec|].
      eexists _, _, _. split_and!; [done..|].
      apply (bind_pair_Panic _ _ _ _ parse_u128_pair); [auto with codec|].
      eexists _, _, _. split_and!; [done..|].
      apply (bind_pair_Panic _ _ _ _ parse_min_pair); [auto with codec|].
      eexists _, _, _. split_and!; [done..|].
      eapply tagged_Panic with (pre := ([CODEC_VERSION; RECORD_INTENT] ++ m) ++
        encode_u64 txn ++ encode_u128 ts ++ mt); [done|by rewrite E, <-!app_assoc|].
      rewrite <-!app_assoc. exact Hov.
Qed.
End panic.

(** C39 (overflow in the decoders): on a target whose [usize] has at least 32 bits a
    decoder panics, in both build profiles, exactly when the length announced before the
    key, or before the value that follows the other fields, overflows [usize] when added
    to the offset behind it.  (With more than 32 bits this cannot be.) *)
Theorem decode_panics_iff `{Platform} (buf : list u8) :
  (32 ≤ usize_bits)%N → fits buf →
  (decode_committed buf = Panic ↔ ∃ pre, length_overflows buf pre ∧
     (pre = [CODEC_VERSION; RECORD_COMMITTED] ∨
      ∃ mk key ts, encode_bytes [CODEC_VERSION; RECORD_COMMITTED] key = Ok mk ∧
        pre = mk ++ encode_u128 ts ++ [FLAG_PRESENT])) ∧
  (decode_intent buf = Panic ↔ ∃ pre, length_overflows buf pre ∧
     (pre = [CODEC_VERSION; RECORD_INTENT] ∨
      ∃ mk key txn ts min mt, encode_bytes [CODEC_VERSION; RECORD_INTENT] key = Ok mk ∧
        min_image min mt ∧
        pre = mk ++ encode_u64 txn ++ encode_u128 ts ++ mt ++ [MUTATION_PUT])).
Proof.
  intros Hwide Hfit. rewrite decode_committed_in, decode_intent_in by done.
  split; [by apply parse_committed_in_Panic|by apply parse_intent_in_Panic].
Qed.

(** Six bytes are enough: a committed record whose key announces [u32::MAX] bytes. *)
Lemma decode_panics_iff_witness :
  let buf := [CODEC_VERSION; RECORD_COMMITTED; xff; xff; xff; xff] in
  @decode_committed release32 buf = Panic.
Proof.
  apply (decode_panics_iff (H := release32)); [done|vm_compute; discriminate|].
  exists [CODEC_VERSION; RECORD_COMMITTED]. split; [|by left].
  exists (uint_max 32), []. split; [reflexivity|vm_compute; discriminate].
Defined.
