(* ===== verification/Store.v ===== *)
(** * Store: the abstract state of an MVCC key space

    What a backend stands for: the committed versions, a finite map from (key,
    commit timestamp) to an optional value (absent for a tombstone), and the
    active intents, at most one per key.  The queries of the [Backend] trait are
    specified here as relations on this state, and its updates as functions. *)
From S2P Require Export Errors.

Record Store := mkStore {
  st_versions : gmap (Key * Timestamp) (option Value);
  st_intents : gmap Key Intent;
}.

Definition store_empty : Store := mkStore ∅ ∅.

(** ** Queries *)

(** [o] is the newest version of [k] at or below [rt]. *)
Definition is_visible (st : Store) (k : Key) (rt : Timestamp)
    (o : option CommittedVersion) : Prop :=
  match o with
  | Some v =>
      cv_key v = k ∧ (cv_commit_ts v ≤ rt)%ts ∧
      st_versions st !! (k, cv_commit_ts v) = Some (cv_value v) ∧
      (∀ t x, st_versions st !! (k, t) = Some x → (t ≤ rt)%ts → (t ≤ cv_commit_ts v)%ts)
  | None => ∀ t x, st_versions st !! (k, t) = Some x → (rt < t)%ts
  end.

(** [o] is the newest commit timestamp of [k]. *)
Definition is_latest_ts (st : Store) (k : Key) (o : option Timestamp) : Prop :=
  match o with
  | Some t =>
      is_Some (st_versions st !! (k, t)) ∧
      (∀ t' x, st_versions st !! (k, t') = Some x → (t' ≤ t)%ts)
  | None => ∀ t x, st_versions st !! (k, t) = Some x → False
  end.

(** [l] lists all versions of [k], oldest first. *)
Definition is_history (st : Store) (k : Key) (l : list CommittedVersion) : Prop :=
  StronglySorted (λ v w, (cv_commit_ts v < cv_commit_ts w)%ts) l ∧
  (∀ v, v ∈ l ↔ cv_key v = k ∧ st_versions st !! (k, cv_commit_ts v) = Some (cv_value v)).

(** [l] lists the [limit] newest commit timestamps of [k] strictly below [before],
    newest first. *)
Definition is_before (st : Store) (k : Key) (before : Timestamp) (limit : N)
    (l : list Timestamp) : Prop :=
  ∃ all, l = take_usize limit all ∧
    StronglySorted (λ t u, (u < t)%ts) all ∧
    (∀ t, t ∈ all ↔ is_Some (st_versions st !! (k, t)) ∧ (t < before)%ts).

(** The keys the store knows: those with a version or an intent. *)
Definition store_key (st : Store) (k : Key) : Prop :=
  (∃ t, is_Some (st_versions st !! (k, t))) ∨ is_Some (st_intents st !! k).

(** [l] lists the first [limit] keys, in order, at or after [start]. *)
Definition is_keys_from (st : Store) (start : option Key) (limit : N) (l : list Key) : Prop :=
  ∃ all, l = take_usize limit all ∧
    StronglySorted rlt all ∧
    (∀ k, k ∈ all ↔ store_key st k ∧ from_option (λ s, rle s k) True start).

(** [l] lists, in order, the first [limit] keys that have a version, extend
    [prefix] and are at or after [start]. *)
Definition is_keys_from_prefix (st : Store) (prefix : Key) (start : option Key)
    (limit : N) (l : list Key) : Prop :=
  ∃ all, l = take_usize limit all ∧
    StronglySorted rlt all ∧
    (∀ k, k ∈ all ↔ (∃ t, is_Some (st_versions st !! (k, t))) ∧
      prefix `prefix_of` k ∧ from_option (λ s, rle s k) True start).

(** ** Updates *)

Definition store_put_version (v : CommittedVersion) (st : Store) : Store :=
  mkStore (<[(cv_key v, cv_commit_ts v) := cv_value v]> (st_versions st)) (st_intents st).
Definition store_put_versions (vs : list CommittedVersion) (st : Store) : Store :=
  foldl (λ st v, store_put_version v st) st vs.
Definition store_remove_version (k : Key) (t : Timestamp) (st : Store) : Store :=
  mkStore (delete (k, t) (st_versions st)) (st_intents st).
Definition store_remove_versions (k : Key) (ts : list Timestamp) (st : Store) : Store :=
  foldl (λ st t, store_remove_version k t st) st ts.
Definition store_put_intent (i : Intent) (st : Store) : Store :=
  mkStore (st_versions st) (<[intent_key i := i]> (st_intents st)).
Definition store_put_intents (l : list Intent) (st : Store) : Store :=
  foldl (λ st i, store_put_intent i st) st l.
(** An intent is identified by its key, transaction and start timestamp. *)
Definition intent_matches (txn : TxnId) (start : Timestamp) (i : Intent) : bool :=
  bool_decide (intent_txn_id i = txn) && bool_decide (intent_start_ts i = start).
Definition store_remove_intent (k : Key) (txn : TxnId) (start : Timestamp) (st : Store) : Store :=
  match st_intents st !! k with
  | Some i => if intent_matches txn start i
              then mkStore (st_versions st) (delete k (st_intents st)) else st
  | None => st
  end.
Definition store_remove_intents (l : list (Key * TxnId * Timestamp)) (st : Store) : Store :=
  foldl (λ st '(k, txn, start), store_remove_intent k txn start st) st l.

(** ** Lemmas *)

(** The timestamps of [k] are all below [t]. *)
Definition newer_than_all (st : Store) (k : Key) (t : Timestamp) : Prop :=
  ∀ t' x, st_versions st !! (k, t') = Some x → (t' < t)%ts.

Section store.
Implicit Types st : Store.

Lemma is_visible_fun st k rt o o' : is_visible st k rt o → is_visible st k rt o' → o = o'.
Proof.
  destruct o as [v|], o' as [w|]; simpl; try done.
  - intros (Hk&Hle&Hv&Hmax) (Hk'&Hle'&Hw&Hmax').
    assert (cv_commit_ts v = cv_commit_ts w) as E.
    { pose proof (Hmax _ _ Hw Hle'). pose proof (Hmax' _ _ Hv Hle). ts_lia. }
    f_equal. destruct v, w; simpl in *; congruence.
  - intros (Hk&Hle&Hv&Hmax) Hn. specialize (Hn _ _ Hv). lia.
  - intros Hn (Hk&Hle&Hv&Hmax). specialize (Hn _ _ Hv). lia.
Qed.
(** The latest timestamp is the one visible at the end of time. *)
Lemma is_latest_visible st k o :
  is_visible st k ts_max o → is_latest_ts st k (cv_commit_ts <$> o).
Proof.
  destruct o as [v|]; simpl.
  - intros (_&_&Hv&Hmax). split; [eauto|]. intros t x Ht.
    apply (Hmax _ _ Ht), ts_le_max.
  - intros Hn t x Ht. specialize (Hn _ _ Ht). pose proof (ts_le_max t). lia.
Qed.
Lemma is_latest_ts_fun st k o o' : is_latest_ts st k o → is_latest_ts st k o' → o = o'.
Proof.
  destruct o as [t|], o' as [u|]; simpl; try done.
  - intros [[x Hx] Hmax] [[y Hy] Hmax']. f_equal.
    specialize (Hmax _ _ Hy). specialize (Hmax' _ _ Hx). ts_lia.
  - intros [[x Hx] _] Hn. by destruct (Hn _ _ Hx).
  - intros Hn [[x Hx] _]. by destruct (Hn _ _ Hx).
Qed.
Lemma is_latest_newer st k o t :
  is_latest_ts st k o →
  newer_than_all st k t ↔ from_option (λ l, (l < t)%ts) True o.
Proof.
  unfold newer_than_all. destruct o as [l|]; simpl.
  - intros [[x Hx] Hmax]. split; [eauto|]. intros Hl t' y Hy.
    specialize (Hmax _ _ Hy). lia.
  - intros Hn. split; [done|]. intros _ t' y Hy. by destruct (Hn _ _ Hy).
Qed.

Lemma store_ext st st' :
  st_versions st = st_versions st' →
  (∀ k, st_intents st !! k = st_intents st' !! k) → st = st'.
Proof. destruct st, st'; simpl. intros -> Hi. f_equal. by apply map_eq. Qed.

Lemma is_history_fun st k l l' : is_history st k l → is_history st k l' → l = l'.
Proof.
  intros [Hs Hl] [Hs' Hl'].
  apply (StronglySorted_unique_strong (λ v w, (cv_commit_ts v < cv_commit_ts w)%ts));
    [intros v w ? ? ?; lia|done|done|].
  assert (∀ m, StronglySorted (λ v w, (cv_commit_ts v < cv_commit_ts w)%ts) m → NoDup m).
  { intros m. apply StronglySorted_NoDup. intros v Hv. lia. }
  apply NoDup_Permutation; [auto..|]. intros v. by rewrite Hl, Hl'.
Qed.

Lemma is_before_fun st k t n l l' : is_before st k t n l → is_before st k t n l' → l = l'.
Proof.
  intros (all&->&Hs&Hall) (all'&->&Hs'&Hall'). f_equal.
  apply (StronglySorted_eq (λ t u, (u < t)%ts)); [done..|]. intros x. by rewrite Hall, Hall'.
Qed.
Lemma is_keys_from_fun st s n l l' : is_keys_from st s n l → is_keys_from st s n l' → l = l'.
Proof.
  intros (all&->&Hs&Hall) (all'&->&Hs'&Hall'). f_equal.
  apply (StronglySorted_eq rlt); [done..|]. intros x. by rewrite Hall, Hall'.
Qed.
Lemma is_keys_from_prefix_fun st p s n l l' :
  is_keys_from_prefix st p s n l → is_keys_from_prefix st p s n l' → l = l'.
Proof.
  intros (all&->&Hs&Hall) (all'&->&Hs'&Hall'). f_equal.
  apply (StronglySorted_eq rlt); [done..|]. intros x. by rewrite Hall, Hall'.
Qed.

Lemma put_versions_intents vs st : st_intents (store_put_versions vs st) = st_intents st.
Proof. revert st. induction vs as [|v vs IH]; intros st; simpl; [done|]. by rewrite IH. Qed.
Lemma put_versions_versions vs st st' :
  st_versions st = st_versions st' →
  st_versions (store_put_versions vs st) = st_versions (store_put_versions vs st').
Proof.
  revert st st'. induction vs as [|v vs IH]; intros st st' E; simpl; [done|].
  apply IH. simpl. by rewrite E.
Qed.
Lemma put_intents_versions l st : st_versions (store_put_intents l st) = st_versions st.
Proof. revert st. induction l as [|i l IH]; intros st; simpl; [done|]. by rewrite IH. Qed.
Lemma remove_versions_intents k ts st :
  st_intents (store_remove_versions k ts st) = st_intents st.
Proof. revert st. induction ts as [|t ts IH]; intros st; simpl; [done|]. by rewrite IH. Qed.
Lemma remove_intent_versions k txn s st :
  st_versions (store_remove_intent k txn s st) = st_versions st.
Proof. unfold store_remove_intent. by repeat case_match. Qed.
Lemma remove_intents_versions l st : st_versions (store_remove_intents l st) = st_versions st.
Proof.
  revert st. induction l as [|[[k x] s] l IH]; intros st; simpl; [done|].
  by rewrite IH, remove_intent_versions.
Qed.
Lemma lookup_remove_versions k ts st k' t :
  st_versions (store_remove_versions k ts st) !! (k', t) =
  if decide (k' = k ∧ t ∈ ts) then None else st_versions st !! (k', t).
Proof.
  revert st. induction ts as [|u ts IH]; intros st; simpl.
  - rewrite decide_False; [done|]. intros [_ []%elem_of_nil].
  - rewrite IH. simpl. destruct (decide (k' = k)) as [->|Hk].
    + destruct (decide (t = u)) as [->|Hu].
      * rewrite lookup_delete_eq. rewrite (decide_True (P:=k = k ∧ u ∈ u :: ts))
          by (split; [done|constructor]). by case_decide.
      * rewrite lookup_delete_ne by congruence.
        destruct (decide (k = k ∧ t ∈ ts)) as [[_ Ht]|Hn].
        -- rewrite decide_True; [done|]. split; [done|]. by constructor.
        -- rewrite decide_False; [done|]. intros [_ [?|?]%elem_of_cons]; naive_solver.
    + rewrite lookup_delete_ne by congruence. rewrite !decide_False by naive_solver. done.
Qed.

(** Batches with one entry per key. *)
Lemma put_versions_notin vs st k t :
  (∀ v, v ∈ vs → (cv_key v, cv_commit_ts v) ≠ (k, t)) →
  st_versions (store_put_versions vs st) !! (k, t) = st_versions st !! (k, t).
Proof.
  revert st. induction vs as [|v vs IH]; intros st Hn; simpl; [done|].
  rewrite IH by (intros; apply Hn; by constructor). simpl.
  apply lookup_insert_ne, Hn. by constructor.
Qed.
Lemma put_versions_in vs st v :
  NoDup (cv_key <$> vs) → v ∈ vs →
  st_versions (store_put_versions vs st) !! (cv_key v, cv_commit_ts v) = Some (cv_value v).
Proof.
  revert st. induction vs as [|w vs IH]; intros st Hnd Hv; simpl.
  { by apply elem_of_nil in Hv. }
  inversion Hnd as [|? ? Hw Hnd']; subst.
  apply elem_of_cons in Hv as [->|Hv]; [|by apply IH].
  rewrite put_versions_notin; [apply lookup_insert_eq|].
  intros v Hv [= E _]. apply Hw. rewrite <-E. by apply list_elem_of_fmap_2.
Qed.
Lemma put_intents_notin l st k :
  k ∉ intent_key <$> l → st_intents (store_put_intents l st) !! k = st_intents st !! k.
Proof.
  revert st. induction l as [|i l IH]; intros st Hn; simpl; [done|].
  csimpl in Hn. apply not_elem_of_cons in Hn as [? ?].
  rewrite IH by done. by apply lookup_insert_ne.
Qed.
Lemma put_intents_in l st i :
  NoDup (intent_key <$> l) → i ∈ l →
  st_intents (store_put_intents l st) !! intent_key i = Some i.
Proof.
  revert st. induction l as [|j l IH]; intros st Hnd Hi; simpl.
  { by apply elem_of_nil in Hi. }
  inversion Hnd as [|? ? Hj Hnd']; subst.
  apply elem_of_cons in Hi as [->|Hi]; [|by apply IH].
  rewrite put_intents_notin by done. apply lookup_insert_eq.
Qed.
(** Where the entries of an updated store come from. *)
Lemma put_versions_inv vs st k t x :
  st_versions (store_put_versions vs st) !! (k, t) = Some x →
  (∃ v, v ∈ vs ∧ cv_key v = k ∧ cv_commit_ts v = t ∧ cv_value v = x) ∨
  st_versions st !! (k, t) = Some x.
Proof.
  revert st. induction vs as [|v vs IH]; intros st Hx; simpl in *; [by right|].
  apply IH in Hx as [(w&?&?)|Hx]; [left; exists w; split; [by constructor|done]|].
  simpl in Hx. apply lookup_insert_Some in Hx as [[[= <- <-] <-]|[_ Hx]]; [left|by right].
  exists v. split; [constructor|done].
Qed.
Lemma put_versions_mono vs st k t :
  is_Some (st_versions st !! (k, t)) → is_Some (st_versions (store_put_versions vs st) !! (k, t)).
Proof.
  revert st. induction vs as [|v vs IH]; intros st Hx; simpl in *; [done|].
  apply IH. simpl. by apply lookup_insert_is_Some'; right.
Qed.
Lemma put_intents_inv l st k i :
  st_intents (store_put_intents l st) !! k = Some i →
  (i ∈ l ∧ intent_key i = k) ∨ st_intents st !! k = Some i.
Proof.
  revert st. induction l as [|j l IH]; intros st Hx; simpl in *; [by right|].
  apply IH in Hx as [[? ?]|Hx]; [left; split; [by constructor|done]|].
  simpl in Hx. apply lookup_insert_Some in Hx as [[<- <-]|[_ Hx]]; [left|by right].
  split; [constructor|done].
Qed.
Lemma remove_intents_inv l st k i :
  st_intents (store_remove_intents l st) !! k = Some i → st_intents st !! k = Some i.
Proof.
  revert st. induction l as [|[[k' txn] s] l IH]; intros st Hx; simpl in *; [done|].
  apply IH in Hx. unfold store_remove_intent in Hx.
  repeat case_match; simpl in *; try done. by apply lookup_delete_Some in Hx as [_ ?].
Qed.
Lemma lookup_remove_intent k txn s st k' :
  st_intents (store_remove_intent k txn s st) !! k' =
  if decide (k' = k) then
    i ← st_intents st !! k; if intent_matches txn s i then None else Some i
  else st_intents st !! k'.
Proof.
  unfold store_remove_intent. destruct (decide (k' = k)) as [->|Hk].
  - destruct (st_intents st !! k) as [i|] eqn:Hi; simpl; [|done].
    destruct (intent_matches txn s i); simpl; [by rewrite lookup_delete_eq|done].
  - repeat case_match; simpl; try done. by rewrite lookup_delete_ne.
Qed.
(** Removing the intents of one transaction on a list of keys. *)
Lemma lookup_remove_intents (keys : list Key) txn s st k :
  st_intents (store_remove_intents ((λ k, (k, txn, s)) <$> keys) st) !! k =
  if decide (k ∈ keys) then
    i ← st_intents st !! k; if intent_matches txn s i then None else Some i
  else st_intents st !! k.
Proof.
  revert st. induction keys as [|k' keys IH]; intros st.
  { by rewrite decide_False by apply not_elem_of_nil. }
  change (store_remove_intents _ st) with (store_remove_intents
    ((λ k, (k, txn, s)) <$> keys) (store_remove_intent k' txn s st)).
  rewrite IH, lookup_remove_intent. destruct (decide (k = k')) as [->|Hk].
  - rewrite (decide_True (P:=k' ∈ k' :: keys)) by constructor.
    destruct (st_intents st !! k') as [i|]; simpl; [|by case_decide].
    destruct (intent_matches txn s i) eqn:E; simpl; case_decide; try done.
    by rewrite E.
  - repeat case_decide; set_solver.
Qed.
End store.
