(* ===== verification/Backend.v ===== *)
(** * Backend: the storage contract of [backend.rs]

    [Backend] is the trait; [BackendLaws] is what its documentation promises about
    an implementation, against the abstract state of [Store]: a query that
    succeeds answers from that state, an update is all-or-nothing (it either
    takes effect or reports an error and changes nothing).  Both may fail at any
    time with a message, as a durable store may. *)
From S2P Require Export Store.

Class Backend (B : Type) := {
  get_committed_versions : B → Key → res string (list CommittedVersion);
  get_latest_committed : B → Key → res string (option CommittedVersion);
  get_visible_committed : B → Key → Timestamp → res string (option CommittedVersion);
  get_latest_commit_ts : B → Key → res string (option Timestamp);
  get_intent : B → Key → res string (option Intent);
  put_intent : Intent → M B string unit;
  remove_intent : Key → TxnId → Timestamp → M B string bool;
  put_committed : CommittedVersion → M B string unit;
  put_committed_batch : list CommittedVersion → M B string unit;
  remove_committed_version : Key → Timestamp → M B string unit;
  all_keys : B → res string (list Key);
  put_intents_batch : list Intent → M B string unit;
  commit_intents_batch :
    list CommittedVersion → list (Key * TxnId * Timestamp) → M B string unit;
  remove_intents_batch : list (Key * TxnId * Timestamp) → M B string unit;
  keys_from : B → option Key → N → res string (list Key);
  keys_from_prefix : B → Key → option Key → N → res string (list Key);
  get_committed_timestamps_before : B → Key → Timestamp → N → res string (list Timestamp);
  collapse_tombstone : Key → Timestamp → list Timestamp → M B string unit;
}.

(** ** Default methods of the trait *)
Module Default.
Definition unsupported : string := "intent transactions are not supported by this backend".
Definition get_intent {B} (_ : B) (_ : Key) : res string (option Intent) := Ok None.
Definition put_intent {B} (_ : Intent) : M B string unit := M_throw unsupported.
Definition remove_intent {B} (_ : Key) (_ : TxnId) (_ : Timestamp) : M B string bool :=
  M_ret false.
Definition put_intents_batch {B} (intents : list Intent) : M B string unit :=
  if decide (intents = []) then M_ret tt else M_throw unsupported.
Definition commit_intents_batch {B} (_ : list CommittedVersion)
    (_ : list (Key * TxnId * Timestamp)) : M B string unit := M_throw unsupported.
Definition remove_intents_batch {B} (intents : list (Key * TxnId * Timestamp)) :
    M B string unit :=
  if decide (intents = []) then M_ret tt else M_throw unsupported.

(** A backend that implements the required methods and inherits the others. *)
Definition backend {B} (required : Backend B) : Backend B := {|
  get_committed_versions := @Backend.get_committed_versions B required;
  get_latest_committed := @Backend.get_latest_committed B required;
  get_visible_committed := @Backend.get_visible_committed B required;
  get_latest_commit_ts := @Backend.get_latest_commit_ts B required;
  Backend.get_intent := get_intent;
  Backend.put_intent := put_intent;
  Backend.remove_intent := remove_intent;
  put_committed := @Backend.put_committed B required;
  put_committed_batch := @Backend.put_committed_batch B required;
  remove_committed_version := @Backend.remove_committed_version B required;
  all_keys := @Backend.all_keys B required;
  Backend.put_intents_batch := put_intents_batch;
  Backend.commit_intents_batch := commit_intents_batch;
  Backend.remove_intents_batch := remove_intents_batch;
  keys_from := @Backend.keys_from B required;
  keys_from_prefix := @Backend.keys_from_prefix B required;
  get_committed_timestamps_before := @Backend.get_committed_timestamps_before B required;
  collapse_tombstone := @Backend.collapse_tombstone B required;
|}.
End Default.

(** ** The contract *)

(** A query that returns, returns what [P] allows; [fail] says whether it may fail. *)
Definition reads {A} (fail : Prop) (r : res string A) (P : A → Prop) : Prop :=
  match r with Ok a => P a | Err _ => fail | Panic => False end.

(** An update takes effect or fails without effect. *)
Definition writes {B A} (fail : Prop) (inv : B → Prop) (abs : B → Store) (b : B)
    (p : B * res string A) (st' : A → Store) : Prop :=
  inv p.1 ∧
  match p.2 with
  | Ok a => abs p.1 = st' a
  | Err _ => fail ∧ abs p.1 = abs b
  | Panic => False
  end.

(** A prefix scan that a backend may not reject: the prefix is not empty and the
    cursor extends it. *)
Definition prefix_request (prefix : Key) (start : option Key) : Prop :=
  prefix ≠ [] ∧ ∀ s, start = Some s → prefix `prefix_of` s.

(** [may_fail] is [False] for a backend whose methods always succeed, as those of
    the in-memory backend, and [True] for one that may report an error at any
    call.  [keys_from_prefix] is the one method that rejects arguments. *)
Class BackendLaws (B : Type) `{Backend B} := {
  abs : B → Store;
  backend_inv : B → Prop;
  may_fail : Prop;
  law_get_committed_versions b k : backend_inv b →
    reads may_fail (get_committed_versions b k) (is_history (abs b) k);
  law_get_latest_committed b k : backend_inv b →
    reads may_fail (get_latest_committed b k) (is_visible (abs b) k ts_max);
  law_get_visible_committed b k rt : backend_inv b →
    reads may_fail (get_visible_committed b k rt) (is_visible (abs b) k rt);
  law_get_latest_commit_ts b k : backend_inv b →
    reads may_fail (get_latest_commit_ts b k) (is_latest_ts (abs b) k);
  law_get_intent b k : backend_inv b →
    reads may_fail (get_intent b k) (λ o, o = st_intents (abs b) !! k);
  law_put_intent b i : backend_inv b →
    writes may_fail backend_inv abs b (put_intent i b) (λ _, store_put_intent i (abs b));
  law_remove_intent b k txn s : backend_inv b →
    writes may_fail backend_inv abs b (remove_intent k txn s b)
      (λ _, store_remove_intent k txn s (abs b));
  law_remove_intent_result b k txn s r : backend_inv b →
    (remove_intent k txn s b).2 = Ok r →
    r = from_option (intent_matches txn s) false (st_intents (abs b) !! k);
  law_put_committed b v : backend_inv b →
    writes may_fail backend_inv abs b (put_committed v b) (λ _, store_put_version v (abs b));
  law_put_committed_batch b vs : backend_inv b →
    writes may_fail backend_inv abs b (put_committed_batch vs b)
      (λ _, store_put_versions vs (abs b));
  law_remove_committed_version b k t : backend_inv b →
    writes may_fail backend_inv abs b (remove_committed_version k t b)
      (λ _, store_remove_version k t (abs b));
  law_all_keys b : backend_inv b →
    reads may_fail (all_keys b) (λ l, StronglySorted rlt l ∧ ∀ k, k ∈ l ↔ store_key (abs b) k);
  law_put_intents_batch b l : backend_inv b →
    writes may_fail backend_inv abs b (put_intents_batch l b) (λ _, store_put_intents l (abs b));
  law_commit_intents_batch b vs l : backend_inv b →
    writes may_fail backend_inv abs b (commit_intents_batch vs l b)
      (λ _, store_remove_intents l (store_put_versions vs (abs b)));
  law_remove_intents_batch b l : backend_inv b →
    writes may_fail backend_inv abs b (remove_intents_batch l b)
      (λ _, store_remove_intents l (abs b));
  law_keys_from b s n : backend_inv b →
    reads may_fail (keys_from b s n) (is_keys_from (abs b) s n);
  law_keys_from_prefix b p s n : backend_inv b →
    match keys_from_prefix b p s n with
    | Ok l => is_keys_from_prefix (abs b) p s n l ∧ (n = 0%N ∨ prefix_request p s)
    | Err _ => may_fail ∨ ¬ prefix_request p s
    | Panic => False
    end;
  law_get_committed_timestamps_before b k t n : backend_inv b →
    reads may_fail (get_committed_timestamps_before b k t n) (is_before (abs b) k t n);
  law_collapse_tombstone b k t older : backend_inv b →
    writes may_fail backend_inv abs b (collapse_tombstone k t older b)
      (λ _, store_remove_versions k (t :: older) (abs b));
}.
