(* ===== verification/Conformance.v ===== *)
(** * Conformance: the suites of [conformance.rs]

    The test macros take a factory of empty backends and generate unit tests.  A test
    is modelled as a script of backend calls: data that can be run on any backend,
    with [unwrap] and the assertions ending it as a panic does. *)
From S2P Require Export Backend.

(** ** Scripts *)

(** The calls a test makes and the type each answers with. *)
Inductive call : Type → Type :=
| GetCommittedVersions (key : Key) : call (list CommittedVersion)
| GetLatestCommitted (key : Key) : call (option CommittedVersion)
| GetVisibleCommitted (key : Key) (read_ts : Timestamp) : call (option CommittedVersion)
| GetLatestCommitTs (key : Key) : call (option Timestamp)
| GetIntent (key : Key) : call (option Intent)
| PutIntent (intent : Intent) : call unit
| RemoveIntent (key : Key) (txn_id : TxnId) (start_ts : Timestamp) : call bool
| PutCommitted (version : CommittedVersion) : call unit
| PutCommittedBatch (versions : list CommittedVersion) : call unit
| RemoveCommittedVersion (key : Key) (commit_ts : Timestamp) : call unit
| AllKeys : call (list Key)
| PutIntentsBatch (intents : list Intent) : call unit
| CommitIntentsBatch (commits : list CommittedVersion)
    (removed : list (Key * TxnId * Timestamp)) : call unit
| RemoveIntentsBatch (intents : list (Key * TxnId * Timestamp)) : call unit
| KeysFrom (start : option Key) (limit : N) : call (list Key)
| KeysFromPrefix (key_prefix : Key) (start : option Key) (limit : positive) : call (list Key)
| GetCommittedTimestampsBefore (key : Key) (before_ts : Timestamp) (limit : N) :
    call (list Timestamp)
| CollapseTombstone (key : Key) (tombstone_ts : Timestamp) (older : list Timestamp) : call unit.

(** A test: the continuation of a call receives [None] for an error. *)
Inductive script :=
| Passed
| Panicked
| Do {A : Type} (c : call A) (k : option A → script).

(** [let x = call.unwrap(); t] *)
Notation "'unwrap' x ':=' c 'in' t" :=
  (Do c (λ o, match o with Some x => t | None => Panicked end))
  (at level 10, x pattern, c at level 100, t at level 200) : rs_scope.
(** [assert!(b); t] *)
Definition check (b : bool) (t : script) : script := if b then t else Panicked.
Notation "'assert' b ;! t" := (check b t) (at level 100, b at level 99, right associativity) : rs_scope.
Notation "x == y" := (bool_decide (x = y)) (at level 70, no associativity) : rs_scope.

Section run.
Context {B : Type} `{Backend B}.

Definition query {A} (f : B → res string A) : M B string A := λ b, (b, f b).
Definition perform {A} (c : call A) : M B string A :=
  match c in call A return M B string A with
  | GetCommittedVersions key => query (λ b, get_committed_versions b key)
  | GetLatestCommitted key => query (λ b, get_latest_committed b key)
  | GetVisibleCommitted key read_ts => query (λ b, get_visible_committed b key read_ts)
  | GetLatestCommitTs key => query (λ b, get_latest_commit_ts b key)
  | GetIntent key => query (λ b, get_intent b key)
  | PutIntent intent => put_intent intent
  | RemoveIntent key txn_id start_ts => remove_intent key txn_id start_ts
  | PutCommitted version => put_committed version
  | PutCommittedBatch versions => put_committed_batch versions
  | RemoveCommittedVersion key commit_ts => remove_committed_version key commit_ts
  | AllKeys => query all_keys
  | PutIntentsBatch intents => put_intents_batch intents
  | CommitIntentsBatch commits removed => commit_intents_batch commits removed
  | RemoveIntentsBatch intents => remove_intents_batch intents
  | KeysFrom start limit => query (λ b, keys_from b start limit)
  | KeysFromPrefix prefix start limit =>
      query (λ b, keys_from_prefix b prefix start (Npos limit))
  | GetCommittedTimestampsBefore key before_ts limit =>
      query (λ b, get_committed_timestamps_before b key before_ts limit)
  | CollapseTombstone key tombstone_ts older => collapse_tombstone key tombstone_ts older
  end.

(** Whether the test passes on a backend. *)
Fixpoint run (t : script) (b : B) : bool :=
  match t with
  | Passed => true
  | Panicked => false
  | Do c k =>
      match perform c b with
      | (b', Ok a) => run (k (Some a)) b'
      | (b', Err _) => run (k None) b'
      | (_, Panic) => false
      end
  end.
End run.

(** ** Byte-string literals and loops *)

(** [b"..."]. *)
Definition bs (s : string) : list byte := String.list_byte_of_string s.
Definition version (key : string) (ts : N) (value : option string) : CommittedVersion :=
  mkVersion (bs key) (TS ts) (bs <$> value).
(** [for x in l { body.unwrap(); }; t]. *)
Definition for_each {X} (l : list X) (body : X → call unit) (t : script) : script :=
  foldr (λ x t, unwrap _ := body x in t) t l.
(** [l[i]], a panic out of range. *)
Definition nth_of {X} (l : list X) (i : nat) (k : X → script) : script :=
  match l !! i with Some x => k x | None => Panicked end.
(** [o.unwrap()] on an [Option]. *)
Definition unwrap_some {X} (o : option X) (k : X → script) : script :=
  match o with Some x => k x | None => Panicked end.
(** [call.is_err()]. *)
Definition is_error {A} (c : call A) (t : script) : script :=
  Do c (λ o, match o with Some _ => Panicked | None => t end).

(** ** Backends of committed versions only *)
Module Committed.

Definition committed_versions_are_ascending_and_cross_u64 : script :=
  let boundary := (2 ^ 64 - 1)%N in
  for_each [boundary + 1; boundary - 1; boundary]%N (λ timestamp,
    PutCommitted (mkVersion (bs "k") (TS timestamp)
      (Some (to_be_bytes 16 (Timestamp_0 (TS timestamp)))))) (
  unwrap versions := GetCommittedVersions (bs "k") in
  assert cv_commit_ts <$> versions == [TS (boundary - 1); TS boundary; TS (boundary + 1)];!
  Passed).

Definition committed_batch_and_visibility_are_conformant : script :=
  unwrap _ := PutCommittedBatch
    [version "a" 10 (Some "old"); version "a" 20 (Some "new"); version "b" 10 None] in
  unwrap o := GetVisibleCommitted (bs "a") (TS 15) in
  unwrap_some o (λ v,
  assert cv_value v == Some (bs "old");!
  unwrap latest := GetLatestCommitTs (bs "a") in
  assert latest == Some (TS 20);!
  unwrap keys := AllKeys in
  assert keys == [bs "a"; bs "b"];!
  Passed).

Definition committed_key_scans_and_timestamp_pages_are_conformant : script :=
  for_each [("aa", 10); ("aa", 20); ("ab", 10); ("b", 10)]%N (λ '(key, timestamp),
    PutCommitted (mkVersion (bs key) (TS timestamp) (Some [byte_of_N timestamp]))) (
  unwrap keys := KeysFrom (Some (bs "ab")) 2 in
  assert keys == [bs "ab"; bs "b"];!
  unwrap keys := KeysFromPrefix (bs "a") None 10 in
  assert keys == [bs "aa"; bs "ab"];!
  unwrap ts := GetCommittedTimestampsBefore (bs "aa") (TS 30) 2 in
  assert ts == [TS 20; TS 10];!
  Passed).

Definition committed_removal_and_tombstone_collapse_are_conformant : script :=
  unwrap _ := PutCommittedBatch [version "k" 10 (Some "value"); version "k" 20 None] in
  unwrap _ := RemoveCommittedVersion (bs "k") (TS 10) in
  unwrap versions := GetCommittedVersions (bs "k") in
  assert len versions == 1%N;!
  unwrap _ := CollapseTombstone (bs "k") (TS 20) [] in
  unwrap versions := GetCommittedVersions (bs "k") in
  assert versions == [];!
  Passed.

(** [test_committed_backend_conformance!]. *)
Definition suite : list script := [
  committed_versions_are_ascending_and_cross_u64;
  committed_batch_and_visibility_are_conformant;
  committed_key_scans_and_timestamp_pages_are_conformant;
  committed_removal_and_tombstone_collapse_are_conformant].
End Committed.

(** ** Complete backends *)
Module Full.

Definition sample_intent (key : string) : Intent :=
  mkIntent (bs key) (TXN 1) (TS 5) (Put (bs "i")) None.

Definition test_ascending_commit_ts : script :=
  unwrap _ := PutCommitted (version "k1" 20 (Some "v20")) in
  unwrap _ := PutCommitted (version "k1" 10 (Some "v10")) in
  unwrap _ := PutCommitted (version "k1" 30 (Some "v30")) in
  unwrap versions := GetCommittedVersions (bs "k1") in
  assert len versions == 3%N;!
  nth_of versions 0 (λ v, assert cv_commit_ts v == TS 10;!
  nth_of versions 1 (λ v, assert cv_commit_ts v == TS 20;!
  nth_of versions 2 (λ v, assert cv_commit_ts v == TS 30;! Passed))).

Definition test_all_or_nothing_batch_persistence : script :=
  unwrap _ := PutCommittedBatch [version "k1" 10 (Some "v1"); version "k2" 10 (Some "v2")] in
  unwrap v1 := GetCommittedVersions (bs "k1") in
  unwrap v2 := GetCommittedVersions (bs "k2") in
  assert len v1 == 1%N;!
  assert len v2 == 1%N;!
  Passed.

Definition test_intent_batch_persistence : script :=
  unwrap _ := PutIntentsBatch
    [mkIntent (bs "kb1") (TXN 1) (TS 5) (Put (bs "v1")) None;
     mkIntent (bs "kb2") (TXN 1) (TS 5) Delete None] in
  unwrap i := GetIntent (bs "kb1") in
  assert bool_decide (is_Some i);!
  unwrap i := GetIntent (bs "kb2") in
  assert bool_decide (is_Some i);!
  unwrap _ := CommitIntentsBatch [version "kb1" 10 (Some "v1")] [(bs "kb1", TXN 1, TS 5)] in
  unwrap i := GetIntent (bs "kb1") in
  assert i == None;!
  unwrap versions := GetCommittedVersions (bs "kb1") in
  assert len versions == 1%N;!
  unwrap i := GetIntent (bs "kb2") in
  assert bool_decide (is_Some i);!
  unwrap _ := RemoveIntentsBatch [(bs "kb2", TXN 1, TS 5)] in
  unwrap i := GetIntent (bs "kb2") in
  assert i == None;!
  Passed.

Definition test_strict_intent_identity : script :=
  let intent := mkIntent (bs "k1") (TXN 1) (TS 5) (Put (bs "i1")) None in
  unwrap _ := PutIntent intent in
  unwrap o := GetIntent (bs "k1") in
  unwrap_some o (λ fetched,
  assert fetched == intent;!
  unwrap removed_wrong_txn := RemoveIntent (bs "k1") (TXN 2) (TS 5) in
  assert negb removed_wrong_txn;!
  unwrap removed_wrong_ts := RemoveIntent (bs "k1") (TXN 1) (TS 6) in
  assert negb removed_wrong_ts;!
  unwrap i := GetIntent (bs "k1") in
  assert bool_decide (is_Some i);!
  unwrap removed_correct := RemoveIntent (bs "k1") (TXN 1) (TS 5) in
  assert removed_correct;!
  unwrap i := GetIntent (bs "k1") in
  assert i == None;!
  Passed).

Definition test_all_keys_collation : script :=
  unwrap _ := PutCommitted (version "a" 10 (Some "v")) in
  unwrap _ := PutCommitted (version "b" 10 (Some "v")) in
  unwrap _ := PutCommitted (version "b" 20 (Some "v")) in
  unwrap _ := PutIntent (sample_intent "c") in
  unwrap keys := AllKeys in
  assert keys == [bs "a"; bs "b"; bs "c"];!
  Passed.

Definition test_tombstone_preservation : script :=
  unwrap _ := PutCommitted (version "t1" 10 None) in
  unwrap versions := GetCommittedVersions (bs "t1") in
  assert len versions == 1%N;!
  nth_of versions 0 (λ v, assert cv_value v == None;! Passed).

(** The visible version of [f1] at [read_ts], compared with [expected]. *)
Definition visible_is (read_ts : N) (expected_ts : N) (expected : option (option string))
    (t : script) : script :=
  unwrap o := GetVisibleCommitted (bs "f1") (TS read_ts) in
  unwrap_some o (λ v,
  assert cv_commit_ts v == TS expected_ts;!
  match expected with
  | Some value => assert cv_value v == (bs <$> value);! t
  | None => t
  end).
Definition test_fast_lookups : script :=
  unwrap latest := GetLatestCommitted (bs "f1") in
  assert latest == None;!
  unwrap latest_ts := GetLatestCommitTs (bs "f1") in
  assert latest_ts == None;!
  unwrap visible := GetVisibleCommitted (bs "f1") (TS 100) in
  assert visible == None;!
  unwrap _ := PutCommitted (version "f1" 10 (Some "v10")) in
  unwrap _ := PutCommitted (version "f1" 20 None) in
  unwrap _ := PutCommitted (version "f1" 30 (Some "v30")) in
  unwrap o := GetLatestCommitted (bs "f1") in
  unwrap_some o (λ latest,
  assert cv_commit_ts latest == TS 30;!
  assert cv_value latest == Some (bs "v30");!
  unwrap latest_ts := GetLatestCommitTs (bs "f1") in
  assert latest_ts == Some (TS 30);!
  unwrap vis_5 := GetVisibleCommitted (bs "f1") (TS 5) in
  assert vis_5 == None;!
  visible_is 10 10 (Some (Some "v10")) (
  visible_is 15 10 (Some (Some "v10")) (
  visible_is 20 20 (Some None) (
  visible_is 30 30 None (
  visible_is 100 30 (Some (Some "v30")) Passed))))).

Definition test_binary_handling : script :=
  let binary_key := byte_of_N <$> [0; 255; 128; 64]%N in
  let binary_val := byte_of_N <$> [1; 254; 127; 63]%N in
  unwrap _ := PutCommitted (mkVersion binary_key (TS 10) (Some binary_val)) in
  unwrap versions := GetCommittedVersions binary_key in
  nth_of versions 0 (λ v,
  assert cv_key v == binary_key;!
  assert cv_value v == Some binary_val;!
  Passed).

Definition test_keys_from : script :=
  unwrap _ := PutCommitted (version "a" 10 (Some "v")) in
  unwrap _ := PutIntent (sample_intent "b") in
  unwrap _ := PutCommitted (version "c" 10 (Some "v")) in
  unwrap _ := PutCommitted (version "c" 20 (Some "v")) in
  unwrap keys := KeysFrom None 10 in
  assert keys == [bs "a"; bs "b"; bs "c"];!
  unwrap keys := KeysFrom None 2 in
  assert keys == [bs "a"; bs "b"];!
  unwrap keys := KeysFrom (Some (bs "b")) 10 in
  assert keys == [bs "b"; bs "c"];!
  unwrap keys := KeysFrom (Some (bs "b")) 1 in
  assert keys == [bs "b"];!
  unwrap keys := KeysFrom (Some (bs "ab")) 10 in
  assert keys == [bs "b"; bs "c"];!
  Passed.

Definition test_keys_from_prefix : script :=
  unwrap _ := PutCommitted (version "a1" 10 (Some "v1")) in
  unwrap _ := PutCommitted (version "a1" 20 (Some "v2")) in
  unwrap _ := PutCommitted (version "a2" 10 (Some "v1")) in
  unwrap _ := PutIntent (sample_intent "a3") in
  unwrap _ := PutCommitted (version "b1" 10 (Some "v1")) in
  unwrap keys := KeysFromPrefix (bs "a") None 10 in
  assert keys == [bs "a1"; bs "a2"];!
  unwrap keys := KeysFromPrefix (bs "a") None 1 in
  assert keys == [bs "a1"];!
  unwrap keys := KeysFromPrefix (bs "a") (Some (bs "a2")) 10 in
  assert keys == [bs "a2"];!
  is_error (KeysFromPrefix [] None 10) (
  is_error (KeysFromPrefix (bs "a") (Some (bs "b1")) 10)
  Passed).

Definition test_get_committed_timestamps_before : script :=
  for_each [10; 20; 30]%N (λ ts, PutCommitted (mkVersion (bs "k1") (TS ts) (Some [byte_of_N 1]))) (
  unwrap ts := GetCommittedTimestampsBefore (bs "k1") (TS 30) 10 in
  assert ts == [TS 20; TS 10];!
  unwrap ts := GetCommittedTimestampsBefore (bs "k1") (TS 30) 1 in
  assert ts == [TS 20];!
  unwrap ts := GetCommittedTimestampsBefore (bs "k1") (TS 10) 10 in
  assert ts == [];!
  Passed).

Definition test_collapse_tombstone : script :=
  for_each [10; 20]%N (λ ts, PutCommitted (mkVersion (bs "k1") (TS ts) (Some [byte_of_N 1]))) (
  unwrap _ := PutCommitted (version "k1" 30 None) in
  unwrap _ := PutCommitted (mkVersion (bs "k2") (TS 10) (Some [byte_of_N 2])) in
  unwrap _ := CollapseTombstone (bs "k1") (TS 30) [TS 20; TS 10] in
  unwrap versions := GetCommittedVersions (bs "k1") in
  assert versions == [];!
  unwrap latest := GetLatestCommitted (bs "k1") in
  assert latest == None;!
  unwrap keys := AllKeys in
  assert keys == [bs "k2"];!
  unwrap versions := GetCommittedVersions (bs "k2") in
  assert len versions == 1%N;!
  Passed).

(** [test_backend_conformance!]. *)
Definition suite : list script := [
  test_ascending_commit_ts; test_all_or_nothing_batch_persistence;
  test_intent_batch_persistence; test_strict_intent_identity; test_all_keys_collation;
  test_tombstone_preservation; test_fast_lookups; test_binary_handling; test_keys_from;
  test_keys_from_prefix; test_get_committed_timestamps_before; test_collapse_tombstone].
End Full.

(** Every test of a suite passes on a fresh backend. *)
Definition passes {B : Type} `{Backend B} (suite : list script) (fresh : B) : bool :=
  forallb (λ t, run t fresh) suite.
