(* ===== verification/BTree.v ===== *)
(** * BTree: the ordered collections of the standard library

    [BTreeMap] and [BTreeSet] as finite maps and sets that iterate in ascending
    key order.  [range] panics on a reversed range, as the library documents. *)
From S2P Require Import Prelude.

Inductive Bound (K : Type) := Included (k : K) | Excluded (k : K) | Unbounded.
Arguments Included {K} k.
Arguments Excluded {K} k.
Arguments Unbounded {K}.

Section bounds.
Context {K : Type} `{RustOrd K}.

Definition above (lo : Bound K) (k : K) : bool :=
  match lo with
  | Included l => bool_decide (rle l k)
  | Excluded l => bool_decide (rlt l k)
  | Unbounded => true
  end.
Definition below (hi : Bound K) (k : K) : bool :=
  match hi with
  | Included h => bool_decide (rle k h)
  | Excluded h => bool_decide (rlt k h)
  | Unbounded => true
  end.
Definition in_bounds (lo hi : Bound K) (k : K) : Prop :=
  above lo k && below hi k = true.
#[export] Instance in_bounds_dec lo hi k : Decision (in_bounds lo hi k).
Proof. unfold in_bounds. apply _. Defined.

(** The ranges on which [BTreeMap::range] panics: start after end, or equal and
    both excluded. *)
Definition range_panics (lo hi : Bound K) : bool :=
  match lo, hi with
  | Excluded l, Excluded h => bool_decide (rle h l)
  | Included l, Included h | Included l, Excluded h | Excluded l, Included h =>
      bool_decide (rlt h l)
  | _, _ => false
  end.
End bounds.

Section btree_map.
Context {K V : Type} `{Countable K, RustOrd K}.

(** [BTreeMap::iter]. *)
Definition btree_iter (m : gmap K V) : list (K * V) :=
  merge_sort (λ p q, rle p.1 q.1) (map_to_list m).
(** [BTreeMap::range]. *)
Definition btree_range {E} (lo hi : Bound K) (m : gmap K V) : res E (list (K * V)) :=
  if range_panics lo hi then Panic
  else Ok (filter (λ kv, in_bounds lo hi kv.1) (btree_iter m)).
End btree_map.

Section btree_set.
Context {K : Type} `{Countable K, RustOrd K}.

(** [BTreeSet::iter] and [BTreeSet::range]. *)
Definition btree_set_iter (s : gset K) : list K := merge_sort rle (elements s).
Definition btree_set_range {E} (lo hi : Bound K) (s : gset K) : res E (list K) :=
  if range_panics lo hi then Panic
  else Ok (filter (in_bounds lo hi) (btree_set_iter s)).
End btree_set.

(** ** Iteration is complete and strictly ascending *)
Section laws.
Context {K : Type} `{Countable K, RustOrdLaws K}.

Lemma StronglySorted_strict {A} (f : A → K) l :
  StronglySorted (λ p q, rle (f p) (f q)) l → NoDup (f <$> l) →
  StronglySorted (λ p q, rlt (f p) (f q)) l.
Proof.
  induction 1 as [|x l Hl IH Hx]; intros Hnd; [constructor|].
  inversion Hnd as [|? ? Hnin Hnd']; subst. constructor; [by apply IH|].
  rewrite Forall_forall in Hx |- *. intros y Hy.
  destruct (proj1 (rle_lteq _ _) (Hx y Hy)) as [?|E]; [done|].
  exfalso. apply Hnin. rewrite E. by apply list_elem_of_fmap_2.
Qed.

#[local] Instance fst_total {V} : Total (λ p q : K * V, rle p.1 q.1).
Proof. intros p q. apply (total rle). Qed.
#[local] Instance fst_trans {V} : Transitive (λ p q : K * V, rle p.1 q.1).
Proof. intros p q r ? ?. by etrans. Qed.

Lemma elem_of_btree_iter {V} (m : gmap K V) k v :
  (k, v) ∈ btree_iter m ↔ m !! k = Some v.
Proof.
  unfold btree_iter. rewrite (merge_sort_Permutation _ (map_to_list m)).
  apply elem_of_map_to_list.
Qed.
Lemma btree_iter_sorted {V} (m : gmap K V) :
  StronglySorted (λ p q, rlt p.1 q.1) (btree_iter m).
Proof.
  unfold btree_iter. apply (StronglySorted_strict fst).
  - apply (StronglySorted_merge_sort (λ p q : K * V, rle p.1 q.1)).
  - rewrite (merge_sort_Permutation _ (map_to_list m)).
    apply NoDup_fst_map_to_list.
Qed.
Lemma elem_of_btree_set_iter (s : gset K) k : k ∈ btree_set_iter s ↔ k ∈ s.
Proof.
  unfold btree_set_iter. rewrite (merge_sort_Permutation rle (elements s)).
  apply elem_of_elements.
Qed.
Lemma btree_set_iter_sorted (s : gset K) : StronglySorted rlt (btree_set_iter s).
Proof.
  unfold btree_set_iter. apply (StronglySorted_strict id).
  - apply (StronglySorted_merge_sort rle).
  - rewrite list_fmap_id, (merge_sort_Permutation rle (elements s)).
    apply NoDup_elements.
Qed.

(** The elements a range selects. *)
Definition btree_slice {V} (lo hi : Bound K) (m : gmap K V) : list (K * V) :=
  filter (λ kv, in_bounds lo hi kv.1) (btree_iter m).
Lemma elem_of_btree_slice {V} lo hi (m : gmap K V) k v :
  (k, v) ∈ btree_slice lo hi m ↔ in_bounds lo hi k ∧ m !! k = Some v.
Proof. unfold btree_slice. by rewrite list_elem_of_filter, elem_of_btree_iter. Qed.
Lemma btree_slice_sorted {V} lo hi (m : gmap K V) :
  StronglySorted (λ p q, rlt p.1 q.1) (btree_slice lo hi m).
Proof. apply StronglySorted_filter, btree_iter_sorted. Qed.
Lemma btree_range_ok {V E} lo hi (m : gmap K V) :
  range_panics lo hi = false →
  btree_range (E:=E) lo hi m = Ok (btree_slice lo hi m).
Proof. unfold btree_range. by intros ->. Qed.
End laws.
