(* ===== verification/InMemory.v ===== *)
(** * InMemory: the in-memory backend of [backend.rs]

    The three collections of [InMemoryBackend] and every method of its [Backend]
    implementation. *)
From S2P Require Export Backend BTree.

Record InMemoryBackend := mkInMemory {
  committed : gmap (Key * Timestamp) (option Value);
  intents : gmap Key Intent;
  all_keys_set : gset Key;
}.

Module InMemory.

Definition new : InMemoryBackend := mkInMemory ∅ ∅ ∅.

(** The loop of [get_committed_versions] over the entries from [(key, 0)] on. *)
Fixpoint versions_loop (key : Key) (entries : list (Key * Timestamp * option Value))
    (result : list CommittedVersion) : list CommittedVersion :=
  match entries with
  | [] => result
  | ((k, ts), value) :: entries =>
      if decide (k ≠ key) then result
      else versions_loop key entries (result ++ [mkVersion k ts value])
  end.
Definition get_committed_versions (b : InMemoryBackend) (key : Key) :
    res string (list CommittedVersion) :=
  let? entries := btree_range (Included (key, TS 0)) Unbounded (committed b) in
  Ok (versions_loop key entries []).

Definition get_latest_committed (b : InMemoryBackend) (key : Key) :
    res string (option CommittedVersion) :=
  let? entries := btree_range (Included (key, TS 0)) (Included (key, ts_max)) (committed b) in
  match last entries with
  | Some ((k, ts), value) =>
      if decide (k = key) then Ok (Some (mkVersion k ts value)) else Ok None
  | None => Ok None
  end.

Definition get_visible_committed (b : InMemoryBackend) (key : Key) (read_ts : Timestamp) :
    res string (option CommittedVersion) :=
  let? entries := btree_range (Included (key, TS 0)) (Included (key, read_ts)) (committed b) in
  match last entries with
  | Some ((k, ts), value) =>
      if decide (k = key) then Ok (Some (mkVersion k ts value)) else Ok None
  | None => Ok None
  end.

Definition get_latest_commit_ts (b : InMemoryBackend) (key : Key) :
    res string (option Timestamp) :=
  let? entries := btree_range (Included (key, TS 0)) (Included (key, ts_max)) (committed b) in
  match last entries with
  | Some ((k, ts), _) => if decide (k = key) then Ok (Some ts) else Ok None
  | None => Ok None
  end.

Definition get_intent (b : InMemoryBackend) (key : Key) : res string (option Intent) :=
  Ok (intents b !! key).

Definition put_intent (intent : Intent) : M InMemoryBackend string unit :=
  M_modify (λ b, mkInMemory (committed b)
    (<[intent_key intent := intent]> (intents b))
    ({[intent_key intent]} ∪ all_keys_set b)).

Definition maybe_remove_from_keys (key : Key) : M InMemoryBackend string unit :=
  let! locked := M_get (λ b, bool_decide (is_Some (intents b !! key))) in
  if locked then M_ret tt else
  let! entries := M_gets (λ b,
    btree_range (Included (key, TS 0)) (Included (key, ts_max)) (committed b)) in
  match head entries with
  | None => M_modify (λ b, mkInMemory (committed b) (intents b) (all_keys_set b ∖ {[key]}))
  | Some _ => M_ret tt
  end.

(** The body shared by [remove_intent] and the loops of the batch removals. *)
Definition remove_intent (key : Key) (txn_id : TxnId) (start_ts : Timestamp) :
    M InMemoryBackend string bool :=
  let! found := M_get (λ b, intents b !! key) in
  match found with
  | Some intent =>
      if decide (intent_txn_id intent = txn_id ∧ intent_start_ts intent = start_ts) then
        let! _ := M_modify (λ b,
          mkInMemory (committed b) (delete key (intents b)) (all_keys_set b)) in
        let! _ := maybe_remove_from_keys key in
        M_ret true
      else M_ret false
  | None => M_ret false
  end.

Definition put_committed (version : CommittedVersion) : M InMemoryBackend string unit :=
  M_modify (λ b, mkInMemory
    (<[(cv_key version, cv_commit_ts version) := cv_value version]> (committed b))
    (intents b) ({[cv_key version]} ∪ all_keys_set b)).

Definition put_committed_batch (versions : list CommittedVersion) :
    M InMemoryBackend string unit :=
  M_for (λ version, M_modify (λ b, mkInMemory
    (<[(cv_key version, cv_commit_ts version) := cv_value version]> (committed b))
    (intents b) ({[cv_key version]} ∪ all_keys_set b))) versions.

Definition remove_committed_version (key : Key) (commit_ts : Timestamp) :
    M InMemoryBackend string unit :=
  let! _ := M_modify (λ b,
    mkInMemory (delete (key, commit_ts) (committed b)) (intents b) (all_keys_set b)) in
  maybe_remove_from_keys key.

Definition all_keys (b : InMemoryBackend) : res string (list Key) :=
  Ok (btree_set_iter (all_keys_set b)).

Definition put_intents_batch (l : list Intent) : M InMemoryBackend string unit :=
  M_for (λ intent, M_modify (λ b, mkInMemory (committed b)
    (<[intent_key intent := intent]> (intents b))
    ({[intent_key intent]} ∪ all_keys_set b))) l.

(** The removal loop of [commit_intents_batch] and [remove_intents_batch]. *)
Definition remove_matching (removed : list (Key * TxnId * Timestamp)) :
    M InMemoryBackend string unit :=
  M_for (λ '(key, txn_id, start_ts),
    let! found := M_get (λ b, intents b !! key) in
    match found with
    | Some intent =>
        if decide (intent_txn_id intent = txn_id ∧ intent_start_ts intent = start_ts) then
          let! _ := M_modify (λ b,
            mkInMemory (committed b) (delete key (intents b)) (all_keys_set b)) in
          maybe_remove_from_keys key
        else M_ret tt
    | None => M_ret tt
    end) removed.

Definition commit_intents_batch (commits : list CommittedVersion)
    (removed_intents : list (Key * TxnId * Timestamp)) : M InMemoryBackend string unit :=
  let! _ := M_for (λ version, M_modify (λ b, mkInMemory
    (<[(cv_key version, cv_commit_ts version) := cv_value version]> (committed b))
    (intents b) ({[cv_key version]} ∪ all_keys_set b))) commits in
  remove_matching removed_intents.

Definition remove_intents_batch (l : list (Key * TxnId * Timestamp)) :
    M InMemoryBackend string unit := remove_matching l.

Definition keys_from (b : InMemoryBackend) (start : option Key) (limit : N) :
    res string (list Key) :=
  match start with
  | Some s =>
      let? ks := btree_set_range (Included s) Unbounded (all_keys_set b) in
      Ok (take_usize limit ks)
  | None => Ok (take_usize limit (btree_set_iter (all_keys_set b)))
  end.

(** The loop of [keys_from_prefix]. *)
Fixpoint prefix_loop (prefix : Key) (limit : N)
    (entries : list (Key * Timestamp * option Value)) (result : list Key) : list Key :=
  match entries with
  | [] => result
  | ((k, _), _) :: entries =>
      if decide (¬ prefix `prefix_of` k) then result
      else if decide (last result ≠ Some k) then
        let result := result ++ [k] in
        if (len result =? limit)%N then result
        else prefix_loop prefix limit entries result
      else prefix_loop prefix limit entries result
  end.
Definition keys_from_prefix (b : InMemoryBackend) (prefix : Key) (start : option Key)
    (limit : N) : res string (list Key) :=
  if (limit =? 0)%N then Ok [] else
  if decide (prefix = []) then Err "Prefix cannot be empty" else
  if (match start with Some s => bool_decide (¬ prefix `prefix_of` s) | None => false end)
  then Err "Start cursor must start with the prefix" else
  let scan_start := default prefix start in
  let? entries := btree_range (Included (scan_start, TS 0)) Unbounded (committed b) in
  Ok (prefix_loop prefix limit entries []).

(** The loop keeps the timestamps of the entries whose key is [key]. *)
Definition get_committed_timestamps_before (b : InMemoryBackend) (key : Key)
    (before_ts : Timestamp) (limit : N) : res string (list Timestamp) :=
  let? entries := btree_range (Included (key, TS 0)) (Excluded (key, before_ts)) (committed b) in
  Ok (omap (λ '((k, ts), _), if decide (k = key) then Some ts else None)
    (take_usize limit (rev entries))).

Definition collapse_tombstone (key : Key) (tombstone_ts : Timestamp)
    (older_ts : list Timestamp) : M InMemoryBackend string unit :=
  let! _ := M_modify (λ b,
    mkInMemory (delete (key, tombstone_ts) (committed b)) (intents b) (all_keys_set b)) in
  let! _ := M_for (λ ts, M_modify (λ b,
    mkInMemory (delete (key, ts) (committed b)) (intents b) (all_keys_set b))) older_ts in
  maybe_remove_from_keys key.
End InMemory.

#[export] Instance InMemory_backend : Backend InMemoryBackend := {|
  get_committed_versions := InMemory.get_committed_versions;
  get_latest_committed := InMemory.get_latest_committed;
  get_visible_committed := InMemory.get_visible_committed;
  get_latest_commit_ts := InMemory.get_latest_commit_ts;
  get_intent := InMemory.get_intent;
  put_intent := InMemory.put_intent;
  remove_intent := InMemory.remove_intent;
  put_committed := InMemory.put_committed;
  put_committed_batch := InMemory.put_committed_batch;
  remove_committed_version := InMemory.remove_committed_version;
  all_keys := InMemory.all_keys;
  put_intents_batch := InMemory.put_intents_batch;
  commit_intents_batch := InMemory.commit_intents_batch;
  remove_intents_batch := InMemory.remove_intents_batch;
  keys_from := InMemory.keys_from;
  keys_from_prefix := InMemory.keys_from_prefix;
  get_committed_timestamps_before := InMemory.get_committed_timestamps_before;
  collapse_tombstone := InMemory.collapse_tombstone;
|}.
