(* ===== verification/InMemorySpec.v ===== *)
(** * InMemorySpec: the in-memory backend implements the storage contract

    Abstraction function, representation invariant ([all_keys_set] holds exactly
    the keys with a version or an intent), and the proof of every clause of
    [BackendLaws] for [InMemoryBackend]. *)
From S2P Require Export InMemory.

Definition im_abs (b : InMemoryBackend) : Store := mkStore (committed b) (intents b).
Definition im_inv (b : InMemoryBackend) : Prop :=
  ∀ k, k ∈ all_keys_set b ↔ store_key (im_abs b) k.

(** ** Ranges of the version map *)
Section ranges.
Implicit Types (k key : Key) (t rt : Timestamp).
Implicit Types m : gmap (Key * Timestamp) (option Value).

Lemma pair_rle {A B} `{RustOrdLaws A, RustOrdLaws B} (a a' : A) (x x' : B) :
  rle (a, x) (a', x') ↔ rlt a a' ∨ (a = a' ∧ rle x x').
Proof.
  unfold rle, rlt.
  change (rcmp (a, x) (a', x')) with
    (match rcmp a a' with Eq => rcmp x x' | c => c end).
  destruct (rcmp a a') eqn:E.
  - apply rcmp_eq in E as ->. naive_solver.
  - naive_solver.
  - split; [done|]. intros [?|[-> _]]; [done|]. by rewrite rcmp_refl in E.
Qed.
Lemma pair_rlt {A B} `{RustOrdLaws A, RustOrdLaws B} (a a' : A) (x x' : B) :
  rlt (a, x) (a', x') ↔ rlt a a' ∨ (a = a' ∧ rlt x x').
Proof.
  unfold rlt.
  change (rcmp (a, x) (a', x')) with
    (match rcmp a a' with Eq => rcmp x x' | c => c end).
  destruct (rcmp a a') eqn:E.
  - apply rcmp_eq in E as ->. naive_solver.
  - naive_solver.
  - split; [done|]. intros [?|[-> _]]; [done|]. by rewrite rcmp_refl in E.
Qed.

Lemma in_key_range key rt k t :
  in_bounds (Included (key, TS 0)) (Included (key, rt)) (k, t) ↔
  k = key ∧ (t ≤ rt)%ts.
Proof.
  unfold in_bounds, above, below. rewrite andb_true_iff, !bool_decide_eq_true.
  rewrite !pair_rle, !ts_rle. split.
  - intros [[H1|[E1 _]] [H2|[E2 H2]]]; subst; try done; exfalso;
      eapply (rlt_irrefl (A:=Key)); first [eassumption | by etrans].
  - intros [-> ?]. pose proof (ts_zero_le t). auto.
Qed.
Lemma in_key_range_before key bt k t :
  in_bounds (Included (key, TS 0)) (Excluded (key, bt)) (k, t) ↔
  k = key ∧ (t < bt)%ts.
Proof.
  unfold in_bounds, above, below. rewrite andb_true_iff, !bool_decide_eq_true.
  rewrite pair_rle, pair_rlt, ts_rle, ts_rlt. split.
  - intros [[H1|[E1 _]] [H2|[E2 H2]]]; subst; try done; exfalso;
      eapply (rlt_irrefl (A:=Key)); first [eassumption | by etrans].
  - intros [-> ?]. pose proof (ts_zero_le t). auto.
Qed.
Lemma in_range_from key k t :
  in_bounds (Included (key, TS 0)) Unbounded (k, t) ↔ rle key k.
Proof.
  unfold in_bounds, above, below. rewrite andb_true_iff, bool_decide_eq_true.
  rewrite pair_rle, ts_rle, rle_lteq. pose proof (ts_zero_le t). naive_solver.
Qed.

(** No range the backend asks for is reversed. *)
Lemma key_range_valid key rt :
  range_panics (Included (key, TS 0)) (Included (key, rt)) = false.
Proof.
  unfold range_panics. apply bool_decide_eq_false. rewrite pair_rlt, ts_rlt.
  pose proof (ts_zero_le rt). intros [?|[_ ?]]; [by destruct (rlt_irrefl key)|lia].
Qed.
Lemma key_range_before_valid key bt :
  range_panics (Included (key, TS 0)) (Excluded (key, bt)) = false.
Proof. apply key_range_valid. Qed.

Lemma key_range_last b key rt :
  match last (btree_slice (Included (key, TS 0)) (Included (key, rt)) (committed b)) with
  | Some ((k, t), v) => k = key ∧ is_visible (im_abs b) key rt (Some (mkVersion k t v))
  | None => is_visible (im_abs b) key rt None
  end.
Proof.
  set (l := btree_slice _ _ _).
  assert (∀ k t v, (k, t, v) ∈ l ↔
    k = key ∧ (t ≤ rt)%ts ∧ committed b !! (k, t) = Some v) as Hl.
  { intros k t v. unfold l. rewrite elem_of_btree_slice, in_key_range. naive_solver. }
  assert (StronglySorted (λ p q, rlt p.1 q.1) l) as Hs by apply btree_slice_sorted.
  destruct (last l) as [[[k t] v]|] eqn:E.
  - destruct (proj1 (Hl k t v)) as (->&Ht&Hv); [by apply last_Some_elem_of|].
    split; [done|]. simpl. split_and!; try done. intros t' x Hx Hle.
    assert ((key, t', x) ∈ l) as Hin by by apply Hl.
    destruct (StronglySorted_last _ _ _ _ Hs E Hin) as [[= -> ->]|Hlt]; [done|].
    simpl in Hlt. rewrite pair_rlt, ts_rlt in Hlt.
    destruct Hlt as [?|[_ ?]]; [by destruct (rlt_irrefl key)|lia].
  - apply last_None in E. intros t x Hx. simpl in Hx.
    destruct (decide (t ≤ rt)%ts) as [Hle|]; [|lia].
    assert ((key, t, x) ∈ l) as Hin by by apply Hl. rewrite E in Hin.
    by apply elem_of_nil in Hin.
Qed.
End ranges.

(** ** Queries *)
Section queries.
Implicit Types (b : InMemoryBackend) (key : Key).

Lemma im_get_visible_committed b key rt :
  ∃ o, InMemory.get_visible_committed b key rt = Ok o ∧ is_visible (im_abs b) key rt o.
Proof.
  unfold InMemory.get_visible_committed.
  rewrite btree_range_ok by apply key_range_valid. cbn [res_bind].
  pose proof (key_range_last b key rt) as Hl.
  destruct (last _) as [[[k t] v]|]; [|eauto].
  destruct Hl as [-> Hl]. rewrite decide_True by done. eauto.
Qed.
Lemma im_get_latest_committed b key :
  InMemory.get_latest_committed b key = InMemory.get_visible_committed b key ts_max.
Proof. done. Qed.
Lemma im_get_latest_commit_ts b key :
  ∃ o, InMemory.get_latest_commit_ts b key = Ok o ∧ is_latest_ts (im_abs b) key o.
Proof.
  unfold InMemory.get_latest_commit_ts.
  rewrite btree_range_ok by apply key_range_valid. cbn [res_bind].
  pose proof (key_range_last b key ts_max) as Hl.
  destruct (last _) as [[[k t] v]|]; simpl.
  - destruct Hl as [-> Hl%is_latest_visible]. rewrite decide_True by done. eauto.
  - apply is_latest_visible in Hl. eauto.
Qed.

Lemma versions_loop_app key l acc :
  InMemory.versions_loop key l acc = acc ++ InMemory.versions_loop key l [].
Proof.
  revert acc. induction l as [|[[k t] v] l IH]; intros acc; simpl; [by rewrite app_nil_r|].
  case_decide; [by rewrite app_nil_r|]. rewrite (IH (acc ++ _)), (IH [_]).
  by rewrite <-app_assoc.
Qed.
(** Stopping at the first entry of another key loses nothing. *)
Lemma versions_loop_elem key l v :
  StronglySorted (λ p q, rlt p.1 q.1) l →
  (∀ e, e ∈ l → rle key e.1.1) →
  v ∈ InMemory.versions_loop key l [] ↔
  cv_key v = key ∧ (key, cv_commit_ts v, cv_value v) ∈ l.
Proof.
  induction 1 as [|[[k t] x] l Hs IH Hx]; intros Hge; simpl.
  - split; [by intros ?%elem_of_nil|]. by intros [_ ?%elem_of_nil].
  - case_decide as Hk.
    + split; [by intros ?%elem_of_nil|]. intros [_ Hin]. exfalso.
      pose proof (Hge _ (list_elem_of_here _ _)) as Hlt%rle_lteq. simpl in Hlt.
      destruct Hlt as [Hlt|]; [|congruence].
      apply elem_of_cons in Hin as [[= <- _ _]|Hin]; [by apply Hk|].
      rewrite Forall_forall in Hx. specialize (Hx _ Hin). simpl in Hx.
      rewrite pair_rlt in Hx. destruct Hx as [?|[-> _]]; [|done].
      apply (rlt_irrefl key). by etrans.
    + subst k. rewrite versions_loop_app, elem_of_app.
      rewrite list_elem_of_singleton, elem_of_cons, IH
        by (intros; apply Hge; by constructor).
      destruct v as [kv tv xv]. simpl. naive_solver.
Qed.
Lemma versions_loop_sorted key l :
  StronglySorted (λ p q, rlt p.1 q.1) l →
  (∀ e, e ∈ l → rle key e.1.1) →
  StronglySorted (λ v w, (cv_commit_ts v < cv_commit_ts w)%ts)
    (InMemory.versions_loop key l []).
Proof.
  induction 1 as [|[[k t] x] l Hs IH Hx]; intros Hge; simpl; [constructor|].
  case_decide as Hk; [constructor|]. subst k.
  assert (∀ e, e ∈ l → rle key e.1.1) by (intros; apply Hge; by constructor).
  rewrite versions_loop_app. simpl. constructor; [by apply IH|].
  rewrite Forall_forall in Hx. rewrite Forall_forall. intros v Hv.
  apply versions_loop_elem in Hv as [_ Hv]; [|done|done].
  specialize (Hx _ Hv). simpl in *. rewrite pair_rlt, ts_rlt in Hx.
  destruct Hx as [?|[_ ?]]; [by destruct (rlt_irrefl key)|done].
Qed.
Lemma im_get_committed_versions b key :
  ∃ l, InMemory.get_committed_versions b key = Ok l ∧ is_history (im_abs b) key l.
Proof.
  unfold InMemory.get_committed_versions.
  rewrite btree_range_ok by done. cbn [res_bind].
  set (l := btree_slice _ _ _). eexists; split; [done|].
  assert (StronglySorted (λ p q, rlt p.1 q.1) l) by apply btree_slice_sorted.
  assert (∀ k t v, (k, t, v) ∈ l ↔ rle key k ∧ committed b !! (k, t) = Some v) as Hl.
  { intros k t v. unfold l. by rewrite elem_of_btree_slice, in_range_from. }
  assert (∀ e, e ∈ l → rle key e.1.1) by (by intros [[k t] v] [? _]%Hl).
  split; [by apply versions_loop_sorted|]. intros v.
  rewrite versions_loop_elem, Hl by done. simpl. naive_solver.
Qed.

Lemma im_get_committed_timestamps_before b key bt limit :
  ∃ l, InMemory.get_committed_timestamps_before b key bt limit = Ok l ∧
    is_before (im_abs b) key bt limit l.
Proof.
  unfold InMemory.get_committed_timestamps_before.
  rewrite btree_range_ok by apply key_range_before_valid. cbn [res_bind].
  set (l := btree_slice _ _ _). eexists; split; [done|].
  assert (StronglySorted (λ p q, rlt p.1 q.1) l) as Hs by apply btree_slice_sorted.
  assert (∀ k t v, (k, t, v) ∈ l ↔
    k = key ∧ (t < bt)%ts ∧ committed b !! (k, t) = Some v) as Hl.
  { intros k t v. unfold l. rewrite elem_of_btree_slice, in_key_range_before. naive_solver. }
  exists ((λ e : Key * Timestamp * option Value, e.1.2) <$> rev l). split_and!.
  - assert (∀ l' : list (Key * Timestamp * option Value),
      (∀ e, e ∈ l' → e ∈ l) → omap (λ '((k, ts), _),
      if decide (k = key) then Some ts else None) l' = (λ e : Key * Timestamp * option Value, e.1.2) <$> l') as Hom.
    { induction l' as [|[[k t] v] l' IH]; intros Hsub; [done|]. csimpl.
      destruct (proj1 (Hl k t v)) as (->&_); [apply Hsub; by constructor|].
      rewrite decide_True by done. f_equal. apply IH. intros. apply Hsub. by constructor. }
    rewrite Hom.
    + rewrite !take_usize_take. apply fmap_take.
    + intros e He%elem_of_take_usize. by apply elem_of_rev.
  - eapply (StronglySorted_fmap _
      (λ p q : Key * Timestamp * option Value, (q.1.2 < p.1.2)%ts)); [done|].
    assert (∀ l', StronglySorted (flip (λ p q, rlt p.1 q.1)) l' → (∀ e, e ∈ l' → e ∈ l) →
      StronglySorted (λ p q : Key * Timestamp * option Value, (q.1.2 < p.1.2)%ts) l') as Hw.
    { induction 1 as [|[[k t] v] l' Hs' IH Hx]; intros Hsub; constructor.
      - apply IH. intros. apply Hsub. by constructor.
      - rewrite Forall_forall in Hx |- *. intros [[k' t'] v'] Hin.
        specialize (Hx _ Hin). unfold flip in Hx. simpl in *.
        destruct (proj1 (Hl k t v)) as (->&_); [apply Hsub; by constructor|].
        destruct (proj1 (Hl k' t' v')) as (->&_); [apply Hsub; by constructor|].
        rewrite pair_rlt, ts_rlt in Hx.
        destruct Hx as [?|[_ ?]]; [by destruct (rlt_irrefl key)|done]. }
    apply Hw; [by apply StronglySorted_rev|]. intros e. by rewrite elem_of_rev.
  - intros t. rewrite list_elem_of_fmap. split.
    + intros ([[k t'] v]&->&Hin). apply elem_of_rev, Hl in Hin as (->&?&Hv). simpl. eauto.
    + intros [[v Hv] Ht]. exists (key, t, v). split; [done|].
      by apply elem_of_rev, Hl.
Qed.
End queries.

(** ** Key scans *)
Section scans.
Implicit Types (b : InMemoryBackend) (key : Key).

Lemma im_all_keys b :
  im_inv b → ∃ l, InMemory.all_keys b = Ok l ∧
    StronglySorted rlt l ∧ ∀ k, k ∈ l ↔ store_key (im_abs b) k.
Proof.
  intros Hinv. eexists. split; [done|]. split; [apply btree_set_iter_sorted|].
  intros k. by rewrite elem_of_btree_set_iter.
Qed.
Lemma im_keys_from b start limit :
  im_inv b → ∃ l, InMemory.keys_from b start limit = Ok l ∧
    is_keys_from (im_abs b) start limit l.
Proof.
  intros Hinv. unfold InMemory.keys_from. destruct start as [s|].
  - unfold btree_set_range. simpl. eexists. split; [done|]. eexists. split; [done|].
    split; [apply StronglySorted_filter, btree_set_iter_sorted|]. intros k. simpl.
    rewrite list_elem_of_filter, elem_of_btree_set_iter, (Hinv k).
    unfold in_bounds. simpl. rewrite andb_true_r, bool_decide_eq_true. naive_solver.
  - eexists. split; [done|]. eexists. split; [done|].
    split; [apply btree_set_iter_sorted|]. intros k. simpl.
    rewrite elem_of_btree_set_iter, (Hinv k). naive_solver.
Qed.

(** The loop of [keys_from_prefix] without its limit. *)
Fixpoint new_keys (prefix : Key) (prev : option Key)
    (entries : list (Key * Timestamp * option Value)) : list Key :=
  match entries with
  | [] => []
  | ((k, _), _) :: entries =>
      if decide (¬ prefix `prefix_of` k) then []
      else if decide (prev ≠ Some k) then k :: new_keys prefix (Some k) entries
      else new_keys prefix prev entries
  end.
Lemma prefix_loop_take prefix limit entries acc :
  (len acc < limit)%N →
  InMemory.prefix_loop prefix limit entries acc =
  take_usize limit (acc ++ new_keys prefix (last acc) entries).
Proof.
  revert acc. induction entries as [|[[k t] v] entries IH]; intros acc Hacc; simpl.
  - rewrite app_nil_r, take_usize_all by lia. done.
  - case_decide; [by rewrite app_nil_r, take_usize_all by lia|].
    case_decide; [|by apply IH].
    assert (len (acc ++ [k]) = len acc + 1)%N as Hlen by by len_simpl.
    replace (acc ++ k :: new_keys prefix (Some k) entries)
      with ((acc ++ [k]) ++ new_keys prefix (Some k) entries) by by rewrite <-app_assoc.
    destruct (N.eqb_spec (len (acc ++ [k])) limit) as [E|E].
    + unfold len in *. rewrite take_usize_take, take_app_le, take_ge by lia. done.
    + rewrite IH by lia. by rewrite last_snoc.
Qed.

(** Keys between a prefix and one of its extensions extend the prefix. *)
Lemma prefix_between (p k k' : Key) :
  rle p k → rle k k' → p `prefix_of` k' → p `prefix_of` k.
Proof.
  revert k k'. induction p as [|x p IH]; intros k k' H1 H2 Hp; [apply prefix_nil|].
  destruct k' as [|y k']; [by apply prefix_nil_not in Hp|].
  pose proof (prefix_cons_inv_1 _ _ _ _ Hp) as <-. apply prefix_cons_inv_2 in Hp.
  destruct k as [|z k]; [done|].
  unfold rle in H1, H2.
  change (rcmp (x :: p) (z :: k)) with
    (match rcmp x z with Eq => rcmp p k | c => c end) in H1.
  change (rcmp (z :: k) (x :: k')) with
    (match rcmp z x with Eq => rcmp k k' | c => c end) in H2.
  rewrite (rcmp_opp x z) in H2. destruct (rcmp x z) eqn:E; simpl in *; try done.
  apply rcmp_eq in E as ->. by apply prefix_cons, (IH k k').
Qed.
Lemma prefix_rle (p k : Key) : p `prefix_of` k → rle p k.
Proof.
  revert k. induction p as [|x p IH]; intros k Hp; [by destruct k|].
  destruct k as [|y k]; [by apply prefix_nil_not in Hp|].
  pose proof (prefix_cons_inv_1 _ _ _ _ Hp) as <-.
  apply prefix_cons_inv_2, IH in Hp. unfold rle in *.
  change (rcmp (x :: p) (x :: k)) with (match rcmp x x with Eq => rcmp p k | c => c end).
  by rewrite rcmp_refl.
Qed.

Abbreviation Entry := (Key * Timestamp * option Value)%type.
(** What the scan loop collects from ascending entries at or after [prefix],
    the keys up to [prev] having been seen. *)
Lemma new_keys_spec prefix prev (l : list Entry) :
  StronglySorted (λ p q, rlt p.1 q.1) l →
  (∀ e, e ∈ l → rle prefix e.1.1 ∧ from_option (λ p, rle p e.1.1) True prev) →
  StronglySorted rlt (new_keys prefix prev l) ∧
  (∀ k, k ∈ new_keys prefix prev l ↔
    prefix `prefix_of` k ∧ prev ≠ Some k ∧ ∃ e, e ∈ l ∧ e.1.1 = k).
Proof.
  intros Hs. revert prev. induction Hs as [|[[k t] v] l Hs IH Hx]; intros prev Hge; simpl.
  { split; [constructor|]. intros k. split; [by intros ?%elem_of_nil|].
    intros (_&_&e&?%elem_of_nil&_). done. }
  pose proof (Hge _ (list_elem_of_here _ _)) as [Hk Hprev]. simpl in Hk, Hprev.
  rewrite Forall_forall in Hx.
  assert (∀ e, e ∈ l → rle k e.1.1) as Hle.
  { intros [[k' t'] v'] He. specialize (Hx _ He). simpl in *. rewrite pair_rlt in Hx.
    apply rle_lteq. naive_solver. }
  case_decide as Hpre.
  - split; [constructor|]. intros k'. split; [by intros ?%elem_of_nil|].
    intros (Hp&_&e&He&<-). exfalso. apply Hpre.
    apply elem_of_cons in He as [->|He]; [done|].
    by apply (prefix_between prefix k e.1.1); [|apply Hle|].
  - case_decide as Hnew.
    + destruct (IH (Some k)) as [Hso Hel].
      { intros e He. split; [apply Hge; by constructor|by apply Hle]. }
      split.
      * constructor; [done|]. rewrite Forall_forall. intros k' Hk'.
        apply Hel in Hk' as (_&Hne&e&He&<-).
        destruct (proj1 (rle_lteq _ _) (Hle e He)); [done|congruence].
      * intros k'. rewrite elem_of_cons, Hel. split.
        -- intros [->|(?&Hne&e&He&<-)].
           { split_and!; [done|done|]. eexists. split; [by constructor|done]. }
           split_and!; [done| |eexists; split; [by constructor|done]].
           intros ->. simpl in Hprev. apply Hne. f_equal.
           apply (anti_symm rle); [by apply Hle|done].
        -- intros (Hp&Hne&e&[->|He]%elem_of_cons&<-); [by left|].
           destruct (decide (k = e.1.1)) as [->|Hd]; [by left|].
           right. split_and!; [done|congruence|eauto].
    + subst prev. destruct (IH (Some k)) as [Hso Hel].
      { intros e He. split; [apply Hge; by constructor|by apply Hle]. }
      split; [done|]. intros k'. rewrite Hel. split.
      * intros (?&?&e&He&<-). split_and!; [done..|]. eexists. split; [by constructor|done].
      * intros (?&Hne&e&[->|He]%elem_of_cons&<-); [done|]. eauto.
Qed.
Lemma im_keys_from_prefix b prefix start limit :
  match InMemory.keys_from_prefix b prefix start limit with
  | Ok l => is_keys_from_prefix (im_abs b) prefix start limit l
  | Err _ => limit ≠ 0%N ∧
      (prefix = [] ∨ ∃ s, start = Some s ∧ ¬ prefix `prefix_of` s)
  | Panic => False
  end.
Proof.
  unfold InMemory.keys_from_prefix.
  assert (∀ from, (∀ k, prefix `prefix_of` k →
      rle from k ↔ from_option (λ s, rle s k) True start) → rle prefix from →
    is_keys_from_prefix (im_abs b) prefix start limit
      (take_usize limit (new_keys prefix None
        (btree_slice (Included (from, TS 0)) Unbounded (committed b))))) as Hmain.
  { intros from Hfrom Hpf. set (l := btree_slice _ _ _).
    assert (∀ k t v, (k, t, v) ∈ l ↔ rle from k ∧ committed b !! (k, t) = Some v) as Hl.
    { intros k t v. unfold l. by rewrite elem_of_btree_slice, in_range_from. }
    destruct (new_keys_spec prefix None l) as [Hso Hel].
    { apply btree_slice_sorted. }
    { intros [[k t] v] [? _]%Hl. split; [by etrans|done]. }
    eexists. split; [done|]. split; [done|]. intros k. rewrite Hel. split.
    - intros (Hp&_&[[k' t] v]&[Hle Hv]%Hl&<-). simpl in *. split_and!; [by eauto|done|].
      by apply Hfrom.
    - intros ([t [v Hv]]&Hp&Hst). split_and!; [done..|]. exists (k, t, v).
      split; [|done]. apply Hl. split; [by apply Hfrom|done]. }
  destruct (N.eqb_spec limit 0) as [->|Hlim].
  { destruct start as [s|].
    - destruct (decide (rle prefix s)) as [Hps|Hps].
      + specialize (Hmain s). rewrite take_usize_take in Hmain. simpl in Hmain.
        by apply Hmain.
      + specialize (Hmain prefix). rewrite take_usize_take in Hmain. simpl in Hmain.
        apply Hmain; [|done]. intros k Hk. apply prefix_rle in Hk.
        split; [|done]. intros _. etrans; [|done].
        by destruct (total rle s prefix).
    - specialize (Hmain prefix). rewrite take_usize_take in Hmain. simpl in Hmain.
      apply Hmain; [|done]. intros k Hk. by apply prefix_rle in Hk. }
  case_decide as Hnil; [split; [done|by left]|].
  destruct (match start with Some _ => _ | None => _ end) eqn:Hst.
  { destruct start as [s|]; [|done]. apply bool_decide_eq_true in Hst.
    split; [done|]. right. eauto. }
  rewrite btree_range_ok by done. cbn [res_bind].
  rewrite prefix_loop_take by (rewrite len_nil; lia). rewrite app_nil_l.
  apply Hmain.
  - intros k Hk. destruct start as [s|]; simpl; [done|]. by apply prefix_rle in Hk.
  - destruct start as [s|]; simpl; [|done]. apply bool_decide_eq_false in Hst.
    apply dec_stable in Hst. by apply prefix_rle.
Qed.
Lemma im_keys_from_prefix_request b prefix start limit :
  match InMemory.keys_from_prefix b prefix start limit with
  | Ok l => is_keys_from_prefix (im_abs b) prefix start limit l ∧
      (limit = 0%N ∨ prefix_request prefix start)
  | Err _ => limit ≠ 0%N ∧ ¬ prefix_request prefix start
  | Panic => False
  end.
Proof.
  pose proof (im_keys_from_prefix b prefix start limit) as Hk.
  destruct (InMemory.keys_from_prefix b prefix start limit) eqn:E; [|split|done].
  - split; [done|]. unfold InMemory.keys_from_prefix in E.
    destruct (N.eqb_spec limit 0) as [->|_]; [by left|right].
    case_decide as Hp; [done|]. split; [done|]. intros s ->. by case_bool_decide.
  - by destruct Hk.
  - intros [Hp Hs]. destruct Hk as [_ [?|(s&->&Hn)]]; [done|]. by apply Hn, Hs.
Qed.
End scans.

(** ** Updates *)
Section updates.
Implicit Types (b : InMemoryBackend) (key : Key).

(** [b'] stands for [st] and satisfies the invariant. *)
Definition im_is (b' : InMemoryBackend) (st : Store) : Prop := im_inv b' ∧ im_abs b' = st.
(** The invariant up to a spurious occurrence of [key]. *)
Definition im_inv_but key b : Prop :=
  ∀ k, (store_key (im_abs b) k → k ∈ all_keys_set b) ∧
       (k ≠ key → k ∈ all_keys_set b → store_key (im_abs b) k).

Lemma im_inv_weaken key b : im_inv b → im_inv_but key b.
Proof. intros Hb k. by split; [|intros _]; apply Hb. Qed.

Lemma maybe_remove_spec key b :
  im_inv_but key b →
  ∃ b', InMemory.maybe_remove_from_keys key b = (b', Ok tt) ∧ im_is b' (im_abs b).
Proof.
  intros Hb. unfold InMemory.maybe_remove_from_keys, M_bind, M_get, M_gets, M_ret, M_modify.
  case_bool_decide as Hlock.
  { eexists. split; [done|]. split; [|done]. intros k. split; [|apply Hb].
    destruct (decide (k = key)) as [->|]; [by right|by apply Hb]. }
  rewrite btree_range_ok by apply key_range_valid.
  set (l := btree_slice _ _ _).
  assert (∀ k t v, (k, t, v) ∈ l ↔
    k = key ∧ (t ≤ ts_max)%ts ∧ committed b !! (k, t) = Some v) as Hl.
  { intros k t v. unfold l. rewrite elem_of_btree_slice, in_key_range. naive_solver. }
  clearbody l. destruct l as [|[[k0 t0] v0] l]; simpl.
  - eexists. split; [done|]. split; [|done]. intros k.
    change (k ∈ all_keys_set b ∖ {[key]} ↔ store_key (im_abs b) k).
    rewrite elem_of_difference, elem_of_singleton. split.
    + intros [Hk Hne]. by apply Hb.
    + intros Hk. split; [by apply Hb|]. intros ->. destruct Hk as [[t [v Hv]]|Hi]; [|done].
      assert ((key, t, v) ∈ @nil (Key * Timestamp * option Value)) as []%elem_of_nil.
      apply Hl. split; [done|]. split; [apply ts_le_max|done].
  - eexists. split; [done|]. split; [|done]. intros k. split; [|apply Hb].
    destruct (decide (k = key)) as [->|]; [|by apply Hb]. intros _.
    destruct (proj1 (Hl k0 t0 v0)) as (->&_&?); [by constructor|]. left. simpl. eauto.
Qed.

Lemma im_put_version v b :
  im_inv b →
  im_is (mkInMemory (<[(cv_key v, cv_commit_ts v) := cv_value v]> (committed b))
    (intents b) ({[cv_key v]} ∪ all_keys_set b)) (store_put_version v (im_abs b)).
Proof.
  intros Hb. split; [|done]. intros k. simpl. rewrite elem_of_union, elem_of_singleton, (Hb k).
  unfold store_key. simpl. split.
  - intros [->|[[t Ht]|?]]; [| |by right].
    + left. exists (cv_commit_ts v). rewrite lookup_insert_eq. eauto.
    + left. exists t. rewrite lookup_insert. case_decide; eauto.
  - intros [[t Ht]|?]; [|by right; right].
    rewrite lookup_insert in Ht. case_decide as E; [|by right; left; eauto].
    injection E as <- <-. by left.
Qed.
Lemma im_put_intent_state i b :
  im_inv b →
  im_is (mkInMemory (committed b) (<[intent_key i := i]> (intents b))
    ({[intent_key i]} ∪ all_keys_set b)) (store_put_intent i (im_abs b)).
Proof.
  intros Hb. split; [|done]. intros k. simpl. rewrite elem_of_union, elem_of_singleton, (Hb k).
  unfold store_key. simpl. rewrite lookup_insert. case_decide; naive_solver.
Qed.

(** Loops over a batch. *)
Lemma M_for_spec {A} (body : A → M InMemoryBackend string unit)
    (step : A → Store → Store) (l : list A) b st :
  (∀ x b st, x ∈ l → im_is b st → ∃ b', body x b = (b', Ok tt) ∧ im_is b' (step x st)) →
  im_is b st →
  ∃ b', M_for body l b = (b', Ok tt) ∧ im_is b' (foldl (λ st x, step x st) st l).
Proof.
  revert b st. induction l as [|x l IH]; intros b st Hbody Hb; simpl.
  { unfold M_ret. eauto. }
  destruct (Hbody x b st) as (b1&E&Hb1); [by constructor|done|].
  rewrite (M_bind_run _ _ _ _ _ E). apply IH; [|done].
  intros. apply Hbody; [by constructor|done].
Qed.

Lemma im_put_versions vs b st :
  im_is b st →
  ∃ b', InMemory.put_committed_batch vs b = (b', Ok tt) ∧
    im_is b' (store_put_versions vs st).
Proof.
  intros Hb. apply (M_for_spec _ store_put_version); [|done].
  intros v b1 st1 _ [Hinv <-]. eexists. split; [done|]. by apply im_put_version.
Qed.
Lemma im_put_intents l b st :
  im_is b st →
  ∃ b', InMemory.put_intents_batch l b = (b', Ok tt) ∧ im_is b' (store_put_intents l st).
Proof.
  intros Hb. apply (M_for_spec _ store_put_intent); [|done].
  intros i b1 st1 _ [Hinv <-]. eexists. split; [done|]. by apply im_put_intent_state.
Qed.

Lemma intent_matches_decide txn s i {A} (x y : A) :
  (if decide (intent_txn_id i = txn ∧ intent_start_ts i = s) then x else y)
  = if intent_matches txn s i then x else y.
Proof.
  unfold intent_matches. repeat case_bool_decide; case_decide; naive_solver.
Qed.
Lemma im_delete_intent key b :
  im_inv b →
  im_inv_but key (mkInMemory (committed b) (delete key (intents b)) (all_keys_set b)).
Proof.
  intros Hb k. unfold store_key. simpl. rewrite (Hb k). unfold store_key. simpl. split.
  - intros [?|Hi]; [by left|]. right. destruct Hi as [i [_ Hi]%lookup_delete_Some]. eauto.
  - intros Hne [?|?]; [by left|]. right. by rewrite lookup_delete_ne.
Qed.
Lemma im_remove_intent key txn s b st :
  im_is b st →
  ∃ b', InMemory.remove_intent key txn s b =
      (b', Ok (from_option (intent_matches txn s) false (st_intents st !! key))) ∧
    im_is b' (store_remove_intent key txn s st).
Proof.
  intros [Hinv <-]. unfold InMemory.remove_intent, store_remove_intent.
  m_simpl. simpl.
  destruct (intents b !! key) as [i|]; simpl; [|by unfold M_ret, im_is; eauto 10].
  rewrite intent_matches_decide.
  destruct (intent_matches txn s i); [|by unfold M_ret, im_is; eauto 10].
  m_simpl.
  destruct (maybe_remove_spec key _ (im_delete_intent key b Hinv)) as (b'&E&Hb').
  rewrite (M_bind_run _ _ _ _ _ E). unfold M_ret. eauto.
Qed.
Lemma im_remove_matching l b st :
  im_is b st →
  ∃ b', InMemory.remove_matching l b = (b', Ok tt) ∧ im_is b' (store_remove_intents l st).
Proof.
  intros Hb. unfold InMemory.remove_matching, store_remove_intents.
  apply (M_for_spec _ (λ x st, let '(key, txn, s) := x in
    store_remove_intent key txn s st)); [|done].
  intros [[key txn] s] b1 st1 _ [Hinv <-]. unfold store_remove_intent.
  m_simpl. simpl.
  destruct (intents b1 !! key) as [i|]; [|by unfold M_ret, im_is; eauto].
  rewrite intent_matches_decide.
  destruct (intent_matches txn s i); [|by unfold M_ret, im_is; eauto].
  m_simpl.
  apply (maybe_remove_spec key _ (im_delete_intent key b1 Hinv)).
Qed.

Lemma im_delete_version key t b :
  im_inv_but key b →
  im_inv_but key (mkInMemory (delete (key, t) (committed b)) (intents b) (all_keys_set b)).
Proof.
  intros Hb k. specialize (Hb k) as [H1 H2]. unfold store_key in *. simpl in *. split.
  - intros [[u [x [_ Hu]%lookup_delete_Some]]|?]; apply H1; [left; eauto|by right].
  - intros Hne Hk. destruct (H2 Hne Hk) as [[u Hu]|?]; [left|by right].
    exists u. rewrite lookup_delete_ne by congruence. done.
Qed.
Lemma im_remove_version key t b :
  im_inv b →
  ∃ b', InMemory.remove_committed_version key t b = (b', Ok tt) ∧
    im_is b' (store_remove_version key t (im_abs b)).
Proof.
  intros Hb. unfold InMemory.remove_committed_version. m_simpl.
  apply (maybe_remove_spec key), im_delete_version, im_inv_weaken, Hb.
Qed.
(** The deletions of [collapse_tombstone], before [maybe_remove_from_keys]. *)
Lemma im_delete_versions key older b :
  im_inv_but key b →
  ∃ b', M_for (λ ts, M_modify (λ b, mkInMemory (delete (key, ts) (committed b))
      (intents b) (all_keys_set b))) older b = (b', @Ok string unit tt) ∧
    im_inv_but key b' ∧ im_abs b' = store_remove_versions key older (im_abs b).
Proof.
  revert b. induction older as [|t older IH]; intros b Hb; simpl; [unfold M_ret; eauto|].
  m_simpl. apply IH, im_delete_version, Hb.
Qed.
Lemma im_collapse_tombstone key t older b :
  im_inv b →
  ∃ b', InMemory.collapse_tombstone key t older b = (b', Ok tt) ∧
    im_is b' (store_remove_versions key (t :: older) (im_abs b)).
Proof.
  intros Hb. unfold InMemory.collapse_tombstone. m_simpl.
  destruct (im_delete_versions key older _ (im_delete_version key t b
    (im_inv_weaken key b Hb))) as (b1&E&Hb1&Habs).
  rewrite (M_bind_run _ _ _ _ _ E).
  destruct (maybe_remove_spec key b1 Hb1) as (b2&E2&Hb2). rewrite Habs in Hb2. eauto.
Qed.
Lemma im_commit_intents commits removed b :
  im_inv b →
  ∃ b', InMemory.commit_intents_batch commits removed b = (b', Ok tt) ∧
    im_is b' (store_remove_intents removed (store_put_versions commits (im_abs b))).
Proof.
  intros Hb. unfold InMemory.commit_intents_batch.
  destruct (im_put_versions commits b (im_abs b)) as (b1&E&Hb1); [by split|].
  unfold InMemory.put_committed_batch in E. rewrite (M_bind_run _ _ _ _ _ E).
  by apply im_remove_matching.
Qed.
End updates.

(** ** The contract *)

Lemma im_reads {A} (r : res string A) (P : A → Prop) :
  (∃ a, r = Ok a ∧ P a) → reads False r P.
Proof. by intros (a&->&?). Qed.
Lemma im_writes {A} b (p : InMemoryBackend * res string A) (st' : Store) :
  (∃ b' a, p = (b', Ok a) ∧ im_is b' st') → writes False im_inv im_abs b p (λ _, st').
Proof. by intros (b'&a&->&[??]). Qed.
Lemma im_writes_unit b (p : InMemoryBackend * res string unit) (st' : Store) :
  (∃ b', p = (b', Ok tt) ∧ im_is b' st') → writes False im_inv im_abs b p (λ _, st').
Proof. intros (b'&->&?). apply im_writes. eauto. Qed.

#[export, refine] Instance InMemory_laws : BackendLaws InMemoryBackend := {|
  abs := im_abs;
  backend_inv := im_inv;
  may_fail := False;
|}.
Proof.
  - intros. apply im_reads, im_get_committed_versions.
  - intros. apply im_reads. apply im_get_visible_committed.
  - intros. apply im_reads, im_get_visible_committed.
  - intros. apply im_reads, im_get_latest_commit_ts.
  - intros. apply im_reads. by eexists.
  - intros. apply im_writes_unit. eexists. split; [done|]. by apply im_put_intent_state.
  - intros. apply im_writes. destruct (im_remove_intent k txn s b (im_abs b)) as (b'&?&?);
      [by split|eauto].
  - intros b k txn s r Hinv Hr.
    destruct (im_remove_intent k txn s b (im_abs b)) as (b'&E&_); [by split|].
    simpl in Hr. rewrite E in Hr. by injection Hr.
  - intros. apply im_writes_unit. eexists. split; [done|]. by apply im_put_version.
  - intros. apply im_writes_unit, im_put_versions. by split.
  - intros. by apply im_writes_unit, im_remove_version.
  - intros. by apply im_reads, im_all_keys.
  - intros. apply im_writes_unit, im_put_intents. by split.
  - intros. by apply im_writes_unit, im_commit_intents.
  - intros. apply im_writes_unit, im_remove_matching. by split.
  - intros. by apply im_reads, im_keys_from.
  - intros b p s n _. pose proof (im_keys_from_prefix_request b p s n) as H. simpl.
    destruct (InMemory.keys_from_prefix b p s n); [done| |done]. right. by apply H.
  - intros. apply im_reads, im_get_committed_timestamps_before.
  - intros. by apply im_writes_unit, im_collapse_tombstone.
Defined.

Lemma im_new_inv : im_inv InMemory.new.
Proof.
  intros k. split; [by intros ?%not_elem_of_empty|].
  by intros [[t [x Hx]]|[i Hi]].
Qed.
