(* ===== verification/ConformanceSpec.v ===== *)
(** * ConformanceSpec: the contract determines the behaviour

    Two backends that keep the contract and do not fail answer every script of calls
    alike when they stand for the same store; so one run on the in-memory backend
    decides the suites for all of them. *)
From S2P Require Export Conformance InMemorySpec.

(** The answer a script sees. *)
Definition answer {A} (r : res string A) : option (option A) :=
  match r with Ok a => Some (Some a) | Err _ => Some None | Panic => None end.

Section agree.
Context {B1 B2 : Type} `{HL1 : BackendLaws B1} `{HL2 : BackendLaws B2}.

(** The two backends stand for the same store. *)
Definition same_store (b1 : B1) (b2 : B2) : Prop :=
  backend_inv b1 ∧ backend_inv b2 ∧ abs b1 = abs b2.

Lemma queries_agree {A} (r1 r2 : res string A) (P : A → Prop) fail1 fail2 :
  ¬ fail1 → ¬ fail2 → (∀ a a', P a → P a' → a = a') →
  reads fail1 r1 P → reads fail2 r2 P → answer r1 = answer r2.
Proof.
  intros H1 H2 Hfun. destruct r1, r2; simpl; try done. intros Ha Ha'. by rewrite (Hfun _ _ Ha Ha').
Qed.
Lemma updates_agree {A} (b1 : B1) (b2 : B2) (p1 : B1 * res string A) (p2 : B2 * res string A)
    (f : Store → Store) fail1 fail2 :
  ¬ fail1 → ¬ fail2 → abs b1 = abs b2 → (∀ a a', p1.2 = Ok a → p2.2 = Ok a' → a = a') →
  writes fail1 backend_inv abs b1 p1 (λ _, f (abs b1)) →
  writes fail2 backend_inv abs b2 p2 (λ _, f (abs b2)) →
  answer p1.2 = answer p2.2 ∧ same_store p1.1 p2.1.
Proof.
  intros H1 H2 E Hfun [Hi1 Hw1] [Hi2 Hw2].
  destruct p1 as [b1' [a| |]], p2 as [b2' [a'| |]]; simpl in *; try tauto.
  rewrite (Hfun a a') by done. split; [done|]. split_and!; [done..|].
  by rewrite Hw1, Hw2, E.
Qed.

(** The one query that may be refused. *)
Lemma keys_from_prefix_agrees (b1 : B1) (b2 : B2) prefix start (limit : positive) :
  ¬ may_fail (B := B1) → ¬ may_fail (B := B2) → same_store b1 b2 →
  answer (keys_from_prefix b1 prefix start (Npos limit)) =
  answer (keys_from_prefix b2 prefix start (Npos limit)).
Proof.
  intros H1 H2 (Hi1&Hi2&E).
  pose proof (law_keys_from_prefix b1 prefix start (Npos limit) Hi1) as Hp1.
  pose proof (law_keys_from_prefix b2 prefix start (Npos limit) Hi2) as Hp2.
  rewrite E in Hp1.
  destruct (keys_from_prefix b1 prefix start (Npos limit)) as [l| |],
    (keys_from_prefix b2 prefix start (Npos limit)) as [l'| |]; simpl; try done.
  - destruct Hp1 as [Hl _], Hp2 as [Hl' _].
    by rewrite (is_keys_from_prefix_fun _ _ _ _ _ _ Hl Hl').
  - by destruct Hp1 as [_ [?|?]], Hp2.
  - by destruct Hp2 as [_ [?|?]], Hp1.
Qed.

Lemma perform_agrees {A} (c : call A) (b1 : B1) (b2 : B2) :
  ¬ may_fail (B := B1) → ¬ may_fail (B := B2) → same_store b1 b2 →
  answer (perform c b1).2 = answer (perform c b2).2 ∧
  same_store (perform c b1).1 (perform c b2).1.
Proof.
  intros H1 H2 (Hi1&Hi2&E).
  assert (∀ a a' : unit, a = a') as Hu by by intros [] [].
  assert (∀ X (r1 r2 : res string X) (P : Store → X → Prop),
    (∀ a a', P (abs b2) a → P (abs b2) a' → a = a') →
    reads (may_fail (B := B1)) r1 (P (abs b1)) → reads (may_fail (B := B2)) r2 (P (abs b2)) →
    answer r1 = answer r2 ∧ same_store b1 b2) as Hq.
  { intros X r1 r2 P Hfun Hr1 Hr2. rewrite E in Hr1.
    split; [exact (queries_agree _ _ _ _ _ H1 H2 Hfun Hr1 Hr2)|by split_and!]. }
  destruct c; simpl.
  - eapply (Hq _ _ _ (λ st, is_history st key)); [by apply is_history_fun|..];
      by apply law_get_committed_versions.
  - eapply (Hq _ _ _ (λ st, is_visible st key ts_max)); [by apply is_visible_fun|..];
      by apply law_get_latest_committed.
  - eapply (Hq _ _ _ (λ st, is_visible st key read_ts)); [by apply is_visible_fun|..];
      by apply law_get_visible_committed.
  - eapply (Hq _ _ _ (λ st, is_latest_ts st key)); [by apply is_latest_ts_fun|..];
      by apply law_get_latest_commit_ts.
  - eapply (Hq _ _ _ (λ st o, o = st_intents st !! key)); [congruence|..];
      by apply law_get_intent.
  - eapply updates_agree; [exact H1|exact H2|exact E|auto|by apply law_put_intent..].
  - eapply updates_agree; [exact H1|exact H2|exact E| |by apply law_remove_intent..].
    intros a a' Ha Ha'. rewrite (law_remove_intent_result _ _ _ _ _ Hi1 Ha),
      (law_remove_intent_result _ _ _ _ _ Hi2 Ha'). by rewrite E.
  - eapply updates_agree; [exact H1|exact H2|exact E|auto|by apply law_put_committed..].
  - eapply updates_agree; [exact H1|exact H2|exact E|auto|by apply law_put_committed_batch..].
  - eapply updates_agree; [exact H1|exact H2|exact E|auto|by apply law_remove_committed_version..].
  - eapply (Hq _ _ _ (λ st l, StronglySorted rlt l ∧ ∀ k, k ∈ l ↔ store_key st k)); [|by apply law_all_keys..].
    intros l l' [Hs Hl] [Hs' Hl']. apply (StronglySorted_eq rlt); [done..|].
    intros k. by rewrite Hl, Hl'.
  - eapply updates_agree; [exact H1|exact H2|exact E|auto|by apply law_put_intents_batch..].
  - eapply (updates_agree _ _ _ _ (λ st, store_remove_intents removed (store_put_versions commits st)));
      [exact H1|exact H2|exact E|auto|by apply law_commit_intents_batch..].
  - eapply updates_agree; [exact H1|exact H2|exact E|auto|by apply law_remove_intents_batch..].
  - eapply (Hq _ _ _ (λ st, is_keys_from st start limit)); [by apply is_keys_from_fun|..];
      by apply law_keys_from.
  - split; [by apply keys_from_prefix_agrees|by split_and!].
  - eapply (Hq _ _ _ (λ st, is_before st key before_ts limit)); [by apply is_before_fun|..];
      by apply law_get_committed_timestamps_before.
  - eapply (updates_agree _ _ _ _ (store_remove_versions key (tombstone_ts :: older)));
      [exact H1|exact H2|exact E|auto|by apply law_collapse_tombstone..].
Qed.

Lemma run_agrees (t : script) (b1 : B1) (b2 : B2) :
  ¬ may_fail (B := B1) → ¬ may_fail (B := B2) → same_store b1 b2 → run t b1 = run t b2.
Proof.
  intros H1 H2. revert b1 b2. induction t as [| |A c k IH]; intros b1 b2 Hs; [done..|].
  destruct (perform_agrees c b1 b2 H1 H2 Hs) as [Ha Hs']. simpl.
  destruct (perform c b1) as [b1' [a| |]], (perform c b2) as [b2' [a'| |]]; simpl in *;
    try done; [|by apply IH]. injection Ha as ->. by apply IH.
Qed.
End agree.
