(* ===== verification/DefaultSpec.v ===== *)
(** * DefaultSpec: backends of committed versions only

    A backend that implements the required methods of the trait and inherits the
    others keeps the contract too, with intent updates among the calls that may fail
    and no intent ever in its store; and it treats scripts that make no intent calls
    as the backend that it extends. *)
From S2P Require Export ConformanceSpec.

Section default.
Context {B : Type} (required : Backend B) {HL : @BackendLaws B required}.

(** The representation invariant: no intents. *)
Definition default_inv (b : B) : Prop :=
  backend_inv b ∧ ∀ k, st_intents (abs b) !! k = None.

Lemma default_reads {A} (r : res string A) (P : A → Prop) :
  reads may_fail r P → reads True r P.
Proof. by destruct r. Qed.
(** An update that concerns versions only. *)
Lemma default_writes {A} b (p : B * res string A) st' :
  default_inv b → (∀ a, st_intents (st' a) = st_intents (abs b)) →
  writes may_fail backend_inv abs b p st' → writes True default_inv abs b p st'.
Proof.
  intros [_ Hn] Hst [Hi Hw]. destruct p as [b' [a|err|]]; simpl in *; [| |done].
  - split; [|done]. split; [done|]. simpl. intros k. by rewrite Hw, Hst.
  - destruct Hw as [_ Hw]. split; [split; [done|]|done]. simpl. intros k. by rewrite Hw.
Qed.
(** An update that is refused, or has nothing to do. *)
Lemma default_refuses {A} b (err : string) (st' : A → Store) :
  default_inv b → writes True default_inv abs b (b, Err err) st'.
Proof. intros Hb. by split. Qed.
Lemma default_nothing {A} b (a : A) (st' : A → Store) :
  default_inv b → abs b = st' a → writes True default_inv abs b (b, Ok a) st'.
Proof. intros Hb E. by split. Qed.

Definition default_laws : @BackendLaws B (Default.backend required).
Proof.
  refine {| abs := @abs B required HL; backend_inv := default_inv; may_fail := True |};
    intros b; intros; match goal with H : default_inv _ |- _ => pose proof H as [Hb Hn] end; simpl.
  - by apply default_reads, law_get_committed_versions.
  - by apply default_reads, law_get_latest_committed.
  - by apply default_reads, law_get_visible_committed.
  - by apply default_reads, law_get_latest_commit_ts.
  - by rewrite Hn.
  - by apply default_refuses.
  - apply default_nothing; [done|]. unfold store_remove_intent. by rewrite Hn.
  - rewrite Hn. simpl. simpl in *. congruence.
  - by apply default_writes; [| |apply law_put_committed].
  - apply default_writes; [done|intros; apply put_versions_intents|by apply law_put_committed_batch].
  - by apply default_writes; [| |apply law_remove_committed_version].
  - by apply default_reads, law_all_keys.
  - unfold Default.put_intents_batch. case_decide as E; [subst|by apply default_refuses].
    by apply default_nothing.
  - by apply default_refuses.
  - unfold Default.remove_intents_batch. case_decide as E; [subst|by apply default_refuses].
    by apply default_nothing.
  - by apply default_reads, law_keys_from.
  - pose proof (law_keys_from_prefix b p s n Hb) as Hk.
    destruct (keys_from_prefix b p s n); [done|by left|done].
  - by apply default_reads, law_get_committed_timestamps_before.
  - apply default_writes; [done|intros; apply (remove_versions_intents k (t :: older))|by apply law_collapse_tombstone].
Defined.

(** ** Scripts without intent calls *)

Definition committed_call {A} (c : call A) : bool :=
  match c with
  | GetIntent _ | PutIntent _ | RemoveIntent _ _ _ | PutIntentsBatch _
  | CommitIntentsBatch _ _ | RemoveIntentsBatch _ => false
  | _ => true
  end.
Fixpoint committed_only (t : script) : Prop :=
  match t with
  | Do c k => committed_call c = true ∧ ∀ o, committed_only (k o)
  | _ => True
  end.
Lemma run_default t b :
  committed_only t → @run B (Default.backend required) t b = @run B required t b.
Proof.
  revert b. induction t as [| |A c k IH]; intros b; simpl; [done..|]. intros [Hc Hk].
  assert (@perform B (Default.backend required) A c b = @perform B required A c b) as ->
    by by destruct c.
  destruct (perform c b) as [b' []]; [by apply IH..|done].
Qed.
Lemma committed_suite_only : Forall committed_only Committed.suite.
Proof.
  unfold Committed.suite, Committed.committed_versions_are_ascending_and_cross_u64,
    Committed.committed_batch_and_visibility_are_conformant,
    Committed.committed_key_scans_and_timestamp_pages_are_conformant,
    Committed.committed_removal_and_tombstone_collapse_are_conformant, for_each, check,
    unwrap_some.
  repeat apply Forall_cons_2; try apply Forall_nil_2; cbn [committed_only committed_call foldr].
  all: repeat (cbn [committed_only committed_call]; first
    [ done | case_match | split; [done|intros [?|]] ]).
Qed.
End default.
