(* ===== verification/Engine.v ===== *)
(** * Engine: the transaction operations of [engine.rs]

    [MvccEngine] over an arbitrary [Backend]: reads, single-key and batch intent
    transactions, direct and guarded batches, and the per-key garbage-collection
    planner.  Methods on [&self] are functions of the engine, methods on
    [&mut self] are in the state monad of the prelude. *)
From S2P Require Export Backend.

Record MvccEngine (B : Type) := mkEngine { backend : B }.
Arguments mkEngine {B} backend.
Arguments backend {B} m.

(** A call on [self.backend] with its message wrapped by [map_err]. *)
Definition rd {B E A} (f : B → res string A) (wrap : string → E) : M (MvccEngine B) E A :=
  λ e, (e, map_err wrap (f (backend e))).
Definition wr {B E A} (m : M B string A) (wrap : string → E) : M (MvccEngine B) E A :=
  λ e, let '(b, r) := m (backend e) in (mkEngine b, map_err wrap r).

(** The first key that [HashSet::insert] finds already present, in the order of
    the list. *)
Fixpoint first_duplicate (seen : gset Key) (keys : list Key) : option Key :=
  match keys with
  | [] => None
  | k :: keys =>
      if decide (k ∈ seen) then Some k else first_duplicate ({[k]} ∪ seen) keys
  end.
(** The duplicate-key check at the head of every batch operation. *)
Definition reject_duplicates {S E} (err : Key → E) (keys : list Key) : M S E unit :=
  match first_duplicate ∅ keys with
  | Some k => M_throw (err k)
  | None => M_ret tt
  end.

(** [Mutation] of a physical write. *)
Definition write_mutation (value : option Value) : Mutation :=
  match value with Some v => Put v | None => Delete end.

Record KeyGcOptions := mkKeyGcOptions {
  kg_max_versions_examined : N;
  kg_collapse_final_tombstones : bool;
}.
Record KeyGcPlan := mkKeyGcPlan {
  plan_key : Key;
  plan_versions_to_remove : list Timestamp;
  plan_collapse_tombstone : option Timestamp;
  plan_versions_examined : N;
  plan_complete : bool;
}.

Section engine.
  Context {B : Type} `{Backend B}.
  Implicit Types (key : Key) (e : MvccEngine B).
  Abbreviation EngineM := (M (MvccEngine B)).

Definition MvccEngine_new (b : B) : MvccEngine B := mkEngine b.

(** ** Reads *)

Definition read (e : MvccEngine B) (key : Key) (read_ts : Timestamp) :
    res ReadError (option Value) :=
  let? version := map_err ReadError.Backend (get_visible_committed (backend e) key read_ts) in
  Ok (version ≫= cv_value).

Definition read_with_version (e : MvccEngine B) (key : Key) (read_ts : Timestamp) :
    res ReadError (option (Timestamp * option Value)) :=
  let? version := map_err ReadError.Backend (get_visible_committed (backend e) key read_ts) in
  Ok ((λ v, (cv_commit_ts v, cv_value v)) <$> version).

Definition read_own_write (e : MvccEngine B) (key : Key) (txn_id : TxnId)
    (start_ts read_ts : Timestamp) : res ReadError (option Value) :=
  let? found := map_err ReadError.Backend (get_intent (backend e) key) in
  match found with
  | Some intent =>
      if decide (intent_txn_id intent = txn_id ∧ intent_start_ts intent = start_ts)
      then Ok (Mutation_value (intent_mutation intent))
      else read e key read_ts
  | None => read e key read_ts
  end.

(** ** Single-key intent transactions *)

Definition prewrite (txn_id : TxnId) (start_ts : Timestamp) (key : Key)
    (mutation : Mutation) : EngineM PrewriteError unit :=
  let! existing := rd (λ b, get_intent b key) PrewriteError.Backend in
  match existing with
  | Some intent =>
      if decide (intent_txn_id intent ≠ txn_id) then
        M_throw (PrewriteError.KeyLocked (intent_txn_id intent))
      else if decide (intent_start_ts intent ≠ start_ts) then
        M_throw PrewriteError.IntentAlreadyExists
      else if decide (intent_mutation intent ≠ mutation) then
        M_throw PrewriteError.IntentAlreadyExists
      else M_ret tt
  | None =>
      let! latest := rd (λ b, get_latest_commit_ts b key) PrewriteError.Backend in
      if (match latest with Some latest_ts => ts_ltb start_ts latest_ts | None => false end)
      then M_throw PrewriteError.WriteConflict
      else
        let intent := mkIntent key txn_id start_ts mutation None in
        wr (put_intent intent) PrewriteError.Backend
  end.

Definition commit (txn_id : TxnId) (key : Key) (start_ts commit_ts : Timestamp) :
    EngineM CommitError unit :=
  let! found := rd (λ b, get_intent b key) CommitError.Backend in
  let! intent := M_lift (ok_or found CommitError.IntentNotFound) in
  if decide (intent_txn_id intent ≠ txn_id) then M_throw CommitError.TxnIdMismatch else
  if decide (intent_start_ts intent ≠ start_ts) then M_throw CommitError.StartTsMismatch else
  if ts_leb commit_ts start_ts then
    M_throw (CommitError.InvalidCommitTimestamp start_ts commit_ts) else
  match intent_min_commit_ts intent with
  | Some min_ts =>
      if ts_ltb commit_ts min_ts
      then M_throw (CommitError.CommitTsTooEarly commit_ts min_ts)
      else M_ret tt
  | None => M_ret tt
  end;!
  let! latest := rd (λ b, get_latest_commit_ts b key) CommitError.Backend in
  match latest with
  | Some latest_ts =>
      if ts_leb commit_ts latest_ts then
        if decide (commit_ts = latest_ts)
        then M_throw (CommitError.DuplicateCommitTimestamp commit_ts)
        else M_throw (CommitError.CommitTsTooOld commit_ts latest_ts)
      else M_ret tt
  | None => M_ret tt
  end;!
  let version := mkVersion key commit_ts (Mutation_value (intent_mutation intent)) in
  wr (commit_intents_batch [version] [(key, txn_id, start_ts)]) CommitError.Backend.

Definition abort (txn_id : TxnId) (key : Key) (start_ts : Timestamp) :
    EngineM AbortError unit :=
  let! _removed := wr (remove_intent key txn_id start_ts) AbortError.Backend in
  M_ret tt.

(** ** Batch intent transactions *)

(** One iteration of the validation loop of [prewrite_batch]; the accumulator is
    [existing_count]. *)
Definition prewrite_check (txn_id : TxnId) (start_ts : Timestamp) (existing_count : N)
    (w : PhysicalWrite) : EngineM BatchPrewriteError N :=
  let! found := rd (λ b, get_intent b (pw_key w)) BatchPrewriteError.Backend in
  match found with
  | Some intent =>
      if decide (intent_txn_id intent ≠ txn_id) then
        M_throw (BatchPrewriteError.KeyLocked (pw_key w) (intent_txn_id intent))
      else
        let expected_mutation := write_mutation (pw_value w) in
        if decide (intent_start_ts intent ≠ start_ts
                   ∨ intent_mutation intent ≠ expected_mutation)
        then M_throw (BatchPrewriteError.IntentAlreadyExists (pw_key w))
        else M_ret (existing_count + 1)%N
  | None =>
      let! latest := rd (λ b, get_latest_commit_ts b (pw_key w)) BatchPrewriteError.Backend in
      if (match latest with Some latest_ts => ts_ltb start_ts latest_ts | None => false end)
      then M_throw (BatchPrewriteError.WriteConflict (pw_key w))
      else M_ret existing_count
  end.
Definition prewrite_batch (txn_id : TxnId) (start_ts : Timestamp)
    (writes : list PhysicalWrite) : EngineM BatchPrewriteError unit :=
  if decide (writes = []) then M_throw BatchPrewriteError.EmptyBatch else
  reject_duplicates BatchPrewriteError.DuplicateKeyInBatch (pw_key <$> writes);!
  let! existing_count := M_fold (prewrite_check txn_id start_ts) writes 0%N in
  if (existing_count =? len writes)%N then M_ret tt
  else if (0 <? existing_count)%N then M_throw BatchPrewriteError.PartialBatchReplay
  else
    let intents := (λ w, mkIntent (pw_key w) txn_id start_ts (write_mutation (pw_value w)) None)
      <$> writes in
    wr (put_intents_batch intents) BatchPrewriteError.Backend.

(** One iteration of [commit_batch]: the accumulator is the pair of vectors
    [commits], [removed_intents]. *)
Definition commit_check (txn_id : TxnId) (start_ts commit_ts : Timestamp)
    (acc : list CommittedVersion * list (Key * TxnId * Timestamp)) (key : Key) :
    EngineM BatchCommitError (list CommittedVersion * list (Key * TxnId * Timestamp)) :=
  let! found := rd (λ b, get_intent b key) BatchCommitError.Backend in
  let! intent := M_lift (ok_or found (BatchCommitError.IntentNotFound key)) in
  if decide (intent_txn_id intent ≠ txn_id) then
    M_throw (BatchCommitError.TxnIdMismatch key) else
  if decide (intent_start_ts intent ≠ start_ts) then
    M_throw (BatchCommitError.StartTsMismatch key) else
  match intent_min_commit_ts intent with
  | Some min_ts =>
      if ts_ltb commit_ts min_ts
      then M_throw (BatchCommitError.CommitTsTooEarly key commit_ts min_ts)
      else M_ret tt
  | None => M_ret tt
  end;!
  let! latest := rd (λ b, get_latest_commit_ts b key) BatchCommitError.Backend in
  match latest with
  | Some latest_ts =>
      if ts_leb commit_ts latest_ts
      then M_throw (BatchCommitError.CommitTsTooOld key commit_ts latest_ts)
      else M_ret tt
  | None => M_ret tt
  end;!
  M_ret (acc.1 ++ [mkVersion key commit_ts (Mutation_value (intent_mutation intent))],
         acc.2 ++ [(key, txn_id, start_ts)]).
Definition commit_batch (txn_id : TxnId) (start_ts commit_ts : Timestamp)
    (keys : list Key) : EngineM BatchCommitError unit :=
  if decide (keys = []) then M_throw BatchCommitError.EmptyBatch else
  reject_duplicates BatchCommitError.DuplicateKeyInBatch keys;!
  if ts_leb commit_ts start_ts then
    M_throw (BatchCommitError.InvalidCommitTimestamp start_ts commit_ts) else
  let! (commits, removed_intents) :=
    M_fold (commit_check txn_id start_ts commit_ts) keys ([], []) in
  wr (commit_intents_batch commits removed_intents) BatchCommitError.Backend.

(** One iteration of [abort_batch]: the accumulator is [removed_intents]. *)
Definition abort_check (txn_id : TxnId) (start_ts : Timestamp)
    (removed : list (Key * TxnId * Timestamp)) (key : Key) :
    EngineM BatchAbortError (list (Key * TxnId * Timestamp)) :=
  let! found := rd (λ b, get_intent b key) BatchAbortError.Backend in
  match found with
  | Some intent =>
      if decide (intent_txn_id intent = txn_id ∧ intent_start_ts intent = start_ts)
      then M_ret (removed ++ [(key, txn_id, start_ts)])
      else M_ret removed
  | None => M_ret removed
  end.
Definition abort_batch (txn_id : TxnId) (start_ts : Timestamp) (keys : list Key) :
    EngineM BatchAbortError unit :=
  if decide (keys = []) then M_ret tt else
  reject_duplicates BatchAbortError.DuplicateKeyInBatch keys;!
  let! removed_intents := M_fold (abort_check txn_id start_ts) keys [] in
  wr (remove_intents_batch removed_intents) BatchAbortError.Backend.

(** ** Direct and guarded batches *)

(** The validation of one write, the same loop body in [apply_direct_batch] and
    [apply_guarded_batch]. *)
Definition write_check (commit_ts : Timestamp) (w : PhysicalWrite) :
    EngineM BatchError unit :=
  let! found := rd (λ b, get_intent b (pw_key w)) BatchError.Backend in
  match found with
  | Some intent => M_throw (BatchError.KeyLocked (pw_key w) (intent_txn_id intent))
  | None =>
      let! latest := rd (λ b, get_latest_commit_ts b (pw_key w)) BatchError.Backend in
      match latest with
      | Some latest_ts =>
          if ts_leb commit_ts latest_ts
          then M_throw (BatchError.CommitTsTooOld (pw_key w) commit_ts latest_ts)
          else M_ret tt
      | None => M_ret tt
      end
  end.
Definition write_version (commit_ts : Timestamp) (w : PhysicalWrite) : CommittedVersion :=
  mkVersion (pw_key w) commit_ts (pw_value w).
Definition apply_direct_batch (commit_ts : Timestamp) (writes : list PhysicalWrite) :
    EngineM BatchError unit :=
  if decide (writes = []) then M_throw BatchError.EmptyBatch else
  reject_duplicates BatchError.DuplicateKeyInBatch (pw_key <$> writes);!
  M_for (write_check commit_ts) writes;!
  let commits := write_version commit_ts <$> writes in
  wr (put_committed_batch commits) BatchError.Backend.

Definition guard_key (g : ReadGuard) : Key :=
  match g with ExpectedVersion k _ _ | ExpectedValue k _ _ => k end.
Definition guard_read_ts (g : ReadGuard) : Timestamp :=
  match g with ExpectedVersion _ t _ | ExpectedValue _ t _ => t end.
(** The validation of one guard. *)
Definition guard_check (commit_ts : Timestamp) (g : ReadGuard) : EngineM BatchError unit :=
  if ts_leb commit_ts (guard_read_ts g) then
    M_throw (BatchError.InvalidCommitTimestamp (guard_read_ts g) commit_ts) else
  let! found := rd (λ b, get_intent b (guard_key g)) BatchError.Backend in
  match found with
  | Some intent => M_throw (BatchError.KeyLocked (guard_key g) (intent_txn_id intent))
  | None =>
      let! latest := rd (λ b, get_latest_commit_ts b (guard_key g)) BatchError.Backend in
      match latest with
      | Some latest_ts =>
          if ts_ltb (guard_read_ts g) latest_ts
          then M_throw (BatchError.GuardFailedNewerVersion (guard_key g) (guard_read_ts g) latest_ts)
          else M_ret tt
      | None => M_ret tt
      end;!
      let! visible_version := rd (λ b, get_visible_committed b (guard_key g) (guard_read_ts g))
        BatchError.Backend in
      match g with
      | ExpectedVersion _ _ expected_commit_ts =>
          let actual_commit_ts := cv_commit_ts <$> visible_version in
          if decide (actual_commit_ts ≠ expected_commit_ts)
          then M_throw (BatchError.GuardFailedVersionMismatch (guard_key g)
                 expected_commit_ts actual_commit_ts)
          else M_ret tt
      | ExpectedValue _ _ expected_value =>
          let actual_value := visible_version ≫= cv_value in
          if decide (actual_value ≠ expected_value)
          then M_throw (BatchError.GuardFailedValueMismatch (guard_key g))
          else M_ret tt
      end
  end.
Definition apply_guarded_batch (commit_ts : Timestamp) (guards : list ReadGuard)
    (writes : list PhysicalWrite) : EngineM BatchError unit :=
  if decide (writes = []) then M_throw BatchError.EmptyBatch else
  if decide (guards = []) then M_throw BatchError.NoReadGuards else
  reject_duplicates BatchError.DuplicateKeyInBatch (pw_key <$> writes);!
  M_for (guard_check commit_ts) guards;!
  M_for (write_check commit_ts) writes;!
  let commits := write_version commit_ts <$> writes in
  wr (put_committed_batch commits) BatchError.Backend.

(** ** The per-key garbage-collection planner *)

Definition plan_key_gc (e : MvccEngine B) (key : Key) (safe_point_ts : Timestamp)
    (options : KeyGcOptions) : res GcError KeyGcPlan :=
  if (kg_max_versions_examined options =? 0)%N then Err GcError.InvalidKeyGcBudget else
  let? found := map_err GcError.Backend (get_visible_committed (backend e) key safe_point_ts) in
  match found with
  | None => Ok (mkKeyGcPlan key [] None 0 true)
  | Some keeper =>
      let? no_intent :=
        (if kg_collapse_final_tombstones options && bool_decide (cv_value keeper = None) then
           let? i := map_err GcError.Backend (get_intent (backend e) key) in
           Ok (bool_decide (i = None))
         else Ok false) in
      let? collapse_final_tombstone :=
        (if no_intent : bool then
           let? latest := map_err GcError.Backend (get_latest_commit_ts (backend e) key) in
           Ok (bool_decide (latest = Some (cv_commit_ts keeper)))
         else Ok false) in
      let? versions_to_remove := map_err GcError.Backend
        (get_committed_timestamps_before (backend e) key (cv_commit_ts keeper)
          (kg_max_versions_examined options)) in
      let complete := (len versions_to_remove <? kg_max_versions_examined options)%N in
      let versions_to_remove :=
        take_usize (kg_max_versions_examined options) versions_to_remove in
      let versions_examined := len versions_to_remove in
      Ok (mkKeyGcPlan key versions_to_remove
            (if collapse_final_tombstone && complete then Some (cv_commit_ts keeper) else None)
            versions_examined complete)
  end.
End engine.
