(* ===== verification/EngineSpec.v ===== *)
(** * EngineSpec: what the transaction operations promise

    For every backend that satisfies the contract: the outcome of each operation
    of [Engine] on each of its branches, as a relation between the store before,
    the result, and the store after. *)
From S2P Require Export Engine.

#[global] Arguments is_visible : simpl never.
#[global] Arguments is_latest_ts : simpl never.

Section spec.
Context {B : Type} `{HL : BackendLaws B}.
Implicit Types (e : MvccEngine B) (st : Store) (k key : Key) (txn : TxnId)
  (s c rt : Timestamp).

(** The store an engine stands for, and its representation invariant. *)
Definition estore e : Store := abs (backend e).
Definition einv e : Prop := backend_inv (backend e).

(** ** Backend calls *)

Lemma wp_rd {E A C} (f : B → res string A) (wrap : string → E) (P : A → Prop)
    (k : A → M (MvccEngine B) E C) e Q :
  reads may_fail (f (backend e)) P →
  (∀ a, P a → wp (k a) e Q) → (∀ msg, may_fail → Q e (Err (wrap msg))) →
  wp (M_bind (rd f wrap) k) e Q.
Proof.
  intros Hr Hok Herr. apply wp_bind. unfold wp, rd. simpl.
  destruct (f (backend e)); simpl in *; [by apply Hok|by apply Herr|done].
Qed.
Lemma wp_wr {E A} (m : M B string A) (wrap : string → E) e (st' : A → Store) Q :
  writes may_fail backend_inv abs (backend e) (m (backend e)) st' →
  (∀ a e', einv e' → estore e' = st' a → Q e' (Ok a)) →
  (∀ e' msg, may_fail → einv e' → estore e' = estore e → Q e' (Err (wrap msg))) →
  wp (wr m wrap) e Q.
Proof.
  intros [Hinv Hw] Hok Herr. unfold wp, wr.
  destruct (m (backend e)) as [b' [a|msg|]]; simpl in *; [by apply Hok| |done].
  destruct Hw. by apply Herr.
Qed.

Lemma wp_get_intent {E C} key (wrap : string → E) (k : option Intent → M (MvccEngine B) E C) e Q :
  einv e → wp (k (st_intents (estore e) !! key)) e Q →
  (∀ msg, may_fail → Q e (Err (wrap msg))) →
  wp (M_bind (rd (λ b, get_intent b key) wrap) k) e Q.
Proof.
  intros Hinv Hk Herr. eapply wp_rd; [by apply law_get_intent| |done]. by intros ? ->.
Qed.
Lemma wp_get_latest {E C} key (wrap : string → E) (k : option Timestamp → M (MvccEngine B) E C) e Q :
  einv e → (∀ o, is_latest_ts (estore e) key o → wp (k o) e Q) →
  (∀ msg, may_fail → Q e (Err (wrap msg))) →
  wp (M_bind (rd (λ b, get_latest_commit_ts b key) wrap) k) e Q.
Proof. intros Hinv Hk Herr. eapply wp_rd; [by apply law_get_latest_commit_ts|done|done]. Qed.
Lemma wp_get_visible {E C} key rt (wrap : string → E)
    (k : option CommittedVersion → M (MvccEngine B) E C) e Q :
  einv e → (∀ o, is_visible (estore e) key rt o → wp (k o) e Q) →
  (∀ msg, may_fail → Q e (Err (wrap msg))) →
  wp (M_bind (rd (λ b, get_visible_committed b key rt) wrap) k) e Q.
Proof. intros Hinv Hk Herr. eapply wp_rd; [by apply law_get_visible_committed|done|done]. Qed.

(** ** Reads *)

(** The value a reader at [rt] sees. *)
Definition sees st key rt (o : option Value) : Prop :=
  ∃ v, is_visible st key rt v ∧ o = v ≫= cv_value.

Lemma read_sees e key rt :
  einv e →
  match read e key rt with
  | Ok o => sees (estore e) key rt o | Err _ => may_fail | Panic => False
  end.
Proof.
  intros Hinv. unfold read.
  pose proof (law_get_visible_committed (backend e) key rt Hinv) as Hr.
  destruct (get_visible_committed (backend e) key rt); simpl in *; [|done|done].
  by eexists.
Qed.
Lemma read_own_write_sees e key txn s rt :
  einv e →
  match read_own_write e key txn s rt with
  | Ok o =>
      match st_intents (estore e) !! key with
      | Some i => if intent_matches txn s i then o = Mutation_value (intent_mutation i)
                  else sees (estore e) key rt o
      | None => sees (estore e) key rt o
      end
  | Err _ => may_fail
  | Panic => False
  end.
Proof.
  intros Hinv. unfold read_own_write.
  pose proof (law_get_intent (backend e) key Hinv) as Hi.
  pose proof (read_sees e key rt Hinv) as Hr. unfold estore in *.
  destruct (get_intent (backend e) key) as [o| |]; simpl in *; [|done|done]. subst o.
  destruct (st_intents (abs (backend e)) !! key) as [i|]; [|done].
  unfold intent_matches. case_decide as Hd.
  - destruct Hd as [-> ->]. by rewrite !bool_decide_eq_true_2.
  - destruct (read e key rt); try done.
    repeat case_bool_decide; simpl; try done. exfalso. auto.
Qed.

(** ** Single-key intent transactions *)

(** The intent on [key] is held by this transaction and start timestamp. *)
Definition holds st key txn s (i : Intent) : Prop :=
  st_intents st !! key = Some i ∧ intent_txn_id i = txn ∧ intent_start_ts i = s.
Definition min_ok (i : Intent) c : Prop :=
  ∀ m, intent_min_commit_ts i = Some m → (m ≤ c)%ts.

Definition prewrite_post txn s key (mu : Mutation) st
    (r : res PrewriteError unit) st' : Prop :=
  match r with
  | Ok _ =>
      (* replay of an intent already in place *)
      (∃ i, holds st key txn s i ∧ intent_mutation i = mu ∧ st' = st) ∨
      (* a new intent on a free key without newer versions *)
      (st_intents st !! key = None ∧
       (∀ t x, st_versions st !! (key, t) = Some x → (t ≤ s)%ts) ∧
       st' = store_put_intent (mkIntent key txn s mu None) st)
  | Err e => st' = st ∧
      match e with
      | PrewriteError.KeyLocked owner =>
          ∃ i, st_intents st !! key = Some i ∧ intent_txn_id i = owner ∧ owner ≠ txn
      | PrewriteError.IntentAlreadyExists =>
          ∃ i, st_intents st !! key = Some i ∧ intent_txn_id i = txn ∧
            (intent_start_ts i ≠ s ∨ intent_mutation i ≠ mu)
      | PrewriteError.WriteConflict =>
          st_intents st !! key = None ∧
          ∃ t, is_latest_ts st key (Some t) ∧ (s < t)%ts
      | PrewriteError.Backend _ => may_fail
      end
  | Panic => False
  end.

Lemma prewrite_wp txn s key mu e :
  einv e →
  wp (prewrite txn s key mu) e (λ e' r,
    einv e' ∧ prewrite_post txn s key mu (estore e) r (estore e')).
Proof.
  intros Hinv. unfold prewrite. apply wp_get_intent; [done| |by intros].
  destruct (st_intents (estore e) !! key) as [i|] eqn:Hi.
  - case_decide as Ht; [apply wp_throw; simpl; eauto 10|].
    case_decide as Hs; [apply wp_throw; simpl; eauto 10|].
    case_decide as Hm; [apply wp_throw; simpl; eauto 10|].
    apply wp_ret. simpl. split; [done|]. left. exists i. unfold holds. naive_solver.
  - apply wp_get_latest; [done| |by intros]. intros o Ho.
    pose proof (is_latest_newer _ _ _ s Ho) as Hnew. destruct o as [t|].
    + destruct (ts_ltb s t) eqn:Hlt.
      { apply wp_throw. apply ts_ltb_lt in Hlt. simpl. eauto 10. }
      eapply wp_wr; [by apply law_put_intent|..]; [|by intros].
      intros [] e' He' E. split; [done|]. simpl. right. rewrite E. split_and!; [done| |done].
      intros t' x Hx. destruct Ho as [_ Hmax]. specialize (Hmax _ _ Hx). ts_lia.
    + eapply wp_wr; [by apply law_put_intent|..]; [|by intros].
      intros [] e' He' E. split; [done|]. simpl. right. rewrite E. split_and!; [done| |done].
      intros t' x Hx. by destruct (Ho _ _ Hx).
Qed.

(** The store after [key]'s intent became the version at [c]. *)
Definition committed_store key c (i : Intent) st : Store :=
  mkStore (<[(key, c) := Mutation_value (intent_mutation i)]> (st_versions st))
    (delete key (st_intents st)).
Lemma remove_own_intent key txn s i st :
  holds st key txn s i →
  store_remove_intent key txn s st = mkStore (st_versions st) (delete key (st_intents st)).
Proof.
  intros (Hi&<-&<-). unfold store_remove_intent, intent_matches.
  by rewrite Hi, !bool_decide_eq_true_2.
Qed.

Definition commit_post txn key s c st (r : res CommitError unit) st' : Prop :=
  match r with
  | Ok _ => ∃ i, holds st key txn s i ∧ (s < c)%ts ∧ min_ok i c ∧
      newer_than_all st key c ∧ st' = committed_store key c i st
  | Err e => st' = st ∧
      match e with
      | CommitError.IntentNotFound => st_intents st !! key = None
      | CommitError.TxnIdMismatch =>
          ∃ i, st_intents st !! key = Some i ∧ intent_txn_id i ≠ txn
      | CommitError.StartTsMismatch =>
          ∃ i, st_intents st !! key = Some i ∧ intent_txn_id i = txn ∧ intent_start_ts i ≠ s
      | CommitError.InvalidCommitTimestamp s' c' =>
          s' = s ∧ c' = c ∧ (c ≤ s)%ts ∧ ∃ i, holds st key txn s i
      | CommitError.CommitTsTooEarly c' m =>
          c' = c ∧ (s < c)%ts ∧ (c < m)%ts ∧
          ∃ i, holds st key txn s i ∧ intent_min_commit_ts i = Some m
      | CommitError.DuplicateCommitTimestamp c' =>
          c' = c ∧ (s < c)%ts ∧ is_latest_ts st key (Some c) ∧ ∃ i, holds st key txn s i
      | CommitError.CommitTsTooOld c' l =>
          c' = c ∧ (s < c)%ts ∧ is_latest_ts st key (Some l) ∧ (c < l)%ts ∧
          ∃ i, holds st key txn s i
      | CommitError.Backend _ => may_fail
      end
  | Panic => False
  end.

(** The two checks of [commit] on the timestamp of a held intent. *)
Lemma commit_min_wp txn key s c e i :
  holds (estore e) key txn s i → (s < c)%ts →
  wp (match intent_min_commit_ts i with
      | Some min_ts => if ts_ltb c min_ts
          then M_throw (CommitError.CommitTsTooEarly c min_ts) else M_ret tt
      | None => M_ret tt end) e (λ e' r, e' = e ∧
    match r with
    | Ok _ => min_ok i c
    | Err err => commit_post txn key s c (estore e) (Err err) (estore e)
    | Panic => False
    end).
Proof.
  intros Hh Hsc. unfold min_ok. destruct (intent_min_commit_ts i) as [m|] eqn:Hm; [|by apply wp_ret].
  destruct (ts_ltb c m) eqn:Hcm.
  - apply wp_throw. apply ts_ltb_lt in Hcm. simpl. eauto 10.
  - apply wp_ret. split; [done|]. intros m' [= <-]. ts_lia.
Qed.
Lemma commit_latest_wp txn key s c e i o :
  holds (estore e) key txn s i → (s < c)%ts → is_latest_ts (estore e) key o →
  wp (match o with
      | Some latest_ts => if ts_leb c latest_ts then
            if decide (c = latest_ts) then M_throw (CommitError.DuplicateCommitTimestamp c)
            else M_throw (CommitError.CommitTsTooOld c latest_ts)
          else M_ret tt
      | None => M_ret tt end) e (λ e' r, e' = e ∧
    match r with
    | Ok _ => newer_than_all (estore e) key c
    | Err err => commit_post txn key s c (estore e) (Err err) (estore e)
    | Panic => False
    end).
Proof.
  intros Hh Hsc Ho. pose proof (is_latest_newer _ _ _ c Ho) as Hnew.
  destruct o as [l|]; [|apply wp_ret; split; [done|by apply Hnew]].
  destruct (ts_leb c l) eqn:Hcl.
  - case_decide as Hd; apply wp_throw; simpl; [subst; eauto 10|].
    split_and!; try done; [|eauto]. ts_lia.
  - apply wp_ret. split; [done|]. apply Hnew. simpl. ts_lia.
Qed.
Lemma commit_wp txn key s c e :
  einv e →
  wp (commit txn key s c) e (λ e' r,
    einv e' ∧ commit_post txn key s c (estore e) r (estore e')).
Proof.
  intros Hinv. unfold commit. apply wp_get_intent; [done| |by intros].
  destruct (st_intents (estore e) !! key) as [i|] eqn:Hi; simpl; apply wp_bind;
    [apply wp_ret|apply wp_throw; by simpl].
  case_decide as Ht; [apply wp_throw; simpl; eauto 10|].
  case_decide as Hs; [apply wp_throw; simpl; eauto 10|].
  assert (holds (estore e) key txn s i) as Hh by done.
  destruct (ts_leb c s) eqn:Hle.
  { apply wp_throw. apply ts_leb_le in Hle. simpl. eauto 10. }
  assert (s < c)%ts as Hsc by ts_lia. apply wp_bind.
  eapply wp_mono; [by apply commit_min_wp|]. intros e' [[]|err|] [-> Hr]; [|by split|done].
  apply wp_get_latest; [done| |by intros]. intros o Ho. apply wp_bind.
  eapply wp_mono; [by apply (commit_latest_wp txn key s c e i)|]. intros e' [[]|err|] [-> Hr']; [|by split|done].
  eapply wp_wr; [by apply law_commit_intents_batch|..]; [|by intros].
  intros [] e' He' E. split; [done|]. exists i. split_and!; try done.
  rewrite E. simpl. by erewrite remove_own_intent by done.
Qed.

Lemma abort_wp txn key s e :
  einv e →
  wp (abort txn key s) e (λ e' r, einv e' ∧
    match r with
    | Ok _ => estore e' = store_remove_intent key txn s (estore e)
    | Err err => may_fail ∧ (∃ msg, err = AbortError.Backend msg) ∧ estore e' = estore e
    | Panic => False
    end).
Proof.
  intros Hinv. unfold abort. apply wp_bind.
  eapply wp_wr; [by apply law_remove_intent|by intros|]. intros e' msg ???. eauto 10.
Qed.

(** ** Duplicate keys *)

Lemma first_duplicate_spec seen (l : list Key) :
  match first_duplicate seen l with
  | None => NoDup l ∧ ∀ k, k ∈ l → k ∉ seen
  | Some k => ∃ l1 l2, l = l1 ++ k :: l2 ∧ (k ∈ seen ∨ k ∈ l1)
  end.
Proof.
  revert seen. induction l as [|k l IH]; intros seen; simpl.
  { split; [constructor|]. by intros k ?%elem_of_nil. }
  case_decide as Hk; [by exists [], l; auto|].
  specialize (IH ({[k]} ∪ seen)). destruct (first_duplicate _ l) as [d|].
  - destruct IH as (l1&l2&->&Hd). exists (k :: l1), l2. set_solver.
  - destruct IH as [Hnd Hn]. split; [constructor; [|done]|]; set_solver.
Qed.

(** The second occurrence of [k] in the key list is at a position whose
    predecessors already contain it. *)
Definition repeated (keys : list Key) k : Prop :=
  ∃ l1 l2, keys = l1 ++ k :: l2 ∧ k ∈ l1.
Lemma reject_duplicates_wp {E A} (err : Key → E) keys
    (m : M (MvccEngine B) E A) e Q :
  (NoDup keys → wp m e Q) → (∀ k, repeated keys k → Q e (Err (err k))) →
  wp (M_bind (reject_duplicates err keys) (λ _, m)) e Q.
Proof.
  intros Hok Herr. apply wp_bind. unfold reject_duplicates.
  pose proof (first_duplicate_spec ∅ keys) as Hd.
  destruct (first_duplicate ∅ keys) as [k|].
  - apply wp_throw, Herr. destruct Hd as (l1&l2&->&[Hk|Hk]); [set_solver|].
    by exists l1, l2.
  - apply wp_ret, Hok, Hd.
Qed.

(** ** Batch intent transactions *)

(** The intent that a write of the batch asks for. *)
Definition write_intent txn s (w : PhysicalWrite) : Intent :=
  mkIntent (pw_key w) txn s (write_mutation (pw_value w)) None.
(** The write is a replay of an intent in place. *)
Definition in_place st txn s (w : PhysicalWrite) : Prop :=
  ∃ i, holds st (pw_key w) txn s i ∧ intent_mutation i = write_mutation (pw_value w).
(** The key of the write is free and has no version above the start timestamp. *)
Definition writable st s key : Prop :=
  st_intents st !! key = None ∧
  ∀ t x, st_versions st !! (key, t) = Some x → (t ≤ s)%ts.

Definition prewrite_batch_post txn s (writes : list PhysicalWrite) st
    (r : res BatchPrewriteError unit) st' : Prop :=
  match r with
  | Ok _ => writes ≠ [] ∧ NoDup (pw_key <$> writes) ∧
      (((∀ w, w ∈ writes → in_place st txn s w) ∧ st' = st) ∨
       ((∀ w, w ∈ writes → writable st s (pw_key w)) ∧
        st' = store_put_intents (write_intent txn s <$> writes) st))
  | Err e => st' = st ∧
      match e with
      | BatchPrewriteError.EmptyBatch => writes = []
      | BatchPrewriteError.DuplicateKeyInBatch k => repeated (pw_key <$> writes) k
      | BatchPrewriteError.KeyLocked k owner => k ∈ pw_key <$> writes ∧
          ∃ i, st_intents st !! k = Some i ∧ intent_txn_id i = owner ∧ owner ≠ txn
      | BatchPrewriteError.WriteConflict k => k ∈ pw_key <$> writes ∧
          st_intents st !! k = None ∧ ∃ t, is_latest_ts st k (Some t) ∧ (s < t)%ts
      | BatchPrewriteError.IntentAlreadyExists k =>
          ∃ w i, w ∈ writes ∧ pw_key w = k ∧ st_intents st !! k = Some i ∧
            intent_txn_id i = txn ∧
            (intent_start_ts i ≠ s ∨ intent_mutation i ≠ write_mutation (pw_value w))
      | BatchPrewriteError.PartialBatchReplay =>
          (∃ w, w ∈ writes ∧ in_place st txn s w) ∧
          (∃ w, w ∈ writes ∧ writable st s (pw_key w))
      | BatchPrewriteError.Backend _ => may_fail
      end
  | Panic => False
  end.

(** [existing_count] after a prefix of the batch. *)
Definition locked_count st (seen : list PhysicalWrite) : N :=
  len (filter (λ w, is_Some (st_intents st !! pw_key w)) seen).
Lemma locked_count_snoc st seen w :
  locked_count st (seen ++ [w]) =
  (locked_count st seen + if decide (is_Some (st_intents st !! pw_key w)) then 1 else 0)%N.
Proof.
  unfold locked_count. rewrite filter_app, len_app, filter_cons.
  by case_decide; rewrite filter_nil.
Qed.
Lemma locked_count_all st (writes : list PhysicalWrite) :
  locked_count st writes = len writes ↔
  ∀ w, w ∈ writes → is_Some (st_intents st !! pw_key w).
Proof.
  unfold locked_count, len. rewrite Nat2N.inj_iff.
  induction writes as [|v writes IH].
  { split; [|done]. by intros _ w ?%elem_of_nil. }
  rewrite filter_cons. case_decide as Hv; simpl.
  - split.
    + intros [= E] w [->|Hw]%elem_of_cons; [done|]. by apply IH.
    + intros Hall. f_equal. apply IH. intros w Hw. apply Hall. by constructor.
  - split; [|intros Hall; exfalso; apply Hv, Hall; by constructor].
    pose proof (length_filter (λ w, is_Some (st_intents st !! pw_key w)) writes). lia.
Qed.
Lemma locked_count_zero st (writes : list PhysicalWrite) :
  locked_count st writes = 0%N ↔
  ∀ w, w ∈ writes → st_intents st !! pw_key w = None.
Proof.
  unfold locked_count. rewrite len_zero. split.
  - intros E w Hw. apply eq_None_not_Some. intros Hs.
    assert (w ∈ filter (λ w, is_Some (st_intents st !! pw_key w)) writes) as Hin
      by by apply list_elem_of_filter.
    rewrite E in Hin. by apply elem_of_nil in Hin.
  - intros Hn. destruct (filter _ writes) as [|w l] eqn:E; [done|].
    assert (w ∈ filter (λ w, is_Some (st_intents st !! pw_key w)) writes) as Hin
      by (rewrite E; constructor).
    apply list_elem_of_filter in Hin as [Hs Hw]. rewrite Hn in Hs by done. by destruct Hs.
Qed.

Lemma prewrite_check_wp txn s writes w seen e :
  einv e → w ∈ writes →
  wp (prewrite_check txn s (locked_count (estore e) seen) w) e (λ e' r, e' = e ∧
    match r with
    | Ok n => n = locked_count (estore e) (seen ++ [w]) ∧
        (in_place (estore e) txn s w ∨ writable (estore e) s (pw_key w))
    | Err err => prewrite_batch_post txn s writes (estore e) (Err err) (estore e)
    | Panic => False
    end).
Proof.
  intros Hinv Hw. unfold prewrite_check. rewrite locked_count_snoc.
  assert (pw_key w ∈ pw_key <$> writes) by by apply list_elem_of_fmap_2.
  apply wp_get_intent; [done| |by intros].
  destruct (st_intents (estore e) !! pw_key w) as [i|] eqn:Hi.
  - case_decide as Ht; [apply wp_throw; simpl; eauto 10|].
    case_decide as Hs; [apply wp_throw; simpl; eauto 15|].
    apply wp_ret. split; [done|]. rewrite decide_True by eauto. split; [done|].
    left. exists i. unfold holds.
    destruct (decide (intent_start_ts i = s)), (decide (intent_mutation i =
      write_mutation (pw_value w))); naive_solver.
  - rewrite decide_False by by intros []. rewrite N.add_0_r.
    apply wp_get_latest; [done| |by intros]. intros o Ho.
    destruct o as [t|].
    + destruct (ts_ltb s t) eqn:Hlt.
      { apply wp_throw. apply ts_ltb_lt in Hlt. simpl. eauto 10. }
      apply wp_ret. split_and!; try done. right. split; [done|].
      intros t' x Hx. destruct Ho as [_ Hmax]. specialize (Hmax _ _ Hx). ts_lia.
    + apply wp_ret. split_and!; try done. right. split; [done|].
      intros t' x Hx. by destruct (Ho _ _ Hx).
Qed.
Lemma in_place_locked st txn s w : in_place st txn s w → is_Some (st_intents st !! pw_key w).
Proof. intros (i&(Hi&_)&_). by rewrite Hi. Qed.
(** What the three possible counts say about a batch that passed validation. *)
Lemma validated_batch st txn s writes :
  (∀ w, w ∈ writes → in_place st txn s w ∨ writable st s (pw_key w)) →
  if (locked_count st writes =? len writes)%N then ∀ w, w ∈ writes → in_place st txn s w
  else if (0 <? locked_count st writes)%N then
    (∃ w, w ∈ writes ∧ in_place st txn s w) ∧ (∃ w, w ∈ writes ∧ writable st s (pw_key w))
  else ∀ w, w ∈ writes → writable st s (pw_key w).
Proof.
  intros Hall. destruct (N.eqb_spec (locked_count st writes) (len writes)) as [Ec|Ec].
  { intros w Hw. destruct (Hall w Hw) as [?|[Hn _]]; [done|].
    pose proof (proj1 (locked_count_all _ _) Ec w Hw) as [i Hi]. congruence. }
  destruct (decide (Exists (λ w, is_Some (st_intents st !! pw_key w)) writes))
    as [(w&Hw&Hs)%Exists_exists|Hn].
  - rewrite (proj2 (N.ltb_lt _ _)).
    2:{ apply N.neq_0_lt_0. intros E. apply locked_count_zero with (w:=w) in E; [|done].
        rewrite E in Hs. by destruct Hs. }
    split; [exists w; split; [done|]; destruct (Hall w Hw) as [?|[E _]]; [done|]|].
    { rewrite E in Hs. by destruct Hs. }
    destruct (decide (Exists (λ w, st_intents st !! pw_key w = None) writes))
      as [(v&Hv&E)%Exists_exists|Hn].
    + exists v. split; [done|]. destruct (Hall v Hv) as [Hp|?]; [|done].
      apply in_place_locked in Hp as [i Hi]. congruence.
    + destruct Ec. apply locked_count_all. intros v Hv. apply not_eq_None_Some.
      intros E. apply Hn, Exists_exists. eauto.
  - assert (locked_count st writes = 0%N) as ->.
    { apply locked_count_zero. intros w Hw. apply eq_None_not_Some.
      intros Hs. apply Hn, Exists_exists. eauto. }
    intros w Hw. destruct (Hall w Hw) as [Hp|?]; [|done]. destruct Hn.
    apply Exists_exists. exists w. split; [done|]. by eapply in_place_locked.
Qed.
Lemma prewrite_batch_wp txn s writes e :
  einv e →
  wp (prewrite_batch txn s writes) e (λ e' r,
    einv e' ∧ prewrite_batch_post txn s writes (estore e) r (estore e')).
Proof.
  intros Hinv. unfold prewrite_batch.
  case_decide as Hne; [by apply wp_throw; simpl|].
  apply reject_duplicates_wp; [|by intros; simpl]. intros Hnd. apply wp_bind.
  eapply wp_mono.
  { apply (wp_fold_check _ writes e (locked_count (estore e))
      (λ w, in_place (estore e) txn s w ∨ writable (estore e) s (pw_key w))
      (λ err _, prewrite_batch_post txn s writes (estore e) (Err err) (estore e)) []).
    intros seen w Hw. by apply prewrite_check_wp. }
  intros e' [n|err|] [-> Hr]; [|by destruct Hr as (?&?&?&_&_&?); split|done].
  destruct Hr as [-> Hall%validated_batch]. rewrite app_nil_l.
  destruct (locked_count (estore e) writes =? len writes)%N.
  { apply wp_ret. split; [done|]. split_and!; auto. }
  destruct (0 <? locked_count (estore e) writes)%N; [by apply wp_throw|].
  eapply wp_wr; [by apply law_put_intents_batch|..]; [|by intros].
  intros [] e' He' E. split; [done|]. split_and!; auto.
Qed.

(** The version that committing [key]'s intent at [c] writes. *)
Definition commit_version st c key : CommittedVersion :=
  mkVersion key c (i ← st_intents st !! key; Mutation_value (intent_mutation i)).
(** [key] may be committed at [c] by its transaction. *)
Definition committable st txn s c key : Prop :=
  ∃ i, holds st key txn s i ∧ min_ok i c ∧ newer_than_all st key c.
Definition remove_list txn s (keys : list Key) : list (Key * TxnId * Timestamp) :=
  (λ k, (k, txn, s)) <$> keys.

Definition commit_batch_post txn s c (keys : list Key) st
    (r : res BatchCommitError unit) st' : Prop :=
  match r with
  | Ok _ => keys ≠ [] ∧ NoDup keys ∧ (s < c)%ts ∧
      (∀ k, k ∈ keys → committable st txn s c k) ∧
      st' = store_remove_intents (remove_list txn s keys)
              (store_put_versions (commit_version st c <$> keys) st)
  | Err e => st' = st ∧
      match e with
      | BatchCommitError.EmptyBatch => keys = []
      | BatchCommitError.DuplicateKeyInBatch k => repeated keys k
      | BatchCommitError.InvalidCommitTimestamp s' c' => s' = s ∧ c' = c ∧ (c ≤ s)%ts
      | BatchCommitError.IntentNotFound k => k ∈ keys ∧ st_intents st !! k = None
      | BatchCommitError.TxnIdMismatch k => k ∈ keys ∧
          ∃ i, st_intents st !! k = Some i ∧ intent_txn_id i ≠ txn
      | BatchCommitError.StartTsMismatch k => k ∈ keys ∧
          ∃ i, st_intents st !! k = Some i ∧ intent_txn_id i = txn ∧ intent_start_ts i ≠ s
      | BatchCommitError.CommitTsTooEarly k c' m => k ∈ keys ∧ c' = c ∧ (c < m)%ts ∧
          ∃ i, holds st k txn s i ∧ intent_min_commit_ts i = Some m
      | BatchCommitError.CommitTsTooOld k c' l => k ∈ keys ∧ c' = c ∧ (c ≤ l)%ts ∧
          is_latest_ts st k (Some l) ∧ ∃ i, holds st k txn s i
      | BatchCommitError.Backend _ => may_fail
      end
  | Panic => False
  end.

Lemma commit_check_wp txn s c (keys : list Key) key seen e :
  einv e → key ∈ keys →
  wp (commit_check txn s c
       (commit_version (estore e) c <$> seen, remove_list txn s seen) key) e
     (λ e' r, e' = e ∧
    match r with
    | Ok acc => acc = (commit_version (estore e) c <$> (seen ++ [key]),
                       remove_list txn s (seen ++ [key])) ∧
        committable (estore e) txn s c key
    | Err err => commit_batch_post txn s c keys (estore e) (Err err) (estore e)
    | Panic => False
    end).
Proof.
  intros Hinv Hk. unfold commit_check. apply wp_get_intent; [done| |by intros].
  destruct (st_intents (estore e) !! key) as [i|] eqn:Hi; simpl; apply wp_bind;
    [apply wp_ret|apply wp_throw; by simpl].
  case_decide as Ht; [apply wp_throw; simpl; eauto 10|].
  case_decide as Hs; [apply wp_throw; simpl; eauto 10|].
  assert (holds (estore e) key txn s i) as Hh by done.
  apply wp_bind.
  assert (Hmin : wp (match intent_min_commit_ts i with
    | Some min_ts => if ts_ltb c min_ts
        then M_throw (BatchCommitError.CommitTsTooEarly key c min_ts) else M_ret tt
    | None => M_ret tt end) e (λ e' r, e' = e ∧
      match r with
      | Ok _ => min_ok i c
      | Err err => commit_batch_post txn s c keys (estore e) (Err err) (estore e)
      | Panic => False end)).
  { unfold min_ok. destruct (intent_min_commit_ts i) as [m|] eqn:Hm; [|by apply wp_ret].
    destruct (ts_ltb c m) eqn:Hcm.
    - apply wp_throw. apply ts_ltb_lt in Hcm. simpl. eauto 10.
    - apply wp_ret. split; [done|]. intros m' [= <-]. ts_lia. }
  eapply wp_mono; [apply Hmin|]. intros e' [[]|err|] [-> Hr]; [|by split|done].
  apply wp_get_latest; [done| |by intros]. intros o Ho. apply wp_bind.
  pose proof (is_latest_newer _ _ _ c Ho) as Hnew.
  assert (newer_than_all (estore e) key c →
    (commit_version (estore e) c <$> seen ++ [key], remove_list txn s (seen ++ [key])) =
    ((commit_version (estore e) c <$> seen) ++
       [mkVersion key c (Mutation_value (intent_mutation i))],
     remove_list txn s seen ++ [(key, txn, s)]) ∧ committable (estore e) txn s c key) as Hend.
  { intros Hnw. unfold remove_list. rewrite !fmap_app. simpl.
    unfold commit_version at 2. rewrite Hi. split; [done|]. by exists i. }
  destruct o as [l|].
  - destruct (ts_leb c l) eqn:Hcl.
    + apply wp_throw. apply ts_leb_le in Hcl. simpl. eauto 10.
    + apply wp_ret, wp_ret. split; [done|]. destruct Hend as [-> ?]; [|done].
      apply Hnew. simpl. ts_lia.
  - apply wp_ret, wp_ret. split; [done|]. destruct Hend as [-> ?]; [|done]. by apply Hnew.
Qed.
Lemma commit_batch_wp txn s c keys e :
  einv e →
  wp (commit_batch txn s c keys) e (λ e' r,
    einv e' ∧ commit_batch_post txn s c keys (estore e) r (estore e')).
Proof.
  intros Hinv. unfold commit_batch.
  case_decide as Hne; [by apply wp_throw; simpl|].
  apply reject_duplicates_wp; [|by intros; simpl]. intros Hnd.
  destruct (ts_leb c s) eqn:Hcs.
  { apply wp_throw. apply ts_leb_le in Hcs. simpl. auto. }
  apply wp_bind.
  change (M_fold (commit_check txn s c) keys ([], [])) with (M_fold (commit_check txn s c) keys
    (commit_version (estore e) c <$> [], remove_list txn s [])).
  eapply wp_mono.
  { apply (wp_fold_check (commit_check txn s c) keys e
      (λ seen, (commit_version (estore e) c <$> seen, remove_list txn s seen))
      (committable (estore e) txn s c)
      (λ err _, commit_batch_post txn s c keys (estore e) (Err err) (estore e)) []).
    intros seen k Hk. by apply commit_check_wp. }
  intros e' [acc|err|] [-> Hr]; [|by destruct Hr as (?&?&?&_&_&?); split|done].
  destruct Hr as [-> Hall]. rewrite app_nil_l.
  eapply wp_wr; [by apply law_commit_intents_batch|..]; [|by intros].
  intros [] e' He' E. split; [done|]. split_and!; auto. ts_lia.
Qed.

(** The intent on [key] is this transaction's. *)
Definition held st txn s key : bool :=
  from_option (intent_matches txn s) false (st_intents st !! key).
(** Dropping the entries of keys the transaction does not hold changes nothing. *)
Lemma remove_held_intents txn s (keys : list Key) st :
  store_remove_intents (remove_list txn s
    (filter (λ k, held st txn s k = true) keys)) st =
  store_remove_intents (remove_list txn s keys) st.
Proof.
  apply store_ext; [by rewrite !remove_intents_versions|]. intros k.
  unfold remove_list. rewrite !lookup_remove_intents.
  destruct (decide (k ∈ keys)) as [Hk|Hk].
  - case_decide as Hf; [done|].
    destruct (st_intents st !! k) as [i|] eqn:Hi; simpl; [|done].
    destruct (intent_matches txn s i) eqn:Hm; [|done].
    destruct Hf. apply list_elem_of_filter. unfold held. by rewrite Hi.
  - rewrite decide_False; [done|]. by intros [_ ?]%list_elem_of_filter.
Qed.
Definition abort_batch_post txn s (keys : list Key) st
    (r : res BatchAbortError unit) st' : Prop :=
  match r with
  | Ok _ => NoDup keys ∧ st' = store_remove_intents (remove_list txn s keys) st
  | Err e => st' = st ∧
      match e with
      | BatchAbortError.DuplicateKeyInBatch k => repeated keys k
      | BatchAbortError.Backend _ => may_fail
      end
  | Panic => False
  end.
Lemma abort_batch_wp txn s keys e :
  einv e →
  wp (abort_batch txn s keys) e (λ e' r,
    einv e' ∧ abort_batch_post txn s keys (estore e) r (estore e')).
Proof.
  intros Hinv. unfold abort_batch.
  case_decide as Hne; [subst; apply wp_ret; by repeat split; [|constructor]|].
  apply reject_duplicates_wp; [|by intros; simpl]. intros Hnd. apply wp_bind.
  change (M_fold (abort_check txn s) keys []) with (M_fold (abort_check txn s) keys
    (remove_list txn s (filter (λ k, held (estore e) txn s k = true) []))).
  eapply wp_mono.
  { apply (wp_fold_check (abort_check txn s) keys e (λ seen, remove_list txn s (filter (λ k, held (estore e) txn s k = true) seen))
      (λ _, True) (λ err _, abort_batch_post txn s keys (estore e) (Err err) (estore e)) []).
    intros seen k Hk. unfold abort_check, remove_list. rewrite filter_app, fmap_app.
    apply wp_get_intent; [done| |by intros].
    rewrite filter_cons, filter_nil. unfold held, intent_matches.
    destruct (st_intents (estore e) !! k) as [i|]; simpl.
    - case_decide as Hd.
      + destruct Hd as [-> ->]. by rewrite !bool_decide_eq_true_2.
      + rewrite decide_False; [apply wp_ret; simpl; by rewrite app_nil_r|].
        intros [?%bool_decide_eq_true ?%bool_decide_eq_true]%andb_true_iff. by apply Hd.
    - apply wp_ret. simpl. by rewrite app_nil_r. }
  intros e' [acc|err|] [-> Hr]; [|by destruct Hr as (?&?&?&_&_&?); split|done].
  destruct Hr as [-> _].
  eapply wp_wr; [by apply law_remove_intents_batch|..]; [|by intros].
  intros [] e' He' E. split; [done|]. split; [done|]. rewrite E. apply remove_held_intents.
Qed.

(** ** Direct and guarded batches *)

(** [key] takes a direct write at [c]: no intent, and no version at or above. *)
Definition free st c key : Prop :=
  st_intents st !! key = None ∧ newer_than_all st key c.
(** The guard's expectation holds, and would hold at any read timestamp from the
    guard's up to the newest version. *)
Definition guard_holds st c (g : ReadGuard) : Prop :=
  (guard_read_ts g < c)%ts ∧ st_intents st !! guard_key g = None ∧
  (∀ t x, st_versions st !! (guard_key g, t) = Some x → (t ≤ guard_read_ts g)%ts) ∧
  ∃ v, is_visible st (guard_key g) (guard_read_ts g) v ∧
    match g with
    | ExpectedVersion _ _ expected => cv_commit_ts <$> v = expected
    | ExpectedValue _ _ expected => v ≫= cv_value = expected
    end.

Definition batch_error st c (guards : list ReadGuard) (writes : list PhysicalWrite)
    (err : BatchError) : Prop :=
  match err with
  | BatchError.EmptyBatch => writes = []
  | BatchError.DuplicateKeyInBatch k => repeated (pw_key <$> writes) k
  | BatchError.KeyLocked k owner =>
      (k ∈ pw_key <$> writes ∨ k ∈ guard_key <$> guards) ∧
      ∃ i, st_intents st !! k = Some i ∧ intent_txn_id i = owner
  | BatchError.CommitTsTooOld k c' l =>
      k ∈ pw_key <$> writes ∧ c' = c ∧ is_latest_ts st k (Some l) ∧ (c ≤ l)%ts
  | BatchError.InvalidCommitTimestamp r c' =>
      c' = c ∧ (c ≤ r)%ts ∧ ∃ g, g ∈ guards ∧ guard_read_ts g = r
  | BatchError.GuardFailedNewerVersion k r l =>
      ∃ g, g ∈ guards ∧ guard_key g = k ∧ guard_read_ts g = r ∧
        is_latest_ts st k (Some l) ∧ (r < l)%ts
  | BatchError.GuardFailedVersionMismatch k expected actual =>
      expected ≠ actual ∧
      ∃ r v, ExpectedVersion k r expected ∈ guards ∧ is_visible st k r v ∧
        cv_commit_ts <$> v = actual
  | BatchError.GuardFailedValueMismatch k =>
      ∃ r expected o, ExpectedValue k r expected ∈ guards ∧ sees st k r o ∧ o ≠ expected
  | BatchError.NoReadGuards => guards = []
  | BatchError.Backend _ => may_fail
  end.

Definition direct_batch_post c writes st (r : res BatchError unit) st' : Prop :=
  match r with
  | Ok _ => writes ≠ [] ∧ NoDup (pw_key <$> writes) ∧
      (∀ w, w ∈ writes → free st c (pw_key w)) ∧
      st' = store_put_versions (write_version c <$> writes) st
  | Err err => st' = st ∧ err ≠ BatchError.NoReadGuards ∧ batch_error st c [] writes err
  | Panic => False
  end.
Definition guarded_batch_post c guards writes st (r : res BatchError unit) st' : Prop :=
  match r with
  | Ok _ => writes ≠ [] ∧ guards ≠ [] ∧ NoDup (pw_key <$> writes) ∧
      (∀ g, g ∈ guards → guard_holds st c g) ∧
      (∀ w, w ∈ writes → free st c (pw_key w)) ∧
      st' = store_put_versions (write_version c <$> writes) st
  | Err err => st' = st ∧ batch_error st c guards writes err
  | Panic => False
  end.

Lemma write_check_wp c guards writes w e :
  einv e → w ∈ writes →
  wp (write_check c w) e (λ e' r, e' = e ∧
    match r with
    | Ok _ => free (estore e) c (pw_key w)
    | Err err => err ≠ BatchError.NoReadGuards ∧ batch_error (estore e) c guards writes err
    | Panic => False
    end).
Proof.
  intros Hinv Hw. unfold write_check.
  assert (pw_key w ∈ pw_key <$> writes) by by apply list_elem_of_fmap_2.
  apply wp_get_intent; [done| |by intros].
  destruct (st_intents (estore e) !! pw_key w) as [i|] eqn:Hi.
  { apply wp_throw. simpl. eauto 10. }
  apply wp_get_latest; [done| |by intros]. intros o Ho.
  pose proof (is_latest_newer _ _ _ c Ho) as Hnew. destruct o as [l|].
  - destruct (ts_leb c l) eqn:Hcl.
    + apply wp_throw. apply ts_leb_le in Hcl. by simpl.
    + apply wp_ret. split; [done|]. split; [done|]. apply Hnew. simpl. ts_lia.
  - apply wp_ret. split; [done|]. split; [done|]. by apply Hnew.
Qed.

Lemma guard_check_wp c guards writes g e :
  einv e → g ∈ guards →
  wp (guard_check c g) e (λ e' r, e' = e ∧
    match r with
    | Ok _ => guard_holds (estore e) c g
    | Err err => batch_error (estore e) c guards writes err
    | Panic => False
    end).
Proof.
  intros Hinv Hg. unfold guard_check.
  assert (guard_key g ∈ guard_key <$> guards) by by apply list_elem_of_fmap_2.
  destruct (ts_leb c (guard_read_ts g)) eqn:Hc.
  { apply wp_throw. apply ts_leb_le in Hc. simpl. eauto 10. }
  apply wp_get_intent; [done| |by intros].
  destruct (st_intents (estore e) !! guard_key g) as [i|] eqn:Hi.
  { apply wp_throw. simpl. eauto 10. }
  apply wp_get_latest; [done| |by intros]. intros o Ho.
  apply wp_bind. apply wp_mono with (P := λ e' r, e' = e ∧
    match r with
    | Ok _ => ∀ t x, st_versions (estore e) !! (guard_key g, t) = Some x →
        (t ≤ guard_read_ts g)%ts
    | Err err => batch_error (estore e) c guards writes err
    | Panic => False
    end).
  { destruct o as [l|].
    - destruct (ts_ltb (guard_read_ts g) l) eqn:Hl.
      + apply wp_throw. apply ts_ltb_lt in Hl. simpl. eauto 10.
      + apply wp_ret. split; [done|]. intros t x Hx. destruct Ho as [_ Hmax].
        specialize (Hmax _ _ Hx). ts_lia.
    - apply wp_ret. split; [done|]. intros t x Hx. by destruct (Ho _ _ Hx). }
  intros e' [[]|err|] [-> Hn]; [|done|done].
  apply wp_get_visible; [done| |by intros]. intros v Hv.
  assert ((guard_read_ts g < c)%ts) by ts_lia. unfold guard_holds.
  destruct g as [k r ex|k r ex]; simpl in *; case_decide as Hd.
  - apply wp_throw. simpl. eauto 10.
  - apply wp_ret. eauto 10.
  - apply wp_throw. split; [done|]. simpl. exists r, ex, (v ≫= cv_value).
    split_and!; [done|by exists v|done].
  - apply wp_ret. eauto 10.
Qed.

Lemma apply_direct_batch_wp c writes e :
  einv e →
  wp (apply_direct_batch c writes) e (λ e' r,
    einv e' ∧ direct_batch_post c writes (estore e) r (estore e')).
Proof.
  intros Hinv. unfold apply_direct_batch.
  case_decide as Hne; [by apply wp_throw; simpl|].
  apply reject_duplicates_wp; [|by intros; simpl]. intros Hnd. apply wp_bind.
  eapply wp_mono; [apply (wp_for_check _ writes e (λ w, free (estore e) c (pw_key w))
    (λ err _, err ≠ BatchError.NoReadGuards ∧ batch_error (estore e) c [] writes err));
    intros; by apply write_check_wp|].
  intros e' [[]|err|] [-> Hr]; [|by destruct Hr as (?&?&?&_&_&?&?)|done].
  eapply wp_wr; [by apply law_put_committed_batch|..]; [|by intros].
  intros [] e' He' E. by split.
Qed.
Lemma apply_guarded_batch_wp c guards writes e :
  einv e →
  wp (apply_guarded_batch c guards writes) e (λ e' r,
    einv e' ∧ guarded_batch_post c guards writes (estore e) r (estore e')).
Proof.
  intros Hinv. unfold apply_guarded_batch.
  case_decide as Hne; [by apply wp_throw; simpl|].
  case_decide as Hge; [by apply wp_throw; simpl|].
  apply reject_duplicates_wp; [|by intros; simpl]. intros Hnd. apply wp_bind.
  eapply wp_mono; [apply (wp_for_check _ guards e (guard_holds (estore e) c)
    (λ err _, batch_error (estore e) c guards writes err));
    intros; by apply guard_check_wp|].
  intros e' [[]|err|] [-> Hg]; [|by destruct Hg as (?&?&?&_&_&?)|done].
  apply wp_bind.
  eapply wp_mono; [apply (wp_for_check _ writes e (λ w, free (estore e) c (pw_key w))
    (λ err _, err ≠ BatchError.NoReadGuards ∧ batch_error (estore e) c guards writes err));
    intros; by apply write_check_wp|].
  intros e' [[]|err|] [-> Hr]; [|by destruct Hr as (?&?&?&_&_&?&?)|done].
  eapply wp_wr; [by apply law_put_committed_batch|..]; [|by intros].
  intros [] e' He' E. by split.
Qed.

(** ** The garbage-collection planner *)

Lemma is_before_in st key before limit l t :
  is_before st key before limit l → t ∈ l →
  is_Some (st_versions st !! (key, t)) ∧ (t < before)%ts.
Proof. intros (all&->&_&Hall) Ht%elem_of_take_usize. by apply Hall. Qed.
Lemma is_before_len st key before limit l :
  is_before st key before limit l → (len l ≤ limit)%N.
Proof. intros (all&->&_). rewrite len_take_usize. lia. Qed.
Lemma is_before_complete st key before limit l t :
  is_before st key before limit l → (len l < limit)%N →
  is_Some (st_versions st !! (key, t)) → (t < before)%ts → t ∈ l.
Proof.
  intros (all&->&_&Hall) Hl Hs Ht. rewrite len_take_usize in Hl.
  rewrite take_usize_all by lia. by apply Hall.
Qed.
Lemma is_before_NoDup st key before limit l :
  is_before st key before limit l → NoDup l.
Proof.
  intros (all&->&Hs&_). rewrite take_usize_take. apply NoDup_take.
  eapply StronglySorted_NoDup; [|exact Hs]. intros t Ht. lia.
Qed.

(** [keeper] is a tombstone that shadows nothing newer on an unlocked key. *)
Definition final_tombstone st (keeper : CommittedVersion) : Prop :=
  cv_value keeper = None ∧ st_intents st !! cv_key keeper = None ∧
  is_latest_ts st (cv_key keeper) (Some (cv_commit_ts keeper)).
Definition key_plan st key sp (options : KeyGcOptions) (p : KeyGcPlan) : Prop :=
  plan_key p = key ∧ plan_versions_examined p = len (plan_versions_to_remove p) ∧
  ∃ o, is_visible st key sp o ∧
  match o with
  | None => plan_versions_to_remove p = [] ∧ plan_collapse_tombstone p = None ∧
      plan_complete p = true
  | Some keeper =>
      is_before st key (cv_commit_ts keeper) (kg_max_versions_examined options)
        (plan_versions_to_remove p) ∧
      plan_complete p =
        (len (plan_versions_to_remove p) <? kg_max_versions_examined options)%N ∧
      ∀ t, plan_collapse_tombstone p = Some t ↔
        t = cv_commit_ts keeper ∧ plan_complete p = true ∧
        kg_collapse_final_tombstones options = true ∧ final_tombstone st keeper
  end.

Lemma plan_key_gc_spec e key sp options :
  einv e →
  match plan_key_gc e key sp options with
  | Ok p => (0 < kg_max_versions_examined options)%N ∧ key_plan (estore e) key sp options p
  | Err err => err = GcError.InvalidKeyGcBudget ∧ kg_max_versions_examined options = 0%N
      ∨ may_fail ∧ ∃ msg, err = GcError.Backend msg
  | Panic => False
  end.
Proof.
  intros Hinv. unfold plan_key_gc.
  destruct (N.eqb_spec (kg_max_versions_examined options) 0) as [?|Hmax]; [by left|].
  pose proof (law_get_visible_committed (backend e) key sp Hinv) as Hv.
  destruct (get_visible_committed (backend e) key sp) as [[keeper|]| |]; simpl in *;
    [|split; [lia|]; split_and!; try done; by exists None|by eauto|done].
  pose proof (law_get_intent (backend e) key Hinv) as Hi.
  pose proof (law_get_latest_commit_ts (backend e) key Hinv) as Hl.
  pose proof (law_get_committed_timestamps_before (backend e) key (cv_commit_ts keeper)
    (kg_max_versions_examined options) Hinv) as Hb.
  assert (cv_key keeper = key) as Hk by apply Hv.
  set (no_intent := if _ && _ then _ else _).
  assert (match no_intent with
    | Ok b => b = true ↔ kg_collapse_final_tombstones options = true ∧
        cv_value keeper = None ∧ st_intents (estore e) !! key = None
    | Err err => may_fail ∧ ∃ msg, err = GcError.Backend msg | Panic => False end) as Hno.
  { subst no_intent. destruct (kg_collapse_final_tombstones options); simpl; [|naive_solver].
    case_bool_decide; simpl; [|naive_solver].
    destruct (get_intent (backend e) key); simpl in *; [|by eauto|done]. subst.
    rewrite bool_decide_eq_true. unfold estore. naive_solver. }
  clearbody no_intent. destruct no_intent as [no| |]; simpl; [|by eauto|done].
  set (final := if no then _ else _).
  assert (match final with
    | Ok b => b = true ↔ kg_collapse_final_tombstones options = true ∧
        final_tombstone (estore e) keeper
    | Err err => may_fail ∧ ∃ msg, err = GcError.Backend msg | Panic => False end) as Hfin.
  { subst final. unfold final_tombstone. rewrite Hk. destruct no; [|naive_solver].
    destruct (get_latest_commit_ts (backend e) key) as [o| |]; simpl in *; [|by eauto|done].
    rewrite bool_decide_eq_true. split; [intros ->; naive_solver|].
    intros (_&_&_&Hl'). by apply (is_latest_ts_fun (estore e) key). }
  clearbody final. destruct final as [fin| |]; simpl; [|by eauto|done].
  destruct (get_committed_timestamps_before _ _ _ _) as [l| |]; simpl in *; [|by eauto|done].
  split; [lia|]. pose proof (is_before_len _ _ _ _ _ Hb) as Hlen.
  rewrite take_usize_all by done. split; [done|]. split; [done|].
  exists (Some keeper). split; [done|]. simpl. split_and!; [done|done|].
  intros t. clear Hv Hb Hi Hl Hno Hlen. destruct (len l <? _)%N, fin; simpl;
    (split; [intros [=]; subst|intros (Et&Ec&Ho&Hf)]); try done.
  - split_and!; [done..|by apply Hfin|by apply Hfin].
  - by rewrite Et.
  - discriminate (proj2 Hfin (conj Ho Hf)).
Qed.

(** ** Operations that cannot fail *)

Lemma read_ok e key rt o :
  einv e → ¬ may_fail → sees (estore e) key rt o → read e key rt = Ok o.
Proof.
  intros Hinv Hfail (v&Hv&->). unfold read.
  pose proof (law_get_visible_committed (backend e) key rt Hinv) as Hr.
  destruct (get_visible_committed (backend e) key rt) as [w| |]; simpl in *; [|done|done].
  by rewrite (is_visible_fun _ _ _ _ _ Hr Hv).
Qed.
Lemma prewrite_free txn s key mu e :
  einv e → ¬ may_fail → writable (estore e) s key →
  einv (prewrite txn s key mu e).1 ∧ (prewrite txn s key mu e).2 = Ok tt ∧
  estore (prewrite txn s key mu e).1 =
    store_put_intent (mkIntent key txn s mu None) (estore e).
Proof.
  intros Hinv Hfail [Hn Hv]. pose proof (prewrite_wp txn s key mu e Hinv) as Hw.
  unfold wp in Hw. destruct (prewrite txn s key mu e) as [e' [[]|err|]]; simpl in *;
    [|exfalso|by destruct Hw].
  - destruct Hw as [? [(i&(Hi&_)&_)|(_&_&?)]]; [congruence|done].
  - destruct Hw as (_&_&Hw). destruct err; try done.
    + destruct Hw as (i&?&_). congruence.
    + destruct Hw as (_&t&[[x Hx] _]&Hlt). specialize (Hv _ _ Hx). lia.
    + destruct Hw as (i&?&_). congruence.
Qed.
Lemma commit_held txn key s c e i :
  einv e → ¬ may_fail → holds (estore e) key txn s i → (s < c)%ts → min_ok i c →
  newer_than_all (estore e) key c →
  einv (commit txn key s c e).1 ∧ (commit txn key s c e).2 = Ok tt ∧
  estore (commit txn key s c e).1 = committed_store key c i (estore e).
Proof.
  intros Hinv Hfail (Hi&Ht&Hs) Hsc Hmin Hn. pose proof (commit_wp txn key s c e Hinv) as Hw.
  unfold wp in Hw. destruct (commit txn key s c e) as [e' [[]|err|]]; simpl in *;
    [|exfalso|by destruct Hw].
  - destruct Hw as (?&j&(Hj&_)&_&_&_&?). assert (j = i) as -> by congruence. done.
  - destruct Hw as (_&_&Hw). destruct err; try done.
    + congruence.
    + destruct Hw as (j&Hj&?). congruence.
    + destruct Hw as (j&Hj&_&?). congruence.
    + destruct Hw as (_&_&?&_). lia.
    + destruct Hw as (_&_&[[x Hx] _]&_). specialize (Hn _ _ Hx). lia.
    + destruct Hw as (_&_&[[x Hx] _]&?&_). specialize (Hn _ _ Hx). lia.
    + destruct Hw as (_&_&Hlt&j&(Hj&_)&Hm). assert (j = i) as -> by congruence.
      specialize (Hmin _ Hm). lia.
Qed.

(** A batch whose conditions hold succeeds. *)
Lemma repeated_not_NoDup (keys : list Key) k : repeated keys k → ¬ NoDup keys.
Proof. intros (l1&l2&->&Hk) (_&Hd&_)%NoDup_app. apply (Hd k Hk). constructor. Qed.
Lemma free_not_old st c k l : free st c k → is_latest_ts st k (Some l) → ¬ (c ≤ l)%ts.
Proof. intros [_ Hn] [[x Hx] _]. specialize (Hn _ _ Hx). lia. Qed.

Lemma direct_batch_free c writes e :
  einv e → ¬ may_fail → writes ≠ [] → NoDup (pw_key <$> writes) →
  (∀ w, w ∈ writes → free (estore e) c (pw_key w)) →
  wp (apply_direct_batch c writes) e (λ e' r, r = Ok tt ∧ einv e' ∧
    estore e' = store_put_versions (write_version c <$> writes) (estore e)).
Proof.
  intros Hinv Hfail Hne Hnd Hfree. eapply wp_mono; [by apply apply_direct_batch_wp|].
  intros e' [[]|err|] [He' Hr]; [by destruct Hr as (_&_&_&?)|exfalso|done].
  destruct Hr as (_&Hng&Herr). destruct err; simpl in Herr; try (contradiction || by destruct Hng).
  - destruct Herr as (_&_&g&?%elem_of_nil&_). done.
  - destruct Herr as ((w&->&Hw)%list_elem_of_fmap&_&Hl&?). by eapply free_not_old; [apply Hfree|..].
  - exact (repeated_not_NoDup _ _ Herr Hnd).
  - destruct Herr as ([(w&->&Hw)%list_elem_of_fmap|?%elem_of_nil]&i&Hi&_); [|done].
    apply Hfree in Hw as [Hn _]. congruence.
  - destruct Herr as (g&?%elem_of_nil&_). done.
  - destruct Herr as (_&r&v&?%elem_of_nil&_). done.
  - destruct Herr as (r&x&o&?%elem_of_nil&_). done.
Qed.

(** A guarded batch on unlocked keys with older versions only fails for a guard
    that does not hold, and changes nothing then. *)
Lemma guarded_batch_free c guards writes e :
  einv e → ¬ may_fail → writes ≠ [] → guards ≠ [] → NoDup (pw_key <$> writes) →
  (∀ w, w ∈ writes → free (estore e) c (pw_key w)) →
  (∀ g, g ∈ guards → (guard_read_ts g < c)%ts ∧ st_intents (estore e) !! guard_key g = None) →
  wp (apply_guarded_batch c guards writes) e (λ e' r, einv e' ∧
    (r = Ok tt ∧ (∀ g, g ∈ guards → guard_holds (estore e) c g) ∧
       estore e' = store_put_versions (write_version c <$> writes) (estore e) ∨
     ∃ err, r = Err err ∧ estore e' = estore e ∧
       match err with
       | BatchError.GuardFailedNewerVersion _ _ _ | BatchError.GuardFailedVersionMismatch _ _ _
       | BatchError.GuardFailedValueMismatch _ => batch_error (estore e) c guards writes err
       | _ => False
       end)).
Proof.
  intros Hinv Hfail Hne Hgs Hnd Hfree Hg. eapply wp_mono; [by apply apply_guarded_batch_wp|].
  intros e' [[]|err|] [He' Hr]; [|split; [done|right]|done].
  { destruct Hr as (_&_&_&?&_&?). auto. }
  destruct Hr as (?&Herr). exists err. split; [done|]. split; [done|].
  destruct err; simpl in Herr; try (contradiction || done).
  - destruct Herr as (_&?&g&Hin&<-). apply Hg in Hin as [? _]. lia.
  - destruct Herr as ((w&->&Hw)%list_elem_of_fmap&_&Hl&?). by eapply free_not_old; [apply Hfree|..].
  - exact (repeated_not_NoDup _ _ Herr Hnd).
  - destruct Herr as ([(w&->&Hw)%list_elem_of_fmap|(g&->&Hin)%list_elem_of_fmap]&i&Hi&_).
    + apply Hfree in Hw as [Hn _]. congruence.
    + apply Hg in Hin as [_ Hn]. congruence.
Qed.

Lemma guard_holds_no_error st c guards writes err :
  (∀ g, g ∈ guards → guard_holds st c g) →
  match err with
  | BatchError.GuardFailedNewerVersion _ _ _ | BatchError.GuardFailedVersionMismatch _ _ _
  | BatchError.GuardFailedValueMismatch _ => ¬ batch_error st c guards writes err
  | _ => True
  end.
Proof.
  intros Hg. destruct err; try done; simpl.
  - intros (g&Hin&<-&<-&[[x Hx] _]&?). apply Hg in Hin as (_&_&Hv&_).
    specialize (Hv _ _ Hx). lia.
  - intros (Hne&r&v&Hin&Hvis&E). apply Hg in Hin as (_&_&_&v'&Hvis'&E'). simpl in *.
    rewrite (is_visible_fun _ _ _ _ _ Hvis Hvis') in E. congruence.
  - intros (r&x&o&Hin&(v&Hvis&E)&Hne). apply Hg in Hin as (_&_&_&v'&Hvis'&E'). simpl in *.
    rewrite (is_visible_fun _ _ _ _ _ Hvis Hvis') in E. congruence.
Qed.
Lemma guarded_batch_held c guards writes e :
  einv e → ¬ may_fail → writes ≠ [] → guards ≠ [] → NoDup (pw_key <$> writes) →
  (∀ w, w ∈ writes → free (estore e) c (pw_key w)) →
  (∀ g, g ∈ guards → guard_holds (estore e) c g) →
  wp (apply_guarded_batch c guards writes) e (λ e' r, r = Ok tt ∧ einv e' ∧
    estore e' = store_put_versions (write_version c <$> writes) (estore e)).
Proof.
  intros Hinv Hfail Hne Hgs Hnd Hfree Hg. eapply wp_mono; [apply guarded_batch_free; try done|].
  - intros g Hin. destruct (Hg g Hin) as (?&?&_). done.
  - intros e' r [He' [(->&_&E)|(err&_&_&Herr)]]; [done|exfalso].
    pose proof (guard_holds_no_error (estore e) c guards writes err Hg). by destruct err.
Qed.

Lemma prewrite_batch_free txn s writes e :
  einv e → ¬ may_fail → writes ≠ [] → NoDup (pw_key <$> writes) →
  (∀ w, w ∈ writes → writable (estore e) s (pw_key w)) →
  wp (prewrite_batch txn s writes) e (λ e' r, r = Ok tt ∧ einv e' ∧
    estore e' = store_put_intents (write_intent txn s <$> writes) (estore e)).
Proof.
  intros Hinv Hfail Hne Hnd Hw. eapply wp_mono; [by apply prewrite_batch_wp|].
  assert (∀ k i, k ∈ pw_key <$> writes → st_intents (estore e) !! k ≠ Some i) as Hfree.
  { intros k i (w&->&Hin)%list_elem_of_fmap. destruct (Hw _ Hin) as [-> _]. done. }
  assert (∀ w, w ∈ writes → ¬ in_place (estore e) txn s w) as Hnot.
  { intros w Hin (i&(Hi&_)&_). destruct (Hw _ Hin) as [? _]. congruence. }
  intros e' [[]|err|] [He' Hr]; [|exfalso|done].
  - destruct Hr as (_&_&[[Hp _]|[_ ?]]); [|done].
    destruct writes as [|w l]; [done|]. exfalso. apply (Hnot w); [constructor|]. apply Hp. constructor.
  - destruct Hr as (_&Herr). destruct err; simpl in Herr; try contradiction.
    + exact (repeated_not_NoDup _ _ Herr Hnd).
    + destruct Herr as (?&i&?&_). by eapply Hfree.
    + destruct Herr as ((w&->&Hin)%list_elem_of_fmap&_&t&[[x Hx] _]&?).
      apply Hw in Hin as [_ Hv]. specialize (Hv _ _ Hx). lia.
    + destruct Herr as (w&i&Hin&<-&Hi&_). by eapply Hfree; [by apply list_elem_of_fmap_2|].
    + destruct Herr as [(w&Hin&Hp) _]. by eapply Hnot.
Qed.

Lemma commit_batch_held txn s c keys e :
  einv e → ¬ may_fail → keys ≠ [] → NoDup keys → (s < c)%ts →
  (∀ k, k ∈ keys → committable (estore e) txn s c k) →
  wp (commit_batch txn s c keys) e (λ e' r, r = Ok tt ∧ einv e' ∧
    estore e' = store_remove_intents (remove_list txn s keys)
      (store_put_versions (commit_version (estore e) c <$> keys) (estore e))).
Proof.
  intros Hinv Hfail Hne Hnd Hsc Hk. eapply wp_mono; [by apply commit_batch_wp|].
  intros e' [[]|err|] [He' Hr]; [by destruct Hr as (_&_&_&_&?)|exfalso|done].
  destruct Hr as (_&Herr). destruct err; simpl in Herr; try contradiction.
  all: try (exact (repeated_not_NoDup _ _ Herr Hnd)).
  all: try (destruct Herr as (_&_&?); lia).
  all: destruct Herr as (Hin&Herr); apply Hk in Hin as (i&(Hi&Ht&Hs)&Hmin&Hn).
  - congruence.
  - destruct Herr as (j&?&?). congruence.
  - destruct Herr as (j&?&_&?). congruence.
  - destruct Herr as (_&?&j&(Hj&_)&Hm). assert (j = i) as -> by congruence.
    specialize (Hmin _ Hm). lia.
  - destruct Herr as (_&?&[[x Hx] _]&_). specialize (Hn _ _ Hx). lia.
Qed.

(** ** Reads after a commit *)

(** A read depends on the versions at or below its timestamp only. *)
Lemma sees_local st st' k rt o :
  (∀ t, (t ≤ rt)%ts → st_versions st' !! (k, t) = st_versions st !! (k, t)) →
  sees st k rt o → sees st' k rt o.
Proof.
  intros Hv (v&Hvis&->). exists v. split; [|done]. unfold is_visible in *.
  destruct v as [v|].
  - destruct Hvis as (?&?&?&Hmax). split_and!; [done..|by rewrite Hv|].
    intros t x Hx Ht. rewrite Hv in Hx by done. by eapply Hmax.
  - intros t x Hx. destruct (decide (ts_val t ≤ ts_val rt)%N) as [Ht|]; [|lia].
    rewrite Hv in Hx by done. by eapply Hvis.
Qed.
Lemma sees_fun st k rt o o' : sees st k rt o → sees st k rt o' → o = o'.
Proof. intros (v&Hv&->) (w&Hw&->). by rewrite (is_visible_fun _ _ _ _ _ Hv Hw). Qed.
Lemma sees_put_versions st vs k rt o c :
  (∀ v, v ∈ vs → cv_commit_ts v = c) → (rt < c)%ts →
  sees st k rt o → sees (store_put_versions vs st) k rt o.
Proof.
  intros Hvs Hc. apply sees_local. intros t Ht. apply put_versions_notin.
  intros v Hv [= _ E]. rewrite (Hvs _ Hv) in E. subst t. lia.
Qed.

Lemma committed_sees st key c i rt :
  newer_than_all st key c → (c ≤ rt)%ts →
  sees (committed_store key c i st) key rt (Mutation_value (intent_mutation i)).
Proof.
  intros Hn Hrt. exists (Some (mkVersion key c (Mutation_value (intent_mutation i)))).
  split; [|done]. split_and!; [done|done|apply lookup_insert_eq|].
  intros t x Hx _. simpl in *.
  apply lookup_insert_Some in Hx as [[[= <-] _]|[_ Hx]]; [lia|]. specialize (Hn _ _ Hx). lia.
Qed.
Lemma commit_batch_unlocks st st' txn s c keys k :
  (∀ k, k ∈ keys → committable st txn s c k) → k ∈ keys →
  st_intents st' = st_intents st →
  st_intents (store_remove_intents (remove_list txn s keys) st') !! k = None.
Proof.
  intros Hall Hk E. unfold remove_list. rewrite lookup_remove_intents, decide_True, E by done.
  destruct (Hall _ Hk) as (i&(->&<-&<-)&_). simpl. unfold intent_matches.
  by rewrite !bool_decide_eq_true_2.
Qed.

Lemma commit_batch_sees st txn s c keys k i rt :
  NoDup keys → k ∈ keys → st_intents st !! k = Some i → newer_than_all st k c → (c ≤ rt)%ts →
  sees (store_remove_intents (remove_list txn s keys)
    (store_put_versions (commit_version st c <$> keys) st)) k rt
    (Mutation_value (intent_mutation i)).
Proof.
  intros Hnd Hk Hi Hn Hrt.
  apply (sees_local (store_put_versions (commit_version st c <$> keys) st)).
  { intros t _. by rewrite remove_intents_versions. }
  exists (Some (commit_version st c k)). split; [|simpl; by rewrite Hi].
  split_and!; [done|done| |].
  - apply (put_versions_in _ _ (commit_version st c k)); [|by apply list_elem_of_fmap_2].
    by rewrite <-list_fmap_compose, list_fmap_id.
  - intros t x Hx _. simpl.
    apply put_versions_inv in Hx as [(v&(k'&->&_)%list_elem_of_fmap&_&<-&_)|Hx]; [simpl; lia|].
    specialize (Hn _ _ Hx). lia.
Qed.
Lemma commit_batch_sees_other st txn s c keys k rt o :
  (rt < c)%ts ∨ k ∉ keys → sees st k rt o →
  sees (store_remove_intents (remove_list txn s keys)
    (store_put_versions (commit_version st c <$> keys) st)) k rt o.
Proof.
  intros Hk. apply sees_local. intros t Ht. rewrite remove_intents_versions.
  apply put_versions_notin. intros v (k'&->&Hk')%list_elem_of_fmap [= -> ->].
  destruct Hk as [?|?]; [lia|done].
Qed.

End spec.
