(* ===== verification/BatchSpec.v ===== *)
(** * BatchSpec: batches and the single-key operations

    The batch operations of [Engine] against their reference: the single-key
    operation of each key, one after the other.  On a backend that does not fail a
    sequence of single-key operations succeeds exactly when the conditions of the
    batch hold, and leaves the store of the batch. *)
From S2P Require Export EngineSpec.

Section batch.
Context {B : Type} `{HL : BackendLaws B}.
Implicit Types (e : MvccEngine B) (st : Store) (k key : Key) (txn : TxnId)
  (s c rt : Timestamp).

(** The reference programs. *)
Definition commit_each txn s c (keys : list Key) : M (MvccEngine B) CommitError unit :=
  M_for (λ k, commit txn k s c) keys.
Definition prewrite_each txn s (writes : list PhysicalWrite) :
    M (MvccEngine B) PrewriteError unit :=
  M_for (λ w, prewrite txn s (pw_key w) (write_mutation (pw_value w))) writes.
Definition abort_each txn s (keys : list Key) : M (MvccEngine B) AbortError unit :=
  M_for (λ k, abort txn k s) keys.

(** The store after a commit of [keys]. *)
Definition committed_all txn s c (keys : list Key) st : Store :=
  store_remove_intents (remove_list txn s keys)
    (store_put_versions (commit_version st c <$> keys) st).

(** ** Commits *)

Lemma commit_version_local st st' c (keys : list Key) :
  (∀ k, k ∈ keys → st_intents st' !! k = st_intents st !! k) →
  commit_version st' c <$> keys = commit_version st c <$> keys.
Proof.
  intros Hi. apply list_fmap_ext. intros i k Hk. unfold commit_version.
  by rewrite Hi by (by eapply list_elem_of_lookup_2).
Qed.

Lemma committed_store_other key c i st k :
  k ≠ key → st_intents (committed_store key c i st) !! k = st_intents st !! k.
Proof. intros. simpl. by apply lookup_delete_ne. Qed.

Lemma committed_all_cons txn s c key keys i st :
  key ∉ keys → holds st key txn s i →
  committed_all txn s c keys (committed_store key c i st) =
  committed_all txn s c (key :: keys) st.
Proof.
  intros Hn Hh. unfold committed_all. apply store_ext.
  - rewrite !remove_intents_versions.
    rewrite (commit_version_local st) by (intros; apply committed_store_other; set_solver).
    simpl. apply put_versions_versions. simpl. destruct Hh as (->&_). done.
  - intros k. unfold remove_list. rewrite !lookup_remove_intents, !put_versions_intents.
    destruct (decide (k = key)) as [->|Hk].
    + rewrite decide_False by done. rewrite decide_True by constructor. simpl.
      rewrite lookup_delete_eq. destruct Hh as (->&<-&<-). simpl.
      unfold intent_matches. by rewrite !bool_decide_eq_true_2.
    + rewrite committed_store_other by done. repeat case_decide; set_solver.
Qed.

Lemma committable_other txn s c key i st k :
  k ≠ key → committable (committed_store key c i st) txn s c k ↔ committable st txn s c k.
Proof.
  intros Hk. unfold committable, holds, newer_than_all.
  setoid_rewrite (committed_store_other key c i st k Hk).
  assert (∀ t x, st_versions (committed_store key c i st) !! (k, t) = Some x ↔
    st_versions st !! (k, t) = Some x) as E
    by (intros; simpl; by rewrite lookup_insert_ne by congruence).
  by setoid_rewrite E.
Qed.

(** One commit succeeds exactly when its condition holds. *)
Lemma commit_iff txn key s c e :
  einv e → ¬ may_fail →
  wp (commit txn key s c) e (λ e' r, einv e' ∧
    match r with
    | Ok _ => (s < c)%ts ∧ committable (estore e) txn s c key ∧
        ∃ i, holds (estore e) key txn s i ∧ estore e' = committed_store key c i (estore e)
    | Err _ => ¬ ((s < c)%ts ∧ committable (estore e) txn s c key)
    | Panic => False
    end).
Proof.
  intros Hinv Hfail. pose proof (commit_wp txn key s c e Hinv) as Hw. unfold wp in *.
  destruct (commit txn key s c e) as [e' [[]|err|]] eqn:E; destruct Hw as [Hi' Hp]; [|split; [done|]|done].
  - destruct Hp as (i&?&?&?&?&?). repeat split; [done..| |]; by exists i.
  - intros [Hsc (i&Hh&Hm&Hn)].
    destruct (commit_held txn key s c e i) as (_&Hok&_); try done. by rewrite E in Hok.
Qed.

Lemma commit_each_wp txn s c (keys : list Key) e :
  einv e → ¬ may_fail → NoDup keys →
  wp (commit_each txn s c keys) e (λ e' r, einv e' ∧
    match r with
    | Ok _ => (keys ≠ [] → (s < c)%ts) ∧ (∀ k, k ∈ keys → committable (estore e) txn s c k) ∧
        estore e' = committed_all txn s c keys (estore e)
    | Err _ => ¬ ((s < c)%ts ∧ ∀ k, k ∈ keys → committable (estore e) txn s c k)
    | Panic => False
    end).
Proof.
  intros Hinv Hfail. revert e Hinv. induction keys as [|key keys IH]; intros e Hinv Hnd.
  { apply wp_ret. split; [done|]. split; [done|]. split; [|done]. by intros k ?%elem_of_nil. }
  apply NoDup_cons in Hnd as [Hn Hnd]. apply wp_bind.
  eapply wp_mono; [by apply commit_iff|]. intros e1 [[]|err|] [He1 Hr]; [|split; [done|]|done].
  2: { intros [? Hk]. apply Hr. split; [done|]. apply Hk. constructor. }
  destruct Hr as (Hsc&Hc&i&Hh&E).
  assert (∀ k, k ∈ keys → committable (estore e1) txn s c k ↔ committable (estore e) txn s c k)
    as Hiff by (intros; rewrite E; apply committable_other; set_solver).
  eapply wp_mono; [by apply IH|]. intros e2 [[]|err|] [He2 Hr]; (split; [done|]); [| |done].
  - destruct Hr as (_&Hk&->). rewrite E, committed_all_cons by done. split; [done|].
    split; [|done]. intros k [->|Hin]%elem_of_cons; [done|]. by apply Hiff, Hk.
  - intros [_ Hk]. apply Hr. split; [done|]. intros k Hin. apply Hiff, Hk; [done|]. by constructor.
Qed.

(** ** Prewrites *)

(** [w] can be prewritten alone: it is in place, or its key is writable. *)
Definition prewritable st txn s (w : PhysicalWrite) : Prop :=
  in_place st txn s w ∨ writable st s (pw_key w).
(** The store after [writes]: new intents on the keys that were writable. *)
Definition prewritten_all txn s (writes : list PhysicalWrite) st st' : Prop :=
  st_versions st' = st_versions st ∧
  (∀ k, k ∉ pw_key <$> writes → st_intents st' !! k = st_intents st !! k) ∧
  (∀ w, w ∈ writes →
    (in_place st txn s w → st_intents st' !! pw_key w = st_intents st !! pw_key w) ∧
    (writable st s (pw_key w) → st_intents st' !! pw_key w = Some (write_intent txn s w))).

(** Some of the writes are in place and some are not. *)
Definition partly_in_place st txn s (writes : list PhysicalWrite) : Prop :=
  (∃ w, w ∈ writes ∧ in_place st txn s w) ∧
  (∃ w, w ∈ writes ∧ writable st s (pw_key w)).

Lemma in_place_not_writable st txn s w : in_place st txn s w → ¬ writable st s (pw_key w).
Proof. intros (i&(Hi&_)&_) [Hn _]. congruence. Qed.

Lemma in_place_local st st' txn s w :
  st_intents st' !! pw_key w = st_intents st !! pw_key w →
  in_place st' txn s w ↔ in_place st txn s w.
Proof. intros E. unfold in_place, holds. by rewrite E. Qed.
Lemma writable_local st st' s k :
  st_versions st' = st_versions st → st_intents st' !! k = st_intents st !! k →
  writable st' s k ↔ writable st s k.
Proof. intros Ev E. unfold writable. by rewrite E, Ev. Qed.

(** One prewrite succeeds exactly when its condition holds. *)
Lemma prewrite_iff txn s w e :
  einv e → ¬ may_fail →
  wp (prewrite txn s (pw_key w) (write_mutation (pw_value w))) e (λ e' r, einv e' ∧
    match r with
    | Ok _ => prewritable (estore e) txn s w ∧ prewritten_all txn s [w] (estore e) (estore e')
    | Err _ => ¬ prewritable (estore e) txn s w
    | Panic => False
    end).
Proof.
  intros Hinv Hfail.
  pose proof (prewrite_wp txn s (pw_key w) (write_mutation (pw_value w)) e Hinv) as Hw.
  unfold wp in *. destruct (prewrite _ _ _ _ e) as [e' [[]|err|]];
    destruct Hw as [He' Hp]; (split; [done|]); [| |done].
  - destruct Hp as [(i&Hh&Hm&->)|(Hn&Hv&->)].
    + assert (in_place (estore e) txn s w) as Hp by by exists i.
      split; [by left|]. split_and!; [done..|]. intros w' ->%list_elem_of_singleton.
      split; [done|]. by intros ?%(in_place_not_writable _ _ _ _ Hp).
    + assert (writable (estore e) s (pw_key w)) as Hp by done.
      split; [by right|]. split_and!; [done| |].
      * intros k Hk. simpl. apply lookup_insert_ne. set_solver.
      * intros w' ->%list_elem_of_singleton. split.
        -- intros Hq. by destruct (in_place_not_writable _ _ _ _ Hq).
        -- intros _. apply lookup_insert_eq.
  - destruct Hp as [_ Herr]. intros [(i&(Hi&Ht&Hs)&Hm)|[Hn Hv]]; destruct err; try done.
    + destruct Herr as (j&?&?&?). congruence.
    + by destruct Herr as [? _]; congruence.
    + destruct Herr as (j&Hj&_&[?|?]); congruence.
    + destruct Herr as (j&?&_). congruence.
    + destruct Herr as (_&t&[[x Hx] _]&?). specialize (Hv _ _ Hx). lia.
    + destruct Herr as (j&?&_). congruence.
Qed.

Lemma prewritten_all_cons txn s w writes st st1 st2 :
  pw_key w ∉ pw_key <$> writes →
  prewritten_all txn s [w] st st1 → prewritten_all txn s writes st1 st2 →
  prewritten_all txn s (w :: writes) st st2.
Proof.
  intros Hn (Ev&Eo&Ew) (Ev'&Eo'&Ew').
  assert (∀ w', w' ∈ writes → st_intents st1 !! pw_key w' = st_intents st !! pw_key w') as Es.
  { intros w' Hw'. apply Eo. simpl. intros E%list_elem_of_singleton.
    apply Hn. rewrite <-E. by apply list_elem_of_fmap_2. }
  split_and!; [congruence| |].
  - intros k Hk. csimpl in Hk. apply not_elem_of_cons in Hk as [? ?].
    rewrite Eo' by done. apply Eo. simpl. by intros ?%list_elem_of_singleton.
  - intros w' [->|Hw']%elem_of_cons.
    + rewrite Eo' by done. apply Ew. constructor.
    + destruct (Ew' w' Hw') as [Hp Hv]. split; intros H'.
      * rewrite Hp; [by apply Es|]. eapply in_place_local; [by apply Es|done].
      * apply Hv. by apply (writable_local st); [|apply Es|].
Qed.

Lemma prewrite_each_wp txn s (writes : list PhysicalWrite) e :
  einv e → ¬ may_fail → NoDup (pw_key <$> writes) →
  wp (prewrite_each txn s writes) e (λ e' r, einv e' ∧
    match r with
    | Ok _ => (∀ w, w ∈ writes → prewritable (estore e) txn s w) ∧
        prewritten_all txn s writes (estore e) (estore e')
    | Err _ => ¬ ∀ w, w ∈ writes → prewritable (estore e) txn s w
    | Panic => False
    end).
Proof.
  intros Hinv Hfail. revert e Hinv. induction writes as [|w writes IH]; intros e Hinv Hnd.
  { apply wp_ret. split; [done|]. split; [by intros k ?%elem_of_nil|].
    split_and!; [done..|]. by intros k ?%elem_of_nil. }
  csimpl in Hnd. apply NoDup_cons in Hnd as [Hn Hnd]. apply wp_bind.
  eapply wp_mono; [by apply prewrite_iff|]. intros e1 [[]|err|] [He1 Hr]; [|split; [done|]|done].
  2: { intros Hk. apply Hr, Hk. constructor. }
  destruct Hr as [Hp Hall].
  assert (∀ w', w' ∈ writes → prewritable (estore e1) txn s w' ↔ prewritable (estore e) txn s w')
    as Hiff.
  { intros w' Hw'. destruct Hall as (Ev&Eo&_).
    assert (st_intents (estore e1) !! pw_key w' = st_intents (estore e) !! pw_key w') as Ei.
    { apply Eo. simpl. intros E%list_elem_of_singleton.
      apply Hn. rewrite <-E. by apply list_elem_of_fmap_2. }
    unfold prewritable. by rewrite in_place_local, writable_local by done. }
  eapply wp_mono; [by apply IH|]. intros e2 [[]|err|] [He2 Hr]; (split; [done|]); [| |done].
  - destruct Hr as [Hk Hall']. split; [|by eapply prewritten_all_cons].
    intros w' [->|Hin]%elem_of_cons; [done|]. by apply Hiff, Hk.
  - intros Hk. apply Hr. intros w' Hin. apply Hiff, Hk; [done|]. by constructor.
Qed.

(** The batch leaves that store when it succeeds. *)
Lemma prewrite_batch_all txn s writes st st' :
  prewrite_batch_post txn s writes st (Ok tt) st' →
  (∀ w, w ∈ writes → prewritable st txn s w) ∧ prewritten_all txn s writes st st'.
Proof.
  intros (_&Hnd&[[Hall ->]|[Hall ->]]).
  - split; [by left; auto|]. split_and!; [done..|].
    intros w Hw. split; [done|]. by intros ?%(in_place_not_writable _ _ _ _ (Hall w Hw)).
  - split; [by right; auto|].
    assert (intent_key <$> (write_intent txn s <$> writes) = pw_key <$> writes) as Ek
      by by rewrite <-list_fmap_compose.
    split_and!; [apply put_intents_versions| |].
    + intros k Hk. apply put_intents_notin. by rewrite Ek.
    + intros w Hw. split; [intros Hq; by destruct (in_place_not_writable _ _ _ _ Hq (Hall w Hw))|].
      intros _. apply (put_intents_in _ _ (write_intent txn s w)); [by rewrite Ek|].
      by apply list_elem_of_fmap_2.
Qed.
Lemma prewritten_all_fun txn s writes st st1 st2 :
  (∀ w, w ∈ writes → prewritable st txn s w) →
  prewritten_all txn s writes st st1 → prewritten_all txn s writes st st2 → st1 = st2.
Proof.
  intros Hp (Ev&Eo&Ew) (Ev'&Eo'&Ew'). apply store_ext; [congruence|]. intros k.
  destruct (decide (k ∈ pw_key <$> writes)) as [(w&->&Hw)%list_elem_of_fmap|Hk].
  - destruct (Ew w Hw) as [H1 H2], (Ew' w Hw) as [H1' H2'].
    destruct (Hp w Hw) as [H'|H']; [by rewrite H1, H1'|by rewrite H2, H2'].
  - by rewrite Eo, Eo'.
Qed.

(** Writes that could each be prewritten alone are refused exactly when some of them
    are in place and others are not. *)
Lemma prewrite_batch_prewritable txn s writes e :
  einv e → ¬ may_fail → writes ≠ [] → NoDup (pw_key <$> writes) →
  (∀ w, w ∈ writes → prewritable (estore e) txn s w) →
  wp (prewrite_batch txn s writes) e (λ e' r,
    r = Ok tt ∧ prewritten_all txn s writes (estore e) (estore e') ∧
      ¬ partly_in_place (estore e) txn s writes ∨
    r = Err BatchPrewriteError.PartialBatchReplay ∧
      partly_in_place (estore e) txn s writes).
Proof.
  intros Hinv Hfail Hne Hnd Hp. eapply wp_mono; [by apply prewrite_batch_wp|].
  assert (∀ w i, w ∈ writes → st_intents (estore e) !! pw_key w = Some i →
    holds (estore e) (pw_key w) txn s i ∧ intent_mutation i = write_mutation (pw_value w)) as Hi.
  { intros w i Hw E. destruct (Hp w Hw) as [(j&Hh&Hm)|[Hn _]]; [|congruence].
    assert (j = i) as <- by (destruct Hh; congruence). done. }
  intros e' [[]|err|] [_ Hr]; [left; split; [done|]|right|done].
  { split; [by apply prewrite_batch_all in Hr as [_ ?]|].
    intros [(w&Hw&Hin) (w'&Hw'&Hwr)]. destruct Hr as (_&_&[[Hall _]|[Hall _]]).
    - by destruct (in_place_not_writable _ _ _ _ (Hall w' Hw') Hwr).
    - by destruct (in_place_not_writable _ _ _ _ Hin (Hall w Hw)). }
  destruct Hr as [_ Herr]. destruct err; try done; exfalso.
  - exact (repeated_not_NoDup _ _ Herr Hnd).
  - destruct Herr as ((w&->&Hw)%list_elem_of_fmap&i&E&?&?).
    destruct (Hi w i Hw E) as ((_&?&_)&_). congruence.
  - destruct Herr as ((w&->&Hw)%list_elem_of_fmap&Hn&t&[[x Hx] _]&?).
    destruct (Hp w Hw) as [(j&(Hj&_)&_)|[_ Hv]]; [congruence|]. specialize (Hv _ _ Hx). lia.
  - destruct Herr as (w&i&Hw&<-&E&_&Hd). destruct (Hi w i Hw E) as ((_&_&?)&?). by destruct Hd.
Qed.

(** A batch that is entirely in place is accepted. *)
Lemma prewrite_batch_replay txn s writes e :
  einv e → ¬ may_fail → writes ≠ [] → NoDup (pw_key <$> writes) →
  (∀ w, w ∈ writes → in_place (estore e) txn s w) →
  wp (prewrite_batch txn s writes) e (λ e' r, r = Ok tt ∧ einv e').
Proof.
  intros Hinv Hfail Hne Hnd Hp.
  assert (∀ w, w ∈ writes → prewritable (estore e) txn s w) as Hp' by (left; auto).
  pose proof (prewrite_batch_prewritable txn s writes e Hinv Hfail Hne Hnd Hp') as Hb.
  pose proof (prewrite_batch_wp txn s writes e Hinv) as Hw. unfold wp in *.
  destruct (prewrite_batch txn s writes e) as [e' r]. destruct Hw as [He' _].
  destruct Hb as [[-> _]|[_ [_ (w&Hin&Hwr)]]]; [done|].
  by destruct (in_place_not_writable _ _ _ _ (Hp w Hin) Hwr).
Qed.

(** ** Aborts *)

Lemma abort_each_wp txn s (keys : list Key) e :
  einv e → ¬ may_fail →
  wp (abort_each txn s keys) e (λ e' r, r = Ok tt ∧ einv e' ∧
    estore e' = store_remove_intents (remove_list txn s keys) (estore e)).
Proof.
  intros Hinv Hfail. revert e Hinv. induction keys as [|key keys IH]; intros e Hinv;
    [by apply wp_ret|].
  apply wp_bind. eapply wp_mono; [by apply abort_wp|].
  intros e1 [[]|err|] [He1 Hr]; [|by destruct Hr|done].
  eapply wp_mono; [by apply IH|]. intros e2 r (->&He2&->). by rewrite Hr.
Qed.

(** ** A batch and the sequence *)

Lemma commit_batch_each txn s c (keys : list Key) e :
  einv e → ¬ may_fail → NoDup keys → keys ≠ [] →
  is_ok (commit_batch txn s c keys e).2 = is_ok (commit_each txn s c keys e).2 ∧
  (is_ok (commit_batch txn s c keys e).2 = true →
   estore (commit_batch txn s c keys e).1 = estore (commit_each txn s c keys e).1).
Proof.
  intros Hinv Hfail Hk Hne. pose proof (commit_each_wp txn s c keys e Hinv Hfail Hk) as He.
  unfold wp in He. destruct (commit_each txn s c keys e) as [e2 [[]|err|]];
    destruct He as [_ He]; [| |done].
  - destruct He as (Hsc&Hc&E).
    pose proof (commit_batch_held txn s c keys e Hinv Hfail Hne Hk (Hsc Hne) Hc) as Hb.
    unfold wp in Hb. destruct (commit_batch txn s c keys e) as [e1 r]. simpl in *.
    destruct Hb as (->&_&->). by rewrite E.
  - pose proof (commit_batch_wp txn s c keys e Hinv) as Hb. unfold wp in Hb.
    destruct (commit_batch txn s c keys e) as [e1 [[]|err'|]]; [|done|by destruct Hb].
    destruct Hb as (_&_&_&Hsc&Hc&_). by destruct He.
Qed.

Lemma prewrite_batch_each txn s (writes : list PhysicalWrite) e :
  einv e → ¬ may_fail → NoDup (pw_key <$> writes) → writes ≠ [] →
  let batch := prewrite_batch txn s writes e in
  let each := prewrite_each txn s writes e in
  let partly := partly_in_place (estore e) txn s writes in
  (is_ok batch.2 = true ↔ is_ok each.2 = true ∧ ¬ partly) ∧
  (is_ok batch.2 = true → estore batch.1 = estore each.1) ∧
  (is_ok each.2 = true → partly → batch.2 = Err BatchPrewriteError.PartialBatchReplay).
Proof.
  intros Hinv Hfail Hw Hne batch each partly.
  pose proof (prewrite_each_wp txn s writes e Hinv Hfail Hw) as He.
  pose proof (prewrite_batch_wp txn s writes e Hinv) as Hb.
  unfold wp in He, Hb. fold each in He. fold batch in Hb. clearbody each. destruct each as [e2 [[]|err|]]; destruct He as [_ He];
    [| |done].
  - destruct He as [Hp Hall].
    pose proof (prewrite_batch_prewritable txn s writes e Hinv Hfail Hne Hw Hp) as Hx.
    unfold wp in Hx. fold batch in Hx. clearbody batch. destruct batch as [e1 r]. simpl in *.
    destruct Hx as [(->&Hx&Hn)|(->&Hy)]; simpl; [|naive_solver].
    split_and!; [naive_solver|by intros _; eapply prewritten_all_fun|by intros _ ?%Hn].
  - clearbody batch. destruct batch as [e1 [[]|err'|]]; simpl; [|naive_solver|by destruct Hb].
    destruct Hb as [_ [Hb _]%prewrite_batch_all]. by destruct He.
Qed.

Lemma abort_batch_each txn s (keys : list Key) e :
  einv e → ¬ may_fail → NoDup keys →
  (abort_batch txn s keys e).2 = Ok tt ∧ (abort_each txn s keys e).2 = Ok tt ∧
  estore (abort_batch txn s keys e).1 = estore (abort_each txn s keys e).1.
Proof.
  intros Hinv Hfail Hk. pose proof (abort_each_wp txn s keys e Hinv Hfail) as He.
  pose proof (abort_batch_wp txn s keys e Hinv) as Hb. unfold wp in *.
  destruct (abort_each txn s keys e) as [e2 r2]. destruct He as (->&_&E). simpl in *.
  destruct (abort_batch txn s keys e) as [e1 [[]|err|]]; destruct Hb as [_ Hb]; [|exfalso|done].
  - destruct Hb as [_ Hb]. by rewrite E, Hb.
  - destruct Hb as [_ Herr]. destruct err; try done. exact (repeated_not_NoDup _ _ Herr Hk).
Qed.

(** ** The first key that fails *)

(** A failing batch reports what the batch of its first failing key alone reports. *)
Definition first_failure {A E} (l : list A) (alone : A → res E unit) (err : E) : Prop :=
  ∃ l1 x l2, l = l1 ++ x :: l2 ∧ (∀ y, y ∈ l1 → alone y = Ok tt) ∧ alone x = Err err.

Lemma first_failure_head {A E} (l : list A) (alone : A → res E unit) err :
  l ≠ [] → (∀ x, alone x = Err err) → first_failure l alone err.
Proof.
  destruct l as [|x l]; [done|]. intros _ Hx. exists [], x, l.
  split_and!; [done|by intros y ?%elem_of_nil|done].
Qed.
Lemma reject_duplicates_one {E A} (err : Key → E) k (m : M (MvccEngine B) E A) e :
  (reject_duplicates err [k];! m) e = m e.
Proof.
  unfold reject_duplicates. simpl. rewrite decide_False by apply not_elem_of_empty. done.
Qed.

Lemma repeated_singleton (k k' : Key) : ¬ repeated [k] k'.
Proof. intros Hr. by apply (repeated_not_NoDup _ _ Hr), NoDup_singleton. Qed.

(** Direct batches. *)
Lemma direct_batch_one c w e err :
  (write_check c w e).2 = Err err → (apply_direct_batch c [w] e).2 = Err err.
Proof.
  intros E. unfold apply_direct_batch. rewrite decide_False by done. simpl.
  rewrite reject_duplicates_one. simpl. unfold M_bind.
  destruct (write_check c w e) as [e' r]. simpl in E. by subst r.
Qed.
Lemma direct_batch_first c writes e :
  einv e → ¬ may_fail →
  wp (apply_direct_batch c writes) e (λ e' r, ∀ err, r = Err err →
    match err with
    | BatchError.EmptyBatch => writes = []
    | BatchError.DuplicateKeyInBatch k => repeated (pw_key <$> writes) k
    | _ => first_failure writes (λ w, (apply_direct_batch c [w] e).2) err
    end).
Proof.
  intros Hinv Hfail. unfold apply_direct_batch at 1.
  case_decide as Hne; [apply wp_throw; by intros err [= <-]|].
  apply reject_duplicates_wp; [|by intros k Hk err [= <-]]. intros Hnd. apply wp_bind.
  eapply wp_mono; [apply (wp_for_check _ writes e (λ w, free (estore e) c (pw_key w))
    (λ err w, batch_error (estore e) c [] [w] err ∧ (write_check c w e).2 = Err err))|].
  { intros w Hw. eapply wp_mono.
    - by apply wp_with_result, (write_check_wp c [] [w] w e Hinv), list_elem_of_singleton.
    - intros e' [[]|err|] [[-> Hr] E]; [done| |done]. by destruct Hr as [_ Hr]. }
  intros e' [[]|err|] [-> Hr]; [| |done].
  { eapply wp_wr; [by apply law_put_committed_batch|by intros|by intros]. }
  destruct Hr as (l1&w&l2&->&Hl1&Hd&Hw). intros ? [= <-].
  assert (first_failure (l1 ++ w :: l2) (λ w, (apply_direct_batch c [w] e).2) err) as Hf.
  { exists l1, w, l2. split; [done|]. split; [|by apply direct_batch_one].
    intros y Hy. eapply wp_result, direct_batch_free; [done|done|done|apply NoDup_singleton|].
    intros ? ->%list_elem_of_singleton. by apply Hl1. }
  destruct err; try done. by apply repeated_singleton in Hd.
Qed.

(** A guard fails its check exactly when it does not hold. *)
Lemma guard_check_iff c g e :
  einv e → ¬ may_fail →
  wp (guard_check c g) e (λ e' r, e' = e ∧
    match r with
    | Ok _ => guard_holds (estore e) c g
    | Err _ => ¬ guard_holds (estore e) c g
    | Panic => False
    end).
Proof.
  intros Hinv Hfail. set (own := [mkWrite (guard_key g) None]).
  eapply wp_mono; [by apply (guard_check_wp c [g] own g e Hinv), list_elem_of_singleton|].
  intros e' [[]|err|] [-> Hr]; (split; [done|]); [done| |done]. intros Hg.
  assert (∀ g', g' ∈ [g] → guard_holds (estore e) c g') as Hall
    by by intros g' ->%list_elem_of_singleton.
  pose proof (guard_holds_no_error (estore e) c [g] own err Hall) as Hno.
  destruct Hg as (Hlt&Hn&Hv&_). destruct err; simpl in Hr; try done.
  - destruct Hr as (_&?&g'&->%list_elem_of_singleton&<-). lia.
  - destruct Hr as (->%list_elem_of_singleton&_&[[x Hx] _]&?). specialize (Hv _ _ Hx). lia.
  - by apply repeated_singleton in Hr.
  - destruct Hr as ([ ->%list_elem_of_singleton| ->%list_elem_of_singleton]&i&Hi&_); congruence.
Qed.
(** A guarded batch is the direct batch when its guards hold; otherwise it reports
    the first guard that fails, before any conflict of its writes. *)
Lemma guarded_batch_first c guards writes e :
  einv e → ¬ may_fail → guards ≠ [] → writes ≠ [] → NoDup (pw_key <$> writes) →
  (∀ g, g ∈ guards → guard_holds (estore e) c g) ∧
    apply_guarded_batch c guards writes e = apply_direct_batch c writes e ∨
  ∃ l1 g l2 err, guards = l1 ++ g :: l2 ∧ (∀ g', g' ∈ l1 → guard_holds (estore e) c g') ∧
    ¬ guard_holds (estore e) c g ∧
    apply_guarded_batch c guards writes e = (e, Err err).
Proof.
  intros Hinv Hfail Hge Hne Hnd. unfold apply_guarded_batch, apply_direct_batch.
  rewrite !decide_False by done.
  assert (∀ A (m : M (MvccEngine B) BatchError A),
    (reject_duplicates BatchError.DuplicateKeyInBatch (pw_key <$> writes);! m) e = m e) as Hrej.
  { intros A m. unfold reject_duplicates. pose proof (first_duplicate_spec ∅ (pw_key <$> writes)).
    destruct (first_duplicate ∅ _) as [k|]; [|done]. exfalso.
    destruct H0 as (l1&l2&E&[Hk|Hk]); [set_solver|]. rewrite E in Hnd.
    apply NoDup_app in Hnd as (_&Hd&_). apply (Hd k Hk). constructor. }
  rewrite !Hrej.
  assert (wp (M_for (guard_check c) guards) e (λ e' r, e' = e ∧ match r with
    | Ok _ => ∀ g, g ∈ guards → guard_holds (estore e) c g
    | Err err => ∃ l1 g l2, guards = l1 ++ g :: l2 ∧
        (∀ g', g' ∈ l1 → guard_holds (estore e) c g') ∧ ¬ guard_holds (estore e) c g
    | Panic => False end)) as Hw.
  { apply (wp_for_check _ _ _ _ (λ _ g, ¬ guard_holds (estore e) c g)).
    intros g _. by apply guard_check_iff. }
  unfold M_bind, wp in *.
  destruct (M_for (guard_check c) guards e) as [e' [[]|err|]]; simpl in Hw; destruct Hw as [-> Hg];
    [by left|right|done].
  destruct Hg as (l1&g&l2&E&Hl1&Hg). exists l1, g, l2, err. by split_and!.
Qed.

(** Intent batches.  The outcome of a key's check does not depend on what was
    accumulated before it. *)
Lemma commit_check_acc txn s c acc acc' k e err :
  (commit_check txn s c acc k e).2 = Err err → (commit_check txn s c acc' k e).2 = Err err.
Proof.
  unfold commit_check, rd, ok_or, M_bind, M_lift. intros E.
  repeat (case_match; simplify_eq/=; try done).
Qed.
Lemma commit_batch_one txn s c k e err :
  ts_leb c s = false → (commit_check txn s c ([], []) k e).2 = Err err →
  (commit_batch txn s c [k] e).2 = Err err.
Proof.
  intros Hcs E. unfold commit_batch. rewrite decide_False by done.
  rewrite reject_duplicates_one, Hcs. simpl. unfold M_bind at 1 2.
  destruct (commit_check txn s c ([], []) k e) as [e' r]. simpl in E. by subst r.
Qed.
Lemma commit_batch_invalid txn s c k e :
  ts_leb c s = true →
  (commit_batch txn s c [k] e).2 = Err (BatchCommitError.InvalidCommitTimestamp s c).
Proof.
  intros Hcs. unfold commit_batch. rewrite decide_False by done.
  by rewrite reject_duplicates_one, Hcs.
Qed.
Lemma commit_batch_first txn s c (keys : list Key) e :
  einv e → ¬ may_fail →
  wp (commit_batch txn s c keys) e (λ e' r, ∀ err, r = Err err →
    match err with
    | BatchCommitError.EmptyBatch => keys = []
    | BatchCommitError.DuplicateKeyInBatch k => repeated keys k
    | _ => first_failure keys (λ k, (commit_batch txn s c [k] e).2) err
    end).
Proof.
  intros Hinv Hfail. unfold commit_batch at 1.
  case_decide as Hne; [apply wp_throw; by intros err [= <-]|].
  apply reject_duplicates_wp; [|by intros k Hk err [= <-]]. intros Hnd.
  destruct (ts_leb c s) eqn:Hcs.
  { apply wp_throw. intros err [= <-]. apply first_failure_head; [done|].
    intros k. by apply commit_batch_invalid. }
  apply wp_bind.
  change (M_fold (commit_check txn s c) keys ([], [])) with (M_fold (commit_check txn s c) keys
    (commit_version (estore e) c <$> [], remove_list txn s [])).
  eapply wp_mono; [apply (wp_fold_check (commit_check txn s c) keys e
      (λ seen, (commit_version (estore e) c <$> seen, remove_list txn s seen))
      (committable (estore e) txn s c)
      (λ err k, commit_batch_post txn s c [k] (estore e) (Err err) (estore e) ∧
         (commit_check txn s c ([], []) k e).2 = Err err) [])|].
  { intros seen k Hk. eapply wp_mono.
    - by apply wp_with_result, (commit_check_wp txn s c [k] k seen e Hinv), list_elem_of_singleton.
    - intros e' [acc|err|] [[-> Hr] E]; [done| |done]. split_and!; [done..|].
      by eapply commit_check_acc. }
  intros e' [acc|err|] [-> Hr]; [| |done].
  { destruct acc. eapply wp_wr; [by apply law_commit_intents_batch|by intros|by intros]. }
  destruct Hr as (l1&k&l2&->&Hl1&[_ Hd]&Hk). intros ? [= <-].
  assert (first_failure (l1 ++ k :: l2) (λ k, (commit_batch txn s c [k] e).2) err) as Hf.
  { exists l1, k, l2. split; [done|]. split; [|by apply commit_batch_one].
    intros y Hy. eapply wp_result, commit_batch_held; [done..|apply NoDup_singleton|ts_lia|].
    intros ? ->%list_elem_of_singleton. by apply Hl1. }
  destruct err; try done. by apply repeated_singleton in Hd.
Qed.

Lemma prewrite_check_count txn s n n' w e err :
  (prewrite_check txn s n w e).2 = Err err → (prewrite_check txn s n' w e).2 = Err err.
Proof.
  unfold prewrite_check, rd, M_bind. intros E. repeat (case_match; simplify_eq/=; try done).
Qed.
Lemma prewrite_batch_one txn s w e err :
  (prewrite_check txn s 0 w e).2 = Err err → (prewrite_batch txn s [w] e).2 = Err err.
Proof.
  intros E. unfold prewrite_batch. rewrite decide_False by done. simpl.
  rewrite reject_duplicates_one. unfold M_bind.
  destruct (prewrite_check txn s 0 w e) as [e' r]. simpl in E. by subst r.
Qed.
Lemma prewrite_batch_first txn s writes e :
  einv e → ¬ may_fail →
  wp (prewrite_batch txn s writes) e (λ e' r, ∀ err, r = Err err →
    match err with
    | BatchPrewriteError.EmptyBatch => writes = []
    | BatchPrewriteError.DuplicateKeyInBatch k => repeated (pw_key <$> writes) k
    | BatchPrewriteError.PartialBatchReplay =>
        ∀ w, w ∈ writes → (prewrite_batch txn s [w] e).2 = Ok tt
    | _ => first_failure writes (λ w, (prewrite_batch txn s [w] e).2) err
    end).
Proof.
  intros Hinv Hfail. unfold prewrite_batch at 1.
  case_decide as Hne; [apply wp_throw; by intros err [= <-]|].
  apply reject_duplicates_wp; [|by intros k Hk err [= <-]]. intros Hnd. apply wp_bind.
  assert (∀ w, prewritable (estore e) txn s w → (prewrite_batch txn s [w] e).2 = Ok tt) as Hone.
  { intros w [Hp|Hp].
    - eapply wp_result, prewrite_batch_replay; [done..|apply NoDup_singleton|].
      by intros ? ->%list_elem_of_singleton.
    - eapply wp_result, prewrite_batch_free; [done..|apply NoDup_singleton|].
      by intros ? ->%list_elem_of_singleton. }
  eapply wp_mono; [apply (wp_fold_check _ writes e (locked_count (estore e))
      (prewritable (estore e) txn s)
      (λ err w, prewrite_batch_post txn s [w] (estore e) (Err err) (estore e) ∧
         (prewrite_check txn s 0 w e).2 = Err err) [])|].
  { intros seen w Hw. eapply wp_mono.
    - by apply wp_with_result, (prewrite_check_wp txn s [w] w seen e Hinv), list_elem_of_singleton.
    - intros e' [n|err|] [[-> Hr] E]; [done| |done]. split_and!; [done..|].
      by eapply prewrite_check_count. }
  intros e' [n|err|] [-> Hr]; [| |done].
  - destruct Hr as [_ Hall]. case_match; [by apply wp_ret|].
    case_match; [apply wp_throw; intros err [= <-]; auto|].
    eapply wp_wr; [by apply law_put_intents_batch|by intros|by intros].
  - destruct Hr as (l1&w&l2&->&Hl1&[_ Hd]&Hw). intros ? [= <-].
    assert (first_failure (l1 ++ w :: l2) (λ w, (prewrite_batch txn s [w] e).2) err) as Hf.
    { exists l1, w, l2. split_and!; [done| |by apply prewrite_batch_one].
      intros y Hy. by apply Hone, Hl1. }
    destruct err; try done; [by apply repeated_singleton in Hd|].
    destruct Hd as [(?&->%list_elem_of_singleton&Hp) (?&->%list_elem_of_singleton&Hwr)].
    by destruct (in_place_not_writable _ _ _ _ Hp Hwr).
Qed.
End batch.
