(* ===== verification/Gc.v ===== *)
(** * Gc: incremental and full garbage collection of [engine.rs]

    [gc_incremental] with its per-key body split out of the loop, on machine-width
    counters, and the unbounded driver [gc] with fuel for its loop. *)
From S2P Require Export Engine.

Record GcStats := mkGcStats {
  gs_versions_removed : N;
  gs_intents_preserved : N;
}.
Record GcBudget := mkGcBudget {
  max_keys : N;
  max_versions : N;
}.
Record GcOptions := mkGcOptions {
  budget : GcBudget;
  collapse_final_tombstones : bool;
}.
Record IncrementalGcCursor := mkCursor { next_key : option Key }.
Record IncrementalGcResult := mkGcResult {
  gr_cursor : IncrementalGcCursor;
  gr_done : bool;
  gr_keys_scanned : N;
  gr_versions_scanned : N;
  gr_versions_removed : N;
  gr_intents_preserved : N;
}.

(** The local variables of [gc_incremental] that its key loop updates. *)
Record GcScan := mkScan {
  keys_scanned : N;
  versions_scanned : N;
  versions_removed : N;
  intents_preserved : N;
  next_cursor_key : option Key;
  exhausted_versions : bool;
}.
(** How an iteration of the loop ends. *)
Inductive Flow := Continue | Break.

#[export] Instance IncrementalGcCursor_eq_dec : EqDecision IncrementalGcCursor.
Proof. solve_decision. Defined.
#[export] Instance IncrementalGcResult_eq_dec : EqDecision IncrementalGcResult.
Proof. solve_decision. Defined.

Section gc.
  Context {B : Type} `{Backend B} `{HP : Platform}.
  Abbreviation GcM := (M (MvccEngine B) GcError).

Definition add (a b : N) : GcM N := M_lift (usize_add a b).
Definition sub (a b : N) : GcM N := M_lift (usize_sub a b).

(** [next_cursor_key = Some(key.clone()); exhausted_versions = true; break]. *)
Definition stop_at (key : Key) (scan : GcScan) : GcScan * Flow :=
  (mkScan (keys_scanned scan) (versions_scanned scan) (versions_removed scan)
     (intents_preserved scan) (Some key) true, Break).

(** The condition of the tombstone cases, evaluated in both of them. *)
Definition is_final_tombstone (options : GcOptions) (key : Key)
    (keeper_ver : CommittedVersion) (has_intent : bool) : GcM bool :=
  if collapse_final_tombstones options && bool_decide (cv_value keeper_ver = None)
     && negb has_intent
  then
    let! latest := rd (λ b, get_latest_commit_ts b key) GcError.Backend in
    M_ret (bool_decide (latest = Some (cv_commit_ts keeper_ver)))
  else M_ret false.

(** [for ts in versions { self.backend.remove_committed_version(key, ts)?;
    versions_removed += 1; }]. *)
Definition remove_loop (key : Key) (versions : list Timestamp) (removed : N) : GcM N :=
  M_fold (λ removed ts,
    wr (remove_committed_version key ts) GcError.Backend;!
    add removed 1) versions removed.

Definition set_versions (scan : GcScan) (scanned removed : N) : GcScan :=
  mkScan (keys_scanned scan) scanned removed (intents_preserved scan)
    (next_cursor_key scan) (exhausted_versions scan).

(** The final-tombstone case. *)
Definition gc_tombstone (key : Key) (keeper_ver : CommittedVersion) (limit : N)
    (scan : GcScan) : GcM (GcScan * Flow) :=
  let! limit1 := add limit 1 in
  let! older_versions := rd (λ b, get_committed_timestamps_before b key
    (cv_commit_ts keeper_ver) limit1) GcError.Backend in
  let! scanned := add (versions_scanned scan) (len older_versions) in
  if (limit <? len older_versions)%N then
    let older_versions := vec_pop older_versions in
    let! scanned := sub scanned 1 in
    let! removed := remove_loop key older_versions (versions_removed scan) in
    M_ret (stop_at key (set_versions scan scanned removed))
  else
    let older_len := len older_versions in
    if (older_len <? limit)%N then
      wr (collapse_tombstone key (cv_commit_ts keeper_ver) older_versions) GcError.Backend;!
      let! freed := add older_len 1 in
      let! removed := add (versions_removed scan) freed in
      M_ret (set_versions scan scanned removed, Continue)
    else
      let! removed := remove_loop key older_versions (versions_removed scan) in
      M_ret (stop_at key (set_versions scan scanned removed)).

(** The normal case. *)
Definition gc_obsolete (key : Key) (keeper_ver : CommittedVersion) (limit : N)
    (scan : GcScan) : GcM (GcScan * Flow) :=
  let! limit1 := add limit 1 in
  let! to_remove := rd (λ b, get_committed_timestamps_before b key
    (cv_commit_ts keeper_ver) limit1) GcError.Backend in
  let! scanned := add (versions_scanned scan) (len to_remove) in
  let has_more := (limit <? len to_remove)%N in
  let! (to_remove, scanned) :=
    (if has_more then
       let! scanned := sub scanned 1 in M_ret (vec_pop to_remove, scanned)
     else M_ret (to_remove, scanned)) in
  let! removed := remove_loop key to_remove (versions_removed scan) in
  let scan := set_versions scan scanned removed in
  M_ret (if has_more then stop_at key scan else (scan, Continue)).

(** The case of an exhausted version budget. *)
Definition gc_no_budget (options : GcOptions) (key : Key) (keeper_ver : CommittedVersion)
    (has_intent : bool) (scan : GcScan) : GcM (GcScan * Flow) :=
  let! check_more := rd (λ b, get_committed_timestamps_before b key
    (cv_commit_ts keeper_ver) 1) GcError.Backend in
  if decide (check_more ≠ []) then M_ret (stop_at key scan) else
  let! final := is_final_tombstone options key keeper_ver has_intent in
  if final : bool then M_ret (stop_at key scan) else M_ret (scan, Continue).

(** The body of the loop over the keys. *)
Definition gc_key (safe_point_ts : Timestamp) (options : GcOptions) (key : Key)
    (scan : GcScan) : GcM (GcScan * Flow) :=
  let! kscanned := add (keys_scanned scan) 1 in
  let! found := rd (λ b, get_intent b key) GcError.Backend in
  let has_intent := bool_decide (is_Some found) in
  let! preserved :=
    (if has_intent then add (intents_preserved scan) 1 else M_ret (intents_preserved scan)) in
  let scan := mkScan kscanned (versions_scanned scan) (versions_removed scan) preserved
    (next_cursor_key scan) (exhausted_versions scan) in
  let! keeper := rd (λ b, get_visible_committed b key safe_point_ts) GcError.Backend in
  match keeper with
  | None => M_ret (scan, Continue)
  | Some keeper_ver =>
      let! scanned := add (versions_scanned scan) 1 in
      let scan := set_versions scan scanned (versions_removed scan) in
      let! limit := sub (max_versions (budget options)) (versions_removed scan) in
      if (limit =? 0)%N then gc_no_budget options key keeper_ver has_intent scan else
      let! final := is_final_tombstone options key keeper_ver has_intent in
      if final : bool then gc_tombstone key keeper_ver limit scan
      else gc_obsolete key keeper_ver limit scan
  end.

(** The loop over the keys, left by [break]. *)
Fixpoint gc_keys (safe_point_ts : Timestamp) (options : GcOptions) (keys : list Key)
    (scan : GcScan) : GcM GcScan :=
  match keys with
  | [] => M_ret scan
  | key :: keys =>
      let! (scan, flow) := gc_key safe_point_ts options key scan in
      match flow with
      | Continue => gc_keys safe_point_ts options keys scan
      | Break => M_ret scan
      end
  end.

Definition gc_incremental (safe_point_ts : Timestamp) (cursor : option IncrementalGcCursor)
    (options : GcOptions) : GcM IncrementalGcResult :=
  if (max_keys (budget options) =? 0)%N || (max_versions (budget options) =? 0)%N
  then M_throw GcError.InvalidGcBudget else
  let start_key := cursor ≫= next_key in
  let! limit := add (max_keys (budget options)) 1 in
  let! keys := rd (λ b, keys_from b start_key limit) GcError.Backend in
  let num_keys_to_process := N.min (len keys) (max_keys (budget options)) in
  let! scan := gc_keys safe_point_ts options (take_usize num_keys_to_process keys)
    (mkScan 0 0 0 0 None false) in
  let! (next, fin) :=
    (if negb (exhausted_versions scan) then
       if (max_keys (budget options) <? len keys)%N then
         let! key := M_lift (match keys !! N.to_nat (max_keys (budget options)) with
                             | Some key => Ok key | None => Panic end) in
         M_ret (Some key, false)
       else M_ret (next_cursor_key scan, true)
     else M_ret (next_cursor_key scan, false)) in
  M_ret (mkGcResult (mkCursor next) fin (keys_scanned scan) (versions_scanned scan)
    (versions_removed scan) (intents_preserved scan)).

(** The loop of [gc]; [None] when the fuel runs out before the loop ends. *)
Fixpoint gc_loop (fuel : nat) (safe_point_ts : Timestamp) (options : GcOptions)
    (cursor : option IncrementalGcCursor) (total_versions_removed : N) : GcM (option N) :=
  match fuel with
  | O => M_ret None
  | S fuel =>
      let! res := gc_incremental safe_point_ts cursor options in
      let! total := add total_versions_removed (gr_versions_removed res) in
      if gr_done res then M_ret (Some total)
      else gc_loop fuel safe_point_ts options (Some (gr_cursor res)) total
  end.
(** The loop of [gc] that counts the intents. *)
Definition count_intent (total : N) (key : Key) : GcM N :=
  let! found := rd (λ b, get_intent b key) GcError.Backend in
  if bool_decide (is_Some found) then add total 1 else M_ret total.
Definition count_intents (keys : list Key) : GcM N := M_fold count_intent keys 0%N.
Definition gc (fuel : nat) (safe_point_ts : Timestamp) (options : GcOptions) :
    GcM (option GcStats) :=
  let! total := gc_loop fuel safe_point_ts options None 0 in
  match total with
  | None => M_ret None
  | Some total_versions_removed =>
      let! keys := rd all_keys GcError.Backend in
      let! total_intents_preserved := count_intents keys in
      M_ret (Some (mkGcStats total_versions_removed total_intents_preserved))
  end.
End gc.
