(* ===== verification/GcSpec.v ===== *)
(** * GcSpec: what garbage collection promises

    An abstract collection step on stores, what any sequence of such steps
    preserves, and the incremental and full collectors as such sequences with
    exact counters, bounded work, progress and completeness. *)
From S2P Require Export EngineSpec Gc.

(** ** Collection steps *)

(** One permitted removal at a safe point: a version below the keeper of its key,
    or (when the caller opted in) a final tombstone with everything below it. *)
Inductive gc_step (sp : Timestamp) (collapse : bool) (st : Store) : Store → Prop :=
| gc_prune key keeper t :
    is_visible st key sp (Some keeper) →
    (t < cv_commit_ts keeper)%ts →
    gc_step sp collapse st (store_remove_version key t st)
| gc_collapse key keeper older :
    collapse = true →
    is_visible st key sp (Some keeper) →
    final_tombstone st keeper →
    (∀ t, t ∈ older ↔ is_Some (st_versions st !! (key, t)) ∧ (t < cv_commit_ts keeper)%ts) →
    gc_step sp collapse st (store_remove_versions key (cv_commit_ts keeper :: older) st).
Definition gc_steps (sp : Timestamp) (collapse : bool) : Store → Store → Prop :=
  rtc (gc_step sp collapse).

(** The version to remove is already below the keeper of its key. *)
Definition gc_clean (sp : Timestamp) (collapse : bool) (st : Store) (key : Key) : Prop :=
  ∀ keeper, is_visible st key sp (Some keeper) →
    (∀ t x, st_versions st !! (key, t) = Some x → (cv_commit_ts keeper ≤ t)%ts) ∧
    ¬ (collapse = true ∧ final_tombstone st keeper).

(** Two stores that agree on [key]. *)
Definition same_key (st st' : Store) (key : Key) : Prop :=
  (∀ t, st_versions st' !! (key, t) = st_versions st !! (key, t)) ∧
  st_intents st' !! key = st_intents st !! key.

Lemma same_key_refl st key : same_key st st key.
Proof. done. Qed.
Lemma same_key_trans st1 st2 st3 key :
  same_key st1 st2 key → same_key st2 st3 key → same_key st1 st3 key.
Proof. intros [Hv Hi] [Hv' Hi']. split; [intros t; by rewrite Hv'|by rewrite Hi']. Qed.
Lemma remove_versions_same st key ts k :
  k ≠ key → same_key st (store_remove_versions key ts st) k.
Proof.
  intros Hk. split; [|by rewrite remove_versions_intents]. intros t.
  rewrite lookup_remove_versions. by rewrite decide_False by naive_solver.
Qed.
#[export] Hint Resolve same_key_refl remove_versions_same : core.

Section steps.
Context (sp : Timestamp) (collapse : bool).
Implicit Types (st : Store) (key : Key) (rt t : Timestamp).

Lemma same_key_visible st st' key rt o :
  same_key st st' key → is_visible st' key rt o ↔ is_visible st key rt o.
Proof.
  intros [Hv _]. unfold is_visible. destruct o; repeat setoid_rewrite Hv; done.
Qed.
Lemma same_key_latest st st' key o :
  same_key st st' key → is_latest_ts st' key o ↔ is_latest_ts st key o.
Proof.
  intros [Hv _]. unfold is_latest_ts. destruct o; repeat setoid_rewrite Hv; done.
Qed.
Lemma same_key_clean st st' key :
  same_key st st' key → gc_clean sp collapse st key → gc_clean sp collapse st' key.
Proof.
  intros Hs Hc keeper Hk. rewrite (same_key_visible st st') in Hk by done.
  destruct (Hc _ Hk) as [Hold Hfin]. pose proof Hs as [Hv Hi]. split.
  - intros t x. rewrite Hv. apply Hold.
  - unfold final_tombstone in *. assert (cv_key keeper = key) as Ek by apply Hk.
    rewrite Ek in *. rewrite Hi, (same_key_latest st st') by done. done.
Qed.

Lemma remove_version_as st key t :
  store_remove_version key t st = store_remove_versions key [t] st.
Proof. done. Qed.
(** Removing versions below the keeper leaves every read at or after the safe
    point unchanged. *)
Lemma remove_older_visible st key keeper ts key' rt o :
  is_visible st key sp (Some keeper) → (sp ≤ rt)%ts →
  (∀ t, t ∈ ts → (t < cv_commit_ts keeper)%ts) →
  is_visible st key' rt o → is_visible (store_remove_versions key ts st) key' rt o.
Proof.
  intros (Ek&Hle&Hkv&Hmax) Hrt Hts. unfold is_visible. destruct o as [v|].
  - intros (<-&Hv&Hin&Hm). split_and!; [done..| |].
    + rewrite lookup_remove_versions. rewrite decide_False; [done|].
      intros [E Ht]. rewrite E in *.
      pose proof (Hm _ _ Hkv ltac:(lia)). specialize (Hts _ Ht). lia.
    + intros t x. rewrite lookup_remove_versions. case_decide; [done|]. apply Hm.
  - intros Hn t x. rewrite lookup_remove_versions. case_decide; [done|]. apply Hn.
Qed.
Lemma collapse_sees st key keeper older key' rt o :
  is_visible st key sp (Some keeper) → (sp ≤ rt)%ts → final_tombstone st keeper →
  (∀ t, t ∈ older ↔ is_Some (st_versions st !! (key, t)) ∧ (t < cv_commit_ts keeper)%ts) →
  sees st key' rt o →
  sees (store_remove_versions key (cv_commit_ts keeper :: older) st) key' rt o.
Proof.
  intros (Ek&Hle&Hkv&Hmax) Hrt (Hnone&_&Hlat) Hold (v&Hv&->). rewrite Ek in *.
  destruct (decide (key' = key)) as [->|Hne].
  - (* the tombstone was the answer; now there is none *)
    assert (v = Some keeper) as ->.
    { apply (is_visible_fun st key rt); [done|]. split_and!; [done|lia|done|].
      intros t x Hx _. by apply (proj2 Hlat t x). }
    exists None. split; [|simpl; by rewrite Hnone]. intros t x.
    rewrite lookup_remove_versions. case_decide as Hd; [done|]. intros Hx. exfalso.
    apply Hd. split; [done|]. apply elem_of_cons.
    destruct (decide (t = cv_commit_ts keeper)) as [?|Ht]; [by left|right].
    apply Hold. split; [by rewrite Hx|]. destruct Hlat as [_ Hl].
    specialize (Hl _ _ Hx). ts_lia.
  - exists v. split; [|done]. apply (same_key_visible st); [|done].
    split; [|by rewrite remove_versions_intents]. intros t.
    rewrite lookup_remove_versions. by rewrite decide_False by naive_solver.
Qed.

Lemma gc_step_sees st st' key rt o :
  gc_step sp collapse st st' → (sp ≤ rt)%ts → sees st key rt o → sees st' key rt o.
Proof.
  intros [k keeper t Hk Ht|k keeper older _ Hk Hf Hold] Hrt Hs.
  - destruct Hs as (v&Hv&->). exists v. split; [|done].
    rewrite remove_version_as. eapply remove_older_visible; [done..| |done].
    by intros ? ->%list_elem_of_singleton.
  - by eapply collapse_sees.
Qed.
(** Reads at or after the safe point. *)
Lemma gc_steps_sees st st' key rt o :
  gc_steps sp collapse st st' → (sp ≤ rt)%ts → sees st key rt o → sees st' key rt o.
Proof. intros Hst Hrt. induction Hst; eauto using gc_step_sees. Qed.
(** Without the opt-in the visible version itself is preserved. *)
Lemma gc_steps_visible st st' key rt o :
  gc_steps sp false st st' → (sp ≤ rt)%ts → is_visible st key rt o → is_visible st' key rt o.
Proof.
  intros Hst Hrt. induction Hst as [|st1 st2 st3 Hs _ IH]; [done|].
  intros Hv. apply IH. destruct Hs as [k keeper t Hk Ht|? ? ? [=]].
  rewrite remove_version_as. eapply remove_older_visible; [done..| |done].
  by intros ? ->%list_elem_of_singleton.
Qed.
Lemma gc_steps_intents st st' :
  gc_steps sp collapse st st' → st_intents st' = st_intents st.
Proof.
  induction 1 as [|st1 st2 st3 Hs _ IH]; [done|]. rewrite IH.
  destruct Hs; [done|]. apply remove_versions_intents.
Qed.
(** Nothing above the safe point is touched, and no version is made up. *)
Lemma gc_steps_recent st st' key t :
  gc_steps sp collapse st st' → (sp < t)%ts →
  st_versions st' !! (key, t) = st_versions st !! (key, t).
Proof.
  intros Hst Ht. induction Hst as [|st1 st2 st3 Hs _ IH]; [done|]. rewrite IH.
  destruct Hs as [k keeper u (_&?&_) ?|k keeper older _ (_&?&_) _ Hold].
  - rewrite remove_version_as, lookup_remove_versions, decide_False; [done|].
    intros [_ ->%list_elem_of_singleton]. lia.
  - rewrite lookup_remove_versions, decide_False; [done|].
    intros [_ [->|Hu%Hold]%elem_of_cons]; lia.
Qed.
Lemma gc_steps_subset st st' :
  gc_steps sp collapse st st' → st_versions st' ⊆ st_versions st.
Proof.
  induction 1 as [|st1 st2 st3 Hs _ IH]; [done|]. etrans; [apply IH|].
  apply map_subseteq_spec. intros [k t] x.
  destruct Hs; rewrite ?remove_version_as, lookup_remove_versions; by case_decide.
Qed.

Lemma clean_intro st key keeper :
  is_visible st key sp (Some keeper) →
  (∀ t x, st_versions st !! (key, t) = Some x → (cv_commit_ts keeper ≤ t)%ts) →
  ¬ (collapse = true ∧ final_tombstone st keeper) → gc_clean sp collapse st key.
Proof.
  intros Hk Hold Hfin keeper' Hk'. pose proof (is_visible_fun _ _ _ _ _ Hk Hk') as [= <-].
  done.
Qed.
Lemma clean_no_keeper st key : is_visible st key sp None → gc_clean sp collapse st key.
Proof. intros Hn keeper Hk. by pose proof (is_visible_fun _ _ _ _ _ Hn Hk). Qed.

(** A key whose versions below the keeper have all been removed is clean. *)
Lemma pruned_clean st key keeper l :
  is_visible st key sp (Some keeper) →
  (∀ t, t ∈ l ↔ is_Some (st_versions st !! (key, t)) ∧ (t < cv_commit_ts keeper)%ts) →
  ¬ (collapse = true ∧ final_tombstone st keeper) →
  gc_clean sp collapse (store_remove_versions key l st) key.
Proof.
  intros Hk Hl Hfin. pose proof Hk as (Ek&_&Hkv&_).
  apply clean_intro with (keeper := keeper).
  - eapply remove_older_visible; [exact Hk|lia| |exact Hk]. intros t Ht. by apply Hl.
  - intros t x. rewrite lookup_remove_versions. case_decide as Hd; [done|]. intros Hx.
    destruct (decide (ts_val t < ts_val (cv_commit_ts keeper))%N) as [Hlt|]; [|lia].
    destruct Hd. split; [done|]. apply Hl. by rewrite Hx.
  - intros [Hc (Hnone&Hi&Hlat)]. apply Hfin. split; [done|]. split_and!; [done| |].
    { by rewrite remove_versions_intents in Hi. }
    rewrite Ek in *. split; [by rewrite Hkv|]. intros t x Hx.
    destruct (decide (t ∈ l)) as [Ht|Ht]; [apply Hl in Ht as [_ Ht]; lia|].
    apply (proj2 Hlat t x). rewrite lookup_remove_versions.
    rewrite decide_False; [done|]. by intros [_ ?].
Qed.
(** A key whose versions have all been removed is clean. *)
Lemma collapsed_clean st key keeper older :
  final_tombstone st keeper → cv_key keeper = key →
  (∀ t, t ∈ older ↔ is_Some (st_versions st !! (key, t)) ∧ (t < cv_commit_ts keeper)%ts) →
  gc_clean sp collapse (store_remove_versions key (cv_commit_ts keeper :: older) st) key.
Proof.
  intros (_&_&Hlat) Ek Hold. rewrite Ek in Hlat. apply clean_no_keeper. intros t x.
  rewrite lookup_remove_versions. case_decide as Hd; [done|]. intros Hx. destruct Hd.
  split; [done|]. destruct (decide (t = cv_commit_ts keeper)) as [->|Ht]; [constructor|].
  apply elem_of_cons. right. apply Hold. split; [by rewrite Hx|].
  pose proof (proj2 Hlat _ _ Hx). ts_lia.
Qed.

(** On a store where every key is clean there is nothing left to collect. *)
Lemma clean_step st st' :
  (∀ k, gc_clean sp collapse st k) → gc_step sp collapse st st' → st' = st.
Proof.
  intros Hcl [k keeper t Hk Ht|k keeper older Hc Hk Hf _].
  - destruct (Hcl _ _ Hk) as [Hold _]. apply store_ext; [|done]. simpl.
    apply delete_id. destruct (st_versions st !! (k, t)) as [x|] eqn:Hx; [|done].
    specialize (Hold _ _ Hx). lia.
  - by destruct (Hcl _ _ Hk) as [_ []].
Qed.
Lemma clean_steps st st' :
  (∀ k, gc_clean sp collapse st k) → gc_steps sp collapse st st' → st' = st.
Proof.
  intros Hcl Hst. induction Hst as [|st1 st2 st3 Hs _ IH]; [done|].
  rewrite (clean_step _ _ Hcl Hs) in *. by apply IH.
Qed.

(** Removing several versions below the keeper. *)
Lemma prune_steps st key keeper ts :
  is_visible st key sp (Some keeper) → (∀ t, t ∈ ts → (t < cv_commit_ts keeper)%ts) →
  gc_steps sp collapse st (store_remove_versions key ts st).
Proof.
  revert st. induction ts as [|t ts IH]; intros st Hk Hts; [apply rtc_refl|].
  eapply rtc_l; [eapply (gc_prune _ _ _ key keeper t); [done|apply Hts; by constructor]|].
  apply IH; [|intros; apply Hts; by constructor].
  rewrite remove_version_as. eapply remove_older_visible; [exact Hk|lia| |exact Hk].
  intros ? ->%list_elem_of_singleton. apply Hts. by constructor.
Qed.
End steps.

(** The store after a plan is carried out. *)
Definition apply_plan (p : KeyGcPlan) (st : Store) : Store :=
  store_remove_versions (plan_key p)
    (match plan_collapse_tombstone p with
     | Some t => t :: plan_versions_to_remove p | None => plan_versions_to_remove p end) st.
Lemma plan_steps st key sp options p :
  key_plan st key sp options p →
  gc_steps sp (kg_collapse_final_tombstones options) st (apply_plan p st) ∧
  (plan_complete p = true →
   gc_clean sp (kg_collapse_final_tombstones options) (apply_plan p st) key).
Proof.
  unfold apply_plan. intros (->&_&o&Ho&Hp). destruct o as [keeper|].
  2:{ destruct Hp as (->&->&_). split; [apply rtc_refl|]. intros _ keeper Hk.
      by pose proof (is_visible_fun _ _ _ _ _ Ho Hk). }
  destruct Hp as (Hb&Hcomp&Hcol).
  assert (plan_complete p = true → ∀ t, t ∈ plan_versions_to_remove p ↔
    is_Some (st_versions st !! (key, t)) ∧ (t < cv_commit_ts keeper)%ts) as Hall.
  { rewrite Hcomp. intros Hlt%N.ltb_lt t. split; [by eapply is_before_in|].
    intros [??]. by eapply is_before_complete. }
  destruct (plan_collapse_tombstone p) as [t|].
  - destruct (proj1 (Hcol t) eq_refl) as (->&Hc&Hopt&Hfin). specialize (Hall Hc). split.
    + by apply rtc_once, gc_collapse.
    + intros _. apply collapsed_clean; [done|apply Ho|done].
  - split.
    + eapply prune_steps; [done|]. intros t Ht. by eapply is_before_in.
    + intros Hc. apply (pruned_clean _ _ _ _ keeper); [done|by apply Hall|].
      intros [Hopt Hfin]. by assert (None = Some (cv_commit_ts keeper)) as [=] by by apply Hcol.
Qed.

(** ** One key of an incremental pass *)

(** The number of versions in the store. *)
Definition version_count (st : Store) : N := N.of_nat (size (st_versions st)).

Lemma version_count_remove_list st key ts :
  NoDup ts → (∀ t, t ∈ ts → is_Some (st_versions st !! (key, t))) →
  (len ts + version_count (store_remove_versions key ts st) = version_count st)%N.
Proof.
  revert st. induction ts as [|t ts IH]; intros st Hnd Hin; [done|].
  inversion Hnd; subst. change (store_remove_versions key (t :: ts) st) with
    (store_remove_versions key ts (store_remove_version key t st)).
  specialize (IH (store_remove_version key t st)). rewrite len_cons.
  assert (1 + version_count (store_remove_version key t st) = version_count st)%N.
  { unfold version_count. simpl. destruct (Hin t) as [x Hx]; [by constructor|].
    rewrite map_size_delete_Some by eauto.
    assert (size (st_versions st) ≠ 0); [|lia].
    apply map_size_ne_0_lookup. eauto. }
  rewrite <-H, <-IH; [lia|done|]. intros u Hu. simpl.
  rewrite lookup_delete_ne; [apply Hin; by constructor|]. intros [= ->]. done.
Qed.

(** The budget leaves the counters of one pass below [usize::MAX]. *)
Definition budget_fits `{HP : Platform} (options : GcOptions) : Prop :=
  (max_keys (budget options) + max_versions (budget options) + 2 ≤ usize_modulus)%N.

Section gc.
Context {B : Type} `{HL : BackendLaws B} `{HP : Platform}.
Context (sp : Timestamp) (options : GcOptions).
Abbreviation collapse := (collapse_final_tombstones options).
Abbreviation max_v := (max_versions (budget options)).
Abbreviation max_k := (max_keys (budget options)).
Implicit Types (e : MvccEngine B) (st : Store) (key : Key) (scan : GcScan).

Lemma wp_add_ret a b e (Q : MvccEngine B → res GcError N → Prop) :
  (a + b < usize_modulus)%N → Q e (Ok (a + b)%N) → wp (add a b) e Q.
Proof. intros Hab HQ. unfold add, M_lift, wp. simpl. by rewrite usize_add_ok. Qed.
Lemma wp_add {C} a b (k : N → M (MvccEngine B) GcError C) e Q :
  (a + b < usize_modulus)%N → wp (k (a + b)%N) e Q → wp (M_bind (add a b) k) e Q.
Proof. intros Hab Hk. by apply wp_bind, wp_add_ret. Qed.
Lemma wp_sub {C} a b (k : N → M (MvccEngine B) GcError C) e Q :
  (b ≤ a)%N → wp (k (a - b)%N) e Q → wp (M_bind (sub a b) k) e Q.
Proof. intros Hab Hk. apply wp_bind. unfold sub, M_lift, wp. simpl. by rewrite usize_sub_ok. Qed.
Lemma wp_before {C} key t limit (k : list Timestamp → M (MvccEngine B) GcError C) e Q :
  einv e → (∀ l, is_before (estore e) key t limit l → wp (k l) e Q) →
  (∀ msg, may_fail → Q e (Err (GcError.Backend msg))) →
  wp (M_bind (rd (λ b, get_committed_timestamps_before b key t limit) GcError.Backend) k) e Q.
Proof.
  intros Hinv Hk Herr.
  eapply wp_rd; [by apply law_get_committed_timestamps_before|done|done].
Qed.
Lemma wp_final {C} key keeper has_intent (k : bool → M (MvccEngine B) GcError C) e Q :
  einv e → cv_key keeper = key →
  has_intent = bool_decide (is_Some (st_intents (estore e) !! key)) →
  (∀ b, (b = true ↔ collapse = true ∧ final_tombstone (estore e) keeper) → wp (k b) e Q) →
  (∀ msg, may_fail → Q e (Err (GcError.Backend msg))) →
  wp (M_bind (is_final_tombstone options key keeper has_intent) k) e Q.
Proof.
  intros Hinv <- -> Hk Herr. unfold is_final_tombstone, final_tombstone in *.
  destruct (st_intents (estore e) !! cv_key keeper) as [i|].
  { rewrite andb_false_r. apply wp_bind, wp_ret, Hk. naive_solver. }
  rewrite andb_true_r. destruct collapse; simpl;
    [case_bool_decide as Hn|]; try (apply wp_bind, wp_ret, Hk; naive_solver).
  apply wp_bind, wp_get_latest; [done| |done]. intros o Ho. apply wp_ret, Hk.
  rewrite bool_decide_eq_true. split; [intros ->; done|].
  intros (_&_&_&Hl). by eapply is_latest_ts_fun.
Qed.

(** Removing versions below the keeper, one at a time. *)
Lemma remove_loop_wp key keeper ts n e :
  einv e → is_visible (estore e) key sp (Some keeper) →
  (∀ t, t ∈ ts → (t < cv_commit_ts keeper)%ts) →
  (n + len ts < usize_modulus)%N →
  wp (remove_loop key ts n) e (λ e' r,
    einv e' ∧ gc_steps sp collapse (estore e) (estore e') ∧
    (∀ k, k ≠ key → same_key (estore e) (estore e') k) ∧
    match r with
    | Ok n' => n' = (n + len ts)%N ∧ estore e' = store_remove_versions key ts (estore e)
    | Err err => may_fail ∧ ∃ msg, err = GcError.Backend msg
    | Panic => False
    end).
Proof.
  revert n e. induction ts as [|t ts IH]; intros n e Hinv Hk Hts Hn.
  { apply wp_ret. split_and!; [done|apply rtc_refl|done|by rewrite len_nil; lia|done]. }
  rewrite len_cons in Hn. apply wp_bind, wp_bind.
  eapply wp_wr; [by apply law_remove_committed_version|..].
  - intros [] e' He' E. apply wp_add_ret; [lia|].
    assert (gc_step sp collapse (estore e) (estore e')) as Hstep.
    { rewrite E. eapply gc_prune; [done|]. apply Hts. by constructor. }
    eapply wp_mono; [apply IH; [done| | |lia]|].
    + rewrite E, remove_version_as. eapply remove_older_visible; [exact Hk|lia| |exact Hk].
      intros ? ->%list_elem_of_singleton. apply Hts. by constructor.
    + intros u Hu. apply Hts. by constructor.
    + intros e'' r (He''&Hsteps&Hsame&Hr). split; [done|].
      split; [by eapply rtc_l|]. split.
      { intros k Hne. eapply same_key_trans; [|by apply Hsame].
        rewrite E, remove_version_as. by apply remove_versions_same. }
      destruct r as [n'|err|]; [|done|done]. destruct Hr as [-> ->].
      rewrite len_cons, E. split; [lia|done].
  - intros e' msg Hf He' E. rewrite E. split_and!; [done|apply rtc_refl|done|done|by eexists].
Qed.

(** What handling one key does to the store and to the version counters. *)
Definition key_work key st scan (r : res GcError (GcScan * Flow)) st' : Prop :=
  gc_steps sp collapse st st' ∧ (∀ k, k ≠ key → same_key st st' k) ∧
  match r with
  | Ok (scan', flow) =>
      keys_scanned scan' = keys_scanned scan ∧
      intents_preserved scan' = intents_preserved scan ∧
      (versions_removed scan ≤ versions_removed scan' ≤ max_v)%N ∧
      (versions_removed scan' + version_count st' =
       versions_removed scan + version_count st)%N ∧
      (versions_scanned scan' + versions_removed scan ≤
       versions_scanned scan + versions_removed scan')%N ∧
      match flow with
      | Continue => next_cursor_key scan' = next_cursor_key scan ∧
          exhausted_versions scan' = exhausted_versions scan ∧ gc_clean sp collapse st' key
      | Break => next_cursor_key scan' = Some key ∧ exhausted_versions scan' = true ∧
          versions_removed scan' = max_v
      end
  | Err err => may_fail ∧ ∃ msg, err = GcError.Backend msg
  | Panic => False
  end.
Lemma key_work_backend key st scan msg : may_fail → key_work key st scan (Err (GcError.Backend msg)) st.
Proof. split; [apply rtc_refl|]. by split; [|split; [|eexists]]. Qed.

Lemma gc_no_budget_wp key keeper has_intent scan e :
  einv e → is_visible (estore e) key sp (Some keeper) →
  has_intent = bool_decide (is_Some (st_intents (estore e) !! key)) →
  versions_removed scan = max_v →
  wp (gc_no_budget options key keeper has_intent scan) e (λ e' r,
    einv e' ∧ key_work key (estore e) scan r (estore e')).
Proof.
  intros Hinv Hk Hi Hmax. unfold gc_no_budget.
  assert (cv_key keeper = key) as Ek by apply Hk.
  apply wp_before; [done| |intros; split; [done|by apply key_work_backend]].
  intros l Hl. case_decide as Hne.
  { apply wp_ret. split; [done|]. split; [apply rtc_refl|]. split; [done|].
    simpl. rewrite Hmax. split_and!; (done || lia). }
  assert (l = []) as -> by (by destruct (decide (l = []))).
  apply wp_final; [done..| |intros; split; [done|by apply key_work_backend]].
  intros b Hb. destruct b; apply wp_ret; (split; [done|]); (split; [apply rtc_refl|]);
    (split; [done|]); simpl; rewrite Hmax; split_and!; try (done || lia).
  apply (clean_intro _ _ _ _ keeper); [done| |].
  - intros t x Hx. destruct (decide (ts_val t < ts_val (cv_commit_ts keeper))%N); [|lia].
    exfalso. eapply elem_of_nil, (is_before_complete _ _ _ _ [] t); [exact Hl|done|eauto|done].
  - intros Hf. by apply Hb in Hf.
Qed.

(** Pruning [l] from [key] and ending the iteration with [flow]. *)
Lemma prune_wp key keeper l scan scanned flow e :
  einv e → is_visible (estore e) key sp (Some keeper) → NoDup l →
  (∀ t, t ∈ l → is_Some (st_versions (estore e) !! (key, t)) ∧ (t < cv_commit_ts keeper)%ts) →
  (versions_removed scan + len l ≤ max_v)%N → (max_v < usize_modulus)%N →
  (scanned ≤ versions_scanned scan + len l)%N →
  match flow with
  | Break => (versions_removed scan + len l = max_v)%N
  | Continue => gc_clean sp collapse (store_remove_versions key l (estore e)) key
  end →
  wp (let! removed := remove_loop key l (versions_removed scan) in
      let scan := set_versions scan scanned removed in
      M_ret (match flow with Break => stop_at key scan | Continue => (scan, Continue) end)) e
    (λ e' r, einv e' ∧ key_work key (estore e) scan r (estore e')).
Proof.
  intros Hinv Hk Hnd Hl Hmax Hfit Hsc Hflow. apply wp_bind.
  eapply wp_mono; [apply (remove_loop_wp key keeper); [done|done| |lia]|].
  { intros t Ht. by apply Hl. }
  intros e' [n|err|] (He'&Hsteps&Hsame&Hr); [|by split|done]. destruct Hr as [-> E].
  apply wp_ret. split; [done|]. split; [done|]. split; [done|].
  pose proof (version_count_remove_list (estore e) key l Hnd) as Hc.
  rewrite <-E in Hc. specialize (Hc (λ t Ht, proj1 (Hl t Ht))).
  destruct flow; simpl in *; split_and!; try (done || lia). by rewrite E.
Qed.

Lemma before_all st key t n l :
  is_before st key t n l → (len l < n)%N →
  ∀ u, u ∈ l ↔ is_Some (st_versions st !! (key, u)) ∧ (u < t)%ts.
Proof.
  intros Hl Hn u. split; [by eapply is_before_in|]. intros [??].
  by eapply is_before_complete.
Qed.
(** The page without its last element, when it is one longer than [limit]. *)
Lemma before_pop st key t limit l :
  is_before st key t (limit + 1) l → (limit < len l)%N →
  len (vec_pop l) = limit ∧ is_before st key t limit (vec_pop l).
Proof.
  intros Hl Hlt. pose proof (is_before_len _ _ _ _ _ Hl).
  rewrite (vec_pop_take limit) by lia. rewrite len_take_usize. split; [lia|].
  destruct Hl as (all&->&Hall). exists all. split; [|done].
  rewrite !take_usize_take, take_take. f_equal. lia.
Qed.

Lemma gc_tombstone_wp key keeper limit scan e :
  einv e → is_visible (estore e) key sp (Some keeper) →
  collapse = true → final_tombstone (estore e) keeper →
  (0 < limit)%N → (versions_removed scan + limit = max_v)%N →
  (versions_scanned scan + limit + 1 < usize_modulus)%N → (max_v < usize_modulus)%N →
  wp (gc_tombstone key keeper limit scan) e (λ e' r,
    einv e' ∧ key_work key (estore e) scan r (estore e')).
Proof.
  intros Hinv Hk Hcol Hfin Hlim Hmax Hfit Hmv. unfold gc_tombstone.
  apply wp_add; [lia|]. apply wp_before; [done| |intros; split; [done|by apply key_work_backend]].
  intros l Hl. pose proof (is_before_len _ _ _ _ _ Hl) as Hlen.
  apply wp_add; [lia|]. destruct (N.ltb_spec limit (len l)) as [Hm|Hm].
  - destruct (before_pop _ _ _ _ _ Hl Hm) as [Hlp Hbp]. apply wp_sub; [lia|].
    apply (prune_wp key keeper _ scan _ Break); try done; try lia.
    + by eapply is_before_NoDup.
    + intros t. by eapply is_before_in.
  - pose proof (is_before_NoDup _ _ _ _ _ Hl) as Hnd.
    pose proof (before_all _ _ _ (limit + 1) l Hl ltac:(lia)) as Hall.
    destruct (N.ltb_spec (len l) limit) as [Hlt|Hge].
    + apply wp_bind. eapply wp_wr; [by apply law_collapse_tombstone|..].
      2:{ intros e' msg Hf He' E. rewrite E. split; [done|by apply key_work_backend]. }
      intros [] e' He' E. apply wp_add; [lia|]. apply wp_add; [lia|]. apply wp_ret.
      split; [done|]. rewrite E. pose proof Hk as (Ek&_&Hkv&_).
      split; [by apply rtc_once, gc_collapse with (older := l)|].
      split; [by intros; apply remove_versions_same|].
      pose proof (version_count_remove_list (estore e) key (cv_commit_ts keeper :: l)) as Hc.
      rewrite len_cons in Hc.
      assert (gc_clean sp collapse (store_remove_versions key (cv_commit_ts keeper :: l)
        (estore e)) key) by by apply collapsed_clean.
      unfold estore in *. set (st' := store_remove_versions _ _ _) in *.
      rewrite <-Hc; [simpl; split_and!; (done || lia)|constructor; [|done]|].
      * intros [_ ?]%Hall. lia.
      * intros t [->|Ht]%elem_of_cons; [by rewrite Hkv|by apply Hall].
    + apply (prune_wp key keeper _ scan _ Break); try done; try lia.
      intros t. apply Hall.
Qed.
Lemma gc_obsolete_wp key keeper limit scan e :
  einv e → is_visible (estore e) key sp (Some keeper) →
  ¬ (collapse = true ∧ final_tombstone (estore e) keeper) →
  (0 < limit)%N → (versions_removed scan + limit = max_v)%N →
  (versions_scanned scan + limit + 1 < usize_modulus)%N → (max_v < usize_modulus)%N →
  wp (gc_obsolete key keeper limit scan) e (λ e' r,
    einv e' ∧ key_work key (estore e) scan r (estore e')).
Proof.
  intros Hinv Hk Hfin Hlim Hmax Hfit Hmv. unfold gc_obsolete.
  apply wp_add; [lia|]. apply wp_before; [done| |intros; split; [done|by apply key_work_backend]].
  intros l Hl. pose proof (is_before_len _ _ _ _ _ Hl) as Hlen.
  apply wp_add; [lia|]. destruct (N.ltb_spec limit (len l)) as [Hm|Hm].
  - destruct (before_pop _ _ _ _ _ Hl Hm) as [Hlp Hbp]. apply wp_bind, wp_sub; [lia|].
    apply wp_ret. apply (prune_wp key keeper _ scan _ Break); try done; try lia.
    + by eapply is_before_NoDup.
    + intros t. by eapply is_before_in.
  - pose proof (before_all _ _ _ (limit + 1) l Hl ltac:(lia)) as Hall. apply wp_bind, wp_ret.
    apply (prune_wp key keeper _ scan _ Continue); try done; try lia.
    + by eapply is_before_NoDup.
    + intros t. apply Hall.
    + by apply pruned_clean with (keeper := keeper).
Qed.

(** One when [key] is locked, as the counters see it. *)
Definition locked_one st key : N :=
  if bool_decide (is_Some (st_intents st !! key)) then 1 else 0.
(** The counters after the lookups that precede the removals. *)
Definition counted key st scan scanned : GcScan :=
  mkScan (keys_scanned scan + 1) scanned (versions_removed scan)
    (intents_preserved scan + locked_one st key) (next_cursor_key scan)
    (exhausted_versions scan).
Definition scanned_work key st scan r st' : Prop :=
  ∃ scanned, (versions_scanned scan ≤ scanned ≤ versions_scanned scan + 1)%N ∧
    key_work key st (counted key st scan scanned) r st'.

Lemma gc_key_wp key scan e :
  einv e → budget_fits options →
  (keys_scanned scan < max_k)%N → (versions_removed scan ≤ max_v)%N →
  (versions_scanned scan ≤ keys_scanned scan + versions_removed scan)%N →
  (intents_preserved scan ≤ keys_scanned scan)%N →
  wp (gc_key sp options key scan) e (λ e' r,
    einv e' ∧ scanned_work key (estore e) scan r (estore e')).
Proof.
  intros Hinv Hfit Hks Hrem Hscan Hint. unfold gc_key, budget_fits in *.
  assert (∀ msg, may_fail → scanned_work key (estore e) scan (Err (GcError.Backend msg)) (estore e))
    as Herr by (intros; exists (versions_scanned scan); split; [lia|by apply key_work_backend]).
  apply wp_add; [lia|]. apply wp_get_intent; [done| |intros; split; [done|by apply Herr]].
  apply wp_bind. apply wp_mono with (P := λ e' r, e' = e ∧
    r = Ok (intents_preserved scan + locked_one (estore e) key)%N).
  { unfold locked_one. case_bool_decide; [apply wp_add_ret; [lia|done]|].
    apply wp_ret. by rewrite N.add_0_r. }
  intros e' r [-> ->]. apply wp_get_visible; [done| |intros; split; [done|by apply Herr]]. intros o Ho.
  destruct o as [keeper|].
  - assert (∀ m, wp m e (λ e' r, einv e' ∧ key_work key (estore e)
        (counted key (estore e) scan (versions_scanned scan + 1)) r (estore e')) →
      wp m e (λ e' r, einv e' ∧ scanned_work key (estore e) scan r (estore e'))) as Hw.
    { intros m Hm. eapply wp_mono; [apply Hm|]. intros e' r [He' Hr]. split; [done|].
      exists (versions_scanned scan + 1)%N. split; [lia|done]. }
    assert (cv_key keeper = key) as Ek by apply Ho.
    apply wp_add; [simpl; lia|]. cbn [versions_removed versions_scanned set_versions].
    apply wp_sub; [done|].
    destruct (N.eqb_spec (max_v - versions_removed scan) 0) as [E0|E0].
    { apply Hw, gc_no_budget_wp; [done..|]. simpl. lia. }
    apply wp_final; [done..| |intros; split; [done|by apply Herr]]. intros b Hb.
    destruct b; apply Hw.
    + destruct (proj1 Hb eq_refl). apply gc_tombstone_wp with (keeper := keeper);
        simpl; (done || lia).
    + assert (¬ (collapse = true ∧ final_tombstone (estore e) keeper)).
      { intros Hf. by apply Hb in Hf. }
      apply gc_obsolete_wp with (keeper := keeper); simpl; (done || lia).
  - apply wp_ret. split; [done|]. exists (versions_scanned scan).
    split; [lia|]. split; [apply rtc_refl|]. split; [done|]. simpl.
    split_and!; try (done || lia). by apply clean_no_keeper.
Qed.

(** ** The pass over the keys *)

(** How many of the keys are locked. *)
Definition locked_in st (keys : list Key) : N :=
  len (filter (λ k, is_Some (st_intents st !! k)) keys).
Lemma locked_in_nil st : locked_in st [] = 0%N.
Proof. done. Qed.
Lemma locked_in_cons st key keys :
  locked_in st (key :: keys) = (locked_one st key + locked_in st keys)%N.
Proof.
  unfold locked_in, locked_one. rewrite filter_cons. case_decide as Hd.
  - rewrite bool_decide_eq_true_2 by done. by rewrite len_cons.
  - by rewrite bool_decide_eq_false_2.
Qed.
Lemma locked_in_intents st st' keys :
  st_intents st' = st_intents st → locked_in st' keys = locked_in st keys.
Proof. unfold locked_in. by intros ->. Qed.
Lemma locked_in_le st keys : (locked_in st keys ≤ len keys)%N.
Proof.
  unfold locked_in, len. pose proof (length_filter (λ k, is_Some (st_intents st !! k)) keys).
  lia.
Qed.

(** The counters of a scan stay within the budget. *)
Definition scan_ok scan : Prop :=
  (keys_scanned scan ≤ max_k)%N ∧ (versions_removed scan ≤ max_v)%N ∧
  (versions_scanned scan ≤ keys_scanned scan + versions_removed scan)%N ∧
  (intents_preserved scan ≤ keys_scanned scan)%N.

Definition pass_work (keys : list Key) st scan (r : res GcError GcScan) st' : Prop :=
  gc_steps sp collapse st st' ∧ (∀ k, k ∉ keys → same_key st st' k) ∧
  match r with
  | Ok scan' => scan_ok scan' ∧
      (versions_removed scan ≤ versions_removed scan')%N ∧
      (versions_removed scan' + version_count st' =
       versions_removed scan + version_count st)%N ∧
      ∃ seen rest, keys = seen ++ rest ∧
        keys_scanned scan' = (keys_scanned scan + len seen)%N ∧
        intents_preserved scan' = (intents_preserved scan + locked_in st seen)%N ∧
        if exhausted_versions scan' then
          ∃ cleaned key, seen = cleaned ++ [key] ∧ next_cursor_key scan' = Some key ∧
            versions_removed scan' = max_v ∧
            ∀ k, k ∈ cleaned → gc_clean sp collapse st' k
        else rest = [] ∧ next_cursor_key scan' = next_cursor_key scan ∧
          ∀ k, k ∈ seen → gc_clean sp collapse st' k
  | Err err => may_fail ∧ ∃ msg, err = GcError.Backend msg
  | Panic => False
  end.

Lemma gc_keys_wp keys scan e :
  einv e → budget_fits options → NoDup keys →
  (keys_scanned scan + len keys ≤ max_k)%N → scan_ok scan →
  exhausted_versions scan = false →
  wp (gc_keys sp options keys scan) e (λ e' r,
    einv e' ∧ pass_work keys (estore e) scan r (estore e')).
Proof.
  revert scan e. induction keys as [|key keys IH];
    intros scan e Hinv Hfit Hnd Hlen Hok Hex; simpl.
  { apply wp_ret. split; [done|]. split; [apply rtc_refl|]. split; [done|].
    split; [done|]. split; [lia|]. split; [lia|]. exists [], []. rewrite Hex.
    rewrite len_nil, locked_in_nil. split_and!; try (done || lia).
    by intros k ?%elem_of_nil. }
  rewrite len_cons in Hlen. inversion Hnd as [|? ? Hkey Hnd']; subst. apply wp_bind.
  pose proof Hok as (Hk1&Hk2&Hk3&Hk4).
  eapply wp_mono; [apply gc_key_wp; (done || lia)|].
  intros e1 r [He1 (scanned&Hscanned&Hsteps&Hsame&Hr)].
  assert (∀ k, k ∉ key :: keys → same_key (estore e) (estore e1) k) as Hsame1.
  { intros k [? ?]%not_elem_of_cons. by apply Hsame. }
  destruct r as [[scan1 flow]|err|]; [|by split|done].
  assert (Hl1 : (locked_one (estore e) key ≤ 1)%N) by (unfold locked_one; by case_bool_decide).
  destruct Hr as (Hks&Hip&Hrem&Hcount&Hvs&Hflow). simpl in *.
  destruct flow; destruct Hflow as (Hn&Hex'&Hcl).
  - eapply wp_mono; [apply (IH scan1 e1); try done; try lia; unfold scan_ok; [lia|congruence]|].
    intros e2 r (He2&Hsteps2&Hsame2&Hr). split; [done|]. split; [by etrans|].
    split. { intros k [? ?]%not_elem_of_cons. eapply same_key_trans; [by apply Hsame|by apply Hsame2]. }
    destruct r as [scan2| |]; [|done|done].
    destruct Hr as (Hok2&Hrem2&Hcount2&seen&rest&->&Hks2&Hip2&Hend).
    split; [done|]. split; [lia|]. split; [lia|]. exists (key :: seen), rest.
    rewrite locked_in_cons, len_cons,
      <-(locked_in_intents (estore e) (estore e1)) by by eapply gc_steps_intents.
    split_and!; [done|lia|lia|].
    assert (gc_clean sp collapse (estore e2) key) by (eapply same_key_clean; [by apply Hsame2|done]).
    destruct (exhausted_versions scan2).
    + destruct Hend as (cl&key'&->&?&?&Hall). exists (key :: cl), key'.
      split_and!; try done. intros k [->|?]%elem_of_cons; auto.
    + destruct Hend as (->&?&Hall). split_and!; [done|congruence|].
      intros k [->|?]%elem_of_cons; auto.
  - apply wp_ret. split; [done|]. split; [done|]. split; [done|].
    split; [unfold scan_ok; lia|]. split; [lia|]. split; [lia|].
    exists [key], keys. rewrite Hex', locked_in_cons, locked_in_nil, len_cons, len_nil.
    split_and!; [done|lia|lia|].
    exists [], key. split_and!; try done. by intros k ?%elem_of_nil.
Qed.

(** ** One incremental pass *)

(** At or after the start of a pass. *)
Abbreviation from start k := (from_option (λ s, rle s k) True start).
Lemma clean_unknown st k : ¬ store_key st k → gc_clean sp collapse st k.
Proof.
  intros Hn keeper (_&_&Hk&_). destruct Hn. left.
  exists (cv_commit_ts keeper). by rewrite Hk.
Qed.

Definition incremental_post start st (r : res GcError IncrementalGcResult) st' : Prop :=
  gc_steps sp collapse st st' ∧ (∀ k, ¬ from start k → same_key st st' k) ∧
  match r with
  | Ok res =>
      (0 < max_k)%N ∧ (0 < max_v)%N ∧ (gr_keys_scanned res ≤ max_k)%N ∧ (gr_versions_removed res ≤ max_v)%N ∧
      (gr_versions_scanned res ≤ gr_keys_scanned res + gr_versions_removed res)%N ∧
      (gr_intents_preserved res ≤ gr_keys_scanned res)%N ∧
      (gr_versions_removed res + version_count st' = version_count st)%N ∧
      match next_key (gr_cursor res) with
      | None => gr_done res = true ∧ ∀ k, from start k → gc_clean sp collapse st' k
      | Some n => gr_done res = false ∧ store_key st n ∧ from start n ∧
          (∀ k, from start k → rlt k n → gc_clean sp collapse st' k) ∧
          (gr_versions_removed res = max_v ∨
           ∃ k, store_key st k ∧ from start k ∧ rlt k n)
      end
  | Err err =>
      (err = GcError.InvalidGcBudget ∧ (max_k = 0 ∨ max_v = 0)%N ∧ st' = st) ∨
      may_fail ∧ ∃ msg, err = GcError.Backend msg
  | Panic => False
  end.

(** What the end of a pass over the page [keys] says about the key space. *)
Lemma page_cleaned st st' start all (cleaned rest : list Key) key :
  gc_steps sp collapse st st' →
  StronglySorted rlt all → (∀ k, k ∈ all ↔ store_key st k ∧ from start k) →
  (∀ k, k ∉ all → same_key st st' k) →
  all = cleaned ++ key :: rest → (∀ k, k ∈ cleaned → gc_clean sp collapse st' k) →
  ∀ k, from start k → rlt k key → gc_clean sp collapse st' k.
Proof.
  intros Hsteps Hs Hall Hsame -> Hcl k Hk Hlt.
  destruct (decide (k ∈ cleaned ++ key :: rest)) as [Hin|Hin].
  - by apply Hcl; eapply (StronglySorted_below rlt).
  - apply (same_key_clean _ _ st); [by apply Hsame|]. apply clean_unknown.
    intros Hst. apply Hin, Hall. done.
Qed.

(** The keys a pass processes are the first [max_keys] of the key space. *)
Lemma page_keys (all : list Key) n :
  take_usize (N.min (len (take_usize (n + 1) all)) n) (take_usize (n + 1) all) =
  take (N.to_nat n) all.
Proof.
  rewrite len_take_usize, !take_usize_take, take_take. unfold len.
  destruct (decide (length all ≤ N.to_nat n)).
  - rewrite !take_ge by lia. done.
  - f_equal. lia.
Qed.

(** When the next key is on a later page, the page has an earlier key. *)
Lemma page_first (all : list Key) n key :
  StronglySorted rlt all → all !! n = Some key → n ≠ 0 → ∃ k, k ∈ all ∧ rlt k key.
Proof.
  intros Hs Hkey Hn. destruct Hs as [|k all _ Hk]; [done|]. destruct n as [|n]; [done|].
  exists k. split; [constructor|]. rewrite Forall_forall in Hk. apply Hk.
  by eapply list_elem_of_lookup_2.
Qed.
(** When there is no later page, the pass has cleaned everything from its start. *)
Lemma page_last st st' start (all : list Key) :
  (∀ k, k ∈ all ↔ store_key st k ∧ from start k) →
  (∀ k, k ∉ all → same_key st st' k) → (∀ k, k ∈ all → gc_clean sp collapse st' k) →
  ∀ k, from start k → gc_clean sp collapse st' k.
Proof.
  intros Hall Hsame Hcl k Hk. destruct (decide (k ∈ all)) as [Hin|Hin]; [by apply Hcl|].
  apply (same_key_clean _ _ st); [by apply Hsame|]. apply clean_unknown.
  intros Hst. by apply Hin, Hall.
Qed.

Lemma gc_incremental_wp cursor e :
  einv e → budget_fits options →
  wp (gc_incremental sp cursor options) e (λ e' r, einv e' ∧
    incremental_post (cursor ≫= next_key) (estore e) r (estore e')).
Proof.
  intros Hinv Hfit. unfold gc_incremental. set (start := cursor ≫= next_key).
  assert (∀ msg, may_fail → incremental_post start (estore e) (Err (GcError.Backend msg)) (estore e))
    as Herr by (intros; split; [apply rtc_refl|split; [done|right; split; [done|by eexists]]]).
  destruct (N.eqb_spec max_k 0) as [E0|Hk0]; simpl.
  { apply wp_throw. split; [done|]. split; [apply rtc_refl|]. split; [done|]. left. auto. }
  destruct (N.eqb_spec max_v 0) as [E0|Hv0]; simpl.
  { apply wp_throw. split; [done|]. split; [apply rtc_refl|]. split; [done|]. left. auto. }
  pose proof Hfit as Hfit'. unfold budget_fits in Hfit'.
  apply wp_add; [lia|]. eapply wp_rd; [by apply law_keys_from| |intros; split; [done|by apply Herr]].
  intros page (all&->&Hs&Hall). rewrite page_keys.
  set (keys := take (N.to_nat max_k) all).
  assert (len keys ≤ max_k)%N by (unfold keys, len; rewrite length_take; lia).
  apply wp_bind. eapply wp_mono; [apply gc_keys_wp; try done; simpl; try lia|].
  { by apply NoDup_take, (StronglySorted_NoDup rlt). }
  { unfold scan_ok. simpl. lia. }
  intros e1 r [He1 (Hsteps&Hsame&Hr)].
  assert (∀ k, k ∉ all → same_key (estore e) (estore e1) k) as Hsame'.
  { intros k Hk. apply Hsame. intros Hin. apply Hk. by apply subseteq_take in Hin. }
  assert (∀ k, ¬ from start k → same_key (estore e) (estore e1) k) as Hbelow.
  { intros k Hk. apply Hsame'. by intros [_ ?]%Hall. }
  destruct r as [scan| |]; [|by split; [|split; [|split; [|right]]]|done].
  destruct Hr as (Hok&_&Hcount&seen&rest&Hkeys&Hks&Hip&Hend). simpl in *.
  assert (all = keys ++ drop (N.to_nat max_k) all) as Eall by (unfold keys; by rewrite take_drop).
  pose proof (λ cleaned rest key, page_cleaned _ _ start all cleaned rest key
    Hsteps Hs Hall Hsame') as Hpage.
  destruct Hok as (Hk1&Hk2&Hk3&Hk4). destruct (exhausted_versions scan); simpl.
  - destruct Hend as (cleaned&key&->&Hn&Hmax&Hcl). apply wp_bind, wp_ret, wp_ret.
    assert (all = cleaned ++ key :: (rest ++ drop (N.to_nat max_k) all)) as Eall'.
    { rewrite Eall, Hkeys at 1. by rewrite <-!app_assoc. }
    assert (key ∈ all) as Hin by (rewrite Eall'; set_solver). apply Hall in Hin as [??].
    split; [done|]. split; [done|]. split; [done|]. simpl. rewrite Hn.
    split_and!; try (done || lia || by left). by eapply Hpage.
  - destruct Hend as (->&Hn&Hcl). rewrite app_nil_r in Hkeys. rewrite <-Hkeys in *.
    destruct (N.ltb_spec max_k (len (take_usize (max_k + 1) all))) as [Hm|Hm].
    + rewrite len_take_usize in Hm. 
      destruct (lookup_lt_is_Some_2 all (N.to_nat max_k)) as [key Hkey]; [unfold len in Hm; lia|].
      apply wp_bind, wp_bind. rewrite take_usize_take, lookup_take_lt by lia. rewrite Hkey.
      apply wp_ret, wp_ret, wp_ret.
      assert (all = keys ++ key :: drop (S (N.to_nat max_k)) all) as Eall' by
        by (unfold keys; rewrite take_drop_middle).
      assert (key ∈ all) as Hin by (rewrite Eall'; set_solver). apply Hall in Hin as [??].
      split; [done|]. split; [done|]. split; [done|]. simpl.
      split_and!; try (done || lia); [by eapply Hpage|right].
      destruct (page_first all _ key Hs Hkey ltac:(lia)) as (k0&[??]%Hall&?). by exists k0.
    + apply wp_bind, wp_ret, wp_ret.
      split; [done|]. split; [done|]. split; [done|]. simpl. rewrite Hn. split_and!; try (done || lia).
      assert (keys = all) as Ek.
      { unfold keys. apply take_ge. rewrite len_take_usize in Hm. unfold len in Hm. lia. }
      rewrite Ek in *. by apply (page_last (estore e) _ start all).
Qed.

(** ** The full collection *)

Definition key_set st : gset Key := set_map fst (dom (st_versions st)) ∪ dom (st_intents st).
Lemma elem_of_key_set st k : k ∈ key_set st ↔ store_key st k.
Proof.
  unfold key_set, store_key. rewrite elem_of_union, elem_of_map. setoid_rewrite elem_of_dom.
  split; (intros [Hv|?]; [left|by right]).
  - destruct Hv as ([k' t]&->&?). by exists t.
  - destruct Hv as [t Ht]. by exists (k, t).
Qed.
#[local] Instance from_dec (start : option Key) (k : Key) : Decision (from start k).
Proof. destruct start; simpl; apply _. Defined.
(** The keys a pass from [start] may still visit. *)
Definition remaining (start : option Key) st : gset Key :=
  filter (λ k, from start k) (key_set st).
(** The work left: it decreases with every pass. *)
Definition gc_measure start st : nat := size (st_versions st) + size (remaining start st).

Lemma gc_steps_key_set st st' : gc_steps sp collapse st st' → key_set st' ⊆ key_set st.
Proof.
  intros Hst k. rewrite !elem_of_key_set.
  pose proof (gc_steps_subset _ _ _ _ Hst) as Hsub. rewrite map_subseteq_spec in Hsub.
  unfold store_key. rewrite (gc_steps_intents _ _ _ _ Hst).
  intros [(t&x&Hx)|?]; [left|by right]. exists t. rewrite (Hsub _ _ Hx). eauto.
Qed.
Lemma remaining_mono start n st st' :
  gc_steps sp collapse st st' → (∀ k, from n k → from start k) →
  remaining n st' ⊆ remaining start st.
Proof.
  intros Hst Hfrom k. unfold remaining. rewrite !elem_of_filter. intros [? ?].
  split; [by apply Hfrom|]. by eapply gc_steps_key_set.
Qed.
Lemma incremental_progress start st res st' :
  incremental_post start st (Ok res) st' → gr_done res = false →
  gc_measure (next_key (gr_cursor res)) st' < gc_measure start st.
Proof.
  intros (Hsteps&_&Hk0&Hv0&_&_&_&_&Hcount&Hnext) Hdone. unfold gc_measure.
  destruct (next_key (gr_cursor res)) as [n|]; [|by destruct Hnext; congruence].
  destruct Hnext as (_&Hn&Hfn&_&Hprog).
  assert (∀ k, rle n k → from start k) as Hfrom.
  { intros k Hk. destruct start as [s|]; simpl in *; [by etrans|done]. }
  pose proof (remaining_mono start (Some n) _ _ Hsteps Hfrom) as Hsub.
  unfold version_count in Hcount.
  destruct Hprog as [Hmax|(k&Hk&Hfk&Hlt)].
  - apply subseteq_size in Hsub. lia.
  - assert (size (remaining (Some n) st') < size (remaining start st)); [|lia].
    apply subset_size. split; [done|]. intros Hsup.
    assert (k ∈ remaining start st) as Hin.
    { unfold remaining. by rewrite elem_of_filter, elem_of_key_set. }
    apply Hsup in Hin. unfold remaining in Hin. apply elem_of_filter in Hin as [Hle _].
    simpl in Hle. by apply rlt_not_rle in Hlt.
Qed.
(** The keys below the cursor stay clean from pass to pass. *)
Lemma incremental_prefix_clean start st res st' :
  incremental_post start st (Ok res) st' →
  (∀ k, ¬ from start k → gc_clean sp collapse st k) →
  ∀ k, (gr_done res = true ∨ ¬ from (next_key (gr_cursor res)) k) →
    gc_clean sp collapse st' k.
Proof.
  intros (Hsteps&Hbelow&_&_&_&_&_&_&_&Hnext) Hcl k Hk.
  destruct (decide (from start k)) as [Hf|Hf].
  2:{ apply (same_key_clean _ _ st); [by apply Hbelow|by apply Hcl]. }
  destruct (next_key (gr_cursor res)) as [n|].
  - destruct Hnext as (Hd&_&_&Hc&_). destruct Hk as [?|Hk]; [congruence|].
    apply Hc; [done|]. by apply rlt_not_rle.
  - by apply Hnext.
Qed.

Definition gc_error (err : GcError) : Prop :=
  (err = GcError.InvalidGcBudget ∧ (max_k = 0 ∨ max_v = 0)%N) ∨
  may_fail ∧ ∃ msg, err = GcError.Backend msg.
Lemma gc_loop_wp fuel cursor total e :
  einv e → budget_fits options →
  gc_measure (cursor ≫= next_key) (estore e) < fuel →
  (total + version_count (estore e) < usize_modulus)%N →
  (∀ k, ¬ from (cursor ≫= next_key) k → gc_clean sp collapse (estore e) k) →
  wp (gc_loop fuel sp options cursor total) e (λ e' r, einv e' ∧
    gc_steps sp collapse (estore e) (estore e') ∧
    match r with
    | Ok (Some total') =>
        (total' + version_count (estore e') = total + version_count (estore e))%N ∧
        ∀ k, gc_clean sp collapse (estore e') k
    | Ok None => False
    | Err err => gc_error err
    | Panic => False
    end).
Proof.
  revert cursor total e. induction fuel as [|fuel IH]; intros cursor total e Hinv Hfit Hm Htot Hcl.
  { lia. }
  apply wp_bind. eapply wp_mono; [by apply gc_incremental_wp|].
  intros e1 r [He1 Hpost]. pose proof Hpost as (Hsteps&_&Hr).
  destruct r as [res|err|]; [|split; [done|]; split; [done|]; unfold gc_error; naive_solver|done].
  destruct Hr as (_&_&_&_&_&_&Hcount&_).
  apply wp_add; [lia|]. destruct (gr_done res) eqn:Hd.
  - apply wp_ret. split; [done|]. split; [done|]. split; [lia|]. intros k.
    eapply incremental_prefix_clean; eauto.
  - eapply wp_mono; [apply IH; [done|done| |lia|]|].
    + pose proof (incremental_progress _ _ _ _ Hpost Hd). simpl. lia.
    + intros k Hk. eapply incremental_prefix_clean; eauto.
    + intros e2 r (He2&Hsteps2&Hr). split; [done|]. split; [by etrans|].
      destruct r as [[total'|]| |]; try done. destruct Hr. split; [lia|done].
Qed.

Lemma count_intents_wp keys total e :
  einv e → (total + locked_in (estore e) keys < usize_modulus)%N →
  wp (M_fold count_intent keys total) e (λ e' r, e' = e ∧
    match r with
    | Ok n => n = (total + locked_in (estore e) keys)%N
    | Err err => may_fail ∧ ∃ msg, err = GcError.Backend msg
    | Panic => False
    end).
Proof.
  revert total. induction keys as [|key keys IH]; intros total Hinv Hfit.
  { apply wp_ret. rewrite locked_in_nil. split; [done|lia]. }
  rewrite locked_in_cons in *. apply wp_bind, wp_get_intent; [done| |by intros; eauto].
  assert (∀ n, n = (total + locked_one (estore e) key)%N →
    wp (M_fold count_intent keys n) e (λ e' r, e' = e ∧
    match r with
    | Ok n => n = (total + (locked_one (estore e) key + locked_in (estore e) keys))%N
    | Err err => may_fail ∧ ∃ msg, err = GcError.Backend msg
    | Panic => False
    end)) as Hrest.
  { intros n ->. eapply wp_mono; [apply IH; [done|lia]|].
    intros e' [m| |] [-> Hr]; split; try done. lia. }
  unfold locked_one in *. case_bool_decide; [apply wp_add_ret; [lia|]|apply wp_ret];
    apply Hrest; lia.
Qed.
(** Counting over all keys counts the intents. *)
Lemma locked_in_all st keys :
  NoDup keys → (∀ k, k ∈ keys ↔ store_key st k) →
  locked_in st keys = N.of_nat (size (st_intents st)).
Proof.
  intros Hnd Hall. unfold locked_in, len. f_equal.
  assert (list_to_set (C := gset Key) (filter (λ k, is_Some (st_intents st !! k)) keys) =
    dom (st_intents st)) as E.
  { apply set_eq. intros k. rewrite elem_of_list_to_set, list_elem_of_filter, elem_of_dom, Hall.
    unfold store_key. naive_solver. }
  rewrite <-size_dom, <-E, size_list_to_set; [done|]. by apply NoDup_filter.
Qed.

Lemma gc_wp fuel e :
  einv e → budget_fits options →
  gc_measure None (estore e) < fuel →
  (version_count (estore e) < usize_modulus)%N →
  (N.of_nat (size (st_intents (estore e))) < usize_modulus)%N →
  wp (gc fuel sp options) e (λ e' r, einv e' ∧
    gc_steps sp collapse (estore e) (estore e') ∧
    match r with
    | Ok (Some stats) =>
        (gs_versions_removed stats + version_count (estore e') = version_count (estore e))%N ∧
        gs_intents_preserved stats = N.of_nat (size (st_intents (estore e))) ∧
        ∀ k, gc_clean sp collapse (estore e') k
    | Ok None => False
    | Err err => gc_error err
    | Panic => False
    end).
Proof.
  intros Hinv Hfit Hfuel Hver Hint. unfold gc. apply wp_bind.
  eapply wp_mono; [apply gc_loop_wp; [done|done|done|lia|]|].
  { intros k Hk. by destruct Hk. }
  intros e1 r (He1&Hsteps&Hr). destruct r as [[total|]|err|]; [|done|by split|done].
  destruct Hr as [Hcount Hclean].
  eapply wp_rd; [by apply law_all_keys| |intros; split; [done|]; split; [done|]; right; eauto].
  intros keys [Hs Hall]. pose proof (StronglySorted_NoDup rlt keys Hs) as Hnd.
  pose proof (locked_in_all _ _ Hnd Hall) as Hl.
  change (abs (backend e1)) with (estore e1) in Hl.
  rewrite (gc_steps_intents _ _ _ _ Hsteps) in Hl.
  apply wp_bind. eapply wp_mono; [apply count_intents_wp; [done|]|].
  { unfold estore in *. lia. }
  intros e2 r [-> Hr]. destruct r as [n|err|]; [|split; [done|]; split; [done|by right]|done].
  apply wp_ret. split; [done|]. split; [done|]. simpl. split; [lia|]. split; [|done].
  unfold estore in *. lia.
Qed.

(** Whatever the fuel and the totals, a collection is a sequence of permitted
    removals. *)
Lemma wp_add_any {C} a b (k : N → M (MvccEngine B) GcError C) e Q :
  (∀ n, wp (k n) e Q) → Q e Panic → wp (M_bind (add a b) k) e Q.
Proof.
  intros Hk Hp. apply wp_bind. unfold add, M_lift, wp, usize_add. simpl.
  destruct (_ <? _)%N; [apply Hk|]. destruct overflow_checks; [done|apply Hk].
Qed.
(** An error of a collection: the budget is rejected or the backend failed. *)
Definition error_ok {A} (r : res GcError A) : Prop :=
  match r with Err err => gc_error err | _ => True end.
Lemma gc_loop_safe fuel cursor total e :
  einv e → budget_fits options →
  wp (gc_loop fuel sp options cursor total) e (λ e' r, einv e' ∧
    gc_steps sp collapse (estore e) (estore e') ∧ error_ok r).
Proof.
  revert cursor total e. induction fuel as [|fuel IH]; intros cursor total e Hinv Hfit.
  { apply wp_ret. split; [done|]. by split; [apply rtc_refl|]. }
  apply wp_bind. eapply wp_mono; [by apply gc_incremental_wp|].
  intros e1 r [He1 (Hsteps&_&Hr)]. destruct r as [res|err|];
    [|split; [done|]; split; [done|]; unfold error_ok, gc_error; naive_solver|done].
  apply wp_add_any; [intros n|done]. destruct (gr_done res); [by apply wp_ret|].
  eapply wp_mono; [by apply IH|]. intros e2 r2 (He2&Hsteps2&?). split; [done|]. split; [by etrans|done].
Qed.
Lemma count_intents_safe keys total e :
  einv e → wp (M_fold count_intent keys total) e (λ e' r, e' = e ∧ error_ok r).
Proof.
  intros Hinv. revert total. induction keys as [|key keys IH]; intros total; [done|].
  apply wp_bind, wp_get_intent; [done| |intros; split; [done|]; right; eauto].
  case_bool_decide; [|apply wp_ret, IH].
  unfold wp, add, M_lift, usize_add. simpl.
  destruct (_ <? _)%N; [apply IH|]. destruct overflow_checks; [done|apply IH].
Qed.
Lemma gc_safe fuel e :
  einv e → budget_fits options →
  wp (gc fuel sp options) e (λ e' r, einv e' ∧
    gc_steps sp collapse (estore e) (estore e') ∧ error_ok r).
Proof.
  intros Hinv Hfit. unfold gc. apply wp_bind. eapply wp_mono; [by apply gc_loop_safe|].
  intros e1 [[total|]|err|] (He1&Hsteps&Herr); [|by apply wp_ret|done|done].
  eapply wp_rd; [by apply law_all_keys| |].
  - intros keys _. apply wp_bind. eapply wp_mono; [by apply count_intents_safe|].
    by intros e2 [n|err|] [-> ?].
  - intros. split; [done|]. split; [done|]. right; eauto.
Qed.
End gc.
