(* ===== verification/Examples.v ===== *)
(** * Examples: the small programs of [src/examples/]

    [direct_set], [guarded_incr], [multi_key_intent_txn] and [abort_replay] as
    programs on an engine: what they print is their result, [unwrap] and a failed
    conversion end them with a panic. *)
From S2P Require Export Engine Text.

Module Examples.
Section examples.
Context {B : Type} `{Backend B} `{HP : Platform}.
(** [main] returns no [Result]. *)
Abbreviation Main := (M (MvccEngine B) Empty_set).

(** A method of the engine, unwrapped. *)
Definition call {E A} (m : M (MvccEngine B) E A) : Main A :=
  let! r := M_try m in M_unwrap r.
Definition read_call (key : Key) (read_ts : Timestamp) : Main (option Value) :=
  call (M_gets (λ e, read e key read_ts)).
(** [Option::unwrap]. *)
Definition unwrap_option {A} (o : option A) : Main A :=
  M_lift (match o with Some a => Ok a | None => Panic end).
(** [value.map(|v| String::from_utf8(v).unwrap())]. *)
Definition map_utf8 (value : option Value) : Main (option (list byte)) :=
  match value with
  | Some v => let! s := unwrap_option (from_utf8 v) in M_ret (Some s)
  | None => M_ret None
  end.

(** [examples/direct_set.rs]: the value read back. *)
Definition direct_set : Main (option (list byte)) :=
  let write := mkWrite (bytes "config_version") (Some (bytes "1.0")) in
  call (apply_direct_batch (TS 10) [write]);!
  let! value := read_call (bytes "config_version") (TS 15) in
  map_utf8 value.

(** [examples/guarded_incr.rs]: the numbers it announces, the outcome of the guarded
    write and the final value. *)
Definition guarded_incr : Main (N * N * res BatchError unit * option (list byte)) :=
  call (apply_direct_batch (TS 5) [mkWrite (bytes "counter") (Some (bytes "10"))]);!
  let read_ts := TS 8 in
  let! current := read_call (bytes "counter") read_ts in
  let! current_val := unwrap_option current in
  let! current_str := unwrap_option (from_utf8 current_val) in
  let! current_num := unwrap_option (parse_u64 current_str) in
  let! new_num := M_lift (uint_add 64 current_num 1) in
  let new_val := to_string new_num in
  let guards := [ExpectedValue (bytes "counter") read_ts (Some current_val)] in
  let writes := [mkWrite (bytes "counter") (Some new_val)] in
  let! result := M_try (apply_guarded_batch (TS 10) guards writes) in
  let! final_val := read_call (bytes "counter") (TS 15) in
  let! final_str := map_utf8 final_val in
  M_ret (current_num, new_num, result, final_str).

(** [examples/multi_key_intent_txn.rs]: [None] when the prewrite fails and the
    program returns; otherwise what the reader sees of the pending transaction, the
    outcome of the commit, and the two final values. *)
Definition multi_key_intent_txn :
    Main (option (option Value * res BatchCommitError unit * list byte * list byte)) :=
  let txn_id := TXN 100 in
  let start_ts := TS 10 in
  let writes := [mkWrite (bytes "account_a") (Some (bytes "900"));
                 mkWrite (bytes "account_b") (Some (bytes "1100"))] in
  let! prewritten := M_try (prewrite_batch txn_id start_ts writes) in
  match prewritten with
  | Ok _ =>
      let! read_a := read_call (bytes "account_a") (TS 15) in
      let keys := [bytes "account_a"; bytes "account_b"] in
      let! committed := M_try (commit_batch txn_id start_ts (TS 20) keys) in
      let! final_a := read_call (bytes "account_a") (TS 25) in
      let! final_a := unwrap_option final_a in
      let! final_b := read_call (bytes "account_b") (TS 25) in
      let! final_b := unwrap_option final_b in
      let! a := unwrap_option (from_utf8 final_a) in
      let! b := unwrap_option (from_utf8 final_b) in
      M_ret (Some (read_a, committed, a, b))
  | _ => M_ret None
  end.

(** [examples/abort_replay.rs]: the keys it prints; both aborts are unwrapped. *)
Definition abort_replay : Main (list (list byte)) :=
  let txn_id := TXN 42 in
  let start_ts := TS 10 in
  let keys := [bytes "key1"; bytes "key2"] in
  let writes := [mkWrite (bytes "key1") (Some (bytes "v1"));
                 mkWrite (bytes "key2") (Some (bytes "v2"))] in
  call (prewrite_batch txn_id start_ts writes);!
  let! printed := M_fold (λ l k, let! s := unwrap_option (from_utf8 k) in M_ret (l ++ [s]))
    keys [] in
  call (abort_batch txn_id start_ts keys);!
  call (abort_batch txn_id start_ts keys);!
  M_ret printed.
End examples.
End Examples.
