(* ===== verification/Agreement.v ===== *)
(** * Agreement: the example programs on any backend

    A relational logic for the monad of the engine's methods: two engines whose
    backends keep the contract, do not fail and stand for the same store run a program
    alike and stand for the same store again.  With it, what an example program does on
    the in-memory backend is what it does on every backend that keeps the contract. *)
From S2P Require Export GcSpec ConformanceSpec Examples.

Section agree.
Context {B1 B2 : Type} `{HL1 : BackendLaws B1} `{HL2 : BackendLaws B2} `{HP : Platform}.
Context (H1 : ¬ may_fail (B := B1)) (H2 : ¬ may_fail (B := B2)).

Definition same_engine (e1 : MvccEngine B1) (e2 : MvccEngine B2) : Prop :=
  same_store (backend e1) (backend e2).
Definition agree {E A} (m1 : M (MvccEngine B1) E A) (m2 : M (MvccEngine B2) E A) : Prop :=
  ∀ e1 e2, same_engine e1 e2 →
    (m1 e1).2 = (m2 e2).2 ∧ same_engine (m1 e1).1 (m2 e2).1.

(** ** Rules *)

Lemma agree_ret {E A} (a : A) : agree (E := E) (M_ret a) (M_ret a).
Proof. by intros e1 e2 Hs. Qed.
Lemma agree_throw {E A} (err : E) : agree (A := A) (M_throw err) (M_throw err).
Proof. by intros e1 e2 Hs. Qed.
Lemma agree_lift {E A} (r : res E A) : agree (M_lift r) (M_lift r).
Proof. by intros e1 e2 Hs. Qed.
Lemma agree_bind {E A C} m1 m2 (k1 : A → M (MvccEngine B1) E C) k2 :
  agree m1 m2 → (∀ a, agree (k1 a) (k2 a)) → agree (M_bind m1 k1) (M_bind m2 k2).
Proof.
  intros Hm Hk e1 e2 Hs. destruct (Hm e1 e2 Hs) as [Er Hs']. unfold M_bind.
  destruct (m1 e1) as [e1' r1], (m2 e2) as [e2' r2]. simpl in *. subst r2.
  destruct r1; [by apply Hk|done|done].
Qed.
Lemma agree_for {E A} (f1 : A → M (MvccEngine B1) E unit) f2 l :
  (∀ x, agree (f1 x) (f2 x)) → agree (M_for f1 l) (M_for f2 l).
Proof.
  intros Hf. induction l as [|x l IH]; [apply agree_ret|]. apply agree_bind; [apply Hf|done].
Qed.
Lemma agree_fold {E A X} (f1 : X → A → M (MvccEngine B1) E X) f2 l acc :
  (∀ acc x, agree (f1 acc x) (f2 acc x)) → agree (M_fold f1 l acc) (M_fold f2 l acc).
Proof.
  intros Hf. revert acc. induction l as [|x l IH]; intros acc; [apply agree_ret|].
  apply agree_bind; [apply Hf|done].
Qed.
Lemma agree_try {E F A} (m1 : M (MvccEngine B1) E A) m2 :
  agree m1 m2 → agree (M_try (F := F) m1) (M_try m2).
Proof.
  intros Hm e1 e2 Hs. destruct (Hm e1 e2 Hs) as [Er Hs']. unfold M_try.
  destruct (m1 e1) as [e1' r1], (m2 e2) as [e2' r2]. simpl in *. by subst r2.
Qed.
Lemma agree_gets {E A} (f1 : MvccEngine B1 → res E A) f2 :
  (∀ e1 e2, same_engine e1 e2 → f1 e1 = f2 e2) → agree (M_gets f1) (M_gets f2).
Proof. intros Hf e1 e2 Hs. split; [by apply Hf|done]. Qed.

(** Queries whose answer is determined by the store. *)
Lemma reads_same {A} (r1 r2 : res string A) (P1 P2 : A → Prop) :
  reads (may_fail (B := B1)) r1 P1 → reads (may_fail (B := B2)) r2 P2 →
  (∀ a a', P1 a → P2 a' → a = a') → r1 = r2.
Proof. destruct r1, r2; simpl; try done. intros Ha Ha' Hfun. by rewrite (Hfun _ _ Ha Ha'). Qed.
Lemma visible_same b1 b2 k rt :
  same_store b1 b2 → get_visible_committed (B := B1) b1 k rt = get_visible_committed b2 k rt.
Proof.
  intros (Hi1&Hi2&E). eapply reads_same; [by apply law_get_visible_committed..|].
  rewrite E. apply is_visible_fun.
Qed.
Lemma latest_same b1 b2 k :
  same_store b1 b2 → get_latest_commit_ts (B := B1) b1 k = get_latest_commit_ts b2 k.
Proof.
  intros (Hi1&Hi2&E). eapply reads_same; [by apply law_get_latest_commit_ts..|].
  rewrite E. apply is_latest_ts_fun.
Qed.
Lemma intent_same b1 b2 k :
  same_store b1 b2 → get_intent (B := B1) b1 k = get_intent b2 k.
Proof.
  intros (Hi1&Hi2&E). eapply reads_same; [by apply law_get_intent..|]. rewrite E. congruence.
Qed.
Lemma agree_rd {E A} (f1 : B1 → res string A) f2 (wrap : string → E) :
  (∀ b1 b2, same_store b1 b2 → f1 b1 = f2 b2) → agree (rd f1 wrap) (rd f2 wrap).
Proof.
  intros Hf e1 e2 Hs. unfold rd. simpl. split; [|done]. by rewrite (Hf _ _ Hs).
Qed.

(** Updates. *)
Lemma agree_wr {E} (m1 : M B1 string unit) m2 (wrap : string → E) (f : Store → Store) :
  (∀ b, backend_inv b → writes (may_fail (B := B1)) backend_inv abs b (m1 b) (λ _, f (abs b))) →
  (∀ b, backend_inv b → writes (may_fail (B := B2)) backend_inv abs b (m2 b) (λ _, f (abs b))) →
  agree (wr m1 wrap) (wr m2 wrap).
Proof.
  intros Hw1 Hw2 [b1] [b2] (Hi1&Hi2&Est). simpl in *.
  destruct (updates_agree b1 b2 (m1 b1) (m2 b2) f _ _ H1 H2 Est) as [Ha Hs'];
    [by intros [] []|by apply Hw1|by apply Hw2|].
  specialize (Hw1 _ Hi1). specialize (Hw2 _ Hi2). unfold wr, writes in *. simpl.
  destruct (m1 b1) as [b1' [[]| |]], (m2 b2) as [b2' [[]| |]]; simpl in *; tauto.
Qed.

(** ** Automation *)

(** One rule of the logic; a [match] or [if] on the same term on both sides is split. *)
Ltac agree_step :=
  match goal with
  | |- agree (M_ret _) (M_ret _) => apply agree_ret
  | |- agree (M_throw _) (M_throw _) => apply agree_throw
  | |- agree (M_lift _) (M_lift _) => apply agree_lift
  | |- agree (M_bind _ _) (M_bind _ _) => apply agree_bind; [|intros ?]
  | |- agree (M_for _ _) (M_for _ _) => apply agree_for; intros ?
  | |- agree (M_fold _ _ _) (M_fold _ _ _) => apply agree_fold; intros ? ?
  | |- agree (M_try _) (M_try _) => apply agree_try
  | |- agree (wr (commit_intents_batch ?vs ?l) _) _ =>
      apply (agree_wr _ _ _ (λ st, store_remove_intents l (store_put_versions vs st)));
        intros; by apply law_commit_intents_batch
  | |- agree (wr _ _) (wr _ _) =>
      eapply agree_wr; intros;
      first [by apply law_put_intents_batch | by apply law_remove_intents_batch
            |by apply law_put_committed_batch]
  | |- agree (rd _ _) (rd _ _) =>
      apply agree_rd; intros;
      first [by apply intent_same | by apply latest_same | by apply visible_same]
  | |- agree (match ?x with _ => _ end) _ => destruct x
  end.
Ltac agree_auto := repeat agree_step.

(** ** The operations the example programs call *)

Lemma agree_reject {E} (err : Key → E) keys :
  agree (reject_duplicates err keys) (reject_duplicates err keys).
Proof. unfold reject_duplicates. agree_auto. Qed.
Hint Resolve agree_reject : core.
Lemma agree_prewrite_batch txn s ws : agree (prewrite_batch txn s ws) (prewrite_batch txn s ws).
Proof. unfold prewrite_batch, prewrite_check. agree_auto; auto. Qed.
Lemma agree_commit_batch txn s c keys :
  agree (commit_batch txn s c keys) (commit_batch txn s c keys).
Proof. unfold commit_batch, commit_check. agree_auto; auto. Qed.
Lemma agree_abort_batch txn s keys : agree (abort_batch txn s keys) (abort_batch txn s keys).
Proof. unfold abort_batch, abort_check. agree_auto; auto. Qed.
Lemma agree_direct c ws : agree (apply_direct_batch c ws) (apply_direct_batch c ws).
Proof. unfold apply_direct_batch, write_check. agree_auto; auto. Qed.
Lemma agree_guarded c gs ws : agree (apply_guarded_batch c gs ws) (apply_guarded_batch c gs ws).
Proof. unfold apply_guarded_batch, guard_check, write_check. agree_auto; auto. Qed.

Lemma same_read e1 e2 k rt : same_engine e1 e2 → read e1 k rt = read e2 k rt.
Proof. intros Hs. unfold read. by rewrite (visible_same _ _ k rt Hs). Qed.

(** The outcomes from two given engines. *)
Definition alike {E A} (m1 : M (MvccEngine B1) E A) (m2 : M (MvccEngine B2) E A)
    (e1 : MvccEngine B1) (e2 : MvccEngine B2) : Prop :=
  (m1 e1).2 = (m2 e2).2 ∧ estore (m1 e1).1 = estore (m2 e2).1.
Lemma agree_alike {E A} (m1 : M (MvccEngine B1) E A) m2 e1 e2 :
  same_engine e1 e2 → agree m1 m2 → alike m1 m2 e1 e2.
Proof. intros Hs Hm. destruct (Hm e1 e2 Hs) as [? (_&_&?)]. by split. Qed.

(** ** The example programs *)

Lemma agree_call {E A} (m1 : M (MvccEngine B1) E A) m2 :
  agree m1 m2 → agree (Examples.call m1) (Examples.call m2).
Proof. intros Hm. unfold Examples.call. apply agree_bind; [by apply agree_try|]. intros r. apply agree_lift. Qed.
Lemma agree_read_call k rt : agree (Examples.read_call k rt) (Examples.read_call k rt).
Proof. apply agree_call, agree_gets. intros. by apply same_read. Qed.
Hint Resolve agree_call agree_read_call agree_direct agree_guarded agree_prewrite_batch
  agree_commit_batch agree_abort_batch agree_lift : core.
Lemma agree_examples :
  agree Examples.direct_set Examples.direct_set ∧
  agree Examples.guarded_incr Examples.guarded_incr ∧
  agree Examples.multi_key_intent_txn Examples.multi_key_intent_txn ∧
  agree Examples.abort_replay Examples.abort_replay.
Proof.
  unfold Examples.direct_set, Examples.guarded_incr, Examples.multi_key_intent_txn,
    Examples.abort_replay, Examples.map_utf8, Examples.unwrap_option.
  split_and!; agree_auto; auto.
Qed.
End agree.
