(* ===== verification/Simulation.v ===== *)
(** * Simulation: the command-load simulation of [examples/command_load_sim.rs]

    A deterministic client of the engine: a generator of pseudo-random numbers
    chooses reads, writes, deletions, multi-key writes, immediate and delayed
    guarded increments, intent transactions and incremental collections.  The
    clock readings and the printing are left out; everything that decides what the
    program does is here.  [fresh] is [InMemoryBackend::new()]. *)
From S2P Require Export Gc Text.

Module Sim.
Definition KEYSPACE : N := 20000.
Definition HOT_KEYS : N := 32.
Definition INITIAL_KEYS : N := 20000.
Definition OPS : N := 100000.
Definition GC_RETENTION : N := 2000.

(** ** Data *)

Record PendingIncr := mkPending {
  due_op : N;
  pi_key : Key;
  pi_read_ts : Timestamp;
  expected_value : option Value;
  new_value : Value;
}.

(** The counters of [Stats]; its durations are clock readings. *)
Record Stats := mkStats {
  st_reads : N;
  st_sets : N;
  st_deletes : N;
  st_msets : N;
  st_incr_immediate : N;
  st_incr_delayed : N;
  st_txns : N;
  st_guard_conflicts : N;
  st_guard_retries : N;
  st_applied_pending : N;
  st_gc_runs : N;
  st_gc_removed : N;
}.
Definition Stats_default : Stats := mkStats 0 0 0 0 0 0 0 0 0 0 0 0.

(** The names of the counters, to read and write one. *)
Inductive Counter :=
| reads | sets | deletes | msets | incr_immediate | incr_delayed | txns
| guard_conflicts | guard_retries | applied_pending | gc_runs | gc_removed.
#[export] Instance Counter_eq_dec : EqDecision Counter.
Proof. solve_decision. Defined.
Definition stat (s : Stats) (c : Counter) : N :=
  match c with
  | reads => st_reads s | sets => st_sets s | deletes => st_deletes s
  | msets => st_msets s | incr_immediate => st_incr_immediate s
  | incr_delayed => st_incr_delayed s | txns => st_txns s
  | guard_conflicts => st_guard_conflicts s | guard_retries => st_guard_retries s
  | applied_pending => st_applied_pending s | gc_runs => st_gc_runs s
  | gc_removed => st_gc_removed s
  end.
Definition set_stat (c : Counter) (n : N) (s : Stats) : Stats :=
  let get c' := if decide (c' = c) then n else stat s c' in
  mkStats (get reads) (get sets) (get deletes) (get msets) (get incr_immediate)
    (get incr_delayed) (get txns) (get guard_conflicts) (get guard_retries)
    (get applied_pending) (get gc_runs) (get gc_removed).

Record WorkloadMix := mkMix {
  name : string;
  enable_gc : bool;
  hot_key_percent : N;
  mix_read : N;
  mix_set : N;
  mix_del : N;
  mix_mset : N;
  mix_incr : N;
  mix_txn : N;
}.

(** The error of a loop that ran out of the model's fuel. *)
Inductive Stuck := out_of_fuel.

(** ** The generator *)

Record Lcg := Lcg_new { Lcg_0 : N }.

Definition Lcg_next (g : Lcg) : Lcg :=
  Lcg_new (wrapping_add (wrapping_mul (Lcg_0 g) 6364136223846793005) 1).
Definition Lcg_range {E} (upper : N) : M Lcg E N :=
  λ g, let g' := Lcg_next g in (g', uint_rem (Lcg_0 g') upper).

(** [format!("key:{id:08}")]. *)
Definition key (id : N) : Key := bytes "key:" ++ zero_padded 8 id.

Definition choose_key {E} (hot_key_percent : N) : M Lcg E Key :=
  let! roll := Lcg_range 100 in
  if (roll <? hot_key_percent)%N
  then let! id := Lcg_range HOT_KEYS in M_ret (key id)
  else let! id := Lcg_range KEYSPACE in M_ret (key id).

(** [while a == b { b = key((rng.range(KEYSPACE) + HOT_KEYS) % KEYSPACE); }]. *)
Fixpoint redraw `{Platform} (fuel : nat) (a b : Key) : M Lcg Stuck Key :=
  if decide (a = b) then
    match fuel with
    | O => M_throw out_of_fuel
    | S fuel =>
        let! r := Lcg_range KEYSPACE in
        let! id := M_lift (uint_add 64 r HOT_KEYS) in
        let! id := M_lift (uint_rem id KEYSPACE) in
        redraw fuel a (key id)
    end
  else M_ret b.

Definition parse_counter (value : option Value) : N :=
  default 0%N (v ← value; s ← from_utf8 v; parse_u64 s).

(** ** Guarded increments *)

Section simulation.
Context {B : Type} `{Backend B} `{HP : Platform}.
Abbreviation Engine := (MvccEngine B).

Definition apply_guarded_incr (commit_ts : Timestamp) (pending : PendingIncr) :
    M Engine BatchError unit :=
  apply_guarded_batch commit_ts
    [ExpectedValue (pi_key pending) (pi_read_ts pending) (expected_value pending)]
    [mkWrite (pi_key pending) (Some (new_value pending))].

(** [engine.read(key, read_ts).unwrap()]. *)
Definition read_unwrap {E} (key : Key) (read_ts : Timestamp) : M Engine E (option Value) :=
  M_gets (λ e, match read e key read_ts with Ok o => Ok o | _ => Panic end).
(** [(parse_counter(current) + 1).to_string().into_bytes()]. *)
Definition next_counter {S E} (current : option Value) : M S E Value :=
  let! n := M_lift (uint_add 64 (parse_counter current) 1) in M_ret (to_string n).

Definition retry_incr (key : Key) (read_ts commit_ts : Timestamp) :
    M Engine BatchError unit :=
  let! current := read_unwrap key read_ts in
  let! next_value := next_counter current in
  apply_guarded_batch commit_ts
    [ExpectedValue key read_ts current] [mkWrite key (Some next_value)].

(** ** The state of a run *)

Record SimState := mkSim {
  engine : Engine;
  rng : Lcg;
  stats : Stats;
  pending : list PendingIncr;
  next_ts : N;
  cursor : option IncrementalGcCursor;
}.
Abbreviation SimM := (M SimState Stuck).

Definition set_engine e s := mkSim e (rng s) (stats s) (pending s) (next_ts s) (cursor s).
Definition set_rng g s := mkSim (engine s) g (stats s) (pending s) (next_ts s) (cursor s).
Definition set_stats x s := mkSim (engine s) (rng s) x (pending s) (next_ts s) (cursor s).
Definition set_pending q s := mkSim (engine s) (rng s) (stats s) q (next_ts s) (cursor s).
Definition set_next_ts t s := mkSim (engine s) (rng s) (stats s) (pending s) t (cursor s).
Definition set_cursor c s := mkSim (engine s) (rng s) (stats s) (pending s) (next_ts s) c.

Definition on_rng {A} (m : M Lcg Stuck A) : SimM A := M_zoom rng set_rng m.
(** A call of an engine method, with its [Result] as a value, and unwrapped. *)
Definition on_engine {E A} (m : M Engine E A) : SimM (res E A) :=
  M_zoom engine set_engine (M_try m).
Definition call {E A} (m : M Engine E A) : SimM A :=
  let! r := on_engine m in M_unwrap r.

(** [stats.c += 1], a [u64]; [next_ts += 1], a [u128]. *)
Definition bump (c : Counter) : SimM unit :=
  let! n := M_gets (λ s, uint_add 64 (stat (stats s) c) 1) in
  M_modify (λ s, set_stats (set_stat c n (stats s)) s).
Definition tick : SimM unit :=
  let! t := M_gets (λ s, uint_add 128 (next_ts s) 1) in M_modify (set_next_ts t).
(** [Timestamp(next_ts)] and [Timestamp(next_ts - 1)]. *)
Definition now : SimM Timestamp := M_get (λ s, TS (next_ts s)).
Definition now_less_1 : SimM Timestamp :=
  let! t := M_gets (λ s, uint_sub 128 (next_ts s) 1) in M_ret (TS t).

(** ** The delayed increments *)

Definition is_guard_failure (result : res BatchError unit) : bool :=
  match result with
  | Err (BatchError.GuardFailedNewerVersion _ _ _)
  | Err (BatchError.GuardFailedValueMismatch _)
  | Err (BatchError.GuardFailedVersionMismatch _ _ _) => true
  | _ => false
  end.

(** What both loops do about a conflict. *)
Definition retry_conflict (key_for_retry : Key) : SimM unit :=
  bump guard_conflicts;!
  let! retry_read_ts := now_less_1 in
  let! retry_commit_ts := now in
  tick;!
  call (retry_incr key_for_retry retry_read_ts retry_commit_ts);!
  bump guard_retries.

(** The body of the loop over the increments that are due. *)
Definition apply_due (pending_incr : PendingIncr) : SimM unit :=
  let! commit_ts := now in
  tick;!
  let! result := on_engine (apply_guarded_incr commit_ts pending_incr) in
  bump applied_pending;!
  if is_guard_failure result then retry_conflict (pi_key pending_incr)
  else M_unwrap result.
(** The loop: it pops from the front, and its body does not push. *)
Fixpoint drain_due (op : N) (queue : list PendingIncr) : SimM unit :=
  match queue with
  | [] => M_ret tt
  | pending_incr :: queue =>
      if (due_op pending_incr <=? op)%N then
        M_modify (set_pending queue);!
        apply_due pending_incr;!
        drain_due op queue
      else M_ret tt
  end.

(** The loop after the last operation. *)
Definition apply_left (pending_incr : PendingIncr) : SimM unit :=
  let! commit_ts := now in
  tick;!
  let! result := on_engine (apply_guarded_incr commit_ts pending_incr) in
  bump applied_pending;!
  if is_err result then retry_conflict (pi_key pending_incr) else M_ret tt.
Fixpoint drain_all (queue : list PendingIncr) : SimM unit :=
  match queue with
  | [] => M_ret tt
  | pending_incr :: queue =>
      M_modify (set_pending queue);!
      apply_left pending_incr;!
      drain_all queue
  end.

(** ** One operation *)

Section mix.
Context (fuel : nat) (mix : WorkloadMix).

Definition do_read : SimM unit :=
  bump reads;!
  let! read_key := on_rng (choose_key (hot_key_percent mix)) in
  let! read_ts := now_less_1 in
  let! _value := call (read_unwrap (E := ReadError) read_key read_ts) in
  M_ret tt.

(** [engine.apply_direct_batch(Timestamp(next_ts), writes).unwrap(); next_ts += 1]. *)
Definition direct (writes : list PhysicalWrite) : SimM unit :=
  let! commit_ts := now in
  call (apply_direct_batch commit_ts writes);!
  tick.
Definition do_set (op : N) : SimM unit :=
  bump sets;!
  let! write_key := on_rng (choose_key (hot_key_percent mix)) in
  direct [mkWrite write_key (Some (bytes "v:" ++ to_string op))].
Definition do_delete : SimM unit :=
  bump deletes;!
  let! write_key := on_rng (choose_key (hot_key_percent mix)) in
  direct [mkWrite write_key None].

(** The loop that pushes the four writes. *)
Definition push_mset (op base : N) (writes : list PhysicalWrite) (i : N) :
    SimM (list PhysicalWrite) :=
  let! id := M_lift (uint_add 64 base i) in
  M_ret (writes ++ [mkWrite (key id)
    (Some (bytes "m:" ++ to_string op ++ bytes ":" ++ to_string i))]).
Definition do_mset (op : N) : SimM unit :=
  bump msets;!
  let! base := on_rng (Lcg_range (KEYSPACE - 4)) in
  let! writes := M_fold (push_mset op base) (upto 4) [] in
  direct writes.

Definition do_incr (op : N) : SimM unit :=
  let! incr_key := on_rng (choose_key (hot_key_percent mix)) in
  let! read_ts := now_less_1 in
  let! current := call (read_unwrap (E := ReadError) incr_key read_ts) in
  let! next_value := next_counter current in
  let! roll := on_rng (Lcg_range 100) in
  if (roll <? 40)%N then
    bump incr_delayed;!
    let! due := M_lift (uint_add 64 op 32) in
    let! delay := on_rng (Lcg_range 96) in
    let! due := M_lift (uint_add 64 due delay) in
    M_modify (λ s, set_pending
      (pending s ++ [mkPending due incr_key read_ts current next_value]) s)
  else
    bump incr_immediate;!
    let! commit_ts := now in
    call (apply_guarded_batch commit_ts [ExpectedValue incr_key read_ts current]
      [mkWrite incr_key (Some next_value)]);!
    tick.

Definition do_txn (op : N) : SimM unit :=
  bump txns;!
  let! id := M_lift (uint_add 64 op 1) in
  let txn_id := TXN id in
  let! start_ts := now in
  let! a := on_rng (choose_key (hot_key_percent mix)) in
  let! b := on_rng (choose_key (hot_key_percent mix)) in
  let! b := on_rng (redraw fuel a b) in
  let writes := [mkWrite a (Some (bytes "txn:" ++ to_string op ++ bytes ":a"));
                 mkWrite b (Some (bytes "txn:" ++ to_string op ++ bytes ":b"))] in
  call (prewrite_batch txn_id start_ts writes);!
  tick;!
  let! commit_ts := now in
  call (commit_batch txn_id start_ts commit_ts [a; b]);!
  tick.

(** The options of the incremental collection. *)
Definition sim_gc_options : GcOptions := mkGcOptions (mkGcBudget 50 200) false.
Definition do_gc : SimM unit :=
  let! safe_point := M_get (λ s, TS (next_ts s - GC_RETENTION)) in
  let! from := M_get cursor in
  let! res := call (gc_incremental safe_point from sim_gc_options) in
  let! removed := M_gets (λ s, usize_add (stat (stats s) gc_removed) (gr_versions_removed res)) in
  M_modify (λ s, set_stats (set_stat gc_removed removed (stats s)) s);!
  bump gc_runs;!
  M_modify (set_cursor (if gr_done res then None else Some (gr_cursor res))).

(** The sums of the weights against which the roll is compared. *)
Record Thresholds := mkThresholds {
  total_weight : N;
  r_thresh : N;
  s_thresh : N;
  d_thresh : N;
  m_thresh : N;
  i_thresh : N;
}.
Definition thresholds : res Stuck Thresholds :=
  let? rs := uint_add 64 (mix_read mix) (mix_set mix) in
  let? rsd := uint_add 64 rs (mix_del mix) in
  let? rsdm := uint_add 64 rsd (mix_mset mix) in
  let? rsdmi := uint_add 64 rsdm (mix_incr mix) in
  let? total := uint_add 64 rsdmi (mix_txn mix) in
  let r := mix_read mix in
  let? s := uint_add 64 r (mix_set mix) in
  let? d := uint_add 64 s (mix_del mix) in
  let? m := uint_add 64 d (mix_mset mix) in
  let? i := uint_add 64 m (mix_incr mix) in
  Ok (mkThresholds total r s d m i).

(** The body of the loop over the operations. *)
Definition run_op (th : Thresholds) (op : N) : SimM unit :=
  let! queue := M_get pending in
  drain_due op queue;!
  let! roll := on_rng (Lcg_range (total_weight th)) in
  (if (roll <? r_thresh th)%N then do_read
   else if (roll <? s_thresh th)%N then do_set op
   else if (roll <? d_thresh th)%N then do_delete
   else if (roll <? m_thresh th)%N then do_mset op
   else if (roll <? i_thresh th)%N then do_incr op
   else do_txn op);!
  if enable_gc mix && (0 <? op)%N && (op mod 10 =? 0)%N then do_gc else M_ret tt.

(** [logical_ops] and the denominators of the averages that are printed. *)
Definition report (x : Stats) (ops : N) : res Stuck (N * N * N) :=
  let? l := uint_add 64 ops (st_applied_pending x) in
  let? logical_ops := uint_add 64 l (st_guard_retries x) in
  let? w := uint_add 64 (st_sets x) (st_deletes x) in
  let? writes := uint_add 64 w (st_msets x) in
  let? g := uint_add 64 (st_incr_immediate x) (st_applied_pending x) in
  let? guarded := uint_add 64 g (st_guard_retries x) in
  Ok (logical_ops, N.max writes 1, N.max guarded 1).

(** [run_simulation] for given numbers of initial keys and of operations. *)
Definition initial_state (fresh : B) : SimState :=
  mkSim (MvccEngine_new fresh) (Lcg_new 0x5eed1234cafebabe) Stats_default [] 2 None.
Definition initial_writes (initial_keys : N) : list PhysicalWrite :=
  (λ i, mkWrite (key i) (Some (bytes "0"))) <$> upto initial_keys.
Definition run (initial_keys ops : N) : SimM (N * N * N) :=
  call (apply_direct_batch (TS 1) (initial_writes initial_keys));!
  let! th := M_lift thresholds in
  M_for (run_op th) (upto ops);!
  let! queue := M_get pending in
  drain_all queue;!
  M_gets (λ s, report (stats s) ops).
Definition run_simulation (fresh : B) : SimState * res Stuck (N * N * N) :=
  run INITIAL_KEYS OPS (initial_state fresh).
End mix.

(** ** [main] *)

Definition default_mix : WorkloadMix := mkMix "no_gc" false 85 65 12 4 4 13 2.
Definition mixes : list WorkloadMix := [
  default_mix;
  mkMix "incremental_gc" true 85 65 12 4 4 13 2;
  mkMix "hot_key_heavy" true 99 65 12 4 4 13 2;
  mkMix "read_heavy" true 85 90 5 1 1 2 1;
  mkMix "write_heavy" true 85 10 70 5 10 3 2;
  mkMix "guarded_heavy" true 85 20 5 1 4 65 5;
  mkMix "txn_heavy" true 85 30 10 2 3 5 50].
(** The simulations one after the other, each on a backend of its own. *)
Definition main (fuel : nat) (fresh : B) : res Stuck unit :=
  foldl (λ r mix, let? _ := r in let? _ := (run_simulation fuel mix fresh).2 in Ok tt)
    (Ok tt) mixes.
End simulation.
End Sim.
