(* ===== verification/SimulationSpec.v ===== *)
(** * SimulationSpec: the simulation never gets stuck

    The parity of the generator's draws, the engine's operations as the simulation
    uses them (one client, a clock ahead of every version, no transaction open
    between operations), and the ledger that ties the counters of a run to the
    contents of the store. *)
From S2P Require Export GcSpec Simulation.

Import Sim.

(** ** The generator *)

Lemma mod_mod_mul a m k : m ≠ 0%N → k ≠ 0%N → ((a mod (m * k)) mod m = a mod m)%N.
Proof.
  intros Hm Hk. assert (m * k ≠ 0)%N as Hmk by lia. rewrite (N.div_mod a (m * k)) at 2 by done.
  by rewrite N.add_comm, (N.mul_comm (m * k)), (N.mul_comm m k), N.mul_assoc, N.Div0.mod_add.
Qed.
(** Two steps of the generator add six modulo eight. *)
Lemma Lcg_next_mod8 g : (Lcg_0 (Lcg_next g) mod 8 = (5 * Lcg_0 g + 1) mod 8)%N.
Proof.
  unfold Lcg_next, wrapping_add, wrapping_mul. simpl Lcg_0.
  change (2 ^ 64)%N with (8 * 2 ^ 61)%N. rewrite mod_mod_mul by done.
  set (x := Lcg_0 g). set (p := (x * _)%N). pose proof (N.div_mod p (8 * 2 ^ 61) ltac:(done)) as Hp.
  set (q := (p / _)%N) in Hp. set (r := (p mod _)%N) in *.
  rewrite <-(N.Div0.mod_add (r + 1) (2 ^ 61 * q) 8).
  rewrite <-(N.Div0.mod_add (5 * x + 1) (795517027980849125 * x) 8). f_equal.
  unfold p in Hp. clearbody q r. lia.
Qed.

(** A draw is below its bound and is the remainder of the next state. *)
Lemma wp_range {E} upper g (Q : Lcg → res E N → Prop) :
  upper ≠ 0%N → (∀ r, (r < upper)%N → r = (Lcg_0 (Lcg_next g) mod upper)%N → Q (Lcg_next g) (Ok r)) →
  wp (Lcg_range upper) g Q.
Proof.
  intros Hu HQ. unfold wp, Lcg_range. simpl. rewrite uint_rem_ok by done.
  apply HQ; [by apply N.mod_lt|done].
Qed.

Lemma key_inj a b : (a < 2 ^ 64)%N → (b < 2 ^ 64)%N → key a = key b → a = b.
Proof. intros Ha Hb [= E]. by apply (zero_padded_inj 8). Qed.

(** The identifier of the key drawn shows the last three bits of the state it leaves
    (both key spaces are multiples of eight), which two draws increase by six. *)
Definition chosen (g : Lcg) (k : Key) : Prop :=
  ∃ id, k = key id ∧ (id < KEYSPACE)%N ∧ (id mod 8 = Lcg_0 g mod 8)%N.
Lemma choose_key_wp {E} hot g :
  wp (choose_key (E:=E) hot) g (λ g' r, ∃ k, r = Ok k ∧ chosen g' k ∧
    (Lcg_0 g' mod 8 = (Lcg_0 g + 6) mod 8)%N).
Proof.
  unfold choose_key. apply wp_bind, wp_range; [done|]. intros roll _ _.
  assert ((Lcg_0 (Lcg_next (Lcg_next g)) mod 8 = (Lcg_0 g + 6) mod 8)%N) as Hstep.
  { rewrite Lcg_next_mod8. pose proof (N.div_mod (Lcg_0 (Lcg_next g)) 8 ltac:(done)) as Hn.
    rewrite Lcg_next_mod8 in Hn. pose proof (N.div_mod (5 * Lcg_0 g + 1) 8 ltac:(done)) as Hg.
    set (q := (Lcg_0 (Lcg_next g) / 8)%N) in Hn. set (q' := ((5 * Lcg_0 g + 1) / 8)%N) in Hg.
    rewrite <-(N.Div0.mod_add _ (5 * q') 8). rewrite <-(N.Div0.mod_add (Lcg_0 g + 6) (3 * Lcg_0 g + 5 * q) 8).
    f_equal. lia. }
  destruct (roll <? hot)%N; apply wp_bind, wp_range; try done; intros id Hid Hval; apply wp_ret;
    (eexists; split; [done|]; split; [exists id; split; [done|]; split|done]).
  all: try (unfold HOT_KEYS, KEYSPACE in *; lia).
  - rewrite Hval. by apply (mod_mod_mul _ 8 4).
  - rewrite Hval. by apply (mod_mod_mul _ 8 2500).
Qed.
(** Two keys drawn in a row are different. *)
Lemma chosen_differ {E} hot g1 a :
  chosen g1 a → wp (choose_key (E:=E) hot) g1 (λ g2 r, ∃ b, r = Ok b ∧ chosen g2 b ∧ a ≠ b).
Proof.
  intros (ia&->&Ha&Hma). eapply wp_mono; [apply choose_key_wp|].
  intros g2 r (b&->&Hb&Hstep). exists b. split; [done|]. split; [done|].
  destruct Hb as (ib&->&Hib&Hmb). intros E'%key_inj; [|unfold KEYSPACE in *; lia..].
  subst ib. rewrite Hma, Hstep in Hmb. clear -Hmb.
  pose proof (N.div_mod (Lcg_0 g1) 8 ltac:(done)). pose proof (N.div_mod (Lcg_0 g1 + 6) 8 ltac:(done)).
  lia.
Qed.
(** The loop that looks for another key then ends at once. *)
Lemma redraw_differ `{HP : Platform} fuel a b g : a ≠ b → redraw fuel a b g = (g, Ok b).
Proof. intros Hne. destruct fuel; cbn [redraw]; by rewrite decide_False. Qed.

(** ** The engine as the simulation uses it *)

Section engine.
Context {B : Type} `{HL : BackendLaws B}.
Implicit Types (e : MvccEngine B) (n : N) (k : Key).

(** No transaction is open, every version is below the clock [n], and a counter
    never exceeds the timestamp it was written at. *)
Record settled e n : Prop := {
  settled_inv : einv e;
  settled_unlocked k : st_intents (estore e) !! k = None;
  settled_versions k t x : st_versions (estore e) !! (k, t) = Some x →
    (ts_val t < n ∧ parse_counter x ≤ ts_val t)%N;
}.

Lemma settled_newer e n k : settled e n → (n < 2 ^ 128)%N → newer_than_all (estore e) k (TS n).
Proof. intros Hs Hn t x Hx. rewrite ts_val_TS by done. by apply (settled_versions _ _ Hs) in Hx as [? _]. Qed.

Lemma read_settled {E} e n k rt (Q : MvccEngine B → res E (option Value) → Prop) :
  settled e n → ¬ may_fail →
  (∀ o, sees (estore e) k rt o → (parse_counter o ≤ ts_val rt)%N → Q e (Ok o)) →
  wp (read_unwrap k rt) e Q.
Proof.
  intros Hs Hfail HQ. pose proof (read_sees e k rt (settled_inv _ _ Hs)) as Hr.
  unfold wp, read_unwrap, M_gets. simpl. destruct (read e k rt) as [o| |]; [|done..].
  apply HQ; [done|]. destruct Hr as ([v|]&Hv&->); [|apply N.le_0_l].
  destruct Hv as (_&Hle&Hv&_). apply (settled_versions _ _ Hs) in Hv. simpl. lia.
Qed.

(** A batch of writes at the clock. *)
Definition batch_ok n (writes : list PhysicalWrite) : Prop :=
  writes ≠ [] ∧ NoDup (pw_key <$> writes) ∧
  ∀ w, w ∈ writes → (parse_counter (pw_value w) ≤ n)%N.

Lemma version_count_put st vs :
  NoDup (cv_key <$> vs) → (∀ v, v ∈ vs → st_versions st !! (cv_key v, cv_commit_ts v) = None) →
  version_count (store_put_versions vs st) = (version_count st + len vs)%N.
Proof.
  revert st. induction vs as [|v vs IH]; intros st Hnd Hnew; [rewrite len_nil; simpl; lia|].
  inversion Hnd as [|? ? Hv Hnd']; subst. simpl. rewrite IH, len_cons; [|done|].
  - unfold version_count. simpl. rewrite map_size_insert_None by (apply Hnew; constructor). lia.
  - intros w Hw. simpl. rewrite lookup_insert_ne by
      (intros [= E _]; apply Hv; rewrite E; by apply list_elem_of_fmap_2).
    apply Hnew. by constructor.
Qed.
Lemma settled_mono e n m : settled e n → (n ≤ m)%N → settled e m.
Proof. intros [Hi Hu Hv] Hm. split; [done..|]. intros k t x Hx. apply Hv in Hx. lia. Qed.
(** Versions written at the clock [n] when it moves on to [m]. *)
Lemma settled_put e e' n m vs :
  settled e n → (n < m)%N → (n < 2 ^ 128)%N → einv e' →
  NoDup (cv_key <$> vs) →
  (∀ v, v ∈ vs → cv_commit_ts v = TS n ∧ (parse_counter (cv_value v) ≤ n)%N) →
  (∀ k, st_intents (estore e') !! k = None) →
  st_versions (estore e') = st_versions (store_put_versions vs (estore e)) →
  settled e' m ∧ version_count (estore e') = (version_count (estore e) + len vs)%N.
Proof.
  intros Hs Hm Hn He' Hnd Hvs Hi Hv. split; [split|].
  - done.
  - done.
  - intros k t x Hx. rewrite Hv in Hx. apply put_versions_inv in Hx as [(v&Hin&_&<-&<-)|Hx].
    + destruct (Hvs _ Hin) as [-> ?]. rewrite ts_val_TS by done. lia.
    + apply (settled_versions _ _ Hs) in Hx. lia.
  - unfold version_count at 1. rewrite Hv. apply version_count_put; [done|].
    intros v Hin. destruct (Hvs _ Hin) as [-> _].
    destruct (st_versions (estore e) !! (cv_key v, TS n)) as [x|] eqn:Hx; [|done].
    apply (settled_versions _ _ Hs) in Hx. rewrite ts_val_TS in Hx by done. lia.
Qed.
Lemma settled_write e e' n writes :
  settled e n → (n < 2 ^ 128)%N → batch_ok n writes → einv e' →
  estore e' = store_put_versions (write_version (TS n) <$> writes) (estore e) →
  settled e' (n + 1) ∧ version_count (estore e') = (version_count (estore e) + len writes)%N.
Proof.
  intros Hs Hn (_&Hnd&Hval) He' E.
  destruct (settled_put e e' n (n + 1) (write_version (TS n) <$> writes)) as [? Hc];
    [done|lia|done|done|by rewrite <-list_fmap_compose| | |by rewrite E|].
  - intros v (w&->&Hw)%list_elem_of_fmap. split; [done|]. by apply Hval.
  - intros k. rewrite E, put_versions_intents. by apply settled_unlocked with n.
  - split; [done|]. rewrite Hc. unfold len. by rewrite length_fmap.
Qed.
(** A collection only removes versions. *)
Lemma settled_gc sp collapse e e' n :
  settled e n → einv e' → gc_steps sp collapse (estore e) (estore e') → settled e' n.
Proof.
  intros Hs He' Hsteps. split; [done| |].
  - intros k. rewrite (gc_steps_intents _ _ _ _ Hsteps). by apply settled_unlocked with n.
  - intros k t x Hx. apply (settled_versions _ _ Hs) with k.
    eapply lookup_weaken; [exact Hx|by eapply gc_steps_subset].
Qed.

Section live.
Context (Hfail : ¬ may_fail).

Lemma settled_free e n k : settled e n → (n < 2 ^ 128)%N → free (estore e) (TS n) k.
Proof. split; [by apply settled_unlocked with n|by apply settled_newer]. Qed.

Lemma direct_settled e n writes (Q : MvccEngine B → res BatchError unit → Prop) :
  settled e n → (n < 2 ^ 128)%N → batch_ok n writes →
  (∀ e', settled e' (n + 1) →
     version_count (estore e') = (version_count (estore e) + len writes)%N → Q e' (Ok tt)) →
  wp (apply_direct_batch (TS n) writes) e Q.
Proof.
  intros Hs Hn Hb HQ. pose proof Hb as (Hne&Hnd&_).
  eapply wp_mono; [apply direct_batch_free; try done; [by apply Hs|]|].
  { intros w _. by apply settled_free. }
  intros e' r (->&He'&E). by destruct (settled_write e e' n writes) as [? ?]; [..|apply HQ].
Qed.

(** A write at the clock is what every later read sees. *)
Lemma sees_written e e' n k v rt :
  settled e n → (n < 2 ^ 128)%N → (n ≤ ts_val rt)%N →
  estore e' = store_put_versions [mkVersion k (TS n) v] (estore e) → sees (estore e') k rt v.
Proof.
  intros Hs Hn Hrt ->. exists (Some (mkVersion k (TS n) v)). split; [|done].
  split_and!; [done|by simpl; rewrite ts_val_TS|apply lookup_insert_eq|]. intros t x Hx _. simpl in *.
  apply lookup_insert_Some in Hx as [[[= <-] _]|[_ Hx]]; [done|].
  apply (settled_versions _ _ Hs) in Hx. rewrite ts_val_TS by done. lia.
Qed.
(** Nothing is written between the newest version and the clock. *)
Lemma sees_latest e n k rt o :
  settled e n → (1 ≤ n)%N → (n < 2 ^ 128)%N →
  (∀ t x, st_versions (estore e) !! (k, t) = Some x → (t ≤ rt)%ts) →
  sees (estore e) k rt o → sees (estore e) k (TS (n - 1)) o.
Proof.
  intros Hs H1 Hn Hle (v&Hv&->). exists v. split; [|done]. destruct v as [v|].
  - destruct Hv as (?&_&Hv&Hmax). split_and!; [done| |done|].
    + apply (settled_versions _ _ Hs) in Hv as [? _]. rewrite ts_val_TS by lia. lia.
    + intros t x Hx _. by apply (Hmax t x Hx), (Hle t x).
  - intros t x Hx. pose proof (Hv t x Hx). specialize (Hle t x Hx). lia.
Qed.

(** A guarded write at the clock either takes place, the guarded value being the
    current one, or reports its guard. *)
Lemma guarded_settled e n k rt x v (Q : MvccEngine B → res BatchError unit → Prop) :
  settled e n → (n < 2 ^ 128)%N → (ts_val rt < n)%N → (parse_counter (Some v) ≤ n)%N →
  (∀ e', settled e' (n + 1) → sees (estore e) k (TS (n - 1)) x →
     estore e' = store_put_versions [mkVersion k (TS n) (Some v)] (estore e) →
     version_count (estore e') = (version_count (estore e) + 1)%N → Q e' (Ok tt)) →
  (∀ e' err, settled e' n → estore e' = estore e → is_guard_failure (Err err) = true →
     ¬ ((ts_val rt = n - 1)%N ∧ sees (estore e) k rt x) → Q e' (Err err)) →
  wp (apply_guarded_batch (TS n) [ExpectedValue k rt x] [mkWrite k (Some v)]) e Q.
Proof.
  intros Hs Hn Hrt Hv HQ HF.
  assert (batch_ok n [mkWrite k (Some v)]) as Hb.
  { split; [done|]. split; [apply NoDup_singleton|]. by intros w ->%list_elem_of_singleton. }
  eapply wp_mono; [apply guarded_batch_free; try done; [by apply Hs|apply NoDup_singleton| |]|].
  { intros w _. by apply settled_free. }
  { intros g ->%list_elem_of_singleton. rewrite ts_val_TS by done. split; [done|].
    by apply settled_unlocked with n. }
  intros e' r [He' [(->&Hg&E)|(err&->&E&Herr)]].
  - destruct (settled_write e e' n [mkWrite k (Some v)]) as [? ?]; [done..|]. apply HQ; try done.
    destruct (Hg (ExpectedValue k rt x)) as (_&_&Hle&w&Hw&Ew); [constructor|].
    apply (sees_latest _ _ _ rt); try (done || lia). by exists w.
  - assert (settled e' n) as Hs' by (split; [done|rewrite E; apply Hs..]).
    apply HF; [done|done|by destruct err|]. intros [Hr Hsees].
    destruct err; simpl in Herr; try done.
    + destruct Herr as (g&->%list_elem_of_singleton&_&<-&[[y Hy] _]&Hlt).
      apply (settled_versions _ _ Hs) in Hy. simpl in Hlt. lia.
    + destruct Herr as (_&r&w&?%list_elem_of_singleton&_). done.
    + destruct Herr as (r&y&o&[= -> -> ->]%list_elem_of_singleton&Ho&Hne).
      apply Hne. by eapply sees_fun.
Qed.

(** The two halves of an intent transaction, at [n] and [n + 1]. *)
Definition prewritten e n txn (writes : list PhysicalWrite) e' : Prop :=
  einv e' ∧ estore e' = store_put_intents (write_intent txn (TS n) <$> writes) (estore e).
Lemma prewrite_settled e n txn writes (Q : MvccEngine B → res BatchPrewriteError unit → Prop) :
  settled e n → (n < 2 ^ 128)%N → batch_ok n writes →
  (∀ e', prewritten e n txn writes e' → Q e' (Ok tt)) →
  wp (prewrite_batch txn (TS n) writes) e Q.
Proof.
  intros Hs Hn (Hne&Hnd&_) HQ.
  eapply wp_mono; [apply prewrite_batch_free; try done; [by apply Hs|]|].
  { intros w _. split; [by apply settled_unlocked with n|]. intros t x Hx.
    apply (settled_versions _ _ Hs) in Hx. rewrite ts_val_TS by done. lia. }
  intros e' r (->&?&?). by apply HQ.
Qed.
Lemma commit_settled e e1 n txn writes (Q : MvccEngine B → res BatchCommitError unit → Prop) :
  settled e n → (n + 1 < 2 ^ 128)%N → batch_ok n writes → prewritten e n txn writes e1 →
  (∀ e', settled e' (n + 2) →
     version_count (estore e') = (version_count (estore e) + len writes)%N → Q e' (Ok tt)) →
  wp (commit_batch txn (TS n) (TS (n + 1)) (pw_key <$> writes)) e1 Q.
Proof.
  intros Hs Hn (Hne&Hnd&Hval) [He1 E1] HQ.
  assert (∀ w, w ∈ writes →
    st_intents (estore e1) !! pw_key w = Some (write_intent txn (TS n) w)) as Hi.
  { intros w Hw. rewrite E1. apply (put_intents_in _ _ (write_intent txn (TS n) w));
      [by rewrite <-list_fmap_compose|by apply list_elem_of_fmap_2]. }
  assert (st_versions (estore e1) = st_versions (estore e)) as Ev
    by by rewrite E1, put_intents_versions.
  eapply wp_mono; [apply commit_batch_held; try done|].
  { intros E. by apply fmap_nil_inv in E. }
  { rewrite !ts_val_TS by lia. lia. }
  { intros k (w&->&Hw)%list_elem_of_fmap. eexists. split; [split; [by apply Hi|done]|].
    split; [done|]. intros t x Hx. rewrite Ev in Hx. apply (settled_versions _ _ Hs) in Hx.
    rewrite ts_val_TS by lia. lia. }
  intros e' r (->&He'&E).
  assert (commit_version (estore e1) (TS (n + 1)) <$> (pw_key <$> writes) =
    write_version (TS (n + 1)) <$> writes) as Evs.
  { rewrite <-list_fmap_compose. apply list_fmap_ext. intros i w Hw%list_elem_of_lookup_2.
    unfold commit_version, write_version. simpl. rewrite Hi by done. simpl.
    by destruct w as [? []]. }
  rewrite Evs in E.
  destruct (settled_put e e' (n + 1) (n + 2) (write_version (TS (n + 1)) <$> writes))
    as [Hs' Hc]; [apply (settled_mono _ n); [done|lia]|lia|done|done|by rewrite <-list_fmap_compose| | | |].
  - intros v (w&->&Hw)%list_elem_of_fmap. split; [done|]. specialize (Hval _ Hw). simpl. lia.
  - intros k. rewrite E. unfold remove_list. rewrite lookup_remove_intents, put_versions_intents.
    case_decide as Hk.
    + apply list_elem_of_fmap in Hk as (w&->&Hw). rewrite Hi by done. simpl.
      unfold intent_matches. simpl. by rewrite !bool_decide_eq_true_2.
    + rewrite E1, put_intents_notin; [by apply settled_unlocked with n|].
      by rewrite <-list_fmap_compose.
  - rewrite E, remove_intents_versions. by apply put_versions_versions.
  - apply HQ; [done|]. rewrite Hc. unfold len. by rewrite length_fmap.
Qed.

(** A collection pass with the simulation's options. *)
Lemma gc_settled `{HP : Platform} e n sp cur (Q : MvccEngine B → res GcError IncrementalGcResult → Prop) :
  settled e n → budget_fits sim_gc_options →
  (∀ e' res, settled e' n →
     (gr_versions_removed res + version_count (estore e') = version_count (estore e))%N →
     Q e' (Ok res)) →
  wp (gc_incremental sp cur sim_gc_options) e Q.
Proof.
  intros Hs Hfit HQ. eapply wp_mono; [by apply gc_incremental_wp; [apply Hs|]|].
  intros e' [res|err|] [He' (Hsteps&_&Hr)]; [| |done].
  - apply HQ; [by eapply settled_gc|]. apply Hr.
  - exfalso. destruct Hr as [(_&[?|?]&_)|[? _]]; done.
Qed.
End live.
End engine.

(** ** The ledger of a run *)

(** The operations done, the versions written, and the ticks of the clock, as the
    counters record them. *)
Definition ops_done (x : Stats) : N :=
  st_reads x + st_sets x + st_deletes x + st_msets x + st_incr_immediate x +
  st_incr_delayed x + st_txns x.
Definition versions_written (x : Stats) : N :=
  st_sets x + st_deletes x + 4 * st_msets x + st_incr_immediate x +
  st_applied_pending x + 2 * st_txns x.
Definition ticks (x : Stats) : N :=
  st_sets x + st_deletes x + st_msets x + st_incr_immediate x +
  st_applied_pending x + st_guard_retries x + 2 * st_txns x.

(** The initial load. *)
Lemma initial_batch n : (n < 2 ^ 64)%N → n ≠ 0%N → batch_ok 1 (initial_writes n).
Proof.
  intros Hn H0. split; [|split].
  - intros E%(f_equal len). unfold initial_writes in E. len_simpl. done.
  - unfold initial_writes. rewrite <-list_fmap_compose.
    apply NoDup_fmap_2_strong; [|apply NoDup_upto].
    intros i j Hi%elem_of_upto Hj%elem_of_upto. apply key_inj; lia.
  - intros w (i&->&_)%list_elem_of_fmap. done.
Qed.

Section run.
Context {B : Type} `{HL : BackendLaws B} `{HP : Platform}.
Context (Hfail : ¬ may_fail) (initial total : N).
(** The run is small for the machine. *)
Context (Htotal : (initial + 4 * total + 8 < usize_modulus)%N).
Context (Hlong : (initial + 4 * total + 8 < 2 ^ 63)%N).
Implicit Types (s : SimState (B := B)) (ops queued runs : N).

Definition pending_ok (n : N) (p : PendingIncr) : Prop :=
  (ts_val (pi_read_ts p) < n ∧ parse_counter (expected_value p) ≤ ts_val (pi_read_ts p))%N ∧
  new_value p = to_string (parse_counter (expected_value p) + 1).

(** The counter at [k] is one more after the step from [s] to [s']. *)
Definition adds_one (k : Key) s s' : Prop :=
  ∃ o, sees (estore (engine s)) k (TS (next_ts s - 1)) o ∧
    sees (estore (engine s')) k (TS (next_ts s' - 1)) (Some (to_string (parse_counter o + 1))).

(** [ops] operations are accounted for and [queued] delayed increments are not yet
    applied, [runs] collections have run; the clock and the contents of the store follow from the counters. *)
Record ok ops queued runs s : Prop := {
  ok_settled : settled (engine s) (next_ts s);
  ok_pending : Forall (pending_ok (next_ts s)) (pending s);
  ok_done : ops_done (stats s) = ops;
  ok_queued : (st_applied_pending (stats s) + queued = st_incr_delayed (stats s))%N;
  ok_retries : st_guard_retries (stats s) = st_guard_conflicts (stats s);
  ok_conflicts : (st_guard_conflicts (stats s) ≤ st_applied_pending (stats s))%N;
  ok_clock : next_ts s = (2 + ticks (stats s))%N;
  ok_store : (st_gc_removed (stats s) + version_count (estore (engine s)) =
    initial + versions_written (stats s))%N;
  ok_runs : st_gc_runs (stats s) = runs;
}.

(** Every counter and the clock are far from overflowing. *)
Lemma ok_small ops queued runs s :
  ok ops queued runs s → (ops ≤ total)%N →
  (next_ts s + 4 < 2 ^ 63)%N ∧
  (∀ c, match c with gc_runs | gc_removed => True | _ => stat (stats s) c ≤ total end)%N ∧
  (st_gc_removed (stats s) + version_count (estore (engine s)) ≤ initial + 4 * total)%N.
Proof.
  intros [_ _ Hd Hq Hr Hc Hclock Hst _] Hle.
  unfold ops_done, versions_written, ticks in *. split_and!.
  - lia.
  - intros c. destruct c; simpl; try done; lia.
  - lia.
Qed.

(** *** Steps of the state *)

Lemma wp_bump c s (Q : SimState → res Stuck unit → Prop) :
  (stat (stats s) c + 1 < 2 ^ 64)%N →
  Q (set_stats (set_stat c (stat (stats s) c + 1) (stats s)) s) (Ok tt) →
  wp (bump c) s Q.
Proof. intros Hc HQ. apply wp_bind. unfold wp at 1, M_gets. simpl. by rewrite uint_add_ok. Qed.
Lemma wp_tick s (Q : SimState → res Stuck unit → Prop) :
  (next_ts s + 1 < 2 ^ 128)%N → Q (set_next_ts (next_ts s + 1) s) (Ok tt) → wp tick s Q.
Proof. intros Hc HQ. apply wp_bind. unfold wp at 1, M_gets. simpl. by rewrite uint_add_ok. Qed.
Lemma wp_now s (Q : SimState → res Stuck Timestamp → Prop) :
  Q s (Ok (TS (next_ts s))) → wp now s Q.
Proof. done. Qed.
Lemma wp_now_less_1 s (Q : SimState → res Stuck Timestamp → Prop) :
  (1 ≤ next_ts s)%N → Q s (Ok (TS (next_ts s - 1))) → wp now_less_1 s Q.
Proof. intros Hc HQ. apply wp_bind. unfold wp at 1, M_gets. simpl. by rewrite uint_sub_ok. Qed.
Lemma wp_uadd {S E} w a b (s : S) (Q : S → res E N → Prop) :
  (a + b < 2 ^ w)%N → Q s (Ok (a + b)%N) → wp (M_lift (uint_add w a b)) s Q.
Proof. intros Hc HQ. unfold wp. simpl. by rewrite uint_add_ok. Qed.
(** A call that succeeds. *)
Lemma wp_call {E A} (m : M (MvccEngine B) E A) s (Q : SimState → res Stuck A → Prop) :
  wp m (engine s) (λ e' r, ∃ a, r = Ok a ∧ Q (set_engine e' s) (Ok a)) → wp (call m) s Q.
Proof.
  intros Hm. apply wp_bind, wp_zoom, wp_try. eapply wp_mono; [exact Hm|].
  by intros e' r (a&->&HQ).
Qed.
Lemma wp_choose hot s (Q : SimState → res Stuck Key → Prop) :
  (∀ g id, (id < KEYSPACE)%N → Q (set_rng g s) (Ok (key id))) →
  wp (on_rng (choose_key hot)) s Q.
Proof.
  intros HQ. apply wp_zoom. eapply wp_mono; [apply choose_key_wp|].
  intros g r (k&->&(id&->&Hid&_)&_). by apply HQ.
Qed.
Lemma wp_draw upper s (Q : SimState → res Stuck N → Prop) :
  upper ≠ 0%N → (∀ g r, (r < upper)%N → Q (set_rng g s) (Ok r)) →
  wp (on_rng (Lcg_range upper)) s Q.
Proof. intros Hu HQ. apply wp_zoom, wp_range; [done|]. intros r Hr _. by apply HQ. Qed.

(** The generator's state is free. *)
Lemma ok_rng ops queued runs s g : ok ops queued runs s → ok ops queued runs (set_rng g s).
Proof. by intros []. Qed.
Lemma pending_ok_mono n m l : (n ≤ m)%N → Forall (pending_ok n) l → Forall (pending_ok m) l.
Proof. intros Hm Hl. eapply Forall_impl; [exact Hl|]. intros p [[? ?] ?]. split; [lia|done]. Qed.

(** *** Delayed increments *)

Lemma parse_counter_string n : (n < 2 ^ 64)%N → parse_counter (Some (to_string n)) = n.
Proof. intros Hn. unfold parse_counter. simpl. by rewrite from_utf8_to_string; simpl; rewrite parse_to_string. Qed.
(** The increment of a counter read below the clock. *)
Lemma wp_next_counter {S E} current n (s : S) (Q : S → res E Value → Prop) :
  (parse_counter current ≤ n)%N → (n + 1 < 2 ^ 64)%N →
  (∀ v, (parse_counter (Some v) ≤ n + 1)%N → v = to_string (parse_counter current + 1) →
     Q s (Ok v)) →
  wp (next_counter current) s Q.
Proof.
  intros Hc Hn HQ. apply wp_bind, wp_uadd; [lia|]. apply wp_ret, HQ; [|done].
  rewrite parse_counter_string; lia.
Qed.

(** A retry reads just below its commit timestamp and succeeds. *)
Lemma retry_incr_settled e n k (Q : MvccEngine B → res BatchError unit → Prop) :
  settled e n → (1 ≤ n)%N → (n < 2 ^ 63)%N →
  (∀ e' o, settled e' (n + 1) → sees (estore e) k (TS (n - 1)) o →
     sees (estore e') k (TS n) (Some (to_string (parse_counter o + 1))) →
     version_count (estore e') = (version_count (estore e) + 1)%N → Q e' (Ok tt)) →
  wp (retry_incr k (TS (n - 1)) (TS n)) e Q.
Proof.
  intros Hs H1 Hn HQ. apply wp_bind, (read_settled e n); [done|done|].
  rewrite ts_val_TS by lia. intros o Ho Hle.
  apply wp_bind, (wp_next_counter _ (n - 1)); [done|lia|]. intros v Hv ->.
  apply (guarded_settled Hfail e n); [done|lia|rewrite ts_val_TS by lia; lia|lia| |].
  { intros e' He' Ho' E Hc. apply (HQ e' o); [done..| |done].
    apply (sees_written e e' n); [done|lia| |done]. rewrite ts_val_TS by lia. done. }
  intros e' err _ _ _ Hnot. destruct Hnot. rewrite ts_val_TS by lia. split; [done|exact Ho].
Qed.

(** The state after an increment whose guard failed has been retried. *)
Lemma retry_conflict_wp k s (Q : SimState → res Stuck unit → Prop) :
  settled (engine s) (next_ts s) → (1 ≤ next_ts s)%N → (next_ts s < 2 ^ 63)%N →
  (st_guard_conflicts (stats s) + 1 < 2 ^ 64)%N → (st_guard_retries (stats s) + 1 < 2 ^ 64)%N →
  (∀ e x o, settled e (next_ts s + 1) → sees (estore (engine s)) k (TS (next_ts s - 1)) o →
     sees (estore e) k (TS (next_ts s)) (Some (to_string (parse_counter o + 1))) →
     version_count (estore e) = (version_count (estore (engine s)) + 1)%N →
     x = set_stat guard_retries (st_guard_retries (stats s) + 1)
           (set_stat guard_conflicts (st_guard_conflicts (stats s) + 1) (stats s)) →
     Q (mkSim e (rng s) x (pending s) (next_ts s + 1) (cursor s)) (Ok tt)) →
  wp (retry_conflict k) s Q.
Proof.
  intros Hs H1 Hn Hc Hr HQ.
  apply wp_bind, wp_bump; [done|]. apply wp_bind, wp_now_less_1; [done|]. apply wp_bind, wp_now.
  apply wp_bind, wp_tick; [simpl; lia|]. apply wp_bind, wp_call.
  apply retry_incr_settled; [done..|]. intros e o He Ho Ho' Hcount. eexists. split; [done|].
  apply wp_bump; [done|]. by apply (HQ _ _ o).
Qed.

(** The guarded write of a delayed increment, up to the count of it. *)
Lemma guarded_incr_settled e n p (Q : MvccEngine B → res BatchError unit → Prop) :
  settled e n → pending_ok n p → (n < 2 ^ 63)%N →
  (∀ e', settled e' (n + 1) → sees (estore e) (pi_key p) (TS (n - 1)) (expected_value p) →
     sees (estore e') (pi_key p) (TS n) (Some (new_value p)) →
     version_count (estore e') = (version_count (estore e) + 1)%N → Q e' (Ok tt)) →
  (∀ e' err, settled e' n → estore e' = estore e → is_guard_failure (Err err) = true →
     Q e' (Err err)) →
  wp (apply_guarded_incr (TS n) p) e Q.
Proof.
  intros Hs [[Hrt Hle] Hv] Hn HQ HF.
  apply (guarded_settled Hfail e n); [done|lia|done| | |].
  - rewrite Hv, parse_counter_string; lia.
  - intros e' He' Ho E Hc. apply HQ; try done.
    apply (sees_written e e' n); [done|lia| |done]. rewrite ts_val_TS; lia.
  - intros. by apply HF.
Qed.

(** Both loops over the delayed increments treat one the same way: it is counted and
    written once, directly or after a retry, and adds one to its counter. *)
Definition applied_one (p : PendingIncr) ops queued runs s s' (r : res Stuck unit) : Prop :=
  r = Ok tt ∧ ok ops queued runs s' ∧ pending s' = pending s ∧ adds_one (pi_key p) s s'.
Ltac ledger := len_simpl; unfold ops_done, versions_written, ticks in *; simpl in *; lia.

(** What the loops share: [react] is how a loop reacts to the outcome. *)
Definition apply_pending (react : res BatchError unit → M SimState Stuck unit)
    (p : PendingIncr) : M SimState Stuck unit :=
  let! commit_ts := now in
  tick;!
  let! result := on_engine (apply_guarded_incr commit_ts p) in
  bump applied_pending;!
  react result.
Lemma apply_pending_wp react p ops queued runs s :
  react (Ok tt) = M_ret tt →
  (∀ err, is_guard_failure (Err err) = true → react (Err err) = retry_conflict (pi_key p)) →
  ok ops (queued + 1) runs s → pending_ok (next_ts s) p → (ops ≤ total)%N →
  wp (apply_pending react p) s (applied_one p ops queued runs s).
Proof.
  intros Ronce Rretry Hok Hp Hle. destruct (ok_small _ _ _ _ Hok Hle) as (Hsm&Hst&_).
  pose proof (Hst applied_pending) as Ha. pose proof (Hst guard_conflicts) as Hc.
  pose proof (Hst guard_retries) as Hr. simpl in Ha, Hc, Hr. clear Hst.
  destruct Hok as [Hs Hpend Hd Hq Hret Hcon Hclock Hstore Hruns].
  apply wp_bind, wp_now. apply wp_bind, wp_tick; [lia|].
  apply wp_bind, wp_zoom, wp_try. apply (guarded_incr_settled _ (next_ts s)); [done|done|lia| |].
  - intros e He Ho Ho' Hcount. apply wp_bind, wp_bump; [simpl; lia|]. rewrite Ronce. apply wp_ret.
    split_and!; [done| |done|].
    + split; simpl; try (done || ledger). by apply (pending_ok_mono (next_ts s)); [lia|].
    + exists (expected_value p). split; [done|]. simpl. rewrite N.add_sub. by destruct Hp as [_ <-].
  - intros e err He Hstore' Hf. apply wp_bind, wp_bump; [simpl; lia|].
    rewrite (Rretry _ Hf). apply retry_conflict_wp; simpl; try lia.
    { apply (settled_mono _ (next_ts s)); [done|lia]. }
    intros e' x o He' Ho Ho' Hcount ->. rewrite Hstore' in Hcount.
    replace (next_ts s + 1 + 1)%N with (next_ts s + 2)%N in * by lia. split_and!; [done| |done|].
    + split; simpl; try (done || ledger). by apply (pending_ok_mono (next_ts s)); [lia|].
    + exists o. simpl. rewrite Hstore', N.add_sub in Ho. split.
      * apply (sees_latest _ _ _ (TS (next_ts s))); try (done || lia).
        intros t y Hy. apply (settled_versions _ _ Hs) in Hy as [? _]. rewrite ts_val_TS; lia.
      * by replace (next_ts s + 2 - 1)%N with (next_ts s + 1)%N by lia.
Qed.
Lemma apply_due_wp p ops queued runs s :
  ok ops (queued + 1) runs s → pending_ok (next_ts s) p → (ops ≤ total)%N →
  wp (apply_due p) s (applied_one p ops queued runs s).
Proof.
  apply (apply_pending_wp (λ result, if is_guard_failure result
    then retry_conflict (pi_key p) else M_unwrap result)); [done|]. by intros err ->.
Qed.
Lemma apply_left_wp p ops queued runs s :
  ok ops (queued + 1) runs s → pending_ok (next_ts s) p → (ops ≤ total)%N →
  wp (apply_left p) s (applied_one p ops queued runs s).
Proof.
  by apply (apply_pending_wp (λ result, if is_err result
    then retry_conflict (pi_key p) else M_ret tt)).
Qed.

(** Taking an increment off the queue. *)
Lemma ok_pop ops runs s p queue :
  ok ops (len (pending s)) runs s → pending s = p :: queue →
  ok ops (len queue + 1) runs (set_pending queue s) ∧ pending_ok (next_ts s) p.
Proof.
  intros [Hs Hpend Hd Hq Hret Hcon Hclock Hstore Hruns] E. rewrite E in *.
  apply Forall_cons in Hpend as [Hp Hpend]. rewrite len_cons in Hq.
  split; [|done]. split; simpl; try (done || lia).
Qed.
Lemma drain_due_wp op queue ops runs s :
  ok ops (len (pending s)) runs s → pending s = queue → (ops ≤ total)%N →
  wp (drain_due op queue) s (λ s' r, r = Ok tt ∧ ok ops (len (pending s')) runs s').
Proof.
  revert s. induction queue as [|p queue IH]; intros s Hok E Hle; simpl; [by apply wp_ret|].
  destruct (due_op p <=? op)%N; [|by apply wp_ret].
  destruct (ok_pop _ _ _ _ _ Hok E) as [Hok' Hp]. apply wp_bind. unfold wp at 1. simpl.
  apply wp_bind. eapply wp_mono; [by apply apply_due_wp|].
  intros s' r (->&Hok''&Hpend&_). simpl in Hpend. apply IH; [by rewrite Hpend|done|done].
Qed.
Lemma drain_all_wp queue ops runs s :
  ok ops (len (pending s)) runs s → pending s = queue → (ops ≤ total)%N →
  wp (drain_all queue) s (λ s' r, r = Ok tt ∧ pending s' = [] ∧ ok ops 0 runs s').
Proof.
  revert s. induction queue as [|p queue IH]; intros s Hok E Hle; simpl.
  { apply wp_ret. by rewrite E in Hok. }
  destruct (ok_pop _ _ _ _ _ Hok E) as [Hok' Hp]. apply wp_bind. unfold wp at 1. simpl.
  apply wp_bind. eapply wp_mono; [by apply apply_left_wp|].
  intros s' r (->&Hok''&Hpend&_). simpl in Hpend. apply IH; [by rewrite Hpend|done|done].
Qed.

(** *** The operations *)

Lemma parse_counter_text c p l :
  let b := Ascii.byte_of_ascii c in
  to_digit b = None → b ≠ Byte.x2b → parse_counter (Some (bytes (String c p) ++ l)) = 0%N.
Proof.
  intros b Hb Hp. change (bytes (String c p) ++ l) with (b :: bytes p ++ l). unfold parse_counter, from_utf8. cbn [mbind option_bind].
  destruct (utf8_valid _); cbn [mbind option_bind]; [|done]. by rewrite parse_not_number.
Qed.
Lemma parse_counter_none : parse_counter None = 0%N.
Proof. done. Qed.

Lemma direct_wp writes s (Q : SimState → res Stuck unit → Prop) :
  settled (engine s) (next_ts s) → (next_ts s < 2 ^ 63)%N → batch_ok (next_ts s) writes →
  (∀ e, settled e (next_ts s + 1) →
     version_count (estore e) = (version_count (estore (engine s)) + len writes)%N →
     Q (set_next_ts (next_ts s + 1) (set_engine e s)) (Ok tt)) →
  wp (direct writes) s Q.
Proof.
  intros Hs Hn Hb HQ. apply wp_bind, wp_now. apply wp_bind, wp_call.
  apply (direct_settled Hfail _ (next_ts s)); [done|lia|done|]. intros e He Hc.
  eexists. split; [done|]. apply wp_tick; [simpl; lia|]. by apply HQ.
Qed.

(** An operation that turns [ops] done into one more. *)
Definition op_post ops runs (s' : SimState) (r : res Stuck unit) : Prop :=
  r = Ok tt ∧ ok (ops + 1) (len (pending s')) runs s'.
Section op.
Context (mix : WorkloadMix) (op ops runs : N) (s : SimState (B := B)).
Context (Hok : ok ops (len (pending s)) runs s) (Hops : (ops < total)%N) (Hop : (op < total)%N).
(** Opening the ledger at the start of an operation. *)
Ltac open_ledger :=
  let Hsm := fresh "Hsm" in let Hst := fresh "Hst" in
  destruct (ok_small _ _ _ _ Hok (N.lt_le_incl _ _ Hops)) as (Hsm&Hst&Hgc);
  pose proof (Hst reads); pose proof (Hst sets); pose proof (Hst deletes);
  pose proof (Hst msets); pose proof (Hst incr_immediate); pose proof (Hst incr_delayed);
  pose proof (Hst txns); simpl in *; clear Hst;
  destruct Hok as [Hs Hpend Hd Hq Hret Hcon Hclock Hstore Hruns].
(** Closing it. *)
Ltac close_ledger :=
  split; [done|]; split; simpl; try (done || ledger);
  try (by apply (pending_ok_mono (next_ts s)); [lia|]).

Lemma do_read_wp : wp (do_read mix) s (op_post ops runs).
Proof.
  open_ledger. apply wp_bind, wp_bump; [simpl; lia|]. apply wp_bind, wp_choose. intros g id Hid.
  apply wp_bind, wp_now_less_1; [simpl; lia|]. apply wp_bind, wp_call.
  apply (read_settled _ (next_ts s)); [done|done|]. intros o _ _. eexists. split; [done|].
  apply wp_ret. close_ledger.
Qed.

Lemma do_set_wp : wp (do_set mix op) s (op_post ops runs).
Proof.
  open_ledger. apply wp_bind, wp_bump; [simpl; lia|]. apply wp_bind, wp_choose. intros g id Hid.
  apply direct_wp; [done|simpl; lia| |].
  - split; [done|]. split; [apply NoDup_singleton|]. intros w ->%list_elem_of_singleton.
    cbn [pw_value]. rewrite parse_counter_text by done. apply N.le_0_l.
  - simpl. intros e He Hc. close_ledger.
Qed.

Lemma do_delete_wp : wp (do_delete mix) s (op_post ops runs).
Proof.
  open_ledger. apply wp_bind, wp_bump; [simpl; lia|]. apply wp_bind, wp_choose. intros g id Hid.
  apply direct_wp; [done|simpl; lia| |].
  - split; [done|]. split; [apply NoDup_singleton|]. intros w ->%list_elem_of_singleton. apply N.le_0_l.
  - simpl. intros e He Hc. close_ledger.
Qed.

Definition mset_write (base i : N) : PhysicalWrite :=
  mkWrite (key (base + i)) (Some (bytes "m:" ++ to_string op ++ bytes ":" ++ to_string i)).
Lemma push_mset_wp base l acc s' (Q : SimState → res Stuck (list PhysicalWrite) → Prop) :
  (base < KEYSPACE)%N → Forall (λ i, i < 4)%N l →
  Q s' (Ok (acc ++ (mset_write base <$> l))) → wp (M_fold (push_mset op base) l acc) s' Q.
Proof.
  intros Hbase Hl. revert acc. induction Hl as [|i l Hi Hl IH]; intros acc HQ; simpl.
  { apply wp_ret. by rewrite app_nil_r in HQ. }
  apply wp_bind, wp_bind, wp_uadd; [unfold KEYSPACE in *; lia|]. apply wp_ret, IH.
  by rewrite <-app_assoc.
Qed.
Lemma do_mset_wp : wp (do_mset op) s (op_post ops runs).
Proof.
  open_ledger. apply wp_bind, wp_bump; [simpl; lia|]. apply wp_bind, wp_draw; [done|].
  intros g base Hbase. apply wp_bind, push_mset_wp; [unfold KEYSPACE in *; lia|by repeat constructor|].
  apply direct_wp; [done|simpl; lia| |].
  - split; [done|]. split.
    + rewrite app_nil_l, <-list_fmap_compose. apply NoDup_fmap_2_strong; [|apply NoDup_upto].
      intros i j Hi%elem_of_upto Hj%elem_of_upto E%key_inj; unfold KEYSPACE in *; lia.
    + rewrite app_nil_l. intros w (i&->&_)%list_elem_of_fmap.
      unfold mset_write. cbn [pw_value]. rewrite parse_counter_text by done. apply N.le_0_l.
  - simpl. intros e He Hc. close_ledger.
Qed.

(** An increment is done at once, or queued with what it read for one of the next
    128 operations. *)
Definition increments s s' : Prop :=
  (∃ k, adds_one k s s' ∧ pending s' = pending s) ∨
  (∃ p, pending s' = pending s ++ [p] ∧ pending_ok (next_ts s') p ∧
     (op + 32 ≤ due_op p < op + 128)%N ∧ engine s' = engine s ∧ next_ts s' = next_ts s).
Lemma do_incr_wp : wp (do_incr mix op) s (λ s' r, op_post ops runs s' r ∧ increments s s').
Proof.
  open_ledger. apply wp_bind, wp_choose. intros g id Hid.
  apply wp_bind, wp_now_less_1; [simpl; lia|]. apply wp_bind, wp_call.
  apply (read_settled _ (next_ts s)); [done|done|]. simpl. rewrite ts_val_TS by lia.
  intros o Ho Hle. eexists. split; [done|].
  apply wp_bind, (wp_next_counter _ (next_ts s - 1)); [done|lia|]. intros v Hv Ev.
  apply wp_bind, wp_draw; [done|]. intros g' roll _. destruct (roll <? 40)%N.
  - apply wp_bind, wp_bump; [simpl; lia|]. apply wp_bind, wp_uadd; [lia|].
    apply wp_bind, wp_draw; [done|]. intros g'' delay Hdelay. apply wp_bind, wp_uadd; [lia|].
    unfold wp, M_modify. simpl.
    set (p := mkPending _ _ _ _ _).
    assert (pending_ok (next_ts s) p) as Hp by (split; [simpl; rewrite ts_val_TS; lia|done]).
    split; [|right; exists p; split_and!; (done || simpl; lia)].
    close_ledger. simpl. apply Forall_app. split; [done|]. by apply Forall_singleton.
  - apply wp_bind, wp_bump; [simpl; lia|]. apply wp_bind, wp_now. apply wp_bind, wp_call. simpl.
    apply (guarded_settled Hfail _ (next_ts s)); [done|lia|rewrite ts_val_TS; lia|lia| |].
    + intros e He _ E Hc. eexists. split; [done|]. apply wp_tick; [simpl; lia|].
      split; [close_ledger|left]. exists (key id). split; [|done]. exists o. split; [done|].
      simpl. rewrite N.add_sub, <-Ev.
      apply (sees_written (engine s) e (next_ts s)); [done|lia| |done].
      rewrite ts_val_TS; lia.
    + intros e err _ _ _ []. rewrite ts_val_TS by lia. split; [done|exact Ho].
Qed.

(** The two keys of a transaction are different. *)
Lemma pick_two_wp {C} hot fuel s' (k : Key → Key → M SimState Stuck C)
    (Q : SimState → res Stuck C → Prop) :
  (∀ g ia ib, (ia < KEYSPACE)%N → (ib < KEYSPACE)%N → key ia ≠ key ib →
     wp (k (key ia) (key ib)) (set_rng g s') Q) →
  wp (let! a := on_rng (choose_key hot) in let! b := on_rng (choose_key hot) in
      let! b := on_rng (redraw fuel a b) in k a b) s' Q.
Proof.
  intros Hk. apply wp_bind, wp_zoom. eapply wp_mono; [apply choose_key_wp|].
  intros g1 r (a&->&Ha&_). apply wp_bind, wp_zoom. eapply wp_mono; [by apply chosen_differ|].
  intros g2 r (b&->&(ib&->&Hib&_)&Hne). apply wp_bind, wp_zoom. simpl. unfold wp at 1.
  rewrite redraw_differ by done. destruct Ha as (ia&->&Hia&_). by apply (Hk g2 ia ib).
Qed.
Lemma do_txn_wp fuel : wp (do_txn fuel mix op) s (op_post ops runs).
Proof.
  open_ledger. apply wp_bind, wp_bump; [simpl; lia|]. apply wp_bind, wp_uadd; [lia|].
  apply wp_bind, wp_now. apply pick_two_wp. intros g ia ib Hia Hib Hne.
  set (writes := [mkWrite (key ia) _; mkWrite (key ib) _]).
  assert (batch_ok (next_ts s) writes) as Hb.
  { split; [done|]. split.
    - apply NoDup_cons. split; [by intros ?%list_elem_of_singleton|apply NoDup_singleton].
    - intros w [->| ->%list_elem_of_singleton]%elem_of_cons; cbn [pw_value];
        rewrite parse_counter_text by done; apply N.le_0_l. }
  apply wp_bind, wp_call.
  apply (prewrite_settled Hfail (engine s) (next_ts s)); [done|lia|done|].
  intros e1 He1. eexists. split; [done|]. apply wp_bind, wp_tick; [simpl; lia|].
  apply wp_bind, wp_now. apply wp_bind, wp_call. simpl.
  apply (commit_settled Hfail (engine s) e1 (next_ts s) _ writes); [done|lia|done|done|].
  intros e2 He2 Hc. eexists. split; [done|]. apply wp_tick; [simpl; lia|]. simpl.
  replace (next_ts s + 1 + 1)%N with (next_ts s + 2)%N by lia.
  change (len writes) with 2%N in Hc. close_ledger.
Qed.
End op.

(** *** Collections *)

Lemma sim_gc_fits : budget_fits sim_gc_options.
Proof.
  unfold budget_fits. rewrite usize_modulus_isize. pose proof isize_MAX_ge. simpl. lia.
Qed.
Lemma do_gc_wp ops queued runs s :
  ok ops queued runs s → (ops ≤ total)%N → (runs ≤ total)%N →
  wp do_gc s (λ s' r, r = Ok tt ∧ ok ops queued (runs + 1) s' ∧ pending s' = pending s).
Proof.
  intros Hok Hle Hr. destruct (ok_small _ _ _ _ Hok Hle) as (Hsm&_&Hgc).
  destruct Hok as [Hs Hpend Hd Hq Hret Hcon Hclock Hstore Hruns].
  apply wp_bind. unfold wp at 1. simpl. apply wp_bind. unfold wp at 1. simpl.
  apply wp_bind, wp_call. apply (gc_settled Hfail _ (next_ts s)); [done|apply sim_gc_fits|].
  intros e res He Hcount. eexists. split; [done|]. apply wp_bind. unfold wp at 1, M_gets. simpl.
  rewrite usize_add_ok by lia. apply wp_bind. unfold wp at 1. simpl.
  apply wp_bind, wp_bump; [simpl; lia|]. unfold wp, M_modify. simpl.
  split; [done|]. split; [|done]. split; simpl; try (done || ledger).
Qed.

(** *** Whole runs *)

Definition weight_sum (mix : WorkloadMix) : N :=
  mix_read mix + mix_set mix + mix_del mix + mix_mset mix + mix_incr mix + mix_txn mix.
(** The weights of a mix can be drawn from. *)
Definition mix_ok (mix : WorkloadMix) : Prop := (0 < weight_sum mix < 2 ^ 64)%N.
Lemma thresholds_ok mix :
  mix_ok mix → ∃ th, thresholds mix = Ok th ∧ total_weight th = weight_sum mix.
Proof.
  unfold mix_ok, weight_sum, thresholds. intros [_ Hsum].
  repeat (rewrite uint_add_ok by lia; cbn [res_bind]). by eexists.
Qed.

(** The collections run before operation [op]. *)
Definition runs_before (mix : WorkloadMix) (op : N) : N :=
  if enable_gc mix then ((op - 1) / 10)%N else 0%N.
Lemma runs_before_succ mix op :
  runs_before mix (op + 1) =
  (runs_before mix op + if enable_gc mix && (0 <? op) && (op mod 10 =? 0) then 1 else 0)%N.
Proof.
  unfold runs_before. destruct (enable_gc mix); [|done]. cbn [andb]. rewrite N.add_sub.
  pose proof (N.div_mod op 10 ltac:(done)) as Hd. pose proof (N.mod_lt op 10 ltac:(done)) as Hm.
  destruct (N.ltb_spec 0 op) as [H0|H0]; cbn [andb]; [|by replace op with 0%N by lia].
  pose proof (N.div_mod (op - 1) 10 ltac:(done)) as Hd'. pose proof (N.mod_lt (op - 1) 10 ltac:(done)) as Hm'.
  revert Hd Hm Hd' Hm'. generalize (op / 10)%N ((op - 1) / 10)%N (op mod 10)%N ((op - 1) mod 10)%N.
  intros q q' r r' ? ? ? ?. destruct (N.eqb_spec r 0) as [E|E]; cbv iota; clear -Hd Hm Hd' Hm' E H0; lia.
Qed.
Lemma runs_before_le mix op : (runs_before mix op ≤ op)%N.
Proof.
  unfold runs_before. destruct (enable_gc mix); [|lia].
  etrans; [apply N.Div0.div_le_upper_bound with (q := op)|]; lia.
Qed.

(** The state of the loop before operation [op]. *)
Definition at_op (mix : WorkloadMix) (op : N) (s : SimState) : Prop :=
  ok op (len (pending s)) (runs_before mix op) s.

Lemma run_op_wp fuel mix th op s :
  total_weight th = weight_sum mix → mix_ok mix → (op < total)%N → at_op mix op s →
  wp (run_op fuel mix th op) s (λ s' r, r = Ok tt ∧ at_op mix (op + 1) s').
Proof.
  intros Hth [Hpos _] Hop Hat. apply wp_bind. unfold wp at 1. simpl.
  apply wp_bind. eapply wp_mono; [apply (drain_due_wp op _ op _ _ Hat); [done|lia]|].
  intros s1 r [-> Hok]. apply wp_bind, wp_draw; [lia|]. intros g roll _.
  apply (ok_rng _ _ _ _ g) in Hok. set (s2 := set_rng g s1) in *.
  change (pending s1) with (pending s2) in Hok.
  apply wp_bind. eapply wp_mono with (P := op_post op (runs_before mix op)).
  { repeat case_match; [eapply do_read_wp|eapply do_set_wp|eapply do_delete_wp|
      eapply do_mset_wp|
      eapply wp_mono; [eapply do_incr_wp|by intros ?? [? _]]|eapply do_txn_wp]; done. }
  intros s3 r [-> Hok3]. unfold at_op. rewrite runs_before_succ.
  destruct (enable_gc mix && _ && _); [|by rewrite N.add_0_r; apply wp_ret].
  pose proof (runs_before_le mix op).
  eapply wp_mono; [apply (do_gc_wp _ _ _ _ Hok3); lia|]. by intros s4 r (->&?&->).
Qed.

(** What is reported for final counters [x]. *)
Definition report_of (x : Stats) : N * N * N :=
  ((total + st_applied_pending x + st_guard_retries x)%N,
   N.max (st_sets x + st_deletes x + st_msets x) 1,
   N.max (st_incr_immediate x + st_applied_pending x + st_guard_retries x) 1).
Lemma report_ok x :
  (total + st_applied_pending x + st_guard_retries x < 2 ^ 64 ∧
   st_sets x + st_deletes x + st_msets x < 2 ^ 64 ∧
   st_incr_immediate x + st_applied_pending x + st_guard_retries x < 2 ^ 64)%N →
  report x total = Ok (report_of x).
Proof. intros ?. unfold report. by repeat (rewrite uint_add_ok by lia; cbn [res_bind]). Qed.

(** A run from an empty backend does not get stuck; its final state. *)
Lemma run_wp fuel mix (fresh : B) :
  backend_inv fresh → abs fresh = store_empty → mix_ok mix → initial ≠ 0%N →
  wp (run fuel mix initial total) (initial_state fresh) (λ s r,
    ok total 0 (runs_before mix total) s ∧ pending s = [] ∧
    r = Ok (report_of (stats s))).
Proof.
  intros Hinv Hempty Hmix H0. destruct (thresholds_ok mix Hmix) as (th&Eth&Hth).
  assert (settled (engine (initial_state fresh)) 1) as Hs.
  { split; [done|intros k; unfold estore; simpl; rewrite Hempty; apply lookup_empty|].
    intros k t x Hx. unfold estore in Hx. simpl in Hx.
    rewrite Hempty in Hx. simpl in Hx. by rewrite lookup_empty in Hx. }
  apply wp_bind, wp_call.
  apply (direct_settled Hfail _ 1); [done|done|apply initial_batch; [lia|done]|].
  intros e He Hc. eexists. split; [done|]. apply wp_bind. unfold wp at 1. simpl. rewrite Eth.
  apply wp_bind. eapply wp_mono.
  { apply (wp_for_upto (at_op mix)).
    - change (estore (engine (initial_state fresh))) with (abs fresh) in Hc.
      unfold initial_writes in Hc. rewrite Hempty in Hc. len_simpl.
      change (version_count store_empty) with 0%N in Hc. split; try done.
      + change (0 + version_count (estore e) = initial + 0)%N. lia.
      + unfold runs_before. by destruct (enable_gc mix).
    - intros op s' Hop Hat. by apply run_op_wp. }
  intros s1 r [-> Hok]. apply wp_bind. unfold wp at 1. simpl.
  apply wp_bind. eapply wp_mono; [by apply (drain_all_wp _ total _ _ Hok)|].
  intros s2 r (->&Hpend&Hok2). destruct (ok_small _ _ _ _ Hok2 (N.le_refl _)) as (_&Hst&_).
  split; [done|]. split; [done|]. unfold M_gets. simpl. apply report_ok.
  pose proof (Hst sets). pose proof (Hst deletes). pose proof (Hst msets).
  pose proof (Hst incr_immediate). pose proof (Hst applied_pending). pose proof (Hst guard_retries).
  simpl in *. lia.
Qed.
End run.

(** *** The program *)

Section program.
Context {B : Type} `{HL : BackendLaws B} `{HP : Platform}.
Context (Hfail : ¬ may_fail) (Hbits : (32 ≤ usize_bits)%N).
Context (fresh : B) (Hinv : backend_inv fresh) (Hempty : abs fresh = store_empty).

(** The final state of a complete run of the program. *)
Definition completed (mix : WorkloadMix) (s : SimState (B := B)) : Prop :=
  pending s = [] ∧ ok INITIAL_KEYS OPS 0 (runs_before mix OPS) s.

Lemma usize_modulus_32 : (2 ^ 32 ≤ usize_modulus)%N.
Proof. apply N.pow_le_mono_r; lia. Qed.
Lemma run_simulation_ok fuel mix :
  mix_ok mix →
  ∃ s, run_simulation fuel mix fresh = (s, Ok (report_of OPS (stats s))) ∧ completed mix s.
Proof.
  intros Hmix. pose proof usize_modulus_32.
  assert (INITIAL_KEYS + 4 * OPS + 8 < 2 ^ 32)%N as Hsmall by reflexivity.
  pose proof (run_wp Hfail INITIAL_KEYS OPS ltac:(lia) ltac:(lia) fuel mix fresh
    Hinv Hempty Hmix ltac:(done)) as Hr. unfold wp in Hr. unfold run_simulation.
  destruct (run fuel mix INITIAL_KEYS OPS (initial_state fresh)) as [s r].
  destruct Hr as (?&?&Er). exists s. split; [f_equal; exact Er|done].
Qed.
Lemma mixes_ok : Forall mix_ok mixes.
Proof. repeat constructor. Qed.
Lemma main_ok fuel : main fuel fresh = Ok tt.
Proof.
  unfold main. induction mixes_ok as [|mix l Hmix _ IH]; [done|]. cbn [foldl].
  destruct (run_simulation_ok fuel mix Hmix) as (s&->&_). exact IH.
Qed.
End program.
