(* ===== verification/Schedule.v ===== *)
(** * Schedule: histories of operations, after [tests/support/model.rs]

    The actions a client takes on the engine, the driver that applies them and
    ignores their results, the snapshot of the whole key space and the driver that
    checks each action against it.  [committed_intervals] is the log of the
    transactions an action commits, used to state isolation. *)
From S2P Require Export Gc.

Inductive Action :=
| DirectBatch (ts : Timestamp) (writes : list PhysicalWrite)
| GuardedBatch (ts : Timestamp) (guards : list ReadGuard) (writes : list PhysicalWrite)
| Prewrite (txn : TxnId) (ts : Timestamp) (key : Key) (muta : Mutation)
| Commit (txn : TxnId) (key : Key) (start_ts commit_ts : Timestamp)
| Abort (txn : TxnId) (key : Key) (start_ts : Timestamp)
| PrewriteBatch (txn : TxnId) (ts : Timestamp) (writes : list PhysicalWrite)
| CommitBatch (txn : TxnId) (start_ts commit_ts : Timestamp) (keys : list Key)
| AbortBatch (txn : TxnId) (start_ts : Timestamp) (keys : list Key)
| Gc (ts : Timestamp).

(** [.map(|_| ()).map_err(|_| ())]. *)
Definition forget {S E A} (m : M S E A) : M S unit unit :=
  λ s, let '(s', r) := m s in
       (s', match r with Ok _ => Ok tt | Err _ => Err tt | Panic => Panic end).

(** A loop without enough fuel has no outcome: like a panic, it ends the run. *)
Definition finished {S E A} (m : M S E (option A)) : M S E A :=
  let! o := m in match o with Some a => M_ret a | None => M_lift Panic end.

(** The options of [Action::Gc]. *)
Definition gc_action_options : GcOptions := mkGcOptions (mkGcBudget 10000 10000) false.

Section schedule.
  Context {B : Type} `{Backend B} `{HP : Platform} (fuel : nat).
  Abbreviation EngineM := (M (MvccEngine B) unit).

Definition apply_action (action : Action) : EngineM unit :=
  match action with
  | DirectBatch ts writes => forget (apply_direct_batch ts writes)
  | GuardedBatch ts guards writes => forget (apply_guarded_batch ts guards writes)
  | Prewrite txn ts key muta => forget (prewrite txn ts key muta)
  | Commit txn key start_ts commit_ts => forget (commit txn key start_ts commit_ts)
  | Abort txn key start_ts => forget (abort txn key start_ts)
  | PrewriteBatch txn ts writes => forget (prewrite_batch txn ts writes)
  | CommitBatch txn start_ts commit_ts keys => forget (commit_batch txn start_ts commit_ts keys)
  | AbortBatch txn start_ts keys => forget (abort_batch txn start_ts keys)
  | Gc ts => forget (finished (gc fuel ts gc_action_options))
  end.

(** [apply_schedule]: the state after the actions, the results being dropped; a
    panic, or a collection without enough fuel, ends the run where it happens. *)
Fixpoint apply_schedule (schedule : list Action) (e : MvccEngine B) : MvccEngine B :=
  match schedule with
  | [] => e
  | action :: schedule =>
      match apply_action action e with
      | (e', Panic) => e'
      | (e', _) => apply_schedule schedule e'
      end
  end.

(** [Result::unwrap]. *)
Definition unwrap {A} (r : res string A) : res string A :=
  match r with Ok a => Ok a | _ => Panic end.

(** The loop of [snapshot]; its accumulators are the two vectors. *)
Fixpoint snapshot_loop (e : MvccEngine B) (keys : list Key)
    (all_versions : list CommittedVersion) (all_intents : list Intent) :
    res string (list CommittedVersion * list Intent) :=
  match keys with
  | [] => Ok (all_versions, all_intents)
  | k :: keys =>
      let? versions := unwrap (get_committed_versions (backend e) k) in
      let? found := unwrap (get_intent (backend e) k) in
      snapshot_loop e keys (all_versions ++ versions)
        (match found with Some intent => all_intents ++ [intent] | None => all_intents end)
  end.
Definition snapshot (e : MvccEngine B) :
    res string (list Key * list CommittedVersion * list Intent) :=
  let? all_keys := unwrap (all_keys (backend e)) in
  let all_keys := merge_sort rle all_keys in
  let? (all_versions, all_intents) := snapshot_loop e all_keys [] [] in
  Ok (all_keys, all_versions, all_intents).

(** One iteration of [apply_and_verify_schedule]: [Panic] when an assertion fails. *)
Definition apply_and_verify (action : Action) (e : MvccEngine B) :
    res string (MvccEngine B) :=
  let? snap_before := snapshot e in
  match apply_action action e with
  | (_, Panic) => Panic
  | (e', result) =>
      let? snap_after := snapshot e' in
      if is_err result && bool_decide (snap_before ≠ snap_after) then Panic else
      if (match action with Gc _ => bool_decide (snap_before.2 ≠ snap_after.2) | _ => false end)
      then Panic else Ok e'
  end.
Fixpoint apply_and_verify_schedule (schedule : list Action) (e : MvccEngine B) :
    res string (MvccEngine B) :=
  match schedule with
  | [] => Ok e
  | action :: schedule =>
      let? e' := apply_and_verify action e in apply_and_verify_schedule schedule e'
  end.

(** ** The log of committed intervals *)

(** The read timestamp at which a guarded batch validated [key], if it did. *)
Definition validated_at (guards : list ReadGuard) (key : Key) : option Timestamp :=
  guard_read_ts <$> head (filter (λ g, guard_key g = key) guards).

(** The key, start and commit timestamps of what an action commits; a blind write
    starts where it commits. *)
Definition committed_intervals (action : Action) : list (Key * Timestamp * Timestamp) :=
  match action with
  | DirectBatch ts writes => (λ w, (pw_key w, ts, ts)) <$> writes
  | GuardedBatch ts guards writes =>
      (λ w, (pw_key w, default ts (validated_at guards (pw_key w)), ts)) <$> writes
  | Commit _ key start_ts commit_ts => [(key, start_ts, commit_ts)]
  | CommitBatch _ start_ts commit_ts keys => (λ k, (k, start_ts, commit_ts)) <$> keys
  | _ => []
  end.
(** The log of the successful actions of a schedule. *)
Fixpoint run_log (schedule : list Action) (e : MvccEngine B) :
    list (Key * Timestamp * Timestamp) :=
  match schedule with
  | [] => []
  | action :: schedule =>
      match apply_action action e with
      | (e', Ok _) => committed_intervals action ++ run_log schedule e'
      | (e', Err _) => run_log schedule e'
      | (e', Panic) => []
      end
  end.
End schedule.
