(* ===== verification/Sequential.v ===== *)
(** * Sequential: a sequential key-value store with locks

    The specification that a client who works in the present relies on: of every key
    only the newest version and the lock are known, every action is atomic, and a
    collection does nothing.  [kv_step] says whether an action of [Schedule] succeeds
    and what it leaves. *)
From S2P Require Export Schedule.

(** An active intent, without its key. *)
Record Lock := mkLock {
  lock_txn : TxnId;
  lock_start : Timestamp;
  lock_mutation : Mutation;
}.
#[export] Instance Lock_eq_dec : EqDecision Lock.
Proof. solve_decision. Defined.

(** The newest version of every key, absent for a tombstone, and the locks. *)
Record KV := mkKV {
  kv_newest : gmap Key (Timestamp * option Value);
  kv_locks : gmap Key Lock;
}.
Definition kv_empty : KV := mkKV ∅ ∅.

(** ** Conditions *)

Definition kv_value (kv : KV) (k : Key) : option Value := kv_newest kv !! k ≫= snd.
Definition kv_unlocked (kv : KV) (k : Key) : bool := bool_decide (kv_locks kv !! k = None).
(** The newest version is below [c]; it is not above [s]. *)
Definition kv_below (kv : KV) (c : Timestamp) (k : Key) : bool :=
  from_option (λ p, ts_ltb p.1 c) true (kv_newest kv !! k).
Definition kv_upto (kv : KV) (s : Timestamp) (k : Key) : bool :=
  from_option (λ p, ts_leb p.1 s) true (kv_newest kv !! k).
Definition kv_free kv c k : bool := kv_unlocked kv k && kv_below kv c k.
Definition kv_writable kv s k : bool := kv_unlocked kv k && kv_upto kv s k.

Definition lock_matches (txn : TxnId) (s : Timestamp) (l : Lock) : bool :=
  bool_decide (lock_txn l = txn) && bool_decide (lock_start l = s).
Definition kv_holds kv txn s k : bool :=
  from_option (lock_matches txn s) false (kv_locks kv !! k).
Definition kv_in_place kv txn s (w : PhysicalWrite) : bool :=
  bool_decide (kv_locks kv !! pw_key w = Some (mkLock txn s (write_mutation (pw_value w)))).
Definition kv_committable kv txn s c k : bool := kv_holds kv txn s k && kv_below kv c k.
(** The guard's key has not changed since the guard read it, and shows what it
    expects now. *)
Definition kv_guard kv c (g : ReadGuard) : bool :=
  ts_ltb (guard_read_ts g) c && kv_writable kv (guard_read_ts g) (guard_key g) &&
  match g with
  | ExpectedVersion k _ expected => bool_decide (fst <$> kv_newest kv !! k = expected)
  | ExpectedValue k _ expected => bool_decide (kv_value kv k = expected)
  end.

(** ** Effects *)

Definition kv_put (c : Timestamp) (l : list (Key * option Value)) (kv : KV) : KV :=
  foldl (λ kv '(k, v), mkKV (<[k := (c, v)]> (kv_newest kv)) (kv_locks kv)) kv l.
Definition kv_lock (txn : TxnId) (s : Timestamp) (l : list PhysicalWrite) (kv : KV) : KV :=
  foldl (λ kv w, mkKV (kv_newest kv)
    (<[pw_key w := mkLock txn s (write_mutation (pw_value w))]> (kv_locks kv))) kv l.
Definition kv_release (txn : TxnId) (s : Timestamp) (keys : list Key) (kv : KV) : KV :=
  foldl (λ kv k, if kv_holds kv txn s k
                 then mkKV (kv_newest kv) (delete k (kv_locks kv)) else kv) kv keys.
(** What committing [k] writes. *)
Definition kv_pending (kv : KV) (k : Key) : Key * option Value :=
  (k, kv_locks kv !! k ≫= λ l, Mutation_value (lock_mutation l)).
Definition kv_commit txn s c (keys : list Key) (kv : KV) : KV :=
  kv_release txn s keys (kv_put c (kv_pending kv <$> keys) kv).
Definition kv_write c (writes : list PhysicalWrite) (kv : KV) : KV :=
  kv_put c ((λ w, (pw_key w, pw_value w)) <$> writes) kv.

(** ** Steps *)

(** A batch names some keys, each once. *)
Definition names_once (keys : list Key) : bool :=
  bool_decide (keys ≠ []) && bool_decide (NoDup keys).

Definition kv_step (a : Action) (kv : KV) : option KV :=
  match a with
  | DirectBatch c writes =>
      if names_once (pw_key <$> writes) && forallb (λ w, kv_free kv c (pw_key w)) writes
      then Some (kv_write c writes kv) else None
  | GuardedBatch c guards writes =>
      if names_once (pw_key <$> writes) && bool_decide (guards ≠ []) &&
         forallb (kv_guard kv c) guards && forallb (λ w, kv_free kv c (pw_key w)) writes
      then Some (kv_write c writes kv) else None
  | Prewrite txn s k mu =>
      let w := mkWrite k (Mutation_value mu) in
      if kv_in_place kv txn s w then Some kv
      else if kv_writable kv s k then Some (kv_lock txn s [w] kv) else None
  | PrewriteBatch txn s writes =>
      if names_once (pw_key <$> writes) then
        if forallb (kv_in_place kv txn s) writes then Some kv
        else if forallb (λ w, kv_writable kv s (pw_key w)) writes
        then Some (kv_lock txn s writes kv) else None
      else None
  | Commit txn k s c =>
      if ts_ltb s c && kv_committable kv txn s c k
      then Some (kv_commit txn s c [k] kv) else None
  | CommitBatch txn s c keys =>
      if names_once keys && ts_ltb s c && forallb (kv_committable kv txn s c) keys
      then Some (kv_commit txn s c keys kv) else None
  | Abort txn k s => Some (kv_release txn s [k] kv)
  | AbortBatch txn s keys =>
      if bool_decide (NoDup keys) then Some (kv_release txn s keys kv) else None
  | Gc _ => Some kv
  end.

(** The outcomes of a schedule, [true] for success, and what it leaves; a failed
    action changes nothing. *)
Fixpoint kv_run (schedule : list Action) (kv : KV) : list bool * KV :=
  match schedule with
  | [] => ([], kv)
  | a :: schedule =>
      let next := kv_step a kv in
      let '(outcomes, final) := kv_run schedule (default kv next) in
      (bool_decide (is_Some next) :: outcomes, final)
  end.

(** The same of the engine; a panic would end the run. *)
Fixpoint run_outcomes `{Backend B, Platform} (fuel : nat) (schedule : list Action)
    (e : MvccEngine B) : list bool :=
  match schedule with
  | [] => []
  | a :: schedule =>
      match apply_action fuel a e with
      | (_, Panic) => []
      | (e', r) => is_ok r :: run_outcomes fuel schedule e'
      end
  end.
