(* ===== verification/ScheduleSpec.v ===== *)
(** * ScheduleSpec: isolation over histories

    An abstract machine whose steps are labelled with the actions of [Schedule];
    the engine refines it; its invariants, and what they give to every history. *)
From S2P Require Export GcSpec Schedule.

(** ** The abstract machine *)

Section machine.
  Implicit Types (st : Store) (k : Key).

(** The effect of an action that succeeds. *)
Inductive mvcc_step : Store → Action → Store → Prop :=
| step_direct st c writes :
    NoDup (pw_key <$> writes) → (∀ w, w ∈ writes → free st c (pw_key w)) →
    mvcc_step st (DirectBatch c writes) (store_put_versions (write_version c <$> writes) st)
| step_guarded st c guards writes :
    NoDup (pw_key <$> writes) → (∀ g, g ∈ guards → guard_holds st c g) →
    (∀ w, w ∈ writes → free st c (pw_key w)) →
    mvcc_step st (GuardedBatch c guards writes)
      (store_put_versions (write_version c <$> writes) st)
| step_prewrite st txn s k mu :
    writable st s k →
    mvcc_step st (Prewrite txn s k mu) (store_put_intent (mkIntent k txn s mu None) st)
| step_prewrite_replay st txn s k mu i :
    holds st k txn s i → intent_mutation i = mu → mvcc_step st (Prewrite txn s k mu) st
| step_prewrite_batch st txn s writes :
    NoDup (pw_key <$> writes) → (∀ w, w ∈ writes → writable st s (pw_key w)) →
    mvcc_step st (PrewriteBatch txn s writes)
      (store_put_intents (write_intent txn s <$> writes) st)
| step_prewrite_batch_replay st txn s writes :
    (∀ w, w ∈ writes → in_place st txn s w) → mvcc_step st (PrewriteBatch txn s writes) st
| step_commit st txn k s c i :
    holds st k txn s i → (s < c)%ts → min_ok i c → newer_than_all st k c →
    mvcc_step st (Commit txn k s c) (committed_store k c i st)
| step_commit_batch st txn s c keys :
    NoDup keys → (s < c)%ts → (∀ k, k ∈ keys → committable st txn s c k) →
    mvcc_step st (CommitBatch txn s c keys)
      (store_remove_intents (remove_list txn s keys)
        (store_put_versions (commit_version st c <$> keys) st))
| step_abort st txn k s :
    mvcc_step st (Abort txn k s) (store_remove_intent k txn s st)
| step_abort_batch st txn s keys :
    mvcc_step st (AbortBatch txn s keys) (store_remove_intents (remove_list txn s keys) st)
| step_gc st sp st' :
    gc_steps sp false st st' → mvcc_step st (Gc sp) st'.

(** What every reachable store satisfies. *)
Record store_wf st : Prop := {
  wf_key k i : st_intents st !! k = Some i → intent_key i = k;
  (** nothing is committed above the start of a pending transaction *)
  wf_start k i t x : st_intents st !! k = Some i → st_versions st !! (k, t) = Some x →
    (t ≤ intent_start_ts i)%ts;
  wf_min k i : st_intents st !! k = Some i → intent_min_commit_ts i = None;
}.

Lemma empty_wf : store_wf store_empty.
Proof. split; intros; simpl in *; by rewrite lookup_empty in *. Qed.

(** Fewer versions and fewer intents keep a store well-formed. *)
Lemma wf_subset st st' :
  store_wf st →
  (∀ k i, st_intents st' !! k = Some i → st_intents st !! k = Some i) →
  (∀ k i t x, st_intents st' !! k = Some i → st_versions st' !! (k, t) = Some x →
     st_versions st !! (k, t) = Some x) →
  store_wf st'.
Proof.
  intros [Hk Hs Hm] Hi Hv. split; intros; [by eauto|eapply Hs; by eauto|by eauto].
Qed.

Lemma put_versions_wf st vs :
  store_wf st → (∀ v, v ∈ vs → st_intents st !! cv_key v = None) →
  store_wf (store_put_versions vs st).
Proof.
  intros Hwf Hfree. apply (wf_subset st); [done|by rewrite put_versions_intents|].
  intros k i t x Hi Hx. rewrite put_versions_intents in Hi.
  apply put_versions_inv in Hx as [(v&Hv&<-&_)|?]; [|done].
  by rewrite Hfree in Hi.
Qed.
Lemma put_intents_wf st s l :
  store_wf st →
  (∀ i, i ∈ l → intent_start_ts i = s ∧ intent_min_commit_ts i = None ∧
     writable st s (intent_key i)) →
  store_wf (store_put_intents l st).
Proof.
  intros [Hk Hs Hm] Hl. split.
  - intros k i Hi. apply put_intents_inv in Hi as [[_ ?]|?]; eauto.
  - intros k i t x Hi Hx. rewrite put_intents_versions in Hx.
    apply put_intents_inv in Hi as [[Hi <-]|?]; [|by eauto].
    destruct (Hl _ Hi) as (->&_&_&Hw). by eauto.
  - intros k i Hi. apply put_intents_inv in Hi as [[Hi _]|?]; [|by eauto]. by apply Hl.
Qed.

Lemma mvcc_step_wf st a st' : mvcc_step st a st' → store_wf st → store_wf st'.
Proof.
  destruct 1 as [st c ws Hnd Hf|st c gs ws Hnd _ Hf|st txn s k mu Hw|st txn s k mu i Hh Hm
    |st txn s ws Hnd Hw|st txn s ws _|st txn k s c i Hh Hsc Hm Hn|st txn s c keys Hnd Hsc Hc
    |st txn k s|st txn s keys|st sp st' Hgc]; intros Hwf; try done.
  - apply put_versions_wf; [done..|]. intros v (w&->&Hw)%list_elem_of_fmap. by apply Hf.
  - apply put_versions_wf; [done..|]. intros v (w&->&Hw)%list_elem_of_fmap. by apply Hf.
  - apply (put_intents_wf st s [mkIntent k txn s mu None]); [done|].
    by intros i ->%list_elem_of_singleton.
  - apply (put_intents_wf st s); [done|].
    intros i (w&->&Hin)%list_elem_of_fmap. split_and!; try done. by apply Hw.
  - apply (wf_subset st); [done|..]; simpl.
    + by intros k' j [_ ?]%lookup_delete_Some.
    + intros k' j t x [? _]%lookup_delete_Some. by rewrite lookup_insert_ne by congruence.
  - apply (wf_subset st); [done|..].
    + intros k i Hi%remove_intents_inv. by rewrite put_versions_intents in Hi.
    + intros k i t x Hi Hx. rewrite remove_intents_versions in Hx.
      apply put_versions_inv in Hx as [(v&(k'&->&Hk')%list_elem_of_fmap&E&_)|?]; [|done].
      simpl in E. subst k'. exfalso. unfold remove_list in Hi.
      rewrite lookup_remove_intents, decide_True in Hi by done.
      rewrite put_versions_intents in Hi. destruct (Hc _ Hk') as (j&(Hj&<-&<-)&_).
      rewrite Hj in Hi. simpl in Hi. unfold intent_matches in Hi.
      by rewrite !bool_decide_eq_true_2 in Hi.
  - apply (wf_subset st); [done| |by rewrite remove_intent_versions].
    intros k' i. apply (remove_intents_inv [(k, txn, s)]).
  - apply (wf_subset st); [done| |by rewrite remove_intents_versions].
    intros k i. apply remove_intents_inv.
  - apply (wf_subset st); [done|by rewrite (gc_steps_intents _ _ _ _ Hgc)|].
    intros k i t x _ Hx. pose proof (gc_steps_subset _ _ _ _ Hgc) as Hsub.
    rewrite map_subseteq_spec in Hsub. by apply Hsub.
Qed.

(** ** Snapshots *)

(** The action commits nothing at or below [rt] and collects nothing above it. *)
Definition action_above (rt : Timestamp) (a : Action) : Prop :=
  match a with
  | DirectBatch c _ | GuardedBatch c _ _ | Commit _ _ _ c | CommitBatch _ _ c _ => (rt < c)%ts
  | Gc sp => (sp ≤ rt)%ts
  | _ => True
  end.

Lemma mvcc_step_sees st a st' rt k o :
  mvcc_step st a st' → action_above rt a → sees st k rt o → sees st' k rt o.
Proof.
  intros Hstep Habove Hs. destruct Hstep; simpl in *; try done.
  - eapply sees_put_versions; [|done|done]. by intros v (w&->&_)%list_elem_of_fmap.
  - eapply sees_put_versions; [|done|done]. by intros v (w&->&_)%list_elem_of_fmap.
  - eapply sees_local, Hs. intros t Ht. simpl. by rewrite put_intents_versions.
  - eapply sees_local, Hs. intros t Ht. simpl. apply lookup_insert_ne. intros [= _ <-]. lia.
  - eapply sees_local; [intros t Ht; by rewrite remove_intents_versions|].
    eapply sees_put_versions; [|done|done]. by intros v (w&->&_)%list_elem_of_fmap.
  - eapply sees_local, Hs. intros t Ht. by rewrite remove_intent_versions.
  - eapply sees_local, Hs. intros t Ht. by rewrite remove_intents_versions.
  - by eapply gc_steps_sees.
Qed.

(** ** Committed intervals *)

(** A later entry on the same key starts, and commits, after an earlier one
    committed. *)
Definition serial (p q : Key * Timestamp * Timestamp) : Prop :=
  p.1.1 = q.1.1 → (p.2 ≤ q.1.2)%ts ∧ (p.2 < q.2)%ts.
(** Every logged commit is still covered by a version at or above it. *)
Definition log_covered st (log : list (Key * Timestamp * Timestamp)) : Prop :=
  ∀ k s c, (k, s, c) ∈ log → ∃ t, is_Some (st_versions st !! (k, t)) ∧ (c ≤ t)%ts.

Lemma gc_steps_cover sp st st' k t :
  gc_steps sp false st st' → is_Some (st_versions st !! (k, t)) →
  ∃ t', is_Some (st_versions st' !! (k, t')) ∧ (t ≤ t')%ts.
Proof.
  intros Hgc. revert t. induction Hgc as [|st1 st2 st3 Hstep _ IH]; intros t Ht.
  { exists t. split; [done|lia]. }
  destruct Hstep as [k' keeper u Hk Hu|? ? ? [=]].
  destruct (decide ((k, t) = (k', u))) as [[= -> ->]|Hne].
  - destruct (IH (cv_commit_ts keeper)) as (t'&?&?).
    + destruct Hk as (_&_&Hk&_). simpl. rewrite lookup_delete_ne; [by rewrite Hk|].
      intros [= E]. rewrite E in Hu. lia.
    + exists t'. split; [done|lia].
  - apply IH. simpl. by rewrite lookup_delete_ne.
Qed.
Lemma mvcc_step_cover st a st' k t :
  mvcc_step st a st' → is_Some (st_versions st !! (k, t)) →
  ∃ t', is_Some (st_versions st' !! (k, t')) ∧ (t ≤ t')%ts.
Proof.
  intros Hstep Ht.
  assert (is_Some (st_versions st' !! (k, t)) ∨ ∃ sp, gc_steps sp false st st') as [?|[sp Hgc]].
  { destruct Hstep; try (by left); simpl.
    - left. by apply put_versions_mono.
    - left. by apply put_versions_mono.
    - left. by rewrite put_intents_versions.
    - left. by apply lookup_insert_is_Some'; right.
    - left. rewrite remove_intents_versions. by apply put_versions_mono.
    - left. by rewrite remove_intent_versions.
    - left. by rewrite remove_intents_versions.
    - right. eauto. }
  - exists t. split; [done|lia].
  - by eapply gc_steps_cover.
Qed.

Lemma put_batch_in st c writes w :
  NoDup (pw_key <$> writes) → w ∈ writes →
  is_Some (st_versions (store_put_versions (write_version c <$> writes) st) !! (pw_key w, c)).
Proof.
  intros Hnd Hw. eexists. apply (put_versions_in _ _ (write_version c w)).
  - by rewrite <-list_fmap_compose.
  - by apply list_elem_of_fmap_2.
Qed.
Lemma validated_at_spec guards k r :
  validated_at guards k = Some r → ∃ g, g ∈ guards ∧ guard_key g = k ∧ guard_read_ts g = r.
Proof.
  unfold validated_at. intros Hr. apply fmap_Some in Hr as (g&Hg&->).
  exists g. apply head_Some_elem_of in Hg. by apply list_elem_of_filter in Hg as [??].
Qed.

(** What an action commits is above everything its key had, and everything the
    key had is at or below the start of the interval. *)
Lemma step_interval st a st' k s c :
  store_wf st → mvcc_step st a st' → (k, s, c) ∈ committed_intervals a →
  (∀ t x, st_versions st !! (k, t) = Some x → (t ≤ s)%ts ∧ (t < c)%ts) ∧
  is_Some (st_versions st' !! (k, c)).
Proof.
  intros Hwf Hstep Hin. destruct Hstep as [st c0 ws Hnd Hf|st c0 gs ws Hnd Hg Hf|st txn s0 k0 mu Hw
    |st txn s0 k0 mu i Hh Hm|st txn s0 ws Hnd Hw|st txn s0 ws _|st txn k0 s0 c0 i Hh Hsc Hm Hn
    |st txn s0 c0 keys Hnd Hsc Hc|st txn k0 s0|st txn s0 keys|st sp st' Hgc]; simpl in Hin;
    try (by apply elem_of_nil in Hin).
  - apply list_elem_of_fmap in Hin as (w&[= -> -> ->]&Hw). split; [|by apply put_batch_in].
    intros t x Ht. apply (Hf _ Hw) in Ht. lia.
  - apply list_elem_of_fmap in Hin as (w&[= -> -> ->]&Hw). split; [|by apply put_batch_in].
    intros t x Ht. pose proof (proj2 (Hf _ Hw) _ _ Ht) as Hlt. split; [|done].
    destruct (validated_at gs (pw_key w)) as [r|] eqn:Hr; simpl; [|lia].
    apply validated_at_spec in Hr as (g&Hgin&Ek&<-). rewrite <-Ek in Ht.
    by apply (Hg _ Hgin) in Ht.
  - apply list_elem_of_singleton in Hin as [= -> -> ->]. simpl. split.
    + intros t x Ht. split; [|by eapply Hn]. destruct Hh as (Hi&_&<-). by eapply (wf_start st).
    + apply lookup_insert_is_Some'. by left.
  - apply list_elem_of_fmap in Hin as (k'&[= -> -> ->]&Hk). split.
    + intros t x Ht. destruct (Hc _ Hk) as (i&(Hi&_&<-)&_&Hn).
      split; [by eapply (wf_start st)|by eapply Hn].
    + rewrite remove_intents_versions. eexists.
      apply (put_versions_in _ _ (commit_version st c0 k')); [|by apply list_elem_of_fmap_2].
      rewrite <-list_fmap_compose. by rewrite list_fmap_id.
Qed.
Lemma step_intervals_NoDup st a st' :
  mvcc_step st a st' → NoDup ((λ p, p.1.1) <$> committed_intervals a).
Proof.
  destruct 1; simpl; try constructor; try (by rewrite <-list_fmap_compose);
    try (apply not_elem_of_nil); try constructor.
  rewrite <-list_fmap_compose. by rewrite list_fmap_id.
Qed.

Lemma log_step st a st' log :
  store_wf st → mvcc_step st a st' → log_covered st log → StronglySorted serial log →
  log_covered st' (log ++ committed_intervals a) ∧
  StronglySorted serial (log ++ committed_intervals a).
Proof.
  intros Hwf Hstep Hcov Hser. split.
  - intros k s c [Hin|Hin]%elem_of_app.
    + destruct (Hcov _ _ _ Hin) as (t&Ht&?).
      destruct (mvcc_step_cover _ _ _ _ _ Hstep Ht) as (t'&?&?). exists t'. split; [done|lia].
    + exists c. split; [|lia]. by eapply step_interval.
  - apply StronglySorted_app. split_and!; [|done|].
    + intros [[k s] c] [[k' s'] c'] Hp Hq. unfold serial. simpl. intros <-.
      destruct (Hcov _ _ _ Hp) as (t&[x Hx]&?).
      destruct (step_interval _ _ _ _ _ _ Hwf Hstep Hq) as [Hall _].
      specialize (Hall _ _ Hx). lia.
    + pose proof (step_intervals_NoDup _ _ _ Hstep) as Hnd.
      induction (committed_intervals a) as [|p l IH]; [constructor|].
      apply NoDup_cons in Hnd as [Hp Hnd]. constructor; [by apply IH|].
      apply Forall_forall. intros q Hq E. destruct Hp. rewrite E.
      by apply (list_elem_of_fmap_2 (λ p, p.1.1)).
Qed.
End machine.

(** ** The engine refines the machine *)

Section refine.
Context {B : Type} `{HL : BackendLaws B} `{HP : Platform} (fuel : nat).
Implicit Types (e : MvccEngine B) (a : Action).

Lemma gc_action_fits : budget_fits gc_action_options.
Proof.
  unfold budget_fits. simpl. rewrite usize_modulus_isize. pose proof isize_MAX_ge. lia.
Qed.

(** The store after an action, whatever its result. *)
Definition action_post a st (r : res unit unit) st' : Prop :=
  match r with
  | Ok _ => mvcc_step st a st'
  | Err _ => st' = st ∨ ∃ sp, a = Gc sp ∧ may_fail ∧ gc_steps sp false st st'
  | Panic => ∃ sp, a = Gc sp ∧ gc_steps sp false st st'
  end.

Lemma wp_forget {E A} (m : M (MvccEngine B) E A) e Q :
  wp m e (λ e' r, Q e' (match r with Ok _ => Ok tt | Err _ => Err tt | Panic => Panic end)) →
  wp (forget m) e Q.
Proof. unfold wp, forget. by destruct (m e). Qed.
Lemma wp_finished {E A} (m : M (MvccEngine B) E (option A)) e Q :
  wp m e (λ e' r, Q e' (match r with
    | Ok (Some a) => Ok a | Err err => Err err | _ => Panic end)) →
  wp (finished m) e Q.
Proof. unfold wp, finished, M_bind. by destruct (m e) as [e' [[a|]|err|]]. Qed.

Lemma apply_action_wp a e :
  einv e →
  wp (apply_action fuel a) e (λ e' r,
    einv e' ∧ action_post a (estore e) r (estore e')).
Proof.
  intros Hinv. destruct a; simpl; apply wp_forget.
  - eapply wp_mono; [by apply apply_direct_batch_wp|]. intros e' [[]|err|] [? Hp]; simpl in *;
      split; try done; [|left; by apply Hp]. destruct Hp as (_&?&?&->). by constructor.
  - eapply wp_mono; [by apply apply_guarded_batch_wp|]. intros e' [[]|err|] [? Hp]; simpl in *;
      split; try done; [|left; by apply Hp]. destruct Hp as (_&_&?&?&?&->). by constructor.
  - eapply wp_mono; [by apply prewrite_wp|]. intros e' [[]|err|] [? Hp]; simpl in *;
      split; try done; [|left; by apply Hp].
    destruct Hp as [(i&?&?&->)|(?&?&->)]; [by eapply step_prewrite_replay|by constructor].
  - eapply wp_mono; [by apply commit_wp|]. intros e' [[]|err|] [? Hp]; simpl in *;
      split; try done; [|left; by apply Hp]. destruct Hp as (i&?&?&?&?&->). by constructor.
  - eapply wp_mono; [by apply abort_wp|]. intros e' [[]|err|] [? Hp]; simpl in *;
      split; try done; [|left; by apply Hp]. rewrite Hp. constructor.
  - eapply wp_mono; [by apply prewrite_batch_wp|]. intros e' [[]|err|] [? Hp]; simpl in *;
      split; try done; [|left; by apply Hp].
    destruct Hp as (_&?&[[? ->]|[? ->]]); by constructor.
  - eapply wp_mono; [by apply commit_batch_wp|]. intros e' [[]|err|] [? Hp]; simpl in *;
      split; try done; [|left; by apply Hp]. destruct Hp as (_&?&?&?&->). by constructor.
  - eapply wp_mono; [by apply abort_batch_wp|]. intros e' [[]|err|] [? Hp]; simpl in *;
      split; try done; [|left; by apply Hp]. destruct Hp as (?&->). by constructor.
  - apply wp_finished. eapply wp_mono; [apply gc_safe; [done|apply gc_action_fits]|].
    intros e' r (He'&Hsteps&Herr). split; [done|].
    destruct r as [[?|]|err|]; simpl in *; [by constructor|by eauto| |by eauto].
    destruct Herr as [(_&[?|?])|[? _]]; [done|done|]. right. eauto.
Qed.

(** ** Whole schedules *)

(** Properties that every step and every partial collection preserve hold after
    any schedule. *)
Lemma apply_schedule_ind (P : Store → Prop) schedule e :
  einv e →
  (∀ a st st', a ∈ schedule → mvcc_step st a st' → P st → P st') →
  P (estore e) →
  einv (apply_schedule fuel schedule e) ∧ P (estore (apply_schedule fuel schedule e)).
Proof.
  revert e. induction schedule as [|a schedule IH]; intros e Hinv Hstep HP'; simpl; [done|].
  pose proof (apply_action_wp a e Hinv) as Hw. unfold wp in Hw.
  destruct (apply_action fuel a e) as [e' r]. simpl in Hw. destruct Hw as [He' Hpost].
  assert (P (estore e')) as HP''.
  { destruct r as [[]|[]|]; simpl in Hpost.
    - eapply Hstep; [constructor|done..].
    - destruct Hpost as [->|(sp&->&_&Hgc)]; [done|].
      eapply Hstep; [constructor|by constructor|done].
    - destruct Hpost as (sp&->&Hgc). eapply Hstep; [constructor|by constructor|done]. }
  destruct r; [apply IH|apply IH|]; try done; intros; eapply Hstep; try done; by constructor.
Qed.
Lemma apply_schedule_wf schedule e :
  einv e → store_wf (estore e) →
  einv (apply_schedule fuel schedule e) ∧ store_wf (estore (apply_schedule fuel schedule e)).
Proof. intros. apply apply_schedule_ind; [done| |done]. intros. by eapply mvcc_step_wf. Qed.
Lemma apply_schedule_sees schedule e rt k o :
  einv e → (∀ a, a ∈ schedule → action_above rt a) →
  sees (estore e) k rt o →
  einv (apply_schedule fuel schedule e) ∧
  sees (estore (apply_schedule fuel schedule e)) k rt o.
Proof.
  intros Hinv Hab Hs. apply (apply_schedule_ind (λ st, sees st k rt o)); [done| |done].
  intros a st st' Ha Hstep. eapply mvcc_step_sees; [done|by apply Hab].
Qed.

Lemma run_log_serial schedule e log :
  einv e → store_wf (estore e) → log_covered (estore e) log → StronglySorted serial log →
  StronglySorted serial (log ++ run_log fuel schedule e).
Proof.
  revert e log. induction schedule as [|a schedule IH]; intros e log Hinv Hwf Hcov Hser; simpl.
  { by rewrite app_nil_r. }
  pose proof (apply_action_wp a e Hinv) as Hw. unfold wp in Hw.
  destruct (apply_action fuel a e) as [e' r]. simpl in Hw. destruct Hw as [He' Hpost].
  destruct r as [[]|[]|]; simpl in Hpost; [| |by rewrite app_nil_r].
  - rewrite app_assoc. destruct (log_step _ _ _ _ Hwf Hpost Hcov Hser).
    apply IH; try done. by eapply mvcc_step_wf.
  - assert (∃ sp, mvcc_step (estore e) (Gc sp) (estore e')) as [sp Hstep].
    { destruct Hpost as [->|(sp&->&_&Hgc)]; [exists (TS 0)|exists sp]; constructor;
        [apply rtc_refl|done]. }
    destruct (log_step _ _ _ _ Hwf Hstep Hcov Hser) as [Hcov' _]. simpl in Hcov'.
    rewrite app_nil_r in Hcov'. apply IH; try done. by eapply mvcc_step_wf.
Qed.

(** ** The checking driver *)

(** The three vectors of a snapshot, as functions of the store. *)
Definition is_snapshot st (snap : list Key * list CommittedVersion * list Intent) : Prop :=
  StronglySorted rlt snap.1.1 ∧ (∀ k, k ∈ snap.1.1 ↔ store_key st k) ∧
  (∃ histories, snap.1.2 = concat histories ∧ Forall2 (is_history st) snap.1.1 histories) ∧
  snap.2 = omap (λ k, st_intents st !! k) snap.1.1.
Lemma is_snapshot_fun st snap snap' :
  is_snapshot st snap → is_snapshot st snap' → snap = snap'.
Proof.
  destruct snap as [[ks vs] is_], snap' as [[ks' vs'] is']. unfold is_snapshot. simpl.
  intros (Hs&Hk&(h&->&Hh)&->) (Hs'&Hk'&(h'&->&Hh')&->).
  assert (ks = ks') as <-.
  { apply (StronglySorted_eq rlt); [done..|]. intros k. by rewrite Hk, Hk'. }
  assert (h = h') as ->; [|done]. clear -Hh Hh'. revert h' Hh'.
  induction Hh as [|k l ks h Hl _ IH]; intros h' Hh'; inversion Hh'; subst; [done|].
  f_equal; [by eapply is_history_fun|by apply IH].
Qed.
Lemma sorted_merge_sort (keys : list Key) :
  StronglySorted rlt keys → merge_sort rle keys = keys.
Proof.
  intros Hs. apply (StronglySorted_unique rle).
  - apply (StronglySorted_merge_sort _).
  - induction Hs as [|k l Hl IH Hk]; constructor; [done|].
    eapply Forall_impl; [done|]. apply rlt_rle.
  - apply merge_sort_Permutation.
Qed.
Lemma snapshot_loop_spec e keys versions intents :
  einv e → ¬ may_fail →
  ∃ histories, Forall2 (is_history (estore e)) keys histories ∧
    snapshot_loop e keys versions intents =
    Ok (versions ++ concat histories, intents ++ omap (λ k, st_intents (estore e) !! k) keys).
Proof.
  intros Hinv Hfail. revert versions intents.
  induction keys as [|k keys IH]; intros versions intents; simpl.
  { exists []. simpl. rewrite !app_nil_r. by split. }
  pose proof (law_get_committed_versions (backend e) k Hinv) as Hv.
  destruct (get_committed_versions (backend e) k) as [l| |]; simpl in *; try done.
  pose proof (law_get_intent (backend e) k Hinv) as Hi.
  destruct (get_intent (backend e) k) as [o| |]; simpl in *; try done. subst o.
  destruct (IH (versions ++ l) (match st_intents (abs (backend e)) !! k with
    | Some intent => intents ++ [intent] | None => intents end)) as (h&Hh&->).
  exists (l :: h). split; [by constructor|]. simpl. rewrite <-app_assoc. unfold estore.
  destruct (st_intents (abs (backend e)) !! k); [by rewrite <-app_assoc|done].
Qed.
Lemma snapshot_spec e :
  einv e → ¬ may_fail → ∃ snap, snapshot e = Ok snap ∧ is_snapshot (estore e) snap.
Proof.
  intros Hinv Hfail. unfold snapshot. pose proof (law_all_keys (backend e) Hinv) as Hk.
  destruct (all_keys (backend e)) as [keys| |]; simpl in *; try done. destruct Hk as [Hs Hk].
  rewrite sorted_merge_sort by done.
  destruct (snapshot_loop_spec e keys [] [] Hinv Hfail) as (h&Hh&->). simpl.
  eexists. split; [done|]. split_and!; simpl; try done. by exists h.
Qed.
(** The intents of a snapshot do not depend on the keys without intents. *)
Lemma snapshot_intents st st' snap snap' :
  st_intents st' = st_intents st → is_snapshot st snap → is_snapshot st' snap' →
  snap.2 = snap'.2.
Proof.
  intros E (Hs&Hk&_&->) (Hs'&Hk'&_&->). rewrite E.
  assert (∀ f (l : list Key), omap f l = omap f (filter (λ k, is_Some (f k)) l) :> list Intent)
    as Hf.
  { intros f l. induction l as [|k l IH]; [done|]. rewrite filter_cons. csimpl.
    destruct (f k) eqn:Ef; [|by rewrite decide_False by by intros []].
    rewrite decide_True by eauto. csimpl. rewrite Ef. by f_equal. }
  rewrite (Hf _ snap.1.1), (Hf _ snap'.1.1). f_equal.
  apply (StronglySorted_eq rlt); [by apply StronglySorted_filter..|].
  intros k. rewrite !list_elem_of_filter, Hk, Hk'. unfold store_key. rewrite E. naive_solver.
Qed.

(** The totals of a collection fit the machine and its loop fits the fuel. *)
Definition gc_fits st : Prop :=
  gc_measure None st < fuel ∧ (version_count st < usize_modulus)%N ∧
  (N.of_nat (size (st_intents st)) < usize_modulus)%N.
Lemma apply_and_verify_ok a e :
  einv e → ¬ may_fail → gc_fits (estore e) →
  ∃ e', apply_and_verify fuel a e = Ok e' ∧ einv e'.
Proof.
  intros Hinv Hfail (Hfuel&Hver&Hint). unfold apply_and_verify.
  destruct (snapshot_spec e Hinv Hfail) as (snap&->&Hsnap). simpl.
  pose proof (apply_action_wp a e Hinv) as Hw. unfold wp in Hw.
  assert (∀ sp, a = Gc sp → (apply_action fuel a e).2 ≠ Panic) as Hgc.
  { intros sp ->. pose proof (gc_wp sp gc_action_options fuel e Hinv gc_action_fits
      Hfuel Hver Hint) as Hg. unfold wp in Hg. simpl.
    unfold forget, finished, M_bind.
    destruct (gc fuel sp gc_action_options e) as [e' [[stats|]|err|]]; simpl in *;
      [done| |done|]; by destruct Hg as (_&_&?). }
  destruct (apply_action fuel a e) as [e' r]. simpl in *. destruct Hw as [He' Hpost].
  destruct (snapshot_spec e' He' Hfail) as (snap'&E&Hsnap').
  assert (∀ sp, a = Gc sp → snap.2 = snap'.2) as Hints.
  { intros sp ->. eapply snapshot_intents; [|done|done].
    destruct r as [[]|[]|]; simpl in Hpost.
    - inversion Hpost; subst. by eapply gc_steps_intents.
    - destruct Hpost as [->|(?&?&?&?)]; [done|by destruct Hfail].
    - by destruct (Hgc sp). }
  exists e'. destruct r as [[]|[]|]; simpl in Hpost; [| |by destruct Hpost as (sp&->&_); destruct (Hgc sp)];
    rewrite E; simpl.
  - destruct a; try done. by rewrite bool_decide_eq_false_2 by (intros []; by eapply Hints).
  - destruct Hpost as [Est|(?&?&?&?)]; [|by destruct Hfail]. rewrite Est in Hsnap'.
    rewrite (is_snapshot_fun _ _ _ Hsnap Hsnap').
    rewrite bool_decide_eq_false_2 by (by intros []). simpl.
    destruct a; try done. by rewrite bool_decide_eq_false_2 by (by intros []).
Qed.

End refine.
