(* ===== verification/SequentialSpec.v ===== *)
(** * SequentialSpec: the engine is a sequential key-value store

    The specification of [Sequential] against the abstract store: what a condition on
    newest versions and locks means, and that each effect keeps the representation. *)
From S2P Require Export BatchSpec ScheduleSpec Sequential.

Definition lock_of (i : Intent) : Lock :=
  mkLock (intent_txn_id i) (intent_start_ts i) (intent_mutation i).
Definition version_of (k : Key) (p : Timestamp * option Value) : CommittedVersion :=
  mkVersion k p.1 p.2.

(** [kv] knows the newest version and the lock of every key of [st]. *)
Record represents (st : Store) (kv : KV) : Prop := {
  rep_newest k : is_visible st k ts_max (version_of k <$> kv_newest kv !! k);
  rep_locks k : kv_locks kv !! k = lock_of <$> st_intents st !! k;
}.

Lemma represents_empty : represents store_empty kv_empty.
Proof.
  split; intros k; simpl; rewrite !lookup_empty; [|done].
  intros t x. simpl. by rewrite lookup_empty.
Qed.

Section represents.
Context (st : Store) (kv : KV) (Hrep : represents st kv).
Implicit Types (k : Key) (t c s : Timestamp).

(** ** Conditions *)

Lemma kv_newest_Some k p :
  kv_newest kv !! k = Some p →
  st_versions st !! (k, p.1) = Some p.2 ∧
  ∀ t x, st_versions st !! (k, t) = Some x → (t ≤ p.1)%ts.
Proof.
  intros E. pose proof (rep_newest _ _ Hrep k) as H. rewrite E in H.
  destruct H as (_&_&H&Hmax). split; [done|]. intros t x Hx. eapply Hmax; [done|apply ts_le_max].
Qed.
Lemma kv_newest_None k t x : kv_newest kv !! k = None → st_versions st !! (k, t) ≠ Some x.
Proof.
  intros E Hx. pose proof (rep_newest _ _ Hrep k) as H. rewrite E in H.
  specialize (H _ _ Hx). pose proof (ts_le_max t). lia.
Qed.

Lemma kv_unlocked_spec k : kv_unlocked kv k = true ↔ st_intents st !! k = None.
Proof.
  unfold kv_unlocked. rewrite bool_decide_eq_true, (rep_locks _ _ Hrep k).
  by rewrite fmap_None.
Qed.
Lemma kv_below_spec c k : kv_below kv c k = true ↔ newer_than_all st k c.
Proof.
  unfold kv_below, newer_than_all. destruct (kv_newest kv !! k) as [p|] eqn:E; simpl.
  - destruct (kv_newest_Some k p E) as [Hp Hmax]. rewrite ts_ltb_lt. split.
    + intros Hlt t x Hx. specialize (Hmax _ _ Hx). lia.
    + intros H. exact (H _ _ Hp).
  - split; [|done]. intros _ t x Hx. by destruct (kv_newest_None k t x E).
Qed.
Lemma kv_upto_spec s k :
  kv_upto kv s k = true ↔ ∀ t x, st_versions st !! (k, t) = Some x → (t ≤ s)%ts.
Proof.
  unfold kv_upto. destruct (kv_newest kv !! k) as [p|] eqn:E; simpl.
  - destruct (kv_newest_Some k p E) as [Hp Hmax]. rewrite ts_leb_le. split.
    + intros Hle t x Hx. specialize (Hmax _ _ Hx). lia.
    + intros H. exact (H _ _ Hp).
  - split; [|done]. intros _ t x Hx. by destruct (kv_newest_None k t x E).
Qed.
Lemma kv_free_spec c k : kv_free kv c k = true ↔ free st c k.
Proof.
  unfold kv_free, free. by rewrite andb_true_iff, kv_unlocked_spec, kv_below_spec.
Qed.
Lemma kv_writable_spec s k : kv_writable kv s k = true ↔ writable st s k.
Proof.
  unfold kv_writable, writable. by rewrite andb_true_iff, kv_unlocked_spec, kv_upto_spec.
Qed.

Lemma lock_matches_of txn s i : lock_matches txn s (lock_of i) = intent_matches txn s i.
Proof. done. Qed.
Lemma kv_holds_spec txn s k : kv_holds kv txn s k = true ↔ ∃ i, holds st k txn s i.
Proof.
  unfold kv_holds, holds. rewrite (rep_locks _ _ Hrep k).
  destruct (st_intents st !! k) as [i|]; simpl; [|naive_solver].
  rewrite lock_matches_of. unfold intent_matches.
  rewrite andb_true_iff, !bool_decide_eq_true. naive_solver.
Qed.
Lemma kv_in_place_spec txn s w : kv_in_place kv txn s w = true ↔ in_place st txn s w.
Proof.
  unfold kv_in_place, in_place, holds. rewrite bool_decide_eq_true, (rep_locks _ _ Hrep).
  destruct (st_intents st !! pw_key w) as [i|]; simpl; [|naive_solver].
  unfold lock_of. split; [intros [= <- <- <-]; by exists i|].
  intros (j&([= <-]&<-&<-)&<-). done.
Qed.
Lemma kv_committable_spec txn s c k :
  store_wf st → kv_committable kv txn s c k = true ↔ committable st txn s c k.
Proof.
  intros Hwf. unfold kv_committable, committable.
  rewrite andb_true_iff, kv_holds_spec, kv_below_spec. split.
  - intros [[i Hh] Hn]. exists i. split_and!; [done| |done]. intros m Hm.
    rewrite (wf_min _ Hwf k i) in Hm by apply Hh. done.
  - intros (i&Hh&_&Hn). eauto.
Qed.

(** A key that did not change since [s] shows its newest version at [s]. *)
Lemma kv_visible s k :
  kv_upto kv s k = true → is_visible st k s (version_of k <$> kv_newest kv !! k).
Proof.
  unfold kv_upto. destruct (kv_newest kv !! k) as [p|] eqn:E; simpl.
  - intros Hle%ts_leb_le. destruct (kv_newest_Some k p E) as [Hp Hmax].
    split_and!; [done..|]. intros t x Hx _. by eapply Hmax.
  - intros _ t x Hx. by destruct (kv_newest_None k t x E).
Qed.
Lemma kv_sees s k : kv_upto kv s k = true → sees st k s (kv_value kv k).
Proof.
  intros H. eexists. split; [by apply kv_visible|]. unfold kv_value.
  by destruct (kv_newest kv !! k).
Qed.
Lemma kv_guard_spec c g : kv_guard kv c g = true ↔ guard_holds st c g.
Proof.
  unfold kv_guard, guard_holds. rewrite !andb_true_iff, ts_ltb_lt.
  rewrite kv_writable_spec. unfold writable. split.
  - intros [[Hlt [Hn Hv]] Hg]. split_and!; [done..|].
    exists (version_of (guard_key g) <$> kv_newest kv !! guard_key g).
    split; [by apply kv_visible, kv_upto_spec|].
    destruct g; apply bool_decide_eq_true in Hg; simpl in *; rewrite <-Hg;
      unfold kv_value; by destruct (kv_newest kv !! key).
  - intros (Hlt&Hn&Hv&v&Hvis&Hg). split; [done|].
    pose proof (kv_visible _ _ (proj2 (kv_upto_spec _ _) Hv)) as Hvis'.
    rewrite (is_visible_fun _ _ _ _ _ Hvis Hvis') in Hg.
    destruct g; apply bool_decide_eq_true; simpl in *; rewrite <-Hg;
      unfold kv_value; by destruct (kv_newest kv !! key).
Qed.
End represents.

(** ** Effects *)

Section effects.
Implicit Types (st : Store) (kv : KV) (k : Key) (t c s : Timestamp).

Lemma put_version_represents st kv k c v :
  represents st kv → newer_than_all st k c →
  represents (store_put_version (mkVersion k c v) st)
    (mkKV (<[k := (c, v)]> (kv_newest kv)) (kv_locks kv)).
Proof.
  intros Hrep Hn. split; intros k'; [|apply Hrep]. simpl.
  destruct (decide (k' = k)) as [->|Hk].
  - rewrite lookup_insert_eq. split_and!; [done|apply ts_le_max|apply lookup_insert_eq|].
    intros t x Hx _. simpl in *. apply lookup_insert_Some in Hx as [[[= <-] _]|[_ Hx]]; [lia|].
    specialize (Hn _ _ Hx). lia.
  - rewrite lookup_insert_ne by done. pose proof (rep_newest _ _ Hrep k') as H.
    unfold is_visible in *. destruct (version_of k' <$> kv_newest kv !! k') as [v'|];
      simpl in *; repeat setoid_rewrite lookup_insert_ne; try done; by intros [=].
Qed.
Lemma put_versions_represents st kv c (l : list (Key * option Value)) :
  represents st kv → NoDup l.*1 → (∀ k, k ∈ l.*1 → newer_than_all st k c) →
  represents (store_put_versions ((λ p, mkVersion p.1 c p.2) <$> l) st) (kv_put c l kv).
Proof.
  revert st kv. induction l as [|[k v] l IH]; intros st kv Hrep Hnd Hn; [done|].
  csimpl in *. apply NoDup_cons in Hnd as [Hk Hnd]. apply IH; [|done|].
  - apply put_version_represents; [done|]. apply Hn. constructor.
  - intros k' Hk' t x. simpl. rewrite lookup_insert_ne by (intros [= ->]; done).
    apply Hn. by constructor.
Qed.

Lemma put_intents_represents st kv txn s (l : list PhysicalWrite) :
  represents st kv →
  represents (store_put_intents (write_intent txn s <$> l) st) (kv_lock txn s l kv).
Proof.
  revert st kv. induction l as [|w l IH]; intros st kv Hrep; [done|]. apply IH.
  split; intros k; [apply Hrep|]. simpl. destruct (decide (k = pw_key w)) as [->|Hk].
  - by rewrite !lookup_insert_eq.
  - rewrite !lookup_insert_ne by done. apply Hrep.
Qed.

Lemma remove_intents_represents st kv txn s (keys : list Key) :
  represents st kv →
  represents (store_remove_intents (remove_list txn s keys) st) (kv_release txn s keys kv).
Proof.
  revert st kv. induction keys as [|k keys IH]; intros st kv Hrep; [done|]. apply IH.
  unfold kv_holds, store_remove_intent. rewrite (rep_locks _ _ Hrep k).
  destruct (st_intents st !! k) as [i|]; simpl; [|done]. rewrite lock_matches_of.
  destruct (intent_matches txn s i); [|done]. split; intros k'; [apply Hrep|]. simpl.
  destruct (decide (k' = k)) as [->|Hk]; [by rewrite !lookup_delete_eq|].
  rewrite !lookup_delete_ne by done. apply Hrep.
Qed.

Lemma write_represents st kv c writes :
  represents st kv → NoDup (pw_key <$> writes) →
  (∀ w, w ∈ writes → free st c (pw_key w)) →
  represents (store_put_versions (write_version c <$> writes) st) (kv_write c writes kv).
Proof.
  intros Hrep Hnd Hf.
  pose proof (put_versions_represents st kv c ((λ w, (pw_key w, pw_value w)) <$> writes)) as H.
  rewrite <-!list_fmap_compose in H. apply H; [done|done|].
  by intros k (w&->&Hw%Hf)%list_elem_of_fmap; destruct Hw.
Qed.
Lemma commit_represents st kv txn s c (keys : list Key) :
  represents st kv → NoDup keys → (∀ k, k ∈ keys → committable st txn s c k) →
  represents (committed_all txn s c keys st) (kv_commit txn s c keys kv).
Proof.
  intros Hrep Hnd Hc. apply remove_intents_represents.
  pose proof (put_versions_represents st kv c (kv_pending kv <$> keys)) as H.
  rewrite <-!list_fmap_compose, list_fmap_id in H.
  assert (commit_version st c <$> keys =
    (λ p, mkVersion p.1 c p.2) ∘ kv_pending kv <$> keys) as ->; [|apply H; [done|done|]].
  - apply list_fmap_ext. intros _ k _. simpl. unfold commit_version. f_equal.
    rewrite (rep_locks _ _ Hrep k). by destruct (st_intents st !! k).
  - intros k (i&_&_&?)%Hc. done.
Qed.
Lemma gc_represents st st' kv sp :
  gc_steps sp false st st' → represents st kv → represents st' kv.
Proof.
  intros Hgc Hrep. split; intros k.
  - eapply gc_steps_visible; [done|apply ts_le_max|apply Hrep].
  - rewrite (gc_steps_intents _ _ _ _ Hgc). apply Hrep.
Qed.
End effects.

(** ** The engine's actions *)

Section steps.
Context {B : Type} `{HL : BackendLaws B} `{HP : Platform} (fuel : nat).
Context (Hfail : ¬ may_fail).
Implicit Types (e : MvccEngine B) (kv : KV) (k : Key) (c s : Timestamp).

(** The outcome of an action is the one the specification gives. *)
Definition as_specified (next : option KV) e (e' : MvccEngine B) (r : res unit unit) : Prop :=
  einv e' ∧
  match next with
  | Some kv' => r = Ok tt ∧ represents (estore e') kv'
  | None => r = Err tt ∧ estore e' = estore e
  end.

(** An operation that succeeds under the condition [P] only, changes nothing
    otherwise, and does succeed under it. *)
Lemma wp_decided {E} (m : M (MvccEngine B) E unit) e (P : Prop) (b : bool) (kv' : KV) :
  wp m e (λ e' r, einv e' ∧
    match r with
    | Ok _ => P ∧ represents (estore e') kv'
    | Err _ => estore e' = estore e
    | Panic => False
    end) →
  (P → (m e).2 = Ok tt) → (b = true ↔ P) →
  wp (forget m) e (as_specified (if b then Some kv' else None) e).
Proof.
  intros Hw Hok Hb. apply wp_forget. unfold wp in *.
  destruct (m e) as [e' [[]|err|]]; destruct Hw as [He' Hr]; [| |done]; (split; [done|]).
  - destruct Hr as [HP' Hrep]. by rewrite (proj2 Hb HP').
  - destruct b; [|done]. by specialize (Hok (proj1 Hb eq_refl)).
Qed.

Lemma names_once_spec (keys : list Key) : names_once keys = true ↔ keys ≠ [] ∧ NoDup keys.
Proof. unfold names_once. by rewrite andb_true_iff, !bool_decide_eq_true. Qed.
Lemma forallb_spec {A} (f : A → bool) (P : A → Prop) (l : list A) :
  (∀ x, f x = true ↔ P x) → forallb f l = true ↔ ∀ x, x ∈ l → P x.
Proof.
  intros Hf. rewrite forallb_forall. setoid_rewrite <-list_elem_of_In. by setoid_rewrite Hf.
Qed.
Lemma direct_step c writes e kv :
  einv e → represents (estore e) kv →
  wp (forget (apply_direct_batch c writes)) e
    (as_specified (kv_step (DirectBatch c writes) kv) e).
Proof.
  intros Hinv Hrep. eapply wp_decided with (P := (pw_key <$> writes ≠ [] ∧
    NoDup (pw_key <$> writes)) ∧ ∀ w, w ∈ writes → free (estore e) c (pw_key w)).
  - eapply wp_mono; [by apply apply_direct_batch_wp|].
    intros e' [[]|err|] [He' Hp]; (split; [done|]); [|by apply Hp|done].
    destruct Hp as (Hne&Hnd&Hf&->). split; [|by apply write_represents].
    split; [|done]. split; [by intros ?%fmap_nil_inv|done].
  - intros [[Hne Hnd] Hf]. eapply wp_result, direct_batch_free; try done. by intros ->; apply Hne.
  - rewrite andb_true_iff, names_once_spec.
    by rewrite (forallb_spec _ _ writes (λ w, kv_free_spec _ _ Hrep c (pw_key w))).
Qed.

Lemma guarded_step c guards writes e kv :
  einv e → represents (estore e) kv →
  wp (forget (apply_guarded_batch c guards writes)) e
    (as_specified (kv_step (GuardedBatch c guards writes) kv) e).
Proof.
  intros Hinv Hrep. eapply wp_decided with (P := (((pw_key <$> writes ≠ [] ∧
    NoDup (pw_key <$> writes)) ∧ guards ≠ []) ∧ (∀ g, g ∈ guards → guard_holds (estore e) c g)) ∧
    ∀ w, w ∈ writes → free (estore e) c (pw_key w)).
  - eapply wp_mono; [by apply apply_guarded_batch_wp|].
    intros e' [[]|err|] [He' Hp]; (split; [done|]); [|by apply Hp|done].
    destruct Hp as (Hne&Hgs&Hnd&Hg&Hf&->). split; [|by apply write_represents].
    split_and!; try done. by intros ?%fmap_nil_inv.
  - intros [[[[Hne Hnd] Hgs] Hg] Hf]. eapply wp_result, guarded_batch_held; try done.
    by intros ->; apply Hne.
  - rewrite !andb_true_iff, names_once_spec, bool_decide_eq_true.
    rewrite (forallb_spec _ _ writes (λ w, kv_free_spec _ _ Hrep c (pw_key w))).
    by rewrite (forallb_spec _ _ guards (kv_guard_spec _ _ Hrep c)).
Qed.

(** A condition with two ways to succeed. *)
Lemma wp_decided_or {E} (m : M (MvccEngine B) E unit) e (P Q : Prop) (b b' : bool) (kv1 kv2 : KV) :
  wp m e (λ e' r, einv e' ∧
    match r with
    | Ok _ => P ∧ represents (estore e') kv1 ∨ ¬ P ∧ Q ∧ represents (estore e') kv2
    | Err _ => estore e' = estore e
    | Panic => False
    end) →
  (P ∨ Q → (m e).2 = Ok tt) → (b = true ↔ P) → (b' = true ↔ Q) →
  wp (forget m) e (as_specified (if b then Some kv1 else if b' then Some kv2 else None) e).
Proof.
  intros Hw Hok Hb Hb'. apply wp_forget. unfold wp in *.
  destruct (m e) as [e' [[]|err|]]; destruct Hw as [He' Hr]; [| |done]; (split; [done|]).
  - destruct Hr as [[HP1 Hrep]|(HP1&HQ&Hrep)]; [by rewrite (proj2 Hb HP1)|].
    rewrite (proj2 Hb' HQ). destruct b; [|done]. by destruct HP1; apply Hb.
  - destruct b; [by specialize (Hok (or_introl (proj1 Hb eq_refl)))|].
    destruct b'; [by specialize (Hok (or_intror (proj1 Hb' eq_refl)))|done].
Qed.

Lemma write_mutation_value mu : write_mutation (Mutation_value mu) = mu.
Proof. by destruct mu. Qed.
Lemma prewrite_step txn s k mu e kv :
  einv e → represents (estore e) kv →
  wp (forget (prewrite txn s k mu)) e (as_specified (kv_step (Prewrite txn s k mu) kv) e).
Proof.
  intros Hinv Hrep. set (w := mkWrite k (Mutation_value mu)).
  pose proof (prewrite_iff txn s w e Hinv Hfail) as Hiff.
  assert (write_mutation (pw_value w) = mu) as E by apply write_mutation_value.
  change (pw_key w) with k in Hiff. rewrite E in Hiff.
  eapply wp_decided_or with (P := in_place (estore e) txn s w) (Q := writable (estore e) s k).
  - eapply wp_mono; [by apply prewrite_wp|].
    intros e' [[]|err|] [He' Hp]; (split; [done|]); [|by apply Hp|done].
    destruct Hp as [(i&Hh&Hm&->)|(Hn&Hv&->)].
    + left. split; [|done]. exists i. by rewrite E.
    + right. split; [by intros (i&(Hi&_)&_); simpl in Hi; congruence|]. split; [done|].
      pose proof (put_intents_represents _ _ txn s [w] Hrep) as Hput. simpl in Hput.
      unfold write_intent in Hput. by rewrite E in Hput.
  - intros HPQ. unfold wp in Hiff. destruct (prewrite txn s k mu e) as [e' [[]|err|]];
      destruct Hiff as [_ Hr]; [done| |done]. by destruct Hr.
  - by apply kv_in_place_spec.
  - by apply kv_writable_spec.
Qed.

Lemma prewrite_batch_step txn s writes e kv :
  einv e → represents (estore e) kv →
  wp (forget (prewrite_batch txn s writes)) e
    (as_specified (kv_step (PrewriteBatch txn s writes) kv) e).
Proof.
  intros Hinv Hrep. simpl.
  pose proof (forallb_spec _ _ writes (kv_in_place_spec _ _ Hrep txn s)) as Hin.
  pose proof (forallb_spec _ _ writes (λ w, kv_writable_spec _ _ Hrep s (pw_key w))) as Hwr.
  destruct (names_once (pw_key <$> writes)) eqn:Hb.
  - apply names_once_spec in Hb as [Hne Hnd].
    assert (writes ≠ []) as Hne' by by intros ->; apply Hne.
    eapply wp_decided_or; [| |exact Hin|exact Hwr].
    + eapply wp_mono; [by apply prewrite_batch_wp|].
      intros e' [[]|err|] [He' Hp]; (split; [done|]); [|by apply Hp|done].
      destruct Hp as (_&_&[[Hall ->]|[Hall ->]]); [by left|right].
      split; [|split; [done|by apply put_intents_represents]].
      intros Hp. destruct writes as [|w l]; [done|].
      apply (in_place_not_writable _ _ _ _ (Hp w ltac:(constructor))), Hall. constructor.
    + intros [Hall|Hall]; [|by eapply wp_result, prewrite_batch_free].
      by eapply wp_result, prewrite_batch_replay.
  - eapply wp_decided with (b := false) (kv' := kv) (P := False); [|done|done].
    eapply wp_mono; [by apply prewrite_batch_wp|].
    intros e' [[]|err|] [He' Hp]; (split; [done|]); [exfalso|by apply Hp|done].
    destruct Hp as (Hne&Hnd&_). apply not_true_iff_false in Hb. apply Hb, names_once_spec.
    split; [by intros ?%fmap_nil_inv|done].
Qed.

Lemma commit_step txn k s c e kv :
  einv e → store_wf (estore e) → represents (estore e) kv →
  wp (forget (commit txn k s c)) e (as_specified (kv_step (Commit txn k s c) kv) e).
Proof.
  intros Hinv Hwf Hrep.
  eapply wp_decided with (P := (s < c)%ts ∧ committable (estore e) txn s c k).
  - eapply wp_mono; [by apply commit_wp|].
    intros e' [[]|err|] [He' Hp]; (split; [done|]); [|by apply Hp|done].
    destruct Hp as (i&Hh&Hsc&Hm&Hn&->).
    assert (committable (estore e) txn s c k) as Hc by by exists i.
    split; [done|].
    assert (committed_store k c i (estore e) = committed_all txn s c [k] (estore e)) as ->.
    { apply (committed_all_cons txn s c k []); [|done]. apply not_elem_of_nil. }
    apply commit_represents; [done|apply NoDup_singleton|].
    by intros k' ->%list_elem_of_singleton.
  - intros [Hsc (i&Hh&Hm&Hn)]. by destruct (commit_held txn k s c e i) as (_&?&_).
  - by rewrite andb_true_iff, ts_ltb_lt, kv_committable_spec.
Qed.

Lemma commit_batch_step txn s c (keys : list Key) e kv :
  einv e → store_wf (estore e) → represents (estore e) kv →
  wp (forget (commit_batch txn s c keys)) e
    (as_specified (kv_step (CommitBatch txn s c keys) kv) e).
Proof.
  intros Hinv Hwf Hrep. eapply wp_decided with (P := ((keys ≠ [] ∧ NoDup keys) ∧ (s < c)%ts) ∧
    ∀ k, k ∈ keys → committable (estore e) txn s c k).
  - eapply wp_mono; [by apply commit_batch_wp|].
    intros e' [[]|err|] [He' Hp]; (split; [done|]); [|by apply Hp|done].
    destruct Hp as (?&?&?&?&->). split; [done|]. by apply commit_represents.
  - intros [[[??]?]?]. by eapply wp_result, commit_batch_held.
  - rewrite !andb_true_iff, names_once_spec, ts_ltb_lt.
    by rewrite (forallb_spec _ _ keys (λ k, kv_committable_spec _ _ Hrep txn s c k Hwf)).
Qed.

Lemma abort_step txn k s e kv :
  einv e → represents (estore e) kv →
  wp (forget (abort txn k s)) e (as_specified (kv_step (Abort txn k s) kv) e).
Proof.
  intros Hinv Hrep. apply wp_forget. eapply wp_mono; [by apply abort_wp|].
  intros e' [[]|err|] [He' Hp]; [|by destruct Hp|done]. split; [done|]. split; [done|].
  rewrite Hp. by apply (remove_intents_represents _ _ txn s [k]).
Qed.

Lemma abort_batch_step txn s (keys : list Key) e kv :
  einv e → represents (estore e) kv →
  wp (forget (abort_batch txn s keys)) e
    (as_specified (kv_step (AbortBatch txn s keys) kv) e).
Proof.
  intros Hinv Hrep. eapply wp_decided with (P := NoDup keys).
  - eapply wp_mono; [by apply abort_batch_wp|].
    intros e' [[]|err|] [He' Hp]; (split; [done|]); [|by apply Hp|done].
    destruct Hp as [? ->]. split; [done|]. by apply remove_intents_represents.
  - intros Hnd. by apply abort_batch_each.
  - apply bool_decide_eq_true.
Qed.

Lemma gc_step_nothing sp e kv :
  einv e → gc_fits fuel (estore e) → represents (estore e) kv →
  wp (forget (finished (gc fuel sp gc_action_options))) e (as_specified (kv_step (Gc sp) kv) e).
Proof.
  intros Hinv (Hfuel&Hver&Hint) Hrep. apply wp_forget, wp_finished.
  eapply wp_mono; [by apply gc_wp; [done|apply gc_action_fits|..]|].
  intros e' [[stats|]|err|] (He'&Hgc&Hr); [|done| |done].
  - split; [done|]. split; [done|]. by eapply gc_represents.
  - by destruct Hr as [(_&[?|?])|[? _]].
Qed.

(** Every action does what the specification says, the outcome included. *)
Lemma action_step a e kv :
  einv e → store_wf (estore e) → gc_fits fuel (estore e) → represents (estore e) kv →
  wp (apply_action fuel a) e (as_specified (kv_step a kv) e).
Proof.
  intros. destruct a; [by apply direct_step|by apply guarded_step|by apply prewrite_step
    |by apply commit_step|by apply abort_step|by apply prewrite_batch_step
    |by apply commit_batch_step|by apply abort_batch_step|by apply gc_step_nothing].
Qed.
End steps.

(** ** Whole schedules *)

(** The entries of a store, and how many an action may add. *)
Definition store_size (st : Store) : nat := size (st_versions st) + size (st_intents st).
Definition action_size (a : Action) : nat :=
  match a with
  | DirectBatch _ writes | GuardedBatch _ _ writes | PrewriteBatch _ _ writes => length writes
  | CommitBatch _ _ _ keys => length keys
  | Prewrite _ _ _ _ | Commit _ _ _ _ => 1
  | _ => 0
  end.
Definition schedule_size (schedule : list Action) : nat := sum_list (action_size <$> schedule).

Section sizes.
Implicit Types (st : Store).

Lemma insert_size `{Countable K} {A} (m : gmap K A) k x : size (<[k := x]> m) ≤ S (size m).
Proof. rewrite map_size_insert. destruct (m !! k); simpl; lia. Qed.
Lemma delete_size `{Countable K} {A} (m : gmap K A) k : size (delete k m) ≤ size m.
Proof. rewrite map_size_delete. destruct (m !! k); simpl; lia. Qed.

Lemma put_versions_size vs st :
  store_size (store_put_versions vs st) ≤ store_size st + length vs.
Proof.
  revert st. induction vs as [|v vs IH]; intros st; simpl; [lia|].
  etrans; [apply IH|]. unfold store_size. simpl.
  pose proof (insert_size (st_versions st) (cv_key v, cv_commit_ts v) (cv_value v)). lia.
Qed.
Lemma put_intents_size l st : store_size (store_put_intents l st) ≤ store_size st + length l.
Proof.
  revert st. induction l as [|i l IH]; intros st; simpl; [lia|].
  etrans; [apply IH|]. unfold store_size. simpl.
  pose proof (insert_size (st_intents st) (intent_key i) i). lia.
Qed.
Lemma remove_intents_size l st : store_size (store_remove_intents l st) ≤ store_size st.
Proof.
  revert st. induction l as [|[[k txn] s] l IH]; intros st; simpl; [done|].
  etrans; [apply IH|]. unfold store_remove_intent. repeat case_match; try done.
  unfold store_size. simpl. pose proof (delete_size (st_intents st) k). lia.
Qed.
Lemma mvcc_step_size st a st' :
  mvcc_step st a st' → store_size st' ≤ store_size st + action_size a.
Proof.
  destruct 1 as [st c ws _ _|st c gs ws _ _ _|st txn s k mu _|st txn s k mu i _ _
    |st txn s ws _ _|st txn s ws _|st txn k s c i _ _ _ _|st txn s c keys _ _ _
    |st txn k s|st txn s keys|st sp st' Hgc]; simpl; try lia.
  - by rewrite put_versions_size, length_fmap.
  - by rewrite put_versions_size, length_fmap.
  - apply (put_intents_size [mkIntent k txn s mu None]).
  - by rewrite put_intents_size, length_fmap.
  - unfold store_size. simpl.
    pose proof (insert_size (st_versions st) (k, c) (Mutation_value (intent_mutation i))).
    pose proof (delete_size (st_intents st) k). lia.
  - by rewrite remove_intents_size, put_versions_size, length_fmap.
  - pose proof (remove_intents_size [(k, txn, s)] st). simpl in *. lia.
  - rewrite remove_intents_size. lia.
  - unfold store_size. rewrite (gc_steps_intents _ _ _ _ Hgc).
    pose proof (map_subseteq_size _ _ (gc_steps_subset _ _ _ _ Hgc)). lia.
Qed.

Lemma image_size `{Countable K, Countable L} (f : K → L) (X : gset K) :
  size (set_map (D := gset L) f X) ≤ size X.
Proof.
  induction X as [|x X Hx IH] using set_ind_L; [done|].
  rewrite (size_union {[x]} X), size_singleton by set_solver.
  rewrite set_map_union_L, set_map_singleton_L, size_union_alt, size_singleton.
  pose proof (subseteq_size (set_map (D := gset L) f X ∖ {[f x]}) (set_map f X)
    ltac:(set_solver)). lia.
Qed.
(** The size bounds the work of a collection. *)
Lemma gc_measure_size st : gc_measure None st ≤ 2 * store_size st.
Proof.
  unfold gc_measure, store_size.
  assert (size (remaining None st) ≤ size (st_versions st) + size (st_intents st)); [|lia].
  rewrite <-(size_dom (D := gset _) (st_versions st)), <-(size_dom (D := gset Key) (st_intents st)).
  transitivity (size (key_set st)); [apply subseteq_size; unfold remaining; set_solver|].
  unfold key_set. rewrite size_union_alt.
  pose proof (subseteq_size (dom (st_intents st) ∖ set_map fst (dom (st_versions st)))
    (dom (st_intents st)) ltac:(set_solver)).
  pose proof (image_size fst (dom (st_versions st))). lia.
Qed.
End sizes.

Section history.
Context {B : Type} `{HL : BackendLaws B} `{HP : Platform} (fuel : nat).
Context (Hfail : ¬ may_fail).
Implicit Types (e : MvccEngine B) (kv : KV).

(** A fuel and a machine for stores of at most [n] entries. *)
Definition room_for (n : nat) : Prop := 2 * n < fuel ∧ (N.of_nat n < usize_modulus)%N.
Lemma room_gc_fits n st : room_for n → store_size st ≤ n → gc_fits fuel st.
Proof.
  intros [Hfuel Hmod] Hn. pose proof (gc_measure_size st). unfold gc_fits, version_count.
  unfold store_size in *. lia.
Qed.

Lemma run_sequential n schedule e kv :
  einv e → store_wf (estore e) → represents (estore e) kv →
  room_for n → store_size (estore e) + schedule_size schedule ≤ n →
  run_outcomes fuel schedule e = (kv_run schedule kv).1 ∧
  einv (apply_schedule fuel schedule e) ∧
  represents (estore (apply_schedule fuel schedule e)) (kv_run schedule kv).2.
Proof.
  intros Hinv Hwf Hrep Hroom. revert e kv Hinv Hwf Hrep.
  induction schedule as [|a schedule IH]; intros e kv Hinv Hwf Hrep Hn; [done|].
  unfold schedule_size in *. csimpl in *.
  pose proof (action_step fuel Hfail a e kv Hinv Hwf
    (room_gc_fits n (estore e) Hroom ltac:(lia)) Hrep) as Hs.
  pose proof (apply_action_wp fuel a e Hinv) as Hp. unfold wp in *. simpl.
  destruct (apply_action fuel a e) as [e' r]. destruct Hs as [He' Hs], Hp as [_ Hp]. simpl in *.
  destruct (kv_step a kv) as [kv'|]; simpl.
  - destruct Hs as [-> Hrep']. simpl in Hp.
    pose proof (mvcc_step_size _ _ _ Hp). pose proof (mvcc_step_wf _ _ _ Hp Hwf) as Hwf'.
    destruct (IH e' kv' He' Hwf' Hrep' ltac:(lia)) as [-> ?].
    by destruct (kv_run schedule kv').
  - destruct Hs as [-> E]. rewrite <-E in Hwf, Hrep, Hn.
    destruct (IH e' kv He' Hwf Hrep ltac:(lia)) as [-> ?].
    by destruct (kv_run schedule kv).
Qed.

Lemma represents_read e kv k rt :
  einv e → represents (estore e) kv → kv_upto kv rt k = true →
  read e k rt = Ok (kv_value kv k).
Proof. intros. apply read_ok; [done..|]. by apply kv_sees. Qed.
End history.
