(* ===== verification/Demo.v ===== *)
(** * Demo: concrete engines over the in-memory backend

    Small stores built with the engine's own operations; the witnesses of the
    theorems evaluate on them. *)
From S2P Require Export InMemorySpec ScheduleSpec.

Module Demo.
Abbreviation Engine := (MvccEngine InMemoryBackend).

Definition ka : Key := [Byte.x61].
Definition kb : Key := [Byte.x62].
Definition kc : Key := [Byte.x63].
Definition v1 : Value := [Byte.x01].
Definition v2 : Value := [Byte.x02].
Definition t1 : TxnId := TXN 1.
Definition t2 : TxnId := TXN 2.

Definition empty : Engine := MvccEngine_new InMemory.new.
(** [a] and [b] written at 1. *)
Definition base : Engine :=
  (apply_direct_batch (TS 1) [mkWrite ka (Some v1); mkWrite kb (Some v1)] empty).1.
(** [a] deleted and [b] overwritten at 5. *)
Definition history : Engine :=
  (apply_direct_batch (TS 5) [mkWrite ka None; mkWrite kb (Some v2)] base).1.
(** Transaction 1, started at 7, holds [b] and [c]. *)
Definition locked : Engine :=
  (prewrite_batch t1 (TS 7) [mkWrite kb None; mkWrite kc (Some v2)] history).1.

Lemma empty_inv : einv empty.
Proof. apply im_new_inv. Qed.
Lemma empty_store : estore empty = store_empty.
Proof. done. Qed.
Lemma base_inv : einv base.
Proof. apply (apply_direct_batch_wp _ _ empty), empty_inv. Qed.
Lemma history_inv : einv history.
Proof. apply (apply_direct_batch_wp _ _ base), base_inv. Qed.
Lemma locked_inv : einv locked.
Proof. apply (prewrite_batch_wp _ _ _ history), history_inv. Qed.

(** The schedule that leads there, and its stores are well-formed. *)
Definition schedule : list Action := [
  DirectBatch (TS 1) [mkWrite ka (Some v1); mkWrite kb (Some v1)];
  DirectBatch (TS 5) [mkWrite ka None; mkWrite kb (Some v2)];
  PrewriteBatch t1 (TS 7) [mkWrite kb None; mkWrite kc (Some v2)]].
Lemma schedule_runs : apply_schedule (HP := debug64) 10 schedule empty = locked.
Proof. reflexivity. Qed.
Lemma locked_wf : store_wf (estore locked).
Proof.
  rewrite <-schedule_runs. apply apply_schedule_wf; [apply empty_inv|].
  rewrite empty_store. apply empty_wf.
Qed.
Lemma history_wf : store_wf (estore history).
Proof.
  change history with (apply_schedule (HP := debug64) 10 (take 2 schedule) empty).
  apply apply_schedule_wf; [apply empty_inv|]. rewrite empty_store. apply empty_wf.
Qed.

(** [a] is unlocked and its versions are at 1 and 5: bounding the versions of a
    concrete store by evaluation. *)
Definition versions_below (st : Store) (k : Key) (t : Timestamp) : bool :=
  forallb (λ p, negb (bool_decide (p.1.1 = k)) || ts_leb p.1.2 t) (map_to_list (st_versions st)).
Lemma versions_below_spec st k t :
  versions_below st k t = true →
  ∀ u x, st_versions st !! (k, u) = Some x → (u ≤ t)%ts.
Proof.
  intros Hb u x Hx. unfold versions_below in Hb. rewrite forallb_forall in Hb.
  apply elem_of_map_to_list, list_elem_of_In in Hx. apply Hb in Hx. simpl in Hx.
  rewrite bool_decide_eq_true_2 in Hx by done. by apply ts_leb_le.
Qed.
Lemma ka_writable : writable (estore locked) (TS 7) ka.
Proof.
  split; [vm_compute; reflexivity|]. apply versions_below_spec. vm_compute. reflexivity.
Qed.

(** In [history] the newest version of [a] is its deletion at 5, and below it there is
    the value written at 1. *)
Definition ka_delete : CommittedVersion := mkVersion ka (TS 5) None.
Lemma ka_below_5 t x : st_versions (estore history) !! (ka, t) = Some x → (t ≤ TS 5)%ts.
Proof. apply (versions_below_spec (estore history) ka (TS 5)). vm_compute. reflexivity. Qed.
Lemma ka_below_delete t x :
  st_versions (estore history) !! (ka, t) = Some x → (t < TS 5)%ts → (t ≤ TS 1)%ts.
Proof.
  intros Hx Ht.
  apply (versions_below_spec (store_remove_version ka (TS 5) (estore history)) ka (TS 1))
    with (x := x); [vm_compute; reflexivity|].
  simpl. rewrite lookup_delete_ne; [done|]. intros [= <-]. ts_lia.
Qed.
Lemma ka_delete_visible : is_visible (estore history) ka (TS 6) (Some ka_delete).
Proof.
  split_and!; [done|vm_compute; discriminate|vm_compute; reflexivity|].
  intros t x Hx _. by apply ka_below_5 with x.
Qed.
Lemma ka_delete_final : final_tombstone (estore history) ka_delete.
Proof.
  split_and!; [done|vm_compute; reflexivity|]. split; [vm_compute; by eexists|].
  intros t x. apply ka_below_5.
Qed.
End Demo.
