(* ===== verification/SimulationProps.v ===== *)
(** * SimulationProps: the command-load simulation

    The client program of [Simulation] on every backend that keeps the contract and
    does not fail, as the in-memory backend it runs on: it always completes, with
    counters that account for the contents of the store. *)
From S2P Require Export Demo SimulationSpec.

Import Sim.

Section props.
Context {B : Type} `{HL : BackendLaws B} `{HP : Platform}.

(** C18: whatever the mix of commands, as long as its weights are not all zero and
    their sum fits 64 bits ([mix_ok]), the simulation runs to its end: no [unwrap] panics, no counter overflows, no loop exhausts its fuel.  At the end the counters
    balance: every command is counted once, every delayed increment was applied,
    every conflict retried, the clock ticked once for each write, and the collections
    left exactly the versions written that they did not count as removed. *)
Theorem simulation_completes fuel mix (fresh : B) :
  ¬ may_fail → backend_inv fresh → abs fresh = store_empty →
  (32 ≤ usize_bits)%N → mix_ok mix →
  ∃ s, run_simulation fuel mix fresh = (s, Ok (report_of OPS (stats s))) ∧
    pending s = [] ∧ ok INITIAL_KEYS OPS 0 (runs_before mix OPS) s.
Proof. intros. by apply run_simulation_ok. Qed.

(** The program's [main] completes its seven simulations. *)
Theorem main_completes fuel (fresh : B) :
  ¬ may_fail → backend_inv fresh → abs fresh = store_empty →
  (32 ≤ usize_bits)%N → main fuel fresh = Ok tt.
Proof. intros. by apply main_ok. Qed.

(** C22: no increment is lost.  The command reads a counter and either makes it one
    more at once, or queues the increment with what it read for one of the next 128
    operations.  When a queued increment is applied, after whatever happened since, the
    counter that a reader sees becomes one more than it was, by the guarded write
    itself or by its retry.  Nothing panics and the ledger is kept. *)
Theorem increments_never_lost initial total mix op ops n runs s :
  ¬ may_fail → (initial + 4 * total + 8 < N.min usize_modulus (2 ^ 63))%N →
  (ops < total)%N → (op < total)%N → ok initial ops n runs s →
  (n = len (pending s) → ∃ s', do_incr mix op s = (s', Ok tt) ∧
     ok initial (ops + 1) (len (pending s')) runs s' ∧ increments op s s') ∧
  (∀ queued p, n = (queued + 1)%N → pending_ok (next_ts s) p →
     ∃ s', apply_due p s = (s', Ok tt) ∧ ok initial ops queued runs s' ∧
       pending s' = pending s ∧ adds_one (pi_key p) s s').
Proof.
  intros Hfail Hsmall Hops Hop Hok. split.
  - intros ->.
    pose proof (do_incr_wp Hfail initial total ltac:(lia) ltac:(lia) mix op ops runs s
      Hok Hops Hop) as Hw. unfold wp in Hw.
    destruct (do_incr mix op s) as [s' r]. simpl in Hw. destruct Hw as [[-> ?] ?]. by exists s'.
  - intros queued p -> Hp.
    pose proof (apply_due_wp Hfail initial total ltac:(lia) ltac:(lia) p ops queued runs s
      Hok Hp ltac:(lia)) as Hw. unfold wp in Hw.
    destruct (apply_due p s) as [s' r]. simpl in Hw. destruct Hw as (->&?&?&?). by exists s'.
Qed.

(** C36: two keys drawn one after the other for a transaction are always different, so
    that the loop that redraws the second one while they are equal ends at once:
    identifiers keep the generator's state modulo eight, and two draws add six to it. *)
Theorem transaction_keys_differ fuel hot g1 g2 g3 a b :
  choose_key (E := Stuck) hot g1 = (g2, Ok a) → choose_key (E := Stuck) hot g2 = (g3, Ok b) →
  a ≠ b ∧ redraw fuel a b g3 = (g3, Ok b).
Proof.
  intros E1 E2.
  destruct (wp_run _ _ _ _ _ E1 (choose_key_wp hot g1)) as (k1&[= <-]&Ha&_).
  destruct (wp_run _ _ _ _ _ E2 (chosen_differ hot g2 _ Ha)) as (k2&[= <-]&_&Hne).
  split; [done|by apply redraw_differ].
Qed.

(** Numbers survive formatting: a 64-bit counter parses back from its decimal text
    and different 64-bit identifiers give different keys. *)
Theorem formatting_roundtrip n m :
  (n < 2 ^ 64)%N → (m < 2 ^ 64)%N →
  parse_counter (Some (to_string n)) = n ∧ (key n = key m ↔ n = m).
Proof.
  intros Hn Hm. split; [by apply parse_counter_string|]. split; [by apply key_inj|by intros ->].
Qed.
End props.

(** ** Witnesses *)

Lemma simulation_completes_witness :
  ∃ s, run_simulation (HP := debug64) 1 default_mix InMemory.new =
      (s, Ok (report_of OPS (stats s))) ∧
    pending s = [] ∧ ok INITIAL_KEYS OPS 0 (runs_before default_mix OPS) s.
Proof.
  apply (simulation_completes (HP := debug64)); [by intros []|apply im_new_inv|done|done|done].
Defined.

Lemma main_completes_witness : main (HP := release64) 1 InMemory.new = Ok tt.
Proof. apply (main_completes (HP := release64)); [by intros []|apply im_new_inv|done|done]. Defined.

Lemma formatting_roundtrip_witness :
  parse_counter (Some (to_string 1234)) = 1234%N ∧ (key 1234 = key 70 ↔ 1234%N = 70%N).
Proof. by apply formatting_roundtrip. Defined.

Lemma transaction_keys_differ_witness :
  let p1 := choose_key (E := Stuck) 85 (Lcg_new 1) in
  let p2 := choose_key (E := Stuck) 85 p1.1 in
  p1.2 = Ok (key 23) ∧ p2.2 = Ok (key 29) ∧
  key 23 ≠ key 29 ∧ redraw (H := debug64) 0 (key 23) (key 29) p2.1 = (p2.1, Ok (key 29)).
Proof.
  cbv zeta. split; [vm_compute; reflexivity|]. split; [vm_compute; reflexivity|].
  apply (transaction_keys_differ (HP := debug64) 0 85 (Lcg_new 1)
    (choose_key (E := Stuck) 85 (Lcg_new 1)).1); vm_compute; reflexivity.
Defined.

(** One counter at zero, and a delayed increment that took it for one: its guard fails
    and the retry makes it one. *)
Definition loaded : MvccEngine InMemoryBackend :=
  (apply_direct_batch (TS 1) (initial_writes 1) (MvccEngine_new InMemory.new)).1.
Lemma loaded_settled : settled loaded 2.
Proof.
  assert (wp (apply_direct_batch (TS 1) (initial_writes 1))
    (MvccEngine_new InMemory.new) (λ e _, settled e 2)) as H; [|exact H].
  apply direct_settled with (n := 1%N); [by intros []| |done|by apply initial_batch|done].
  split; [apply im_new_inv|done|done].
Qed.
Definition waiting : PendingIncr :=
  mkPending 0 (key 0) (TS 1) (Some (to_string 1)) (to_string 2).
Definition conflicting : SimState :=
  mkSim loaded (Lcg_new 0) (set_stat incr_delayed 1 Stats_default) [] 2 None.

Lemma increments_never_lost_witness :
  ∃ s', apply_due (HP := debug64) waiting conflicting = (s', Ok tt) ∧
    ok 1 1 0 0 s' ∧ pending s' = pending conflicting ∧ adds_one (key 0) conflicting s'.
Proof.
  apply (increments_never_lost (HP := debug64) 1 2 default_mix 1 1 1 0 conflicting);
    [by intros []|vm_compute; reflexivity|done|done| |done|].
  - split; [apply loaded_settled|constructor|..]; vm_compute; (reflexivity || discriminate).
  - split; [split|]; vm_compute; (reflexivity || discriminate).
Defined.
