(* ===== verification/TxnProps.v ===== *)
(** * TxnProps: the transaction operations

    What every operation of the engine promises, for every backend that keeps the
    contract of [Backend], with the outcome of each branch. *)
From S2P Require Export BatchSpec Demo.

Section props.
  Context {B : Type} `{HL : BackendLaws B}.
  Implicit Types (e : MvccEngine B) (key : Key).

(** C5: [commit] turns the caller's intent into a version exactly when the intent
    is held with this start timestamp, the commit timestamp is above the start,
    not below the intent's minimum and above every version of the key; the intent
    is removed in the same step.  Every other outcome names the condition that
    failed and leaves the store as it was. *)
Theorem commit_correct e e' r txn key s c :
  einv e → commit txn key s c e = (e', r) →
  einv e' ∧ commit_post txn key s c (estore e) r (estore e').
Proof. intros Hinv E. exact (wp_run _ _ _ _ _ E (commit_wp txn key s c e Hinv)). Qed.

(** C6: [prewrite] places an intent exactly when the key is unlocked and has no
    version above the start timestamp, answers a repeated request for the intent in
    place without changing anything, and reports a lock of another transaction, a
    different intent of the same transaction or a write conflict otherwise. *)
Theorem prewrite_correct e e' r txn s key mu :
  einv e → prewrite txn s key mu e = (e', r) →
  einv e' ∧ prewrite_post txn s key mu (estore e) r (estore e').
Proof. intros Hinv E. exact (wp_run _ _ _ _ _ E (prewrite_wp txn s key mu e Hinv)). Qed.

(** C7: [commit_batch] commits all of its keys or none: it succeeds exactly when
    the keys are distinct and each could be committed alone, and an error (the
    empty batch, a repeated key, the first key that cannot be committed) leaves the
    store as it was. *)
Theorem commit_batch_correct e e' r txn s c keys :
  einv e → commit_batch txn s c keys e = (e', r) →
  einv e' ∧ commit_batch_post txn s c keys (estore e) r (estore e').
Proof. intros Hinv E. exact (wp_run _ _ _ _ _ E (commit_batch_wp txn s c keys e Hinv)). Qed.

(** C8: [prewrite_batch] locks all of its keys or none: either every write finds
    its own intent already in place (and nothing changes) or every key is free of
    locks and of newer versions; a batch that is partly in place is refused. *)
Theorem prewrite_batch_correct e e' r txn s writes :
  einv e → prewrite_batch txn s writes e = (e', r) →
  einv e' ∧ prewrite_batch_post txn s writes (estore e) r (estore e').
Proof. intros Hinv E. exact (wp_run _ _ _ _ _ E (prewrite_batch_wp txn s writes e Hinv)). Qed.

(** C9: [apply_guarded_batch] writes its versions exactly when every guard holds
    (its key is unlocked, unchanged since the guard's read timestamp, and shows the
    expected version or value there) and every written key is unlocked and has only
    older versions; each error names a guard or key for which this fails. *)
Theorem apply_guarded_batch_correct e e' r c guards writes :
  einv e → apply_guarded_batch c guards writes e = (e', r) →
  einv e' ∧ guarded_batch_post c guards writes (estore e) r (estore e').
Proof.
  intros Hinv E. exact (wp_run _ _ _ _ _ E (apply_guarded_batch_wp c guards writes e Hinv)).
Qed.

(** C10: [apply_direct_batch] writes its versions exactly when the keys are distinct,
    unlocked and have only older versions. *)
Theorem apply_direct_batch_correct e e' r c writes :
  einv e → apply_direct_batch c writes e = (e', r) →
  einv e' ∧ direct_batch_post c writes (estore e) r (estore e').
Proof.
  intros Hinv E. exact (wp_run _ _ _ _ _ E (apply_direct_batch_wp c writes e Hinv)).
Qed.

(** C32: [abort_batch] removes, from distinct keys, exactly the intents of this
    transaction and start timestamp and touches nothing else. *)
Theorem abort_batch_correct e e' r txn s keys :
  einv e → abort_batch txn s keys e = (e', r) →
  einv e' ∧ abort_batch_post txn s keys (estore e) r (estore e').
Proof. intros Hinv E. exact (wp_run _ _ _ _ _ E (abort_batch_wp txn s keys e Hinv)). Qed.

(** C31: [read] and [read_with_version] answer from the newest version at or below
    the read timestamp: its value, and its timestamp with the value (a tombstone
    being a version without one).  [read_own_write] answers with the transaction's own
    pending mutation, and as [read] does when the key is unlocked or locked by another
    transaction or start timestamp. *)
Theorem read_correct e key txn s rt :
  einv e →
  ((∃ v, is_visible (estore e) key rt v ∧
     read e key rt = Ok (v ≫= cv_value) ∧
     read_with_version e key rt = Ok ((λ w, (cv_commit_ts w, cv_value w)) <$> v)) ∨
   (may_fail ∧ ∃ msg, read e key rt = Err (ReadError.Backend msg))) ∧
  match read_own_write e key txn s rt with
  | Ok o =>
      match st_intents (estore e) !! key with
      | Some i => if intent_matches txn s i then o = Mutation_value (intent_mutation i)
                  else sees (estore e) key rt o
      | None => sees (estore e) key rt o
      end
  | Err _ => may_fail
  | Panic => False
  end.
Proof.
  intros Hinv. split; [|by apply read_own_write_sees]. unfold read, read_with_version.
  pose proof (law_get_visible_committed (backend e) key rt Hinv) as Hv.
  destruct (get_visible_committed (backend e) key rt) as [v|msg|]; simpl in *; [|by eauto|done].
  left. by exists v.
Qed.

(** ** Combined behaviour *)

(** C27: a committed batch becomes visible atomically at its commit timestamp: its
    keys are unlocked, every read from then on sees the pending mutation, and reads
    below it and of other keys are as before. *)
Theorem commit_batch_atomic e e' txn s c keys :
  einv e → commit_batch txn s c keys e = (e', Ok tt) →
  (∀ k, k ∈ keys → st_intents (estore e') !! k = None ∧
     ∃ i, st_intents (estore e) !! k = Some i ∧
       ∀ rt, (c ≤ rt)%ts → sees (estore e') k rt (Mutation_value (intent_mutation i))) ∧
  (∀ k rt o, (rt < c)%ts ∨ k ∉ keys → sees (estore e) k rt o → sees (estore e') k rt o) ∧
  (∀ k, k ∉ keys → st_intents (estore e') !! k = st_intents (estore e) !! k).
Proof.
  intros Hinv E.
  destruct (wp_run _ _ _ _ _ E (commit_batch_wp txn s c keys e Hinv)) as [_ (_&Hnd&_&Hall&->)].
  split_and!.
  - intros k Hk. split; [eapply commit_batch_unlocks; [done|done|apply put_versions_intents]|].
    destruct (Hall k Hk) as (i&Hh&_&Hn). exists i. split; [by apply Hh|].
    intros rt Hrt. by apply commit_batch_sees; [..|apply Hh| |].
  - intros k rt o Hk. by apply commit_batch_sees_other.
  - intros k Hk. unfold remove_list.
    by rewrite lookup_remove_intents, decide_False, put_versions_intents.
Qed.

(** C19: a batch does what the single-key operations on its keys do one after the
    other: on a backend that does not fail, [commit_batch] succeeds exactly when they
    all do and then leaves the same store; [prewrite_batch] succeeds exactly when they
    all do and the batch was not partly in place before, leaves the same store then,
    and reports a partial replay when only the latter fails; [abort_batch] always
    succeeds and leaves the same store. *)
Theorem batches_as_sequences e txn s c keys writes :
  einv e → ¬ may_fail → NoDup keys → NoDup (pw_key <$> writes) →
  (keys ≠ [] →
     is_ok (commit_batch txn s c keys e).2 = is_ok (commit_each txn s c keys e).2 ∧
     (is_ok (commit_batch txn s c keys e).2 = true →
      estore (commit_batch txn s c keys e).1 = estore (commit_each txn s c keys e).1)) ∧
  (writes ≠ [] →
     (is_ok (prewrite_batch txn s writes e).2 = true ↔
      is_ok (prewrite_each txn s writes e).2 = true ∧
      ¬ partly_in_place (estore e) txn s writes) ∧
     (is_ok (prewrite_batch txn s writes e).2 = true →
      estore (prewrite_batch txn s writes e).1 = estore (prewrite_each txn s writes e).1) ∧
     (is_ok (prewrite_each txn s writes e).2 = true →
      partly_in_place (estore e) txn s writes →
      (prewrite_batch txn s writes e).2 = Err BatchPrewriteError.PartialBatchReplay)) ∧
  ((abort_batch txn s keys e).2 = Ok tt ∧ (abort_each txn s keys e).2 = Ok tt ∧
   estore (abort_batch txn s keys e).1 = estore (abort_each txn s keys e).1).
Proof.
  intros Hinv Hfail Hk Hw. split; [|split].
  - intros Hne. by apply commit_batch_each.
  - intros Hne. by apply prewrite_batch_each.
  - by apply abort_batch_each.
Qed.

(** C21: a failing batch reports its first failing key: apart from an empty batch, a
    repeated key and a partial replay, the error is the one the batch of that key alone
    would report, and the batches of the keys before it alone would succeed.  A guarded
    batch fails at its first guard that does not hold, and when they all hold it is
    the direct batch. *)
Theorem batch_first_error e txn s c keys guards writes :
  einv e → ¬ may_fail →
  (∀ err, (commit_batch txn s c keys e).2 = Err err →
     match err with
     | BatchCommitError.EmptyBatch => keys = []
     | BatchCommitError.DuplicateKeyInBatch k => repeated keys k
     | _ => first_failure keys (λ k, (commit_batch txn s c [k] e).2) err
     end) ∧
  (∀ err, (prewrite_batch txn s writes e).2 = Err err →
     match err with
     | BatchPrewriteError.EmptyBatch => writes = []
     | BatchPrewriteError.DuplicateKeyInBatch k => repeated (pw_key <$> writes) k
     | BatchPrewriteError.PartialBatchReplay =>
         ∀ w, w ∈ writes → (prewrite_batch txn s [w] e).2 = Ok tt
     | _ => first_failure writes (λ w, (prewrite_batch txn s [w] e).2) err
     end) ∧
  (∀ err, (apply_direct_batch c writes e).2 = Err err →
     match err with
     | BatchError.EmptyBatch => writes = []
     | BatchError.DuplicateKeyInBatch k => repeated (pw_key <$> writes) k
     | _ => first_failure writes (λ w, (apply_direct_batch c [w] e).2) err
     end) ∧
  (guards ≠ [] → writes ≠ [] → NoDup (pw_key <$> writes) →
     (∀ g, g ∈ guards → guard_holds (estore e) c g) ∧
       apply_guarded_batch c guards writes e = apply_direct_batch c writes e ∨
     ∃ l1 g l2 err, guards = l1 ++ g :: l2 ∧ (∀ g', g' ∈ l1 → guard_holds (estore e) c g') ∧
       ¬ guard_holds (estore e) c g ∧ apply_guarded_batch c guards writes e = (e, Err err)).
Proof.
  intros Hinv Hfail. split; [|split; [|split]].
  - exact (commit_batch_first txn s c keys e Hinv Hfail).
  - exact (prewrite_batch_first txn s writes e Hinv Hfail).
  - exact (direct_batch_first c writes e Hinv Hfail).
  - intros. by apply guarded_batch_first.
Qed.

(** Prewriting a key and committing it at a later timestamp makes the mutation
    what every read from the commit timestamp on returns; on a backend that does
    not fail each of the three operations succeeds. *)
Theorem prewrite_commit_read e txn s c rt key mu :
  einv e → ¬ may_fail → writable (estore e) s key → (s < c)%ts → (c ≤ rt)%ts →
  let e1 := (prewrite txn s key mu e).1 in
  let e2 := (commit txn key s c e1).1 in
  (prewrite txn s key mu e).2 = Ok tt ∧ (commit txn key s c e1).2 = Ok tt ∧
  read e2 key rt = Ok (Mutation_value mu).
Proof.
  intros Hinv Hfail Hw Hsc Hrt. cbv zeta.
  destruct (prewrite_free txn s key mu e Hinv Hfail Hw) as (He1&-> &E1).
  destruct (commit_held txn key s c (prewrite txn s key mu e).1 (mkIntent key txn s mu None))
    as (He2&->&E2); try done.
  - rewrite E1. split; [apply lookup_insert_eq|done].
  - intros t x Hx. rewrite E1 in Hx. apply Hw in Hx. lia.
  - split_and!; [done..|]. apply read_ok; [done..|]. rewrite E2, E1.
    apply committed_sees; [|done]. intros t x Hx. apply Hw in Hx. lia.
Qed.

(** Aborting right after a prewrite of a free key restores the store. *)
Theorem prewrite_abort_restores e txn s key mu :
  einv e → ¬ may_fail → writable (estore e) s key →
  let e1 := (prewrite txn s key mu e).1 in
  (abort txn key s e1).2 = Ok tt ∧ estore (abort txn key s e1).1 = estore e.
Proof.
  intros Hinv Hfail Hw. destruct (prewrite_free txn s key mu e Hinv Hfail Hw) as (He1&_&E1).
  pose proof (abort_wp txn key s _ He1) as Ha. unfold wp in Ha. simpl.
  destruct (abort txn key s (prewrite txn s key mu e).1) as [e2 [[]|err|]]; simpl in *;
    [|by destruct Ha as (_&?&_)|by destruct Ha].
  destruct Ha as [_ ->]. split; [done|]. rewrite E1.
  rewrite (remove_own_intent _ _ _ (mkIntent key txn s mu None))
    by (split; [apply lookup_insert_eq|done]).
  apply store_ext; [done|]. intros k. simpl. destruct Hw as [Hn _].
  destruct (decide (k = key)) as [->|Hk]; [by rewrite lookup_delete_eq|].
  by rewrite lookup_delete_ne, lookup_insert_ne.
Qed.
End props.

(** ** Witnesses *)

Import Demo.

Lemma commit_correct_witness :
  let p := commit t1 kb (TS 7) (TS 9) locked in
  is_ok p.2 = true ∧
  einv p.1 ∧ commit_post t1 kb (TS 7) (TS 9) (estore locked) p.2 (estore p.1).
Proof.
  split; [vm_compute; reflexivity|].
  apply (commit_correct locked); [apply locked_inv|apply surjective_pairing].
Defined.

Lemma prewrite_correct_witness :
  let p := prewrite t2 (TS 3) kb Delete locked in
  is_err p.2 = true ∧
  einv p.1 ∧ prewrite_post t2 (TS 3) kb Delete (estore locked) p.2 (estore p.1).
Proof.
  split; [vm_compute; reflexivity|].
  apply (prewrite_correct locked); [apply locked_inv|apply surjective_pairing].
Defined.

Lemma commit_batch_correct_witness :
  let p := commit_batch t1 (TS 7) (TS 9) [kb; kc] locked in
  is_ok p.2 = true ∧
  einv p.1 ∧ commit_batch_post t1 (TS 7) (TS 9) [kb; kc] (estore locked) p.2 (estore p.1).
Proof.
  split; [vm_compute; reflexivity|].
  apply (commit_batch_correct locked); [apply locked_inv|apply surjective_pairing].
Defined.

Lemma prewrite_batch_correct_witness :
  let p := prewrite_batch t1 (TS 7) [mkWrite kb None; mkWrite ka None] locked in
  p.2 = Err BatchPrewriteError.PartialBatchReplay ∧
  einv p.1 ∧ prewrite_batch_post t1 (TS 7) [mkWrite kb None; mkWrite ka None]
    (estore locked) p.2 (estore p.1).
Proof.
  split; [vm_compute; reflexivity|].
  apply (prewrite_batch_correct locked); [apply locked_inv|apply surjective_pairing].
Defined.

Lemma apply_guarded_batch_correct_witness :
  let p := apply_guarded_batch (TS 9) [ExpectedValue ka (TS 6) None] [mkWrite ka (Some v2)]
    locked in
  is_ok p.2 = true ∧
  einv p.1 ∧ guarded_batch_post (TS 9) [ExpectedValue ka (TS 6) None] [mkWrite ka (Some v2)]
    (estore locked) p.2 (estore p.1).
Proof.
  split; [vm_compute; reflexivity|].
  apply (apply_guarded_batch_correct locked); [apply locked_inv|apply surjective_pairing].
Defined.

Lemma apply_direct_batch_correct_witness :
  let p := apply_direct_batch (TS 9) [mkWrite ka (Some v2)] locked in
  is_ok p.2 = true ∧
  einv p.1 ∧ direct_batch_post (TS 9) [mkWrite ka (Some v2)] (estore locked) p.2 (estore p.1).
Proof.
  split; [vm_compute; reflexivity|].
  apply (apply_direct_batch_correct locked); [apply locked_inv|apply surjective_pairing].
Defined.

Lemma abort_batch_correct_witness :
  let p := abort_batch t1 (TS 7) [ka; kb] locked in
  is_ok p.2 = true ∧
  einv p.1 ∧ abort_batch_post t1 (TS 7) [ka; kb] (estore locked) p.2 (estore p.1).
Proof.
  split; [vm_compute; reflexivity|].
  apply (abort_batch_correct locked); [apply locked_inv|apply surjective_pairing].
Defined.

Lemma read_correct_witness :
  read locked kc (TS 6) = Ok None ∧ read_own_write locked kc t1 (TS 7) (TS 6) = Ok (Some v2) ∧
  ((∃ v, is_visible (estore locked) kc (TS 6) v ∧ read locked kc (TS 6) = Ok (v ≫= cv_value) ∧
      read_with_version locked kc (TS 6) = Ok ((λ w, (cv_commit_ts w, cv_value w)) <$> v)) ∨
   (False ∧ ∃ msg, read locked kc (TS 6) = Err (ReadError.Backend msg))).
Proof.
  split; [vm_compute; reflexivity|]. split; [vm_compute; reflexivity|].
  exact (proj1 (read_correct locked kc t1 (TS 7) (TS 6) locked_inv)).
Defined.

Lemma commit_batch_atomic_witness :
  (∃ i, st_intents (estore locked) !! kc = Some i ∧ ∀ rt, (TS 9 ≤ rt)%ts →
     sees (estore (commit_batch t1 (TS 7) (TS 9) [kb; kc] locked).1) kc rt
       (Mutation_value (intent_mutation i))).
Proof.
  destruct (commit_batch_atomic locked (commit_batch t1 (TS 7) (TS 9) [kb; kc] locked).1
    t1 (TS 7) (TS 9) [kb; kc] locked_inv) as [H _].
  - apply run_eq. vm_compute. reflexivity.
  - by apply H; right; left.
Defined.

Lemma batches_as_sequences_witness :
  is_ok (commit_batch t1 (TS 7) (TS 9) [kb; kc] locked).2 = true ∧
  estore (commit_batch t1 (TS 7) (TS 9) [kb; kc] locked).1 =
    estore (commit_each t1 (TS 7) (TS 9) [kb; kc] locked).1 ∧
  is_ok (prewrite_each t1 (TS 7) [mkWrite ka None] locked).2 = true ∧
  ¬ partly_in_place (estore locked) t1 (TS 7) [mkWrite ka None].
Proof.
  split; [vm_compute; reflexivity|].
  destruct (batches_as_sequences locked t1 (TS 7) (TS 9) [kb; kc] [mkWrite ka None])
    as (Hc&Hp&_); [apply locked_inv|by intros []
    |by apply NoDup_cons; split; [set_solver|apply NoDup_singleton]|apply NoDup_singleton|].
  split; [apply Hc; [done|vm_compute; reflexivity]|].
  apply Hp; [done|vm_compute; reflexivity].
Defined.

Lemma batch_first_error_witness :
  let r := (commit_batch t1 (TS 7) (TS 9) [kb; ka; kc] locked).2 in
  r = Err (BatchCommitError.IntentNotFound ka) ∧
  first_failure [kb; ka; kc] (λ k, (commit_batch t1 (TS 7) (TS 9) [k] locked).2)
    (BatchCommitError.IntentNotFound ka).
Proof.
  split; [vm_compute; reflexivity|].
  destruct (batch_first_error locked t1 (TS 7) (TS 9) [kb; ka; kc] [] []) as [Hc _];
    [apply locked_inv|by intros []|].
  apply (Hc (BatchCommitError.IntentNotFound ka)). vm_compute. reflexivity.
Defined.

Lemma prewrite_commit_read_witness :
  let e1 := (prewrite t2 (TS 7) ka (Put v1) locked).1 in
  let e2 := (commit t2 ka (TS 7) (TS 9) e1).1 in
  (prewrite t2 (TS 7) ka (Put v1) locked).2 = Ok tt ∧
  (commit t2 ka (TS 7) (TS 9) e1).2 = Ok tt ∧ read e2 ka (TS 12) = Ok (Some v1).
Proof.
  apply (prewrite_commit_read locked); [apply locked_inv|by intros []| | |].
  - apply ka_writable.
  - vm_compute. reflexivity.
  - vm_compute. discriminate.
Defined.

Lemma prewrite_abort_restores_witness :
  let e1 := (prewrite t2 (TS 7) ka (Put v1) locked).1 in
  (abort t2 ka (TS 7) e1).2 = Ok tt ∧ estore (abort t2 ka (TS 7) e1).1 = estore locked.
Proof.
  apply (prewrite_abort_restores locked); [apply locked_inv|by intros []|apply ka_writable].
Defined.
