(* ===== verification/ScheduleProps.v ===== *)
(** * ScheduleProps: isolation

    The guarantees that hold over whole histories of operations, for every backend
    that keeps the contract. *)
From S2P Require Export SequentialSpec Demo.

Section props.
  Context {B : Type} `{HL : BackendLaws B} `{HP : Platform}.
  Implicit Types (e : MvccEngine B).

(** C1: snapshots are stable: whatever operations run in between, successful or not,
    two reads of a key at the same timestamp agree, as long as the operations commit
    above that timestamp and collect at or below it. *)
Theorem snapshot_stable fuel schedule e key rt o o' :
  einv e →
  (∀ a, a ∈ schedule → action_above rt a) →
  read e key rt = Ok o →
  read (apply_schedule fuel schedule e) key rt = Ok o' →
  o' = o.
Proof.
  intros Hinv Hab Hr Hr'.
  pose proof (read_sees e key rt Hinv) as Hs. rewrite Hr in Hs.
  destruct (apply_schedule_sees fuel schedule e rt key o Hinv Hab Hs) as [Hinv' Hs'].
  pose proof (read_sees _ key rt Hinv') as Hs''. rewrite Hr' in Hs''.
  by apply (sees_fun _ _ _ _ _ Hs'').
Qed.

(** C2: no lost updates: along any history from a well-formed store, the intervals
    from start to commit of the transactions, guarded and blind writes that succeed
    on a key are disjoint and in the order of their commits. *)
Theorem no_lost_update fuel schedule e :
  einv e → store_wf (estore e) →
  StronglySorted serial (run_log fuel schedule e).
Proof.
  intros Hinv Hwf. apply (run_log_serial fuel schedule e []); [done|done| |constructor].
  by intros ??? ?%elem_of_nil.
Qed.

(** C3: every action is a step of the abstract machine when it succeeds; when it
    fails it leaves the store as it was, except that a collection interrupted by a
    failing backend has removed part of what it may; only a collection can panic or run
    out of fuel. *)
Theorem engine_refines_machine fuel a e e' r :
  einv e → apply_action fuel a e = (e', r) →
  einv e' ∧ action_post a (estore e) r (estore e').
Proof. intros Hinv E. exact (wp_run _ _ _ _ _ E (apply_action_wp fuel a e Hinv)). Qed.

(** C4: seen from the present the engine is a sequential key-value store with locks:
    along any history, collections included, every action succeeds or fails as
    [kv_step] says from the newest versions and the locks alone, and afterwards every
    key reads as that store's value at any timestamp from its newest version on. *)
Theorem engine_is_sequential fuel n schedule e kv :
  einv e → ¬ may_fail → store_wf (estore e) → represents (estore e) kv →
  room_for fuel n → store_size (estore e) + schedule_size schedule ≤ n →
  let final := (kv_run schedule kv).2 in
  run_outcomes fuel schedule e = (kv_run schedule kv).1 ∧
  represents (estore (apply_schedule fuel schedule e)) final ∧
  ∀ k rt, kv_upto final rt k = true →
    read (apply_schedule fuel schedule e) k rt = Ok (kv_value final k).
Proof.
  intros Hinv Hfail Hwf Hrep Hroom Hn.
  destruct (run_sequential fuel Hfail n schedule e kv Hinv Hwf Hrep Hroom Hn) as (?&?&?).
  split_and!; [done..|]. intros k rt Hk. by apply represents_read.
Qed.

(** C24: the assertions of the model-checking driver never fail: on a backend whose
    methods succeed, a failed action leaves the snapshot of the key space unchanged,
    a collection preserves the intents, and no action panics. *)
Theorem verify_never_panics fuel a e :
  einv e → ¬ may_fail → gc_fits fuel (estore e) →
  ∃ e', apply_and_verify fuel a e = Ok e' ∧ einv e'.
Proof. apply apply_and_verify_ok. Qed.

(** C25: any history preserves well-formedness: intents are filed under their own
    key, carry no minimum commit timestamp, and nothing is committed on a locked key
    above the start timestamp of the lock. *)
Theorem reachable_store_wf fuel schedule e :
  einv e → store_wf (estore e) →
  einv (apply_schedule fuel schedule e) ∧ store_wf (estore (apply_schedule fuel schedule e)).
Proof. apply apply_schedule_wf. Qed.

(** C26: a lock secures the commit: on a well-formed store, a commit by the holder of
    the intent at a timestamp above its start succeeds on a backend that does not
    fail, and the errors about existing versions and minimum timestamps never
    arise. *)
Theorem holder_can_commit e e' r txn key s c :
  einv e → store_wf (estore e) → ¬ may_fail → commit txn key s c e = (e', r) →
  (r = Ok tt ↔ (∃ i, holds (estore e) key txn s i) ∧ (s < c)%ts) ∧
  (∀ t l, r ≠ Err (CommitError.CommitTsTooOld t l) ∧ r ≠ Err (CommitError.CommitTsTooEarly t l) ∧
     r ≠ Err (CommitError.DuplicateCommitTimestamp t)).
Proof.
  intros Hinv Hwf Hfail E.
  destruct (wp_run _ _ _ _ _ E (commit_wp txn key s c e Hinv)) as [_ Hpost].
  assert (∀ i, holds (estore e) key txn s i →
    ∀ t, is_Some (st_versions (estore e) !! (key, t)) → (t ≤ s)%ts) as Hbelow.
  { intros i (Hi&_&<-) t [x Hx]. by eapply (wf_start _ Hwf). }
  assert (∀ i, holds (estore e) key txn s i → intent_min_commit_ts i = None) as Hmin.
  { intros i (Hi&_). by eapply (wf_min _ Hwf). }
  split; [split|].
  - intros ->. destruct Hpost as (i&?&?&_). eauto.
  - intros [[i Hh] Hsc].
    destruct (commit_held txn key s c e i) as (_&Hr&_); [done..| | |by rewrite E in Hr].
    + intros m Hm. by rewrite (Hmin _ Hh) in Hm.
    + intros t x Hx. assert (t ≤ s)%ts by by eapply Hbelow. lia.
  - intros t l. destruct r as [|err|]; [done| |done]. destruct Hpost as [_ Hpost].
    split_and!; intros [= ->].
    + destruct Hpost as (->&?&[Hl _]&?&i&Hh). assert (l ≤ s)%ts by by eapply Hbelow. lia.
    + destruct Hpost as (_&_&_&i&Hh&Hm). by rewrite (Hmin _ Hh) in Hm.
    + destruct Hpost as (->&?&[Hl _]&i&Hh). assert (c ≤ s)%ts by by eapply Hbelow. lia.
Qed.
End props.

(** ** Witnesses *)

Import Demo.

(** A schedule with two writers of [b] at 12, after a reader at 9. *)
Definition later : list Action := [
  PrewriteBatch t1 (TS 7) [mkWrite kb None; mkWrite kc (Some v2)];
  Prewrite t2 (TS 8) kb (Put v1);
  CommitBatch t1 (TS 7) (TS 12) [kb; kc];
  GuardedBatch (TS 14) [ExpectedValue kb (TS 12) None] [mkWrite kb (Some v1)];
  Gc (TS 9)].

Lemma snapshot_stable_witness : Some v2 = Some v2 :> option Value.
Proof.
  apply (snapshot_stable (HP := debug64) 10 later history kb (TS 9)).
  - apply history_inv.
  - apply Forall_forall. repeat constructor; vm_compute; (done || reflexivity || discriminate).
  - vm_compute. reflexivity.
  - vm_compute. reflexivity.
Defined.

Lemma no_lost_update_witness :
  run_log (HP := debug64) 10 later history =
    [(kb, TS 7, TS 12); (kc, TS 7, TS 12); (kb, TS 12, TS 14)] ∧
  StronglySorted serial (run_log (HP := debug64) 10 later history).
Proof.
  split; [reflexivity|].
  apply (no_lost_update (HP := debug64)); [apply history_inv|apply history_wf].
Defined.

Lemma engine_refines_machine_witness :
  let p := apply_action (HP := debug64) 10 (Commit t1 kb (TS 7) (TS 9)) locked in
  p.2 = Ok tt ∧ einv p.1 ∧
  action_post (Commit t1 kb (TS 7) (TS 9)) (estore locked) p.2 (estore p.1).
Proof.
  split; [vm_compute; reflexivity|].
  apply (engine_refines_machine (HP := debug64) 10 _ locked);
    [apply locked_inv|apply surjective_pairing].
Defined.

Lemma engine_is_sequential_witness :
  let actions := schedule ++ later in
  let final := (kv_run actions kv_empty).2 in
  run_outcomes (H0 := debug64) 100 actions empty =
    [true; true; true; true; false; true; true; true] ∧
  run_outcomes (H0 := debug64) 100 actions empty = (kv_run actions kv_empty).1 ∧
  represents (estore (apply_schedule (HP := debug64) 100 actions empty)) final ∧
  ∀ k rt, kv_upto final rt k = true →
    read (apply_schedule (HP := debug64) 100 actions empty) k rt = Ok (kv_value final k).
Proof.
  split; [vm_compute; reflexivity|].
  apply (engine_is_sequential (HP := debug64) 100 12); [apply empty_inv|by intros []|..].
  - rewrite empty_store. apply empty_wf.
  - rewrite empty_store. apply represents_empty.
  - split; [lia|]. vm_compute. reflexivity.
  - vm_compute. lia.
Defined.

Lemma verify_never_panics_witness :
  ∃ e', apply_and_verify (HP := debug64) 10 (Gc (TS 6)) locked = Ok e' ∧ einv e'.
Proof.
  apply (verify_never_panics (HP := debug64)); [apply locked_inv|by intros []|].
  split_and!; vm_compute; [repeat constructor|reflexivity|reflexivity].
Defined.

Lemma reachable_store_wf_witness :
  einv (apply_schedule (HP := debug64) 10 later history) ∧
  store_wf (estore (apply_schedule (HP := debug64) 10 later history)).
Proof. apply (reachable_store_wf (HP := debug64)); [apply history_inv|apply history_wf]. Defined.

Lemma holder_can_commit_witness :
  let p := commit t1 kb (TS 7) (TS 9) locked in
  (p.2 = Ok tt ↔ (∃ i, holds (estore locked) kb t1 (TS 7) i) ∧ (TS 7 < TS 9)%ts) ∧
  (∀ t l, p.2 ≠ Err (CommitError.CommitTsTooOld t l) ∧
     p.2 ≠ Err (CommitError.CommitTsTooEarly t l) ∧
     p.2 ≠ Err (CommitError.DuplicateCommitTimestamp t)).
Proof.
  apply (holder_can_commit locked (commit t1 kb (TS 7) (TS 9) locked).1);
    [apply locked_inv|apply locked_wf|by intros []|apply surjective_pairing].
Defined.
