(* ===== verification/GcProps.v ===== *)
(** * GcProps: garbage collection

    Safety of every removal, the work and progress of a pass, termination and
    completeness of the full collection, the planner, and the two budgets at the
    edge of [usize] for which the counters overflow. *)
From S2P Require Export Demo.

Section props.
  Context {B : Type} `{HL : BackendLaws B} `{HP : Platform}.
  Implicit Types (e : MvccEngine B).

(** C11: a collection never changes an answer: after an incremental pass with any
    cursor and a budget whose counters fit [usize] ([budget_fits]), successful or
    interrupted, every read at or after the safe point returns what it returned
    before. *)
Theorem gc_incremental_preserves_reads sp options cursor e e' r key rt o o' :
  einv e → budget_fits options → (sp ≤ rt)%ts →
  gc_incremental sp cursor options e = (e', r) →
  read e key rt = Ok o → read e' key rt = Ok o' → o' = o.
Proof.
  intros Hinv Hfit Hrt E Hr Hr'.
  destruct (wp_run _ _ _ _ _ E (gc_incremental_wp sp options cursor e Hinv Hfit))
    as [Hinv' [Hsteps _]].
  pose proof (read_sees e key rt Hinv) as Hs. rewrite Hr in Hs.
  pose proof (read_sees e' key rt Hinv') as Hs'. rewrite Hr' in Hs'.
  apply (sees_fun _ _ _ _ _ Hs'). by eapply gc_steps_sees.
Qed.

(** C28: an incremental pass whose counters fit removes only garbage: the intents and the versions above
    the safe point are untouched, no version appears, and without the tombstone
    opt-in the very version that each read at or after the safe point finds stays. *)
Theorem gc_incremental_removes_only_garbage sp options cursor e e' r :
  einv e → budget_fits options →
  gc_incremental sp cursor options e = (e', r) →
  st_intents (estore e') = st_intents (estore e) ∧
  st_versions (estore e') ⊆ st_versions (estore e) ∧
  (∀ key t, (sp < t)%ts →
     st_versions (estore e') !! (key, t) = st_versions (estore e) !! (key, t)) ∧
  (collapse_final_tombstones options = false → ∀ key rt o, (sp ≤ rt)%ts →
     is_visible (estore e) key rt o → is_visible (estore e') key rt o).
Proof.
  intros Hinv Hfit E.
  destruct (wp_run _ _ _ _ _ E (gc_incremental_wp sp options cursor e Hinv Hfit))
    as [_ [Hsteps _]]. split_and!.
  - by eapply gc_steps_intents.
  - by eapply gc_steps_subset.
  - intros key t Ht. by eapply gc_steps_recent.
  - intros Hc key rt o Hrt. rewrite Hc in Hsteps. by eapply gc_steps_visible.
Qed.

(** C12: an incremental pass whose counters fit [usize] keeps its budget and accounts
    for its work exactly: at most [max_keys] keys and [max_versions] removals, [versions_removed] is the
    number of versions gone, and the cursor it returns separates the keys from the
    start of the pass that are clean from those still to visit; without a cursor
    every key from the start on is clean.  Only a zero budget is refused. *)
Theorem gc_incremental_correct sp options cursor e e' r :
  einv e → budget_fits options →
  gc_incremental sp cursor options e = (e', r) →
  einv e' ∧ incremental_post sp options (cursor ≫= next_key) (estore e) r (estore e').
Proof.
  intros Hinv Hfit E.
  exact (wp_run _ _ _ _ _ E (gc_incremental_wp sp options cursor e Hinv Hfit)).
Qed.

(** C20: a pass that is not done makes progress: the versions left plus the keys from
    the cursor on become fewer, so repeated passes end, from any cursor. *)
Theorem gc_incremental_progress sp options cursor e e' res :
  einv e → budget_fits options →
  gc_incremental sp cursor options e = (e', Ok res) → gr_done res = false →
  gc_measure (next_key (gr_cursor res)) (estore e') <
  gc_measure (cursor ≫= next_key) (estore e).
Proof.
  intros Hinv Hfit E Hd.
  destruct (wp_run _ _ _ _ _ E (gc_incremental_wp sp options cursor e Hinv Hfit)) as [_ Hp].
  by eapply incremental_progress.
Qed.

(** C13: the full collection terminates and is complete: when its counters fit [usize]
    and the fuel is above the versions and keys of the store, its loop ends, it reports exactly the versions removed
    and the intents in place, and leaves no key with a version below its keeper (or
    a final tombstone, when collapsing); it fails only with the backend or on a
    zero budget. *)
Theorem gc_terminates_complete sp options fuel e e' r :
  einv e → budget_fits options → gc_fits fuel (estore e) →
  gc fuel sp options e = (e', r) →
  match r with
  | Ok (Some stats) =>
      (gs_versions_removed stats + version_count (estore e') = version_count (estore e))%N ∧
      gs_intents_preserved stats = N.of_nat (size (st_intents (estore e))) ∧
      ∀ k, gc_clean sp (collapse_final_tombstones options) (estore e') k
  | Ok None => False
  | Err err => gc_error options err
  | Panic => False
  end.
Proof.
  intros Hinv Hfit (Hf&Hv&Hi) E.
  by destruct (wp_run _ _ _ _ _ E (gc_wp sp options fuel e Hinv Hfit Hf Hv Hi)) as (_&_&?).
Qed.

(** A second full collection at the same safe point finds nothing to remove. *)
Theorem gc_idempotent sp options fuel e e1 e2 stats1 stats2 :
  einv e → budget_fits options → gc_fits fuel (estore e) → gc_fits fuel (estore e1) →
  gc fuel sp options e = (e1, Ok (Some stats1)) →
  gc fuel sp options e1 = (e2, Ok (Some stats2)) →
  estore e2 = estore e1 ∧ gs_versions_removed stats2 = 0%N.
Proof.
  intros Hinv Hfit (Hf&Hv&Hi) (Hf'&Hv'&Hi') E1 E2.
  destruct (wp_run _ _ _ _ _ E1 (gc_wp sp options fuel e Hinv Hfit Hf Hv Hi))
    as (Hinv1&_&_&_&Hclean).
  destruct (wp_run _ _ _ _ _ E2 (gc_wp sp options fuel e1 Hinv1 Hfit Hf' Hv' Hi'))
    as (_&Hsteps&Hcount&_).
  apply clean_steps in Hsteps; [|done]. rewrite Hsteps in Hcount. split; [done|lia].
Qed.

(** C30: the planner lists the versions below the keeper, newest first and at most the
    budget, says it is complete when they are all of them, and proposes to collapse
    exactly a final tombstone of an unlocked key whose whole history is listed, when
    asked to. *)
Theorem plan_key_gc_correct e key sp options :
  einv e →
  match plan_key_gc e key sp options with
  | Ok p => (0 < kg_max_versions_examined options)%N ∧ key_plan (estore e) key sp options p
  | Err err => err = GcError.InvalidKeyGcBudget ∧ kg_max_versions_examined options = 0%N
      ∨ may_fail ∧ ∃ msg, err = GcError.Backend msg
  | Panic => False
  end.
Proof. apply plan_key_gc_spec. Qed.

(** C29: carrying out a plan is a permitted collection: reads at or after the safe
    point are unchanged, and a complete plan leaves its key clean. *)
Theorem plan_key_gc_safe e key sp options p :
  einv e → plan_key_gc e key sp options = Ok p →
  (∀ k rt o, (sp ≤ rt)%ts → sees (estore e) k rt o → sees (apply_plan p (estore e)) k rt o) ∧
  st_intents (apply_plan p (estore e)) = st_intents (estore e) ∧
  (plan_complete p = true →
   gc_clean sp (kg_collapse_final_tombstones options) (apply_plan p (estore e)) key).
Proof.
  intros Hinv E. pose proof (plan_key_gc_spec e key sp options Hinv) as Hp.
  rewrite E in Hp. destruct Hp as [_ Hp]. apply plan_steps in Hp as [Hsteps Hclean].
  split_and!; [|by eapply gc_steps_intents|done].
  intros k rt o Hrt. by eapply gc_steps_sees.
Qed.

(** C38: a key budget of [usize::MAX] overflows in [max_keys + 1]: an overflow-checked
    build panics, any other scans nothing and reports a completed pass. *)
Theorem gc_incremental_max_keys_overflow sp options cursor e :
  einv e → ¬ may_fail →
  max_keys (budget options) = usize_MAX → max_versions (budget options) ≠ 0%N →
  gc_incremental sp cursor options e =
  (e, if overflow_checks then Panic else Ok (mkGcResult (mkCursor None) true 0 0 0 0)).
Proof.
  intros Hinv Hfail Hk Hv. pose proof usize_modulus_isize. pose proof isize_MAX_ge.
  unfold gc_incremental. rewrite Hk.
  destruct (N.eqb_spec usize_MAX 0) as [E|_]; [unfold usize_MAX in E; lia|].
  destruct (N.eqb_spec (max_versions (budget options)) 0) as [|_]; [done|]. simpl.
  unfold add. rewrite M_bind_lift, usize_add_MAX_1. destruct overflow_checks; [done|].
  unfold M_bind at 1, rd. pose proof (law_keys_from (backend e) (cursor ≫= next_key) 0 Hinv) as Hp.
  destruct (keys_from _ _ 0) as [page| |]; simpl in *; [|done|done].
  destruct Hp as (all&->&_). assert (take_usize 0 all = []) as -> by by destruct all.
  assert ((usize_MAX <? len (@nil Key))%N = false) as Hlt by (apply N.ltb_ge, N.le_0_l).
  cbn [take_usize gc_keys]. m_simpl. cbn [negb exhausted_versions]. rewrite Hlt. done.
Qed.

(** The first iteration under a version budget of [usize::MAX]: [limit + 1] wraps. *)
Lemma wp_add_MAX {C} (k : N → M (MvccEngine B) GcError C) e Q :
  (if overflow_checks then Q e Panic else wp (k 0%N) e Q) →
  wp (M_bind (add usize_MAX 1) k) e Q.
Proof.
  intros HQ. apply wp_bind. unfold add, wp. rewrite usize_add_MAX_1. simpl.
  by destruct overflow_checks.
Qed.
Lemma gc_tombstone_wraps key keeper scan e :
  einv e → ¬ may_fail → (versions_scanned scan < usize_modulus)%N →
  (versions_removed scan + 1 < usize_modulus)%N →
  wp (gc_tombstone key keeper usize_MAX scan) e (λ e' r,
    if overflow_checks then e' = e ∧ r = Panic
    else einv e' ∧ estore e' = store_remove_version key (cv_commit_ts keeper) (estore e) ∧
      r = Ok (set_versions scan (versions_scanned scan) (versions_removed scan + 1), Continue)).
Proof.
  intros Hinv Hfail Hsc Hrem. pose proof usize_modulus_isize. pose proof isize_MAX_ge.
  unfold gc_tombstone. apply wp_add_MAX. destruct overflow_checks; [done|].
  apply wp_before; [done| |done]. intros l Hl. pose proof (is_before_len _ _ _ _ _ Hl) as Hlen.
  destruct l as [|t l]; [|rewrite len_cons in Hlen; lia].
  change (len (@nil Timestamp)) with 0%N. apply wp_add; [lia|].
  destruct (N.ltb_spec usize_MAX 0) as [Hlt|_]; [lia|].
  destruct (N.ltb_spec 0 usize_MAX) as [_|Hge]; [|unfold usize_MAX in Hge; lia].
  apply wp_bind. eapply wp_wr; [by apply law_collapse_tombstone| |done].
  intros [] e' He' E. apply wp_add; [lia|]. apply wp_add; [lia|]. apply wp_ret.
  by rewrite N.add_0_r.
Qed.
Lemma gc_key_wraps sp options key keeper e :
  einv e → ¬ may_fail → max_versions (budget options) = usize_MAX →
  collapse_final_tombstones options = true →
  is_visible (estore e) key sp (Some keeper) → final_tombstone (estore e) keeper →
  wp (gc_key sp options key (mkScan 0 0 0 0 None false)) e (λ e' r,
    if overflow_checks then e' = e ∧ r = Panic
    else einv e' ∧ estore e' = store_remove_version key (cv_commit_ts keeper) (estore e) ∧
      r = Ok (mkScan 1 1 1 0 None false, Continue)).
Proof.
  intros Hinv Hfail Hv Hcol Hk Hfin. pose proof usize_modulus_isize. pose proof isize_MAX_ge.
  unfold gc_key. apply wp_add; [simpl; lia|]. apply wp_get_intent; [done| |done].
  assert (cv_key keeper = key) as Ek by apply Hk.
  assert (st_intents (estore e) !! key = None) as Hnone by (rewrite <-Ek; apply Hfin).
  rewrite Hnone. apply wp_bind, wp_ret. apply wp_get_visible; [done| |done].
  intros o Ho. rewrite (is_visible_fun _ _ _ _ _ Ho Hk).
  apply wp_add; [simpl; lia|]. apply wp_sub; [apply N.le_0_l|]. rewrite Hv, N.sub_0_r.
  destruct (N.eqb_spec usize_MAX 0) as [E0|_]; [unfold usize_MAX in E0; lia|].
  apply wp_final; [done|done|by rewrite Hnone| |done]. intros b Hb.
  assert (b = true) as -> by by apply Hb.
  apply gc_tombstone_wraps; simpl; (done || lia).
Qed.
(** The page that starts at a known key. *)
Lemma page_at st key l :
  store_key st key → is_keys_from st (Some key) 2 l → ∃ l', l = key :: l'.
Proof.
  intros Hst (all&->&Hs&Hall).
  assert (key ∈ all) as Hin by (apply Hall; split; [done|simpl; reflexivity]).
  destruct all as [|k all]; [by apply not_elem_of_nil in Hin|].
  exists (take_usize 1 all). simpl. f_equal. apply elem_of_cons in Hin as [?|Hin]; [done|].
  apply StronglySorted_inv in Hs as [_ Hlt]. rewrite Forall_forall in Hlt.
  specialize (Hlt _ Hin). destruct (proj1 (Hall k) (list_elem_of_here _ _)) as [_ Hle].
  by apply rlt_not_rle in Hlt.
Qed.

Lemma gc_pass_wraps sp options key keeper e :
  einv e → ¬ may_fail →
  max_versions (budget options) = usize_MAX → max_keys (budget options) = 1%N →
  collapse_final_tombstones options = true →
  is_visible (estore e) key sp (Some keeper) → final_tombstone (estore e) keeper →
  wp (gc_incremental sp (Some (mkCursor (Some key))) options) e (λ e' r,
    if overflow_checks then e' = e ∧ r = Panic
    else einv e' ∧ estore e' = store_remove_version key (cv_commit_ts keeper) (estore e) ∧
      ∃ next fin, r = Ok (mkGcResult next fin 1 1 1 0)).
Proof.
  intros Hinv Hfail Hv Hk1 Hcol Hk Hfin. pose proof usize_modulus_isize. pose proof isize_MAX_ge.
  unfold gc_incremental. rewrite Hk1, Hv.
  destruct (N.eqb_spec usize_MAX 0) as [E|_]; [unfold usize_MAX in E; lia|].
  apply wp_add; [lia|]. eapply wp_rd; [by apply law_keys_from| |done]. intros page Hpage.
  apply page_at in Hpage as [page' ->].
  2:{ left. exists (cv_commit_ts keeper). destruct Hk as (_&_&Hkv&_). by apply mk_is_Some in Hkv. }
  assert (take_usize 1 (key :: page') = [key]) as Htake by by destruct page'.
  rewrite len_cons, N.min_r, Htake by lia. cbn [gc_keys]. apply wp_bind, wp_bind.
  eapply wp_mono; [by apply (gc_key_wraps sp options key keeper)|]. intros e' r Hr.
  destruct overflow_checks; [by destruct Hr as [-> ->]|]. destruct Hr as (Hinv'&E&->).
  apply wp_ret. cbn [negb exhausted_versions]. destruct page' as [|next page'].
  - apply wp_bind, wp_ret, wp_ret. split_and!; [done..|by eexists _, _].
  - destruct (N.ltb_spec 1 (1 + len (next :: page'))) as [_|Hl]; [|rewrite len_cons in Hl; lia].
    apply wp_bind, wp_bind, wp_ret, wp_ret. split_and!; [done..|by eexists _, _].
Qed.
(** Without its tombstone the newest version below is seen again. *)
Lemma resurrected st key sp rt keeper older x :
  is_visible st key sp (Some keeper) → final_tombstone st keeper →
  (sp ≤ rt)%ts → (older < cv_commit_ts keeper)%ts →
  (∀ t y, st_versions st !! (key, t) = Some y → (t < cv_commit_ts keeper)%ts → (t ≤ older)%ts) →
  st_versions st !! (key, older) = Some x →
  sees st key rt None ∧ sees (store_remove_version key (cv_commit_ts keeper) st) key rt x.
Proof.
  intros (<-&Hle&Hkv&_) (Hnone&_&_&Hlat) Hrt Hlt Hbelow Hx. split.
  - exists (Some keeper). split; [|simpl; by rewrite Hnone].
    split_and!; [done|ts_lia|done|]. intros t y Hy _. by eapply Hlat.
  - exists (Some (mkVersion (cv_key keeper) older x)). split; [|done]. rewrite remove_version_as.
    split_and!; cbn [cv_key cv_commit_ts cv_value]; [done|ts_lia| |].
    + rewrite lookup_remove_versions, decide_False; [done|].
      intros [_ E%list_elem_of_singleton]. rewrite E in Hlt. ts_lia.
    + intros t y. rewrite lookup_remove_versions. case_decide as Hd; [done|]. intros Hy _.
      apply (Hbelow _ _ Hy). specialize (Hlat _ _ Hy).
      assert (t ≠ cv_commit_ts keeper) by (intros ->; apply Hd; split; [done|set_solver]). ts_lia.
Qed.

(** C37: a version budget of [usize::MAX] with tombstone collapse enabled brings deleted
    data back.  On any backend that does not fail, take a key whose visible version at
    the safe point is a final tombstone, and a pass that starts at this key: since
    [limit + 1] overflows, a build with overflow checks panics; any other finds no older
    version, removes the tombstone alone and reports success, and the reads at or after
    the safe point, which found nothing, then find the newest version below the
    tombstone. *)
Theorem gc_max_versions_overflow_resurrects sp options key keeper e :
  einv e → ¬ may_fail →
  max_versions (budget options) = usize_MAX → max_keys (budget options) = 1%N →
  collapse_final_tombstones options = true →
  is_visible (estore e) key sp (Some keeper) → final_tombstone (estore e) keeper →
  let (e', r) := gc_incremental sp (Some (mkCursor (Some key))) options e in
  if overflow_checks then e' = e ∧ r = Panic
  else estore e' = store_remove_version key (cv_commit_ts keeper) (estore e) ∧
    (∃ next fin, r = Ok (mkGcResult next fin 1 1 1 0)) ∧
    ∀ rt older, (sp ≤ rt)%ts → (older < cv_commit_ts keeper)%ts →
      (∀ t x, st_versions (estore e) !! (key, t) = Some x →
         (t < cv_commit_ts keeper)%ts → (t ≤ older)%ts) →
      ∀ x, st_versions (estore e) !! (key, older) = Some x →
      read e key rt = Ok None ∧ read e' key rt = Ok x.
Proof.
  intros Hinv Hfail Hv Hk1 Hcol Hk Hfin.
  assert (wp (gc_incremental sp (Some (mkCursor (Some key))) options) e (λ e' r,
    if overflow_checks then e' = e ∧ r = Panic
    else einv e' ∧ estore e' = store_remove_version key (cv_commit_ts keeper) (estore e) ∧
      ∃ next fin, r = Ok (mkGcResult next fin 1 1 1 0))) as Hrun by by apply gc_pass_wraps.
  unfold wp in Hrun. destruct (gc_incremental _ _ _ _) as [e' r]. simpl in Hrun.
  destruct overflow_checks; [done|]. destruct Hrun as (Hinv'&E&Hr).
  split_and!; [done..|]. intros rt older Hrt Hlt Hbelow x Hx.
  destruct (resurrected (estore e) key sp rt keeper older x) as [Hnone Hx']; [done..|].
  rewrite <-E in Hx'. split; by apply read_ok.
Qed.
End props.

(** ** Witnesses *)

Import Demo.

Definition small : GcOptions := mkGcOptions (mkGcBudget 2 1) true.

Lemma small_fits : budget_fits (HP := debug64) small.
Proof. vm_compute. discriminate. Qed.

Lemma gc_incremental_preserves_reads_witness :
  (gc_incremental (HP := debug64) (TS 6) None small history).2 =
    Ok (mkGcResult (mkCursor (Some ka)) false 1 2 1 0) ∧
  Some v2 = Some v2 :> option Value.
Proof.
  split; [vm_compute; reflexivity|].
  eapply (gc_incremental_preserves_reads (HP := debug64) (TS 6) small None history
    (gc_incremental (HP := debug64) (TS 6) None small history).1 _ kb (TS 6)).
  - apply history_inv.
  - apply small_fits.
  - reflexivity.
  - apply surjective_pairing.
  - vm_compute. reflexivity.
  - vm_compute. reflexivity.
Defined.

Lemma gc_incremental_removes_only_garbage_witness :
  let e' := (gc_incremental (HP := debug64) (TS 6) None small locked).1 in
  st_intents (estore e') = st_intents (estore locked) ∧
  st_versions (estore e') ⊆ st_versions (estore locked) ∧
  (∀ key t, (TS 6 < t)%ts →
     st_versions (estore e') !! (key, t) = st_versions (estore locked) !! (key, t)) ∧
  (true = false → ∀ key rt o, (TS 6 ≤ rt)%ts →
     is_visible (estore locked) key rt o → is_visible (estore e') key rt o).
Proof.
  apply (gc_incremental_removes_only_garbage (HP := debug64) (TS 6) small None locked
    _ (gc_incremental (HP := debug64) (TS 6) None small locked).2);
    [apply locked_inv|apply small_fits|apply surjective_pairing].
Defined.

Lemma gc_incremental_correct_witness :
  let p := gc_incremental (HP := debug64) (TS 6) None small history in
  p.2 = Ok (mkGcResult (mkCursor (Some ka)) false 1 2 1 0) ∧
  einv p.1 ∧ incremental_post (TS 6) small None (estore history) p.2 (estore p.1).
Proof.
  split; [vm_compute; reflexivity|].
  apply (gc_incremental_correct (HP := debug64) (TS 6) small None history);
    [apply history_inv|apply small_fits|apply surjective_pairing].
Defined.

Lemma gc_incremental_progress_witness :
  let e' := (gc_incremental (HP := debug64) (TS 6) None small history).1 in
  gc_measure (Some ka) (estore e') < gc_measure None (estore history).
Proof.
  apply (gc_incremental_progress (HP := debug64) (TS 6) small None history _
    (mkGcResult (mkCursor (Some ka)) false 1 2 1 0));
    [apply history_inv|apply small_fits|apply run_eq; vm_compute; reflexivity|reflexivity].
Defined.

Lemma history_fits : gc_fits (HP := debug64) 10 (estore history).
Proof. split_and!; vm_compute; [repeat constructor|reflexivity|reflexivity]. Qed.

Lemma gc_terminates_complete_witness :
  let e' := (gc (HP := debug64) 10 (TS 6) small history).1 in
  (3 + version_count (estore e') = version_count (estore history))%N ∧
  0%N = N.of_nat (size (st_intents (estore history))) ∧
  ∀ k, gc_clean (TS 6) true (estore e') k.
Proof.
  apply (gc_terminates_complete (HP := debug64) (TS 6) small 10 history
    (gc (HP := debug64) 10 (TS 6) small history).1 (Ok (Some (mkGcStats 3 0))));
    [apply history_inv|apply small_fits|apply history_fits|].
  apply run_eq. vm_compute. reflexivity.
Defined.

Lemma gc_idempotent_witness :
  let e1 := (gc (HP := debug64) 10 (TS 6) small history).1 in
  let e2 := (gc (HP := debug64) 10 (TS 6) small e1).1 in
  estore e2 = estore e1 ∧ 0%N = 0%N.
Proof.
  apply (gc_idempotent (HP := debug64) (TS 6) small 10 history
    (gc (HP := debug64) 10 (TS 6) small history).1 _ (mkGcStats 3 0) (mkGcStats 0 0));
    [apply history_inv|apply small_fits|apply history_fits|..].
  - split_and!; vm_compute; [repeat constructor|reflexivity|reflexivity].
  - apply run_eq. vm_compute. reflexivity.
  - apply run_eq. vm_compute. reflexivity.
Defined.

Lemma plan_key_gc_correct_witness :
  is_ok (plan_key_gc history ka (TS 6) (mkKeyGcOptions 3 true)) = true ∧
  match plan_key_gc history ka (TS 6) (mkKeyGcOptions 3 true) with
  | Ok p => (0 < 3)%N ∧ key_plan (estore history) ka (TS 6) (mkKeyGcOptions 3 true) p
  | Err err => err = GcError.InvalidKeyGcBudget ∧ 3%N = 0%N
      ∨ False ∧ ∃ msg, err = GcError.Backend msg
  | Panic => False
  end.
Proof.
  split; [vm_compute; reflexivity|].
  exact (plan_key_gc_correct history ka (TS 6) (mkKeyGcOptions 3 true) history_inv).
Defined.

Lemma plan_key_gc_safe_witness :
  let p := mkKeyGcPlan ka [TS 1] (Some (TS 5)) 1 true in
  gc_clean (TS 6) true (apply_plan p (estore history)) ka.
Proof.
  apply (plan_key_gc_safe history ka (TS 6) (mkKeyGcOptions 3 true)
    (mkKeyGcPlan ka [TS 1] (Some (TS 5)) 1 true)); [apply history_inv|reflexivity|reflexivity].
Defined.

Lemma gc_incremental_max_keys_overflow_witness :
  let options := mkGcOptions (mkGcBudget (@usize_MAX release64) 1) false in
  gc_incremental (HP := release64) (TS 6) None options history =
  (history, Ok (mkGcResult (mkCursor None) true 0 0 0 0)).
Proof.
  apply (gc_incremental_max_keys_overflow (HP := release64));
    [apply history_inv|by intros []|reflexivity|vm_compute; discriminate].
Defined.

(** The delete at 5 of [a] is forgotten and its value written at 1 is back. *)
Lemma gc_max_versions_overflow_resurrects_witness :
  let options := mkGcOptions (mkGcBudget 1 (@usize_MAX release64)) true in
  let collected :=
    (gc_incremental (HP := release64) (TS 6) (Some (mkCursor (Some ka))) options history).1 in
  read history ka (TS 6) = Ok None ∧ read collected ka (TS 6) = Ok (Some v1).
Proof.
  intros options collected.
  pose proof (gc_max_versions_overflow_resurrects (HP := release64) (TS 6) options ka
    ka_delete history history_inv ltac:(by intros []) eq_refl eq_refl eq_refl
    ka_delete_visible ka_delete_final) as H.
  destruct (gc_incremental (HP := release64) _ _ _ _) as [e' r].
  destruct H as (_&_&H).
  apply (H (TS 6) (TS 1)); [done|done|exact ka_below_delete|vm_compute; reflexivity].
Defined.
