(* ===== verification/BackendProps.v ===== *)
(** * BackendProps: the backends

    The in-memory backend answers and updates as the abstract store says, without
    ever failing, and a backend that inherits the default methods of the trait
    cannot run intent transactions. *)
From S2P Require Export Agreement DefaultSpec Demo.

(** C17: every query of the in-memory backend succeeds and answers from the abstract
    store: the whole history of a key oldest first, its newest version, the version
    visible at a timestamp, its latest timestamp, its intent, the newest timestamps
    below a bound, all keys in order, and the page of keys from a start.  The page of
    keys below a prefix is answered in the same way, and refused exactly for an empty
    prefix or a cursor outside the prefix (unless the limit is zero). *)
Theorem in_memory_queries b key prefix rt limit start :
  im_inv b →
  (∃ l, InMemory.get_committed_versions b key = Ok l ∧ is_history (im_abs b) key l) ∧
  (∃ o, InMemory.get_latest_committed b key = Ok o ∧ is_visible (im_abs b) key ts_max o) ∧
  (∃ o, InMemory.get_visible_committed b key rt = Ok o ∧ is_visible (im_abs b) key rt o) ∧
  (∃ o, InMemory.get_latest_commit_ts b key = Ok o ∧ is_latest_ts (im_abs b) key o) ∧
  InMemory.get_intent b key = Ok (st_intents (im_abs b) !! key) ∧
  (∃ l, InMemory.get_committed_timestamps_before b key rt limit = Ok l ∧
     is_before (im_abs b) key rt limit l) ∧
  (∃ l, InMemory.all_keys b = Ok l ∧ StronglySorted rlt l ∧
     ∀ k, k ∈ l ↔ store_key (im_abs b) k) ∧
  (∃ l, InMemory.keys_from b start limit = Ok l ∧ is_keys_from (im_abs b) start limit l) ∧
  match InMemory.keys_from_prefix b prefix start limit with
  | Ok l => is_keys_from_prefix (im_abs b) prefix start limit l ∧
      (limit = 0%N ∨ prefix_request prefix start)
  | Err _ => limit ≠ 0%N ∧ ¬ prefix_request prefix start
  | Panic => False
  end.
Proof.
  intros Hinv. split_and!.
  - apply im_get_committed_versions.
  - apply im_get_visible_committed.
  - apply im_get_visible_committed.
  - apply im_get_latest_commit_ts.
  - done.
  - apply im_get_committed_timestamps_before.
  - by apply im_all_keys.
  - by apply im_keys_from.
  - apply im_keys_from_prefix_request.
Qed.

(** C16: every update of the in-memory backend succeeds, performs exactly the update
    of the abstract store and keeps the key set equal to the keys that have a
    version or an intent. *)
Theorem in_memory_updates b i v k txn s t intents versions removed older :
  im_inv b →
  (∃ b', InMemory.put_intent i b = (b', Ok tt) ∧ im_is b' (store_put_intent i (im_abs b))) ∧
  (∃ b', InMemory.remove_intent k txn s b =
       (b', Ok (from_option (intent_matches txn s) false (st_intents (im_abs b) !! k))) ∧
     im_is b' (store_remove_intent k txn s (im_abs b))) ∧
  (∃ b', InMemory.put_committed v b = (b', Ok tt) ∧ im_is b' (store_put_version v (im_abs b))) ∧
  (∃ b', InMemory.put_committed_batch versions b = (b', Ok tt) ∧
     im_is b' (store_put_versions versions (im_abs b))) ∧
  (∃ b', InMemory.remove_committed_version k t b = (b', Ok tt) ∧
     im_is b' (store_remove_version k t (im_abs b))) ∧
  (∃ b', InMemory.put_intents_batch intents b = (b', Ok tt) ∧
     im_is b' (store_put_intents intents (im_abs b))) ∧
  (∃ b', InMemory.commit_intents_batch versions removed b = (b', Ok tt) ∧
     im_is b' (store_remove_intents removed (store_put_versions versions (im_abs b)))) ∧
  (∃ b', InMemory.remove_intents_batch removed b = (b', Ok tt) ∧
     im_is b' (store_remove_intents removed (im_abs b))) ∧
  (∃ b', InMemory.collapse_tombstone k t older b = (b', Ok tt) ∧
     im_is b' (store_remove_versions k (t :: older) (im_abs b))).
Proof.
  intros Hinv. split_and!.
  - eexists. split; [done|]. by apply im_put_intent_state.
  - by apply im_remove_intent.
  - eexists. split; [done|]. by apply im_put_version.
  - by apply im_put_versions.
  - by apply im_remove_version.
  - by apply im_put_intents.
  - by apply im_commit_intents.
  - by apply im_remove_matching.
  - by apply im_collapse_tombstone.
Qed.

Lemma lawful_passes {B} `{HL : BackendLaws B} (fresh : B) :
  backend_inv fresh → ¬ may_fail → abs fresh = store_empty →
  passes Committed.suite fresh = true ∧ passes Full.suite fresh = true.
Proof.
  intros Hinv Hfail E.
  assert (∀ suite, passes suite fresh = passes suite InMemory.new) as Hp.
  { intros suite. unfold passes. induction suite as [|t suite IH]; [done|]. simpl.
    rewrite IH. f_equal. apply run_agrees; [done|by intros []|].
    split_and!; [done|apply im_new_inv|done]. }
  rewrite !Hp. split; vm_compute; reflexivity.
Qed.

(** C23: every backend that keeps the contract and does not fail passes both
    conformance suites from an empty store. *)
Theorem lawful_backend_conforms {B} `{HL : BackendLaws B} (fresh : B) :
  backend_inv fresh → ¬ may_fail → abs fresh = store_empty →
  passes Committed.suite fresh = true ∧ passes Full.suite fresh = true.
Proof. apply lawful_passes. Qed.

(** The contract determines the behaviour: two backends that keep it, do not fail
    and stand for the same store pass or fail any script of calls and assertions
    alike. *)
Theorem contract_determines_behaviour {B1 B2} `{HL1 : BackendLaws B1, HL2 : BackendLaws B2}
    (t : script) (b1 : B1) (b2 : B2) :
  ¬ may_fail (B := B1) → ¬ may_fail (B := B2) →
  backend_inv b1 → backend_inv b2 → abs b1 = abs b2 → run t b1 = run t b2.
Proof. intros H1 H2 Hi1 Hi2 E. by apply run_agrees. Qed.

(** C35: the example programs do what they announce on every backend that keeps the
    contract and does not fail, without a panic: the value written is read back, the
    counter goes from 10 to 11, the pending transaction is invisible until its commit
    and atomic then, and a repeated abort leaves nothing behind. *)
Theorem examples_correct {B} `{HL : BackendLaws B} `{HP : Platform} (fresh : B) :
  ¬ may_fail → backend_inv fresh → abs fresh = store_empty →
  let e := MvccEngine_new fresh in
  (Examples.direct_set e).2 = Ok (Some (bytes "1.0")) ∧
  (Examples.guarded_incr e).2 = Ok (10%N, 11%N, Ok tt, Some (bytes "11")) ∧
  (Examples.multi_key_intent_txn e).2 =
    Ok (Some (None, Ok tt, bytes "900", bytes "1100")) ∧
  (Examples.abort_replay e).2 = Ok [bytes "key1"; bytes "key2"] ∧
  estore (Examples.abort_replay e).1 = store_empty.
Proof.
  intros Hfail Hinv Hempty e.
  assert (same_engine e (MvccEngine_new InMemory.new)) as Hs.
  { split_and!; [done|apply im_new_inv|exact Hempty]. }
  assert (¬ may_fail (B := InMemoryBackend)) as Hmem by by intros [].
  destruct (agree_examples Hfail Hmem) as (H1&H2&H3&H4).
  apply agree_alike with (e1 := e) (e2 := MvccEngine_new InMemory.new) in H1, H2, H3, H4; try done.
  destruct H1 as [-> _], H2 as [-> _], H3 as [-> _], H4 as [-> ->].
  split_and!; vm_compute; reflexivity.
Qed.

(** C34: a backend that inherits the default intent methods from a backend that keeps
    the contract keeps it as well, with its intent updates as the calls that fail:
    it passes the suite for committed versions and not the suite for complete
    backends. *)
Theorem default_backend_conforms {B} (required : Backend B) `{HL : !BackendLaws B} (fresh : B) :
  backend_inv fresh → ¬ may_fail → abs fresh = store_empty →
  (∃ HD : @BackendLaws B (Default.backend required),
     @backend_inv _ _ HD fresh ∧ @abs _ _ HD fresh = store_empty) ∧
  @passes B (Default.backend required) Committed.suite fresh = true ∧
  @passes B (Default.backend required) Full.suite fresh = false.
Proof.
  intros Hinv Hfail E. split; [|split].
  - exists (default_laws required). split; [|exact E]. split; [done|].
    intros k. simpl. rewrite E. apply lookup_empty.
  - transitivity (passes (H := required) Committed.suite fresh).
    { unfold passes. induction committed_suite_only as [|t suite Ht _ IH]; [done|]. simpl.
      by rewrite run_default, IH. }
    by apply lawful_passes.
  - unfold passes. apply not_true_is_false. rewrite forallb_forall. intros Hall.
    specialize (Hall Full.test_intent_batch_persistence).
    discriminate Hall. simpl. tauto.
Qed.

(** With the default methods a prewrite validates as if nothing were locked. *)
Lemma default_prewrite_check {B} (required : Backend B) (e : MvccEngine B) txn s n w :
  let H := Default.backend required in
  ∃ r, prewrite_check txn s n w e = (e, r) ∧ ∀ m, r = Ok m → m = n.
Proof.
  unfold prewrite_check, rd, M_bind. simpl.
  destruct (get_latest_commit_ts _ _) as [o| |]; simpl; [|eexists; split; done..].
  destruct (match o with Some t => ts_ltb s t | None => false end); eexists; split; try done.
  by intros m [= ->].
Qed.
Lemma default_prewrite_checks {B} (required : Backend B) (e : MvccEngine B) txn s n l :
  let H := Default.backend required in
  ∃ r, M_fold (prewrite_check txn s) l n e = (e, r) ∧ ∀ m, r = Ok m → m = n.
Proof.
  induction l as [|w l IH]; simpl; [eexists; split; [done|]; by intros m [= ->]|].
  destruct (default_prewrite_check required e txn s n w) as (r&E&Hr). simpl in E.
  unfold M_bind. rewrite E. destruct r as [m| |]; [|eexists; split; done..].
  by rewrite (Hr m).
Qed.

(** On a backend that inherits the default intent methods no prewrite succeeds and
    no operation on intents changes the backend: a commit finds no intent and an
    abort has nothing to remove. *)
Theorem default_methods_no_transactions {B} (required : Backend B)
    (e : MvccEngine B) txn key s c mu w writes :
  let H := Default.backend required in
  ((prewrite txn s key mu e).1 = e ∧ (prewrite txn s key mu e).2 ≠ Ok tt) ∧
  ((prewrite_batch txn s (w :: writes) e).1 = e ∧
   (prewrite_batch txn s (w :: writes) e).2 ≠ Ok tt) ∧
  commit txn key s c e = (e, Err CommitError.IntentNotFound) ∧
  abort txn key s e = (e, Ok tt).
Proof.
  cbv zeta. split; [|split; [|split]].
  - unfold prewrite, rd, wr, M_bind. simpl.
    destruct (get_latest_commit_ts _ _) as [o| |]; simpl; [|done..].
    destruct (match o with Some t => ts_ltb s t | None => false end); [done|].
    split; [by destruct e|done].
  - unfold prewrite_batch. rewrite decide_False by done. unfold reject_duplicates.
    destruct (first_duplicate ∅ _); [done|]. m_simpl. unfold M_bind.
    destruct (default_prewrite_checks required e txn s 0%N (w :: writes)) as (r&->&Hr).
    destruct r as [m| |]; [|done..]. rewrite (Hr m) by done.
    destruct (N.eqb_spec 0 (len (w :: writes))) as [E|_]; [by rewrite len_cons in E; lia|].
    split; [by destruct e|done].
  - done.
  - unfold abort, wr, M_bind. simpl. by destruct e.
Qed.

(** ** Witnesses *)

Import Demo.

Lemma in_memory_queries_witness :
  ∃ l, InMemory.get_committed_versions (backend locked) kb = Ok l ∧
    is_history (im_abs (backend locked)) kb l.
Proof.
  apply (in_memory_queries (backend locked) kb kb (TS 6) 10 None). apply locked_inv.
Defined.

Lemma in_memory_updates_witness :
  ∃ b', InMemory.collapse_tombstone ka (TS 5) [TS 1] (backend locked) = (b', Ok tt) ∧
    im_is b' (store_remove_versions ka [TS 5; TS 1] (im_abs (backend locked))).
Proof.
  apply (in_memory_updates (backend locked) (mkIntent ka t1 (TS 1) Delete None)
    (mkVersion ka (TS 9) None) ka t1 (TS 1) (TS 5) [] [] [] [TS 1]). apply locked_inv.
Defined.

Lemma lawful_backend_conforms_witness :
  passes Committed.suite InMemory.new = true ∧ passes Full.suite InMemory.new = true.
Proof. apply lawful_backend_conforms; [apply im_new_inv|by intros []|reflexivity]. Defined.

(** The same store reached along two orders of writing. *)
Definition written (versions : list CommittedVersion) : InMemoryBackend :=
  (InMemory.put_committed_batch versions InMemory.new).1.
Lemma written_inv versions : im_inv (written versions).
Proof.
  unfold written. destruct (im_put_versions versions InMemory.new store_empty) as (b'&->&Hb).
  { split; [apply im_new_inv|done]. }
  apply Hb.
Qed.
Lemma contract_determines_behaviour_witness :
  let t := unwrap o := GetLatestCommitTs ka in assert o == Some (TS 2);! Passed in
  run t (written [mkVersion ka (TS 1) None; mkVersion ka (TS 2) (Some v1)]) =
  run t (written [mkVersion ka (TS 2) (Some v1); mkVersion ka (TS 1) None]).
Proof.
  apply contract_determines_behaviour;
    [by intros []|by intros []|apply written_inv|apply written_inv|reflexivity].
Defined.

Lemma examples_correct_witness :
  (Examples.direct_set (MvccEngine_new InMemory.new)).2 =
    Ok (Some (bytes "1.0")).
Proof. apply (examples_correct (HP := debug64)); [by intros []|apply im_new_inv|done]. Defined.

Lemma default_backend_conforms_witness :
  @passes _ (Default.backend InMemory_backend) Committed.suite InMemory.new = true ∧
  @passes _ (Default.backend InMemory_backend) Full.suite InMemory.new = false.
Proof.
  apply (default_backend_conforms InMemory_backend InMemory.new);
    [apply im_new_inv|by intros []|done].
Defined.
